(** * Continuous-Galerkin assembly operators of
    [pymordemos/discretize_cg_with_nonlinear_reactionoperator.py]

    A shallow embedding of the finite-element assembly routines: numpy
    arrays are lists (nested lists for higher rank), IEEE doubles are
    idealised as real numbers, an exception raised by the Python code is
    the value [None].  Collaborators that the module imports (the grid,
    the boundary info, the quadrature rules of the reference elements,
    the analytical functions) are records of the values the module reads
    from them. *)

From Stdlib Require Import Reals List Lia Lra Bool Arith PeanoNat.

Import ListNotations.

Open Scope R_scope.

(* ------------------------------------------------------------------ *)
(** * Failure *)

(** A raised exception (AssertionError, IndexError, ValueError,
    NotImplementedError) aborts the call: the error monad is [option]. *)

Definition bind {A B} (m : option A) (k : A -> option B) : option B :=
  match m with
  | Some a => k a
  | None => None
  end.

Notation "x <- m ;; k" := (bind m (fun x => k))
  (at level 61, m at next level, right associativity).

Notation "' p <- m ;; k" := (bind m (fun x => let p := x in k))
  (at level 61, p pattern, m at next level, right associativity).

(** [assert c] of Python. *)
Definition assert (c : bool) : option unit := if c then Some tt else None.

Fixpoint mapM {A B} (f : A -> option B) (l : list A) : option (list B) :=
  match l with
  | [] => Some []
  | a :: l' => b <- f a ;; bs <- mapM f l' ;; Some (b :: bs)
  end.

(* ------------------------------------------------------------------ *)
(** * Arrays *)

(** Sum of an array, and the sum of [f k] for [k] in [range(n)]: the
    contraction of one einsum index. *)
Definition Rsum (l : list R) : R := fold_right Rplus 0 l.

Definition tabulate {A} (n : nat) (f : nat -> A) : list A := map f (seq 0 n).

Definition sum_n (n : nat) (f : nat -> R) : R := Rsum (tabulate n f).

(** Element access of arrays of rank 1, 2 and 3.  They are used where the
    index ranges over the array's own shape. *)
Definition get1 (v : list R) (i : nat) : R := nth i v 0.

Definition get2 (M : list (list R)) (i j : nat) : R := get1 (nth i M []) j.

Definition get3 (T : list (list (list R))) (i j k : nat) : R := get2 (nth i T []) j k.

(** Shape of a rectangular array: numpy arrays are rectangular, so the
    first row gives the length of every row. *)
Definition dim2 {A} (M : list (list A)) : nat := length (hd [] M).

Definition dim3 {A} (T : list (list (list A))) : nat := dim2 (hd [] T).

(** [.ravel()] of arrays of rank 2 and 3 (row-major order). *)
Definition ravel {A} (M : list (list A)) : list A := concat M.

Definition ravel3 {A} (T : list (list (list A))) : list A := concat (map (@concat A) T).

(** [np.repeat(M, k, axis=1)] and [np.tile(M, [1, k])]. *)
Definition np_repeat_axis1 {A} (M : list (list A)) (k : nat) : list (list A) :=
  map (fun row => flat_map (fun x => repeat x k) row) M.

Definition np_tile_axis1 {A} (M : list (list A)) (k : nat) : list (list A) :=
  map (fun row => concat (repeat row k)) M.

(** [a[I]] for an integer index array [I]: IndexError when an index is
    out of bounds. *)
Definition fancy {A} (a : list A) (I : list nat) : option (list A) :=
  mapM (fun i => nth_error a i) I.

(** [np.where(mask)[0]]: the indices at which the mask is true. *)
Fixpoint where_from (k : nat) (mask : list bool) : list nat :=
  match mask with
  | [] => []
  | b :: m => if b then k :: where_from (S k) m else where_from (S k) m
  end.

Definition np_where1 (mask : list bool) : list nat := where_from 0 mask.

(** [np.where(cond, 0, a)] for [cond] and [a] of one shape. *)
Fixpoint np_where0 (cond : list bool) (a : list R) : list R :=
  match cond, a with
  | c :: cond', x :: a' => (if c then 0 else x) :: np_where0 cond' a'
  | _, _ => []
  end.

(* ------------------------------------------------------------------ *)
(** * Reference elements and the shape-function tables *)

Inductive ReferenceElement := line | square | triangle.

Definition ReferenceElement_eqb (a b : ReferenceElement) : bool :=
  match a, b with
  | line, line | square, square | triangle, triangle => true
  | _, _ => false
  end.

(** Dimension of a reference element. *)
Definition ref_dim (re : ReferenceElement) : nat :=
  match re with line => 1 | square => 2 | triangle => 2 end%nat.

(** A point in local coordinates; [X @ i] is [X[..., i]]. *)
Definition point := list R.

Definition coord (X : point) (i : nat) : R := nth i X 0.

Notation "X @ i" := (coord X i) (at level 9, i at level 9).

(** [LagrangeShapeFunctions[re][1]]: the table has the single order 1. *)
Definition LagrangeShapeFunctions (re : ReferenceElement) : list (point -> R) :=
  match re with
  | line => [ (fun X => 1 - X@0);
              (fun X => X@0) ]
  | square => [ (fun X => (1 - X@0) * (1 - X@1));
                (fun X => (1 - X@1) * (X@0));
                (fun X => (X@0) * (X@1));
                (fun X => (X@1) * (1 - X@0)) ]
  | triangle => [ (fun X => 1 - X@0 - X@1);
                  (fun X => X@0);
                  (fun X => X@1) ]
  end.

(** [LagrangeShapeFunctionsGrads[re][1]]: a constant array for the line
    and the triangle, a function of the local coordinate for the square. *)
Inductive GradTable :=
| ConstGrad (G : list (list R))
| FunGrad (G : point -> list (list R)).

Definition LagrangeShapeFunctionsGrads (re : ReferenceElement) : GradTable :=
  match re with
  | line => ConstGrad [ [-1]; [1] ]
  | square => FunGrad (fun X => [ [X@1 - 1; X@0 - 1];
                                  [1 - X@1; - X@0];
                                  [X@1; X@0];
                                  [- X@1; 1 - X@0] ])
  | triangle => ConstGrad [ [-1; -1]; [1; 0]; [0; 1] ]
  end.

(** The gradients of the shape functions at the local coordinate [X]. *)
Definition grads_at (T : GradTable) (X : point) : list (list R) :=
  match T with
  | ConstGrad G => G
  | FunGrad G => G X
  end.

(** Number of local shape functions. *)
Definition n_local (re : ReferenceElement) : nat := length (LagrangeShapeFunctions re).

(** Componentwise sum of the rows of an array with [d] columns. *)
Definition sum_rows (d : nat) (M : list (list R)) : list R :=
  tabulate d (fun j => Rsum (map (fun row => get1 row j) M)).

(* ------------------------------------------------------------------ *)
(** * The collaborators: parameters, functions, grid, boundary info *)

(** A parameter value [mu], read through [mu.to_numpy()]. *)
Definition Params := list R.

(** The value of a |Function| at one point: a scalar, a vector or a
    matrix, according to its [shape_range]. *)
Inductive ndvalue :=
| Scalar (x : R)
| Vector (v : list R)
| Matrix (m : list (list R)).

Record Function := {
  dim_domain : nat;
  shape_range : list nat;
  evaluate : point -> Params -> ndvalue
}.

(** [f(points, mu=mu)]: the array of the values at the points.
    [Function.__call__] asserts [x.shape[-1] == f.dim_domain]: the call
    raises when a point has another number of coordinates. *)
Definition call (f : Function) (points : list point) (mu : Params)
    : option (list ndvalue) :=
  _ <- assert (forallb (fun x => (length x =? dim_domain f)%nat) points) ;;
  Some (map (fun x => evaluate f x mu) points).

(** The values of a call as an einsum operand with subscript [e], [ei]
    or [eij]: the operand has to have that rank; einsum raises
    otherwise. *)
Definition as_scalars (a : option (list ndvalue)) : option (list R) :=
  a <- a ;; mapM (fun v => match v with Scalar x => Some x | _ => None end) a.

Definition as_vectors (a : option (list ndvalue)) : option (list (list R)) :=
  a <- a ;; mapM (fun v => match v with Vector x => Some x | _ => None end) a.

Definition as_matrices (a : option (list ndvalue)) : option (list (list (list R))) :=
  a <- a ;; mapM (fun v => match v with Matrix x => Some x | _ => None end) a.

(** The |Grid| interface, as far as the module reads it.  The first
    argument of the array-valued queries is the codimension. *)
Record Grid := {
  reference_element : ReferenceElement;
  dim : nat;
  size : nat -> nat;
  subentities : nat -> nat -> list (list nat);
  centers : nat -> list point;
  volumes : nat -> list R;
  integration_elements : nat -> list R;
  jacobian_inverse_transposed : nat -> list (list (list R));
  superentities : nat -> nat -> list (list nat);
  superentity_indices : nat -> nat -> list (list nat);
  unit_outer_normals : list (list (list R))
}.

(** The |BoundaryInfo| interface. *)
Record BoundaryInfo := {
  has_dirichlet : bool;
  has_neumann : bool;
  has_robin : bool;
  dirichlet_mask : nat -> list bool;
  robin_boundaries : nat -> list nat
}.

(** Modelled from the spec: [dirichlet_boundaries(codim)] is defined in
    the boundary-info collaborator, not in this module; the spec
    describes it as the index set of the Dirichlet DOFs, that is the
    positions at which [dirichlet_mask(codim)] is true. *)
Definition dirichlet_boundaries (bi : BoundaryInfo) (codim : nat) : list nat :=
  np_where1 (dirichlet_mask bi codim).

(* ------------------------------------------------------------------ *)
(** * Sparse matrices *)

(** A matrix in coordinate format: the stored entries [(i, j, v)] and the
    shape.  Entries with the same coordinates add up when the matrix is
    read or converted ([toarray], [csc_matrix]). *)
Record sparse := {
  shape : nat * nat;
  entries : list (nat * nat * R)
}.

Fixpoint zip3 (rows cols : list nat) (data : list R) : list (nat * nat * R) :=
  match rows, cols, data with
  | i :: rows', j :: cols', v :: data' => (i, j, v) :: zip3 rows' cols' data'
  | _, _, _ => []
  end.

(** [coo_matrix((data, (row, col)), shape=shape)]: ValueError when the
    three arrays differ in length or an index exceeds the shape. *)
Definition coo_matrix (data : list R) (row col : list nat) (shp : nat * nat) : option sparse :=
  _ <- assert ((length row =? length data)%nat && (length col =? length data)%nat) ;;
  _ <- assert (forallb (fun i => (i <? fst shp)%nat) row && forallb (fun j => (j <? snd shp)%nat) col) ;;
  Some {| shape := shp; entries := zip3 row col data |}.

(** [coo_matrix(shape)]: the empty matrix. *)
Definition coo_empty (shp : nat * nat) : sparse := {| shape := shp; entries := [] |}.

(** The value of the matrix at [(i, j)]: the sum of the stored entries
    with these coordinates. *)
Definition pick (i j : nat) (t : nat * nat * R) : R :=
  let '(r, c, v) := t in if ((r =? i) && (c =? j))%nat then v else 0.

Definition entry (A : sparse) (i j : nat) : R := Rsum (map (pick i j) (entries A)).

(** [A.toarray().ravel()] for a matrix with one column. *)
Definition toarray1 (A : sparse) : list R := tabulate (fst (shape A)) (fun i => entry A i 0%nat).

Definition Rnonzero (x : R) : bool := if Req_dec_T x 0 then false else true.

(** [A.eliminate_zeros()] followed by [csc_matrix(A).copy()]: stored
    zeros are dropped; the conversion changes the storage format only. *)
Definition eliminate_zeros (A : sparse) : sparse :=
  {| shape := shape A; entries := filter (fun t => Rnonzero (snd t)) (entries A) |}.

(* ------------------------------------------------------------------ *)
(** * Boundary treatment of the bilinear forms *)

(** [np.where(mask[I], 0, a)]: IndexError when an index of [I] is outside
    the mask, ValueError when the shapes differ. *)
Definition clear_dirichlet (mask : list bool) (I : list nat) (a : list R) : option (list R) :=
  m <- fancy mask I ;;
  _ <- assert (length m =? length a)%nat ;;
  Some (np_where0 m a).

(** The block headed 'Boundary treatment ...', which every [_assemble]
    of a bilinear form repeats: clear the contributions of Dirichlet rows
    and columns in the flat array, then append a unit diagonal entry per
    Dirichlet DOF.  The diffusion and advection operators always clear
    the rows. *)
Definition boundary_treatment (g : Grid) (bi : BoundaryInfo)
    (clear_rows clear_columns clear_diag : bool)
    (SF_INTS : list R) (SF_I0 SF_I1 : list nat) : option (list R * list nat * list nat) :=
  if has_dirichlet bi then
    SF_INTS <- (if clear_rows then clear_dirichlet (dirichlet_mask bi (dim g)) SF_I0 SF_INTS
                else Some SF_INTS) ;;
    SF_INTS <- (if clear_columns then clear_dirichlet (dirichlet_mask bi (dim g)) SF_I1 SF_INTS
                else Some SF_INTS) ;;
    if negb clear_diag && (clear_rows || clear_columns) then
      let DB := dirichlet_boundaries bi (dim g) in
      Some (SF_INTS ++ repeat 1 (length DB), SF_I0 ++ DB, SF_I1 ++ DB)
    else Some (SF_INTS, SF_I0, SF_I1)
  else Some (SF_INTS, SF_I0, SF_I1).

(** The block headed 'Assemble system matrix ...'. *)
Definition assemble_system (g : Grid) (SF : list R * list nat * list nat) : option sparse :=
  let '(SF_INTS, SF_I0, SF_I1) := SF in
  A <- coo_matrix SF_INTS SF_I0 SF_I1 (size g (dim g), size g (dim g)) ;;
  Some (eliminate_zeros A).

(* ------------------------------------------------------------------ *)
(** * Quadrature and the einsum contractions *)

(** [reference_element.quadrature(order=k)]: the points and the weights.
    The rules belong to the reference elements, outside this module;
    every routine takes the provider as its first argument. *)
Definition Quadrature := ReferenceElement -> nat -> list point * list R.

(** The shape functions evaluated at the quadrature points:
    [np.array(tuple(f(q) for f in SF))], of shape (functions, points). *)
Definition shape_values (re : ReferenceElement) (q : list point) : list (list R) :=
  map (fun f => map f q) (LagrangeShapeFunctions re).

Definition get4 (T : list (list (list (list R)))) (i j k l : nat) : R := get3 (nth i T []) j k l.

(** ['iq,jq,q,e->eij'] *)
Definition einsum_iq_jq_q_e (A B : list (list R)) (w ie : list R) : list (list (list R)) :=
  tabulate (length ie) (fun e => tabulate (length A) (fun i => tabulate (length B) (fun j =>
    sum_n (length w) (fun q => get2 A i q * get2 B j q * get1 w q * get1 ie e)))).

(** ['iq,jq,q,e,e->eij'] *)
Definition einsum_iq_jq_q_e_e (A B : list (list R)) (w ie C : list R) : list (list (list R)) :=
  tabulate (length ie) (fun e => tabulate (length A) (fun i => tabulate (length B) (fun j =>
    sum_n (length w) (fun q => get2 A i q * get2 B j q * get1 w q * get1 ie e * get1 C e)))).

(** ['eij,pj->epi'] *)
Definition einsum_eij_pj (J : list (list (list R))) (G : list (list R)) : list (list (list R)) :=
  tabulate (length J) (fun e => tabulate (length G) (fun p => tabulate (dim2 J) (fun i =>
    sum_n (dim2 G) (fun j => get3 J e i j * get2 G p j)))).

(** ['eij,pjc->epic'] *)
Definition einsum_eij_pjc (J : list (list (list R))) (G : list (list (list R)))
    : list (list (list (list R))) :=
  tabulate (length J) (fun e => tabulate (length G) (fun p => tabulate (dim2 J) (fun i =>
    tabulate (dim3 G) (fun c => sum_n (dim2 G) (fun j => get3 J e i j * get3 G p j c))))).

(** ['epi,eqi,e->epq'] *)
Definition einsum_epi_eqi_e (A B : list (list (list R))) (v : list R) : list (list (list R)) :=
  tabulate (length A) (fun e => tabulate (dim2 A) (fun p => tabulate (dim2 B) (fun q =>
    sum_n (dim3 A) (fun i => get3 A e p i * get3 B e q i * get1 v e)))).

(** ['epi,eqi,e,e->epq'] *)
Definition einsum_epi_eqi_e_e (A B : list (list (list R))) (v D : list R) : list (list (list R)) :=
  tabulate (length A) (fun e => tabulate (dim2 A) (fun p => tabulate (dim2 B) (fun q =>
    sum_n (dim3 A) (fun i => get3 A e p i * get3 B e q i * get1 v e * get1 D e)))).

(** ['epi,eqj,e,eij->epq'] *)
Definition einsum_epi_eqj_e_eij (A B : list (list (list R))) (v : list R) (D : list (list (list R)))
    : list (list (list R)) :=
  tabulate (length A) (fun e => tabulate (dim2 A) (fun p => tabulate (dim2 B) (fun q =>
    sum_n (dim3 A) (fun i => sum_n (dim3 B) (fun j =>
      get3 A e p i * get3 B e q j * get1 v e * get3 D e i j))))).

Definition dim4 {A} (T : list (list (list (list A)))) : nat := dim3 (hd [] T).

(** ['epic,eqic,c,e->epq'] *)
Definition einsum_epic_eqic_c_e (A B : list (list (list (list R)))) (w ie : list R)
    : list (list (list R)) :=
  tabulate (length A) (fun e => tabulate (dim2 A) (fun p => tabulate (dim2 B) (fun q =>
    sum_n (dim3 A) (fun i => sum_n (length w) (fun c =>
      get4 A e p i c * get4 B e q i c * get1 w c * get1 ie e))))).

(** ['epic,eqic,c,e,e->epq'] *)
Definition einsum_epic_eqic_c_e_e (A B : list (list (list (list R)))) (w ie D : list R)
    : list (list (list R)) :=
  tabulate (length A) (fun e => tabulate (dim2 A) (fun p => tabulate (dim2 B) (fun q =>
    sum_n (dim3 A) (fun i => sum_n (length w) (fun c =>
      get4 A e p i c * get4 B e q i c * get1 w c * get1 ie e * get1 D e))))).

(** ['epic,eqjc,c,e,eij->epq'] *)
Definition einsum_epic_eqjc_c_e_eij (A B : list (list (list (list R)))) (w ie : list R)
    (D : list (list (list R))) : list (list (list R)) :=
  tabulate (length A) (fun e => tabulate (dim2 A) (fun p => tabulate (dim2 B) (fun q =>
    sum_n (dim3 A) (fun i => sum_n (dim3 B) (fun j => sum_n (length w) (fun c =>
      get4 A e p i c * get4 B e q j c * get1 w c * get1 ie e * get3 D e i j)))))).

(** ['pc,eqi,c,e,ei->eqp'] *)
Definition einsum_pc_eqi_c_e_ei (S : list (list R)) (G : list (list (list R))) (w ie : list R)
    (D : list (list R)) : list (list (list R)) :=
  tabulate (length G) (fun e => tabulate (dim2 G) (fun q => tabulate (length S) (fun p =>
    sum_n (length w) (fun c => sum_n (dim3 G) (fun i =>
      get2 S p c * get3 G e q i * get1 w c * get1 ie e * get2 D e i))))).

(** ['pc,eqic,c,e,ei->eqp'] *)
Definition einsum_pc_eqic_c_e_ei (S : list (list R)) (G : list (list (list (list R))))
    (w ie : list R) (D : list (list R)) : list (list (list R)) :=
  tabulate (length G) (fun e => tabulate (dim2 G) (fun q => tabulate (length S) (fun p =>
    sum_n (length w) (fun c => sum_n (dim3 G) (fun i =>
      get2 S p c * get4 G e q i c * get1 w c * get1 ie e * get2 D e i))))).

(** A gradient table used as an array (the P1 operators) and called on
    the quadrature points (the Q1 operators); TypeError when the table
    entry is of the other kind.  The called table has shape
    (functions, components, points). *)
Definition grad_array (T : GradTable) : option (list (list R)) :=
  match T with ConstGrad G => Some G | FunGrad _ => None end.

Definition grad_call (T : GradTable) (q : list point) : option (list (list (list R))) :=
  match T with
  | ConstGrad _ => None
  | FunGrad G => Some (tabulate (length (G [])) (fun p => tabulate (dim2 (G [])) (fun j =>
                         map (fun X => get2 (G X) p j) q)))
  end.

(** [grid.reference_element in {...}] *)
Definition re_in (re : ReferenceElement) (l : list ReferenceElement) : bool :=
  existsb (ReferenceElement_eqb re) l.

Definition list_nat_eqb (a b : list nat) : bool :=
  if list_eq_dec Nat.eq_dec a b then true else false.

(* ------------------------------------------------------------------ *)
(** * The bilinear forms *)

Module L2ProductP1.

Record t := {
  grid : Grid;
  boundary_info : option BoundaryInfo;
  dirichlet_clear_rows : bool;
  dirichlet_clear_columns : bool;
  dirichlet_clear_diag : bool;
  coefficient_function : option Function
}.

Definition __init__ (grid : Grid) (boundary_info : option BoundaryInfo)
    (dirichlet_clear_rows dirichlet_clear_columns dirichlet_clear_diag : bool)
    (coefficient_function : option Function) : option t :=
  _ <- assert (re_in (reference_element grid) [line; triangle]) ;;
  Some (Build_t grid boundary_info dirichlet_clear_rows dirichlet_clear_columns
                dirichlet_clear_diag coefficient_function).

Definition _assemble (quadrature : Quadrature) (self : t) (mu : Params) : option sparse :=
  let g := grid self in
  let '(q, w) := quadrature (reference_element g) 2%nat in
  let SF := shape_values (reference_element g) q in
  SF_INTS <- match coefficient_function self with
             | Some c =>
                 C <- as_scalars (call c (centers g 0) mu) ;;
                 Some (ravel3 (einsum_iq_jq_q_e_e SF SF w (integration_elements g 0) C))
             | None =>
                 Some (ravel3 (einsum_iq_jq_q_e SF SF w (integration_elements g 0)))
             end ;;
  let SF_I0 := ravel (np_repeat_axis1 (subentities g 0 (dim g)) (dim g + 1)) in
  let SF_I1 := ravel (np_tile_axis1 (subentities g 0 (dim g)) (dim g + 1)) in
  bi <- boundary_info self ;;
  SF <- boundary_treatment g bi (dirichlet_clear_rows self) (dirichlet_clear_columns self)
          (dirichlet_clear_diag self) SF_INTS SF_I0 SF_I1 ;;
  assemble_system g SF.

End L2ProductP1.

Module L2ProductQ1.

Record t := {
  grid : Grid;
  boundary_info : option BoundaryInfo;
  dirichlet_clear_rows : bool;
  dirichlet_clear_columns : bool;
  dirichlet_clear_diag : bool;
  coefficient_function : option Function
}.

Definition __init__ (grid : Grid) (boundary_info : option BoundaryInfo)
    (dirichlet_clear_rows dirichlet_clear_columns dirichlet_clear_diag : bool)
    (coefficient_function : option Function) : option t :=
  _ <- assert (re_in (reference_element grid) [square]) ;;
  Some (Build_t grid boundary_info dirichlet_clear_rows dirichlet_clear_columns
                dirichlet_clear_diag coefficient_function).

Definition _assemble (quadrature : Quadrature) (self : t) (mu : Params) : option sparse :=
  let g := grid self in
  let '(q, w) := quadrature square 2%nat in
  let SF := shape_values (reference_element g) q in
  SF_INTS <- match coefficient_function self with
             | Some c =>
                 C <- as_scalars (call c (centers g 0) mu) ;;
                 Some (ravel3 (einsum_iq_jq_q_e_e SF SF w (integration_elements g 0) C))
             | None =>
                 Some (ravel3 (einsum_iq_jq_q_e SF SF w (integration_elements g 0)))
             end ;;
  let SF_I0 := ravel (np_repeat_axis1 (subentities g 0 (dim g)) 4) in
  let SF_I1 := ravel (np_tile_axis1 (subentities g 0 (dim g)) 4) in
  bi <- boundary_info self ;;
  SF <- boundary_treatment g bi (dirichlet_clear_rows self) (dirichlet_clear_columns self)
          (dirichlet_clear_diag self) SF_INTS SF_I0 SF_I1 ;;
  assemble_system g SF.

End L2ProductQ1.

(** The assertion on the diffusion function, with Python's precedence:
    [f is None or (isinstance and dim_domain == dim and shape_range == ()
    or shape_range == (dim, dim))]. *)
Definition diffusion_function_ok (g : Grid) (f : option Function) : bool :=
  match f with
  | None => true
  | Some f => ((dim_domain f =? dim g)%nat && list_nat_eqb (shape_range f) [])
              || list_nat_eqb (shape_range f) [dim g; dim g]
  end.

(** [SF_INTS *= c] when the constant is given. *)
Definition scale_by (c : option R) (a : list R) : list R :=
  match c with
  | Some c => map (fun x => x * c) a
  | None => a
  end.

Module DiffusionOperatorP1.

Record t := {
  grid : Grid;
  boundary_info : option BoundaryInfo;
  diffusion_function : option Function;
  diffusion_constant : option R;
  dirichlet_clear_columns : bool;
  dirichlet_clear_diag : bool
}.

Definition __init__ (grid : Grid) (boundary_info : option BoundaryInfo)
    (diffusion_function : option Function) (diffusion_constant : option R)
    (dirichlet_clear_columns dirichlet_clear_diag : bool) : option t :=
  _ <- assert (re_in (reference_element grid) [triangle; line]) ;;
  _ <- assert (diffusion_function_ok grid diffusion_function) ;;
  Some (Build_t grid boundary_info diffusion_function diffusion_constant
                dirichlet_clear_columns dirichlet_clear_diag).

Definition _assemble (self : t) (mu : Params) : option sparse :=
  let g := grid self in
  SF_GRAD <- grad_array (LagrangeShapeFunctionsGrads (reference_element g)) ;;
  let SF_GRADS := einsum_eij_pj (jacobian_inverse_transposed g 0) SF_GRAD in
  SF_INTS <- match diffusion_function self with
             | Some d =>
                 match shape_range d with
                 | [] =>
                     D <- as_scalars (call d (centers g 0) mu) ;;
                     Some (ravel3 (einsum_epi_eqi_e_e SF_GRADS SF_GRADS (volumes g 0) D))
                 | _ =>
                     D <- as_matrices (call d (centers g 0) mu) ;;
                     Some (ravel3 (einsum_epi_eqj_e_eij SF_GRADS SF_GRADS (volumes g 0) D))
                 end
             | None => Some (ravel3 (einsum_epi_eqi_e SF_GRADS SF_GRADS (volumes g 0)))
             end ;;
  let SF_INTS := scale_by (diffusion_constant self) SF_INTS in
  let SF_I0 := ravel (np_repeat_axis1 (subentities g 0 (dim g)) (dim g + 1)) in
  let SF_I1 := ravel (np_tile_axis1 (subentities g 0 (dim g)) (dim g + 1)) in
  bi <- boundary_info self ;;
  SF <- boundary_treatment g bi true (dirichlet_clear_columns self)
          (dirichlet_clear_diag self) SF_INTS SF_I0 SF_I1 ;;
  assemble_system g SF.

End DiffusionOperatorP1.

Module DiffusionOperatorQ1.

Record t := {
  grid : Grid;
  boundary_info : option BoundaryInfo;
  diffusion_function : option Function;
  diffusion_constant : option R;
  dirichlet_clear_columns : bool;
  dirichlet_clear_diag : bool
}.

Definition __init__ (grid : Grid) (boundary_info : option BoundaryInfo)
    (diffusion_function : option Function) (diffusion_constant : option R)
    (dirichlet_clear_columns dirichlet_clear_diag : bool) : option t :=
  _ <- assert (re_in (reference_element grid) [square]) ;;
  _ <- assert (diffusion_function_ok grid diffusion_function) ;;
  Some (Build_t grid boundary_info diffusion_function diffusion_constant
                dirichlet_clear_columns dirichlet_clear_diag).

Definition _assemble (quadrature : Quadrature) (self : t) (mu : Params) : option sparse :=
  let g := grid self in
  let '(q, w) := quadrature (reference_element g) 2%nat in
  SF_GRAD <- grad_call (LagrangeShapeFunctionsGrads (reference_element g)) q ;;
  let SF_GRADS := einsum_eij_pjc (jacobian_inverse_transposed g 0) SF_GRAD in
  SF_INTS <- match diffusion_function self with
             | Some d =>
                 match shape_range d with
                 | [] =>
                     D <- as_scalars (call d (centers g 0) mu) ;;
                     Some (ravel3 (einsum_epic_eqic_c_e_e SF_GRADS SF_GRADS w
                                     (integration_elements g 0) D))
                 | _ =>
                     D <- as_matrices (call d (centers g 0) mu) ;;
                     Some (ravel3 (einsum_epic_eqjc_c_e_eij SF_GRADS SF_GRADS w
                                     (integration_elements g 0) D))
                 end
             | None => Some (ravel3 (einsum_epic_eqic_c_e SF_GRADS SF_GRADS w
                                       (integration_elements g 0)))
             end ;;
  let SF_INTS := scale_by (diffusion_constant self) SF_INTS in
  let SF_I0 := ravel (np_repeat_axis1 (subentities g 0 (dim g)) 4) in
  let SF_I1 := ravel (np_tile_axis1 (subentities g 0 (dim g)) 4) in
  bi <- boundary_info self ;;
  SF <- boundary_treatment g bi true (dirichlet_clear_columns self)
          (dirichlet_clear_diag self) SF_INTS SF_I0 SF_I1 ;;
  assemble_system g SF.

End DiffusionOperatorQ1.

(** [ConstantFunction(np.ones((dim,)), dim)] *)
Definition ConstantFunction_ones (d : nat) : Function :=
  {| dim_domain := d; shape_range := [d]; evaluate := fun _ _ => Vector (repeat 1 d) |}.

Module AdvectionOperatorP1.

Record t := {
  grid : Grid;
  boundary_info : option BoundaryInfo;
  advection_function : Function;
  advection_constant : option R;
  dirichlet_clear_columns : bool;
  dirichlet_clear_diag : bool
}.

Definition __init__ (grid : Grid) (boundary_info : option BoundaryInfo)
    (advection_function : option Function) (advection_constant : option R)
    (dirichlet_clear_columns dirichlet_clear_diag : bool) : option t :=
  _ <- assert (re_in (reference_element grid) [triangle; line]) ;;
  let advection_function :=
    match advection_function with
    | Some f => f
    | None => ConstantFunction_ones (dim grid)
    end in
  _ <- assert (dim_domain advection_function =? dim grid)%nat ;;
  _ <- assert (list_nat_eqb (shape_range advection_function) [dim grid]) ;;
  Some (Build_t grid boundary_info advection_function advection_constant
                dirichlet_clear_columns dirichlet_clear_diag).

Definition _assemble (quadrature : Quadrature) (self : t) (mu : Params) : option sparse :=
  let g := grid self in
  let '(q, w) := quadrature (reference_element g) 1%nat in
  SF_GRAD <- grad_array (LagrangeShapeFunctionsGrads (reference_element g)) ;;
  let SF_GRADS := einsum_eij_pj (jacobian_inverse_transposed g 0) SF_GRAD in
  let SFQ := shape_values (reference_element g) q in
  D <- as_vectors (call (advection_function self) (centers g 0) mu) ;;
  let SF_INTS := map Ropp (ravel3 (einsum_pc_eqi_c_e_ei SFQ SF_GRADS w
                                     (integration_elements g 0) D)) in
  let SF_INTS := scale_by (advection_constant self) SF_INTS in
  let SF_I0 := ravel (np_repeat_axis1 (subentities g 0 (dim g)) (dim g + 1)) in
  let SF_I1 := ravel (np_tile_axis1 (subentities g 0 (dim g)) (dim g + 1)) in
  bi <- boundary_info self ;;
  SF <- boundary_treatment g bi true (dirichlet_clear_columns self)
          (dirichlet_clear_diag self) SF_INTS SF_I0 SF_I1 ;;
  assemble_system g SF.

End AdvectionOperatorP1.

Module AdvectionOperatorQ1.

Record t := {
  grid : Grid;
  boundary_info : option BoundaryInfo;
  advection_function : option Function;
  advection_constant : option R;
  dirichlet_clear_columns : bool;
  dirichlet_clear_diag : bool
}.

Definition __init__ (grid : Grid) (boundary_info : option BoundaryInfo)
    (advection_function : option Function) (advection_constant : option R)
    (dirichlet_clear_columns dirichlet_clear_diag : bool) : option t :=
  _ <- assert (re_in (reference_element grid) [square]) ;;
  _ <- assert (match advection_function with
               | None => true
               | Some f => (dim_domain f =? dim grid)%nat
                           && list_nat_eqb (shape_range f) [dim grid]
               end) ;;
  Some (Build_t grid boundary_info advection_function advection_constant
                dirichlet_clear_columns dirichlet_clear_diag).

Definition _assemble (quadrature : Quadrature) (self : t) (mu : Params) : option sparse :=
  let g := grid self in
  let '(q, w) := quadrature (reference_element g) 2%nat in
  SF_GRAD <- grad_call (LagrangeShapeFunctionsGrads (reference_element g)) q ;;
  let SF_GRADS := einsum_eij_pjc (jacobian_inverse_transposed g 0) SF_GRAD in
  let SFQ := shape_values (reference_element g) q in
  f <- advection_function self ;;
  D <- as_vectors (call f (centers g 0) mu) ;;
  let SF_INTS := map Ropp (ravel3 (einsum_pc_eqic_c_e_ei SFQ SF_GRADS w
                                     (integration_elements g 0) D)) in
  let SF_INTS := scale_by (advection_constant self) SF_INTS in
  let SF_I0 := ravel (np_repeat_axis1 (subentities g 0 (dim g)) 4) in
  let SF_I1 := ravel (np_tile_axis1 (subentities g 0 (dim g)) 4) in
  bi <- boundary_info self ;;
  SF <- boundary_treatment g bi true (dirichlet_clear_columns self)
          (dirichlet_clear_diag self) SF_INTS SF_I0 SF_I1 ;;
  assemble_system g SF.

End AdvectionOperatorQ1.

(** The assembled bilinear forms behind one interface ([op.assemble(mu)]
    dispatches on the class of [op]). *)
Inductive BilinearOperator :=
| OpL2ProductP1 (op : L2ProductP1.t)
| OpL2ProductQ1 (op : L2ProductQ1.t)
| OpDiffusionP1 (op : DiffusionOperatorP1.t)
| OpDiffusionQ1 (op : DiffusionOperatorQ1.t)
| OpAdvectionP1 (op : AdvectionOperatorP1.t)
| OpAdvectionQ1 (op : AdvectionOperatorQ1.t).

Definition assemble (quadrature : Quadrature) (op : BilinearOperator) (mu : Params)
    : option sparse :=
  match op with
  | OpL2ProductP1 op => L2ProductP1._assemble quadrature op mu
  | OpL2ProductQ1 op => L2ProductQ1._assemble quadrature op mu
  | OpDiffusionP1 op => DiffusionOperatorP1._assemble op mu
  | OpDiffusionQ1 op => DiffusionOperatorQ1._assemble quadrature op mu
  | OpAdvectionP1 op => AdvectionOperatorP1._assemble quadrature op mu
  | OpAdvectionQ1 op => AdvectionOperatorQ1._assemble quadrature op mu
  end.

Definition op_grid (op : BilinearOperator) : Grid :=
  match op with
  | OpL2ProductP1 op => L2ProductP1.grid op
  | OpL2ProductQ1 op => L2ProductQ1.grid op
  | OpDiffusionP1 op => DiffusionOperatorP1.grid op
  | OpDiffusionQ1 op => DiffusionOperatorQ1.grid op
  | OpAdvectionP1 op => AdvectionOperatorP1.grid op
  | OpAdvectionQ1 op => AdvectionOperatorQ1.grid op
  end.

Definition op_boundary_info (op : BilinearOperator) : option BoundaryInfo :=
  match op with
  | OpL2ProductP1 op => L2ProductP1.boundary_info op
  | OpL2ProductQ1 op => L2ProductQ1.boundary_info op
  | OpDiffusionP1 op => DiffusionOperatorP1.boundary_info op
  | OpDiffusionQ1 op => DiffusionOperatorQ1.boundary_info op
  | OpAdvectionP1 op => AdvectionOperatorP1.boundary_info op
  | OpAdvectionQ1 op => AdvectionOperatorQ1.boundary_info op
  end.

(** Whether the operator clears the Dirichlet rows, the Dirichlet columns
    and the Dirichlet diagonal. *)
Definition op_clear_rows (op : BilinearOperator) : bool :=
  match op with
  | OpL2ProductP1 op => L2ProductP1.dirichlet_clear_rows op
  | OpL2ProductQ1 op => L2ProductQ1.dirichlet_clear_rows op
  | _ => true
  end.

Definition op_clear_columns (op : BilinearOperator) : bool :=
  match op with
  | OpL2ProductP1 op => L2ProductP1.dirichlet_clear_columns op
  | OpL2ProductQ1 op => L2ProductQ1.dirichlet_clear_columns op
  | OpDiffusionP1 op => DiffusionOperatorP1.dirichlet_clear_columns op
  | OpDiffusionQ1 op => DiffusionOperatorQ1.dirichlet_clear_columns op
  | OpAdvectionP1 op => AdvectionOperatorP1.dirichlet_clear_columns op
  | OpAdvectionQ1 op => AdvectionOperatorQ1.dirichlet_clear_columns op
  end.

Definition op_clear_diag (op : BilinearOperator) : bool :=
  match op with
  | OpL2ProductP1 op => L2ProductP1.dirichlet_clear_diag op
  | OpL2ProductQ1 op => L2ProductQ1.dirichlet_clear_diag op
  | OpDiffusionP1 op => DiffusionOperatorP1.dirichlet_clear_diag op
  | OpDiffusionQ1 op => DiffusionOperatorQ1.dirichlet_clear_diag op
  | OpAdvectionP1 op => AdvectionOperatorP1.dirichlet_clear_diag op
  | OpAdvectionQ1 op => AdvectionOperatorQ1.dirichlet_clear_diag op
  end.

(* ================================================================== *)
(** * The nonlinear reaction operator and the quadratic functional *)

(** [for e in l: body] over a state, in the error monad. *)
Fixpoint for_each {St} (l : list nat) (body : nat -> St -> option St) (s : St) : option St :=
  match l with
  | [] => Some s
  | e :: l' => s' <- body e s ;; for_each l' body s'
  end.

(** [np.dot(u, SF)] for [u] of shape (n,) and [SF] of shape (n, m):
    ValueError when the shapes are not aligned. *)
Definition np_dot (u : list R) (SF : list (list R)) : option (list R) :=
  _ <- assert (length u =? length SF)%nat ;;
  Some (tabulate (dim2 SF) (fun k => sum_n (length u) (fun p => get1 u p * get2 SF p k))).

(** [np.reshape(a, (3, 1))]: ValueError unless [a] has 3 entries. *)
Definition reshape_3_1 (a : list R) : option (list point) :=
  _ <- assert (length a =? 3)%nat ;;
  Some (map (fun x => [x]) a).

Fixpoint set_nth {A} (k : nat) (l : list A) (x : A) : list A :=
  match l, k with
  | [], _ => []
  | _ :: l', 0%nat => x :: l'
  | y :: l', S k' => y :: set_nth k' l' x
  end.

(** [M[e] = v] for an array [M] of rank 2: IndexError when [e] is out of
    bounds, ValueError when [v] cannot be broadcast to a row of [M]. *)
Definition assign_row (M : list (list R)) (e : nat) (v : list R) : option (list (list R)) :=
  _ <- assert (e <? length M)%nat ;;
  _ <- assert ((length v =? dim2 M) || (length v =? 1))%nat ;;
  Some (set_nth e M (if (length v =? dim2 M)%nat then v else repeat (hd 0 v) (dim2 M))).

(** [np.zeros(np.shape(a))] for an array of rank 2. *)
Definition zeros_like2 {A} (a : list (list A)) : list (list R) :=
  map (fun row => map (fun _ => 0) row) a.

(** [a[DI] = 0] for a vector: IndexError when an index is out of bounds. *)
Definition set_zero (a : list R) (DI : list nat) : option (list R) :=
  _ <- assert (forallb (fun d => (d <? length a)%nat) DI) ;;
  Some (fold_left (fun acc d => set_nth d acc 0) DI a).

(** [a[lo:hi]]: a slice never fails. *)
Definition slice {A} (a : list A) (lo hi : nat) : list A := firstn (hi - lo) (skipn lo a).

(** [a - b] for vectors, with numpy's broadcasting of a one-element
    operand; ValueError otherwise when the lengths differ. *)
Definition np_sub (a b : list R) : option (list R) :=
  if (length a =? length b)%nat then Some (map (fun ab => fst ab - snd ab) (combine a b))
  else if (length a =? 1)%nat then Some (map (fun y => hd 0 a - y) b)
  else if (length b =? 1)%nat then Some (map (fun x => x - hd 0 b) a)
  else None.

(** [np.linalg.norm(v)**2] *)
Definition norm_squared (v : list R) : R := (sqrt (Rsum (map (fun x => x * x) v))) ^ 2.

(** The first three statements of every element loop: the nodal values
    of the element, interpolated to the quadrature points and reshaped
    to a batch of three one-dimensional points. *)
Definition interpolate (dofs : list R) (sub_e : list nat) (SF : list (list R))
    : option (list point) :=
  u_dofs <- fancy dofs sub_e ;;
  wert <- np_dot u_dofs SF ;;
  reshape_3_1 wert.

(** ['ji,ei,e,e,i->ej'] *)
Definition einsum_ji_ei_e_e_i (SF c_nl : list (list R)) (C vol w : list R) : list (list R) :=
  tabulate (length c_nl) (fun e => tabulate (length SF) (fun j =>
    sum_n (length w) (fun i =>
      get2 SF j i * get2 c_nl e i * get1 C e * get1 vol e * get1 w i))).

(** ['pi,qi,ei,e,e,i->epq'] *)
Definition einsum_pi_qi_ei_e_e_i (A B c_nl : list (list R)) (C vol w : list R)
    : list (list (list R)) :=
  tabulate (length c_nl) (fun e => tabulate (length A) (fun p => tabulate (length B) (fun q =>
    sum_n (length w) (fun i =>
      get2 A p i * get2 B q i * get2 c_nl e i * get1 C e * get1 vol e * get1 w i)))).

(** ['ei,e,i->e'] *)
Definition einsum_ei_e_i (F : list (list R)) (vol w : list R) : list R :=
  tabulate (length F) (fun e => sum_n (length w) (fun i => get2 F e i * get1 vol e * get1 w i)).

(** ['ji,ei,e,i->ej'] *)
Definition einsum_ji_ei_e_i (SF F : list (list R)) (vol w : list R) : list (list R) :=
  tabulate (length F) (fun e => tabulate (length SF) (fun j =>
    sum_n (length w) (fun i => get2 SF j i * get2 F e i * get1 vol e * get1 w i))).

(** The element loop: [for e in elements: table[row e] = f(interpolate(...))],
    where [sub] is the array the loop indexes. *)
Definition element_loop (f : Function) (mu : Params) (dofs : list R)
    (sub : list (list nat)) (SF : list (list R)) (elements : list nat)
    (table : list (list R)) : option (list (list R)) :=
  for_each elements (fun e table =>
    sub_e <- nth_error sub e ;;
    wert <- interpolate dofs sub_e SF ;;
    v <- as_scalars (call f wert mu) ;;
    assign_row table e v) table.

(** The dense column vector of a matrix with one column, scaled. *)
Definition vadd (a b : list R) : list R := map (fun ab => fst ab + snd ab) (combine a b).

Definition vscale (c : R) (a : list R) : list R := map (fun x => c * x) a.

(** The result of [apply]/[jacobian]: the global quantity, or with
    [element_contribution] the global quantity and the list of the
    contributions of the elements. *)
Inductive result (X : Type) :=
| Plain (A : X)
| WithContributions (A : X) (A_e_list : list X).

Arguments Plain {X} A.

Arguments WithContributions {X} A A_e_list.

Module NonlinearReactionOperator.

Record t := {
  grid : Grid;
  boundary_info : option BoundaryInfo;
  reaction_coefficient : Function;
  reaction_function : Function;
  reaction_function_derivative : Function
}.

Definition __init__ (grid : Grid) (boundary_info : option BoundaryInfo)
    (reaction_coefficient reaction_function reaction_function_derivative : Function)
    : option t :=
  Some (Build_t grid boundary_info reaction_coefficient reaction_function
                reaction_function_derivative).

Definition apply (quadrature : Quadrature) (self : t) (U : list R) (mu : Params)
    (element_contribution : bool) : option (result (list R)) :=
  let g := grid self in
  let '(q, w) := quadrature (reference_element g) 2%nat in
  let SF := shape_values (reference_element g) q in
  C <- as_scalars (call (reaction_coefficient self) (centers g 0) mu) ;;
  let subentities := subentities g 0 (dim g) in
  let c_nl := zeros_like2 subentities in
  c_nl <- element_loop (reaction_function self) mu U subentities SF
            (seq 0 (size g 0)) c_nl ;;
  let SF_INTS := ravel (einsum_ji_ei_e_e_i SF c_nl C (volumes g 0) w) in
  A <- coo_matrix SF_INTS (ravel subentities) (map (fun _ => 0%nat) (ravel subentities))
         (size g (dim g), 1%nat) ;;
  let A := toarray1 A in
  bi <- boundary_info self ;;
  if element_contribution && has_dirichlet bi then
    let DI := dirichlet_boundaries bi (dim g) in
    let SF_I := ravel subentities in
    A_e_list <- mapM (fun e =>
                  A_e <- coo_matrix (slice SF_INTS (3 * e) (3 * (e + 1)))
                           (slice SF_I (3 * e) (3 * (e + 1))) [0; 0; 0]%nat
                           (size g (dim g), 1%nat) ;;
                  set_zero (toarray1 A_e) DI) (seq 0 (size g 0)) ;;
    A <- set_zero A DI ;;
    Some (WithContributions A A_e_list)
  else
    A <- (if has_dirichlet bi then set_zero A (dirichlet_boundaries bi (dim g)) else Some A) ;;
    Some (Plain A).

Definition jacobian (quadrature : Quadrature) (self : t) (U : list R) (mu : Params)
    (element_contribution : bool) : option (result sparse) :=
  let g := grid self in
  let '(q, w) := quadrature (reference_element g) 2%nat in
  let SF := shape_values (reference_element g) q in
  C <- as_scalars (call (reaction_coefficient self) (centers g 0) mu) ;;
  let subentities := subentities g 0 (dim g) in
  let SF_I0 := ravel (np_repeat_axis1 subentities (dim g + 1)) in
  let SF_I1 := ravel (np_tile_axis1 subentities (dim g + 1)) in
  let c_nl_prime := zeros_like2 subentities in
  c_nl_prime <- element_loop (reaction_function_derivative self) mu U subentities SF
                  (seq 0 (size g 0)) c_nl_prime ;;
  let SF_INTS := ravel3 (einsum_pi_qi_ei_e_e_i SF SF c_nl_prime C (volumes g 0) w) in
  bi <- boundary_info self ;;
  SF_INTS <- (if has_dirichlet bi
              then clear_dirichlet (dirichlet_mask bi (dim g)) SF_I0 SF_INTS
              else Some SF_INTS) ;;
  A <- coo_matrix SF_INTS SF_I0 SF_I1 (size g (dim g), size g (dim g)) ;;
  A_e_list <- (if element_contribution
               then mapM (fun e =>
                      A_e <- coo_matrix (slice SF_INTS (9 * e) (9 * (e + 1)))
                               (slice SF_I0 (9 * e) (9 * (e + 1)))
                               (slice SF_I1 (9 * e) (9 * (e + 1)))
                               (size g (dim g), size g (dim g)) ;;
                      Some (eliminate_zeros A_e)) (seq 0 (size g 0))
               else Some []) ;;
  let A := eliminate_zeros A in
  if element_contribution then Some (WithContributions A A_e_list) else Some (Plain A).

End NonlinearReactionOperator.

(** [rho != 0] and [np.where(rho != 0)[0]] *)
Definition NonZeroIndices (rho : list R) : list nat := np_where1 (map Rnonzero rho).

(** [c * A] and [A + B] for sparse matrices: the stored entries are
    scaled, and the entries of both summands add up; ValueError when the
    shapes differ.  scipy stores the sum in compressed format with the
    entries of equal coordinates added up; the model keeps the summands,
    which gives the same value at every position. *)
Definition sparse_scale (c : R) (A : sparse) : sparse :=
  {| shape := shape A; entries := map (fun t => (fst t, c * snd t)) (entries A) |}.

Definition sparse_add (A B : sparse) : option sparse :=
  _ <- assert ((fst (shape A) =? fst (shape B))%nat && (snd (shape A) =? snd (shape B))%nat) ;;
  Some {| shape := shape A; entries := entries A ++ entries B |}.

(** The accumulator of [element_NonlinearReactionOperator.apply]: it
    starts as a sparse matrix with one column, and the sum of a sparse
    matrix and a dense array is dense. *)
Inductive column :=
| SparseColumn (A : sparse)
| DenseColumn (a : list R).

Definition column_values (c : column) : list R :=
  match c with
  | SparseColumn A => toarray1 A
  | DenseColumn a => a
  end.

(** [A_e + b] for a dense [b] of shape (n, 1): ValueError when the
    shapes differ. *)
Definition add_dense (c : column) (b : list R) : option column :=
  _ <- assert (length (column_values c) =? length b)%nat ;;
  Some (DenseColumn (vadd (column_values c) b)).

(** [A_e[DI] = 0]: TypeError for a sparse matrix in COO format, which
    supports no item assignment; IndexError when an index is out of
    bounds. *)
Definition set_rows_zero (c : column) (DI : list nat) : option (list R) :=
  match c with
  | SparseColumn _ => None
  | DenseColumn a => set_zero a DI
  end.

Module element_NonlinearReactionOperator.

Record t := {
  grid : Grid;
  boundary_info : option BoundaryInfo;
  reaction_coefficient : Function;
  reaction_function : Function;
  reaction_function_derivative : Function;
  rho : list R
}.

Definition __init__ (grid : Grid) (boundary_info : option BoundaryInfo)
    (reaction_coefficient reaction_function reaction_function_derivative : Function)
    (rho : list R) : option t :=
  Some (Build_t grid boundary_info reaction_coefficient reaction_function
                reaction_function_derivative rho).

Definition apply (quadrature : Quadrature) (self : t) (U : list R) (mu : Params)
    : option (list R) :=
  let g := grid self in
  let NonZeroIndices := NonZeroIndices (rho self) in
  let '(q, w) := quadrature (reference_element g) 2%nat in
  let SF := shape_values (reference_element g) q in
  C <- as_scalars (call (reaction_coefficient self) (centers g 0) mu) ;;
  let subentities := subentities g 0 (dim g) in
  let c_nl := zeros_like2 subentities in
  c_nl <- element_loop (reaction_function self) mu U subentities SF NonZeroIndices c_nl ;;
  let SF_INTS := ravel (einsum_ji_ei_e_e_i SF c_nl C (volumes g 0) w) in
  let A_e := SparseColumn (coo_empty (size g (dim g), 1%nat)) in
  let SF_I := ravel subentities in
  A_e <- for_each NonZeroIndices (fun e A_e =>
           rho_e <- nth_error (rho self) e ;;
           B <- coo_matrix (slice SF_INTS (3 * e) (3 * (e + 1)))
                  (slice SF_I (3 * e) (3 * (e + 1))) [0; 0; 0]%nat
                  (size g (dim g), 1%nat) ;;
           add_dense A_e (vscale rho_e (toarray1 B))) A_e ;;
  bi <- boundary_info self ;;
  let DI := dirichlet_boundaries bi (dim g) in
  set_rows_zero A_e DI.

Definition jacobian (quadrature : Quadrature) (self : t) (U : list R) (mu : Params)
    : option sparse :=
  let g := grid self in
  let '(q, w) := quadrature (reference_element g) 2%nat in
  let SF := shape_values (reference_element g) q in
  C <- as_scalars (call (reaction_coefficient self) (centers g 0) mu) ;;
  let subentities := subentities g 0 (dim g) in
  let SF_I0 := ravel (np_repeat_axis1 subentities (dim g + 1)) in
  let SF_I1 := ravel (np_tile_axis1 subentities (dim g + 1)) in
  let c_nl_prime := zeros_like2 subentities in
  c_nl_prime <- element_loop (reaction_function_derivative self) mu U subentities SF
                  (seq 0 (size g 0)) c_nl_prime ;;
  let SF_INTS := ravel3 (einsum_pi_qi_ei_e_e_i SF SF c_nl_prime C (volumes g 0) w) in
  bi <- boundary_info self ;;
  SF_INTS <- (if has_dirichlet bi
              then clear_dirichlet (dirichlet_mask bi (dim g)) SF_I0 SF_INTS
              else Some SF_INTS) ;;
  let A_e_op := coo_empty (size g (dim g), size g (dim g)) in
  let NonZeroIndices := NonZeroIndices (rho self) in
  A_e_op <- for_each NonZeroIndices (fun e A_e_op =>
              rho_e <- nth_error (rho self) e ;;
              B <- coo_matrix (slice SF_INTS (9 * e) (9 * (e + 1)))
                     (slice SF_I0 (9 * e) (9 * (e + 1)))
                     (slice SF_I1 (9 * e) (9 * (e + 1)))
                     (size g (dim g), size g (dim g)) ;;
              sparse_add A_e_op (sparse_scale rho_e B)) A_e_op ;;
  Some (eliminate_zeros A_e_op).

End element_NonlinearReactionOperator.

(** [ExpressionFunction('u[0] * u[0]', dim_domain=1, variable='u')] and
    [ExpressionFunction('2 * u[0]', dim_domain=1, variable='u')] *)
Definition quadatric_function : Function :=
  {| dim_domain := 1; shape_range := []; evaluate := fun u _ => Scalar (u@0 * u@0) |}.

Definition quadatric_function_derivative : Function :=
  {| dim_domain := 1; shape_range := []; evaluate := fun u _ => Scalar (2 * u@0) |}.

Module quadratic_functional.

Record t := {
  grid : Grid;
  u_d : list R;
  mu_d : Params
}.

Definition __init__ (grid : Grid) (u_d : list R) (mu_d : Params) : option t :=
  Some (Build_t grid u_d mu_d).

Definition apply (quadrature : Quadrature) (self : t) (U : list R) (mu : Params)
    (element_contribution : bool) : option (result R) :=
  let g := grid self in
  let U_d := u_d self in
  let '(q, w) := quadrature (reference_element g) 2%nat in
  let SF := shape_values (reference_element g) q in
  let subentities := subentities g 0 (dim g) in
  let F := zeros_like2 subentities in
  dofs <- np_sub U U_d ;;
  F <- element_loop quadatric_function [] dofs subentities SF (seq 0 (size g 0)) F ;;
  let SF_INTS := einsum_ei_e_i F (volumes g 0) w in
  diff <- np_sub mu (mu_d self) ;;
  let A := 0.5 * Rsum SF_INTS + 0.5 * norm_squared diff in
  if element_contribution then
    let grid_volumes := volumes g 0 in
    let volume_grid := Rsum grid_volumes in
    let norm_parameter := norm_squared diff in
    A_e_list <- mapM (fun e =>
                  s <- nth_error SF_INTS e ;;
                  v <- nth_error grid_volumes e ;;
                  Some (0.5 * s + 0.5 * v / volume_grid * norm_parameter))
                (seq 0 (size g 0)) ;;
    Some (WithContributions A A_e_list)
  else Some (Plain A).

Definition jacobian (quadrature : Quadrature) (self : t) (U : list R) (mu : Params)
    (element_contribution : bool) : option (result (list R)) :=
  let g := grid self in
  let U_d := u_d self in
  let '(q, w) := quadrature (reference_element g) 2%nat in
  let SF := shape_values (reference_element g) q in
  let subentities := subentities g 0 (dim g) in
  let F := zeros_like2 subentities in
  dofs <- np_sub U U_d ;;
  F <- element_loop quadatric_function_derivative [] dofs subentities SF
         (seq 0 (size g 0)) F ;;
  let SF_INTS := ravel (einsum_ji_ei_e_i SF F (volumes g 0) w) in
  A <- coo_matrix SF_INTS (ravel subentities) (map (fun _ => 0%nat) (ravel subentities))
         (size g (dim g), 1%nat) ;;
  let A := toarray1 A in
  if element_contribution then
    let SF_I := ravel subentities in
    A_e_list <- mapM (fun e =>
                  A_e <- coo_matrix (slice SF_INTS (3 * e) (3 * (e + 1)))
                           (slice SF_I (3 * e) (3 * (e + 1))) [0; 0; 0]%nat
                           (size g (dim g), 1%nat) ;;
                  Some (toarray1 A_e)) (seq 0 (size g 0)) ;;
    Some (WithContributions A A_e_list)
  else Some (Plain A).

(** [d_mu]: the derivative with respect to the parameter component
    [index]; with [element_contribution] also the list of the
    contributions of the elements, each the whole difference [mu - mu_d]
    scaled by the volume fraction of the element (the index is ignored
    there). *)
Definition d_mu (self : t) (mu : Params) (index : nat) (element_contribution : bool)
    : option (R * option (list (list R))) :=
  let g := grid self in
  if element_contribution then
    let element_contribution_grid := volumes g 0 in
    let grid_volume := Rsum element_contribution_grid in
    diff <- np_sub mu (mu_d self) ;;
    A_e_list <- mapM (fun e =>
                  v <- nth_error element_contribution_grid e ;;
                  Some (map (fun x => v / grid_volume * x) diff))
                (seq 0 (size g 0)) ;;
    m <- nth_error mu index ;;
    m_d <- nth_error (mu_d self) index ;;
    Some (m - m_d, Some A_e_list)
  else
    m <- nth_error mu index ;;
    m_d <- nth_error (mu_d self) index ;;
    Some (m - m_d, None).

End quadratic_functional.

Module element_quadratic_functional.

Record t := {
  grid : Grid;
  u_d : list R;
  mu_d : Params;
  rho : list R
}.

Definition __init__ (grid : Grid) (u_d : list R) (mu_d : Params) (rho : list R) : option t :=
  Some (Build_t grid u_d mu_d rho).

Definition apply (quadrature : Quadrature) (self : t) (U : list R) (mu : Params)
    : option R :=
  let g := grid self in
  let NonZeroIndices := NonZeroIndices (rho self) in
  let U_d := u_d self in
  let '(q, w) := quadrature (reference_element g) 2%nat in
  let SF := shape_values (reference_element g) q in
  subentities <- fancy (subentities g 0 (dim g)) NonZeroIndices ;;
  let F := zeros_like2 subentities in
  dofs <- np_sub U U_d ;;
  F <- element_loop quadatric_function [] dofs subentities SF
         (seq 0 (length NonZeroIndices)) F ;;
  vol <- fancy (volumes g 0) NonZeroIndices ;;
  let SF_INTS := einsum_ei_e_i F vol w in
  let grid_volumes := volumes g 0 in
  element_contribution_grid <- fancy grid_volumes NonZeroIndices ;;
  let volume_grid := Rsum grid_volumes in
  diff <- np_sub mu (mu_d self) ;;
  let norm_parameter := norm_squared diff in
  rho_nz <- fancy (rho self) NonZeroIndices ;;
  _ <- assert ((length SF_INTS =? length element_contribution_grid)%nat
               && (length rho_nz =? length SF_INTS)%nat) ;;
  Some (Rsum (map (fun rsv => fst (fst rsv)
                              * (0.5 * snd (fst rsv) + 0.5 * snd rsv / volume_grid * norm_parameter))
               (combine (combine rho_nz SF_INTS) element_contribution_grid))).

Definition jacobian (quadrature : Quadrature) (self : t) (U : list R) (mu : Params)
    : option (list R) :=
  let g := grid self in
  let NonZeroIndices := NonZeroIndices (rho self) in
  let U_d := u_d self in
  let '(q, w) := quadrature (reference_element g) 2%nat in
  let SF := shape_values (reference_element g) q in
  subentities <- fancy (subentities g 0 (dim g)) NonZeroIndices ;;
  let F := zeros_like2 subentities in
  dofs <- np_sub U U_d ;;
  F <- element_loop quadatric_function_derivative [] dofs subentities SF
         (seq 0 (length NonZeroIndices)) F ;;
  vol <- fancy (volumes g 0) NonZeroIndices ;;
  let SF_INTS := ravel (einsum_ji_ei_e_i SF F vol w) in
  let A_e := coo_empty (size g 2, 1%nat) in
  A_e <- for_each (seq 0 (length NonZeroIndices)) (fun e A_e =>
           i <- nth_error NonZeroIndices e ;;
           rho_e <- nth_error (rho self) i ;;
           B <- coo_matrix (slice SF_INTS (3 * e) (3 * (e + 1)))
                  (slice (ravel subentities) (3 * e) (3 * (e + 1))) [0; 0; 0]%nat
                  (size g (dim g), 1%nat) ;;
           sparse_add A_e (sparse_scale rho_e B)) A_e ;;
  Some (toarray1 A_e).

Definition d_mu (self : t) (mu : Params) (index : nat) : option R :=
  let g := grid self in
  let NonZeroIndices := NonZeroIndices (rho self) in
  element_contribution_grid <- fancy (volumes g 0) NonZeroIndices ;;
  m <- nth_error mu index ;;
  m_d <- nth_error (mu_d self) index ;;
  Some (Rsum element_contribution_grid / Rsum (volumes g 0) * (m - m_d)).

End element_quadratic_functional.

(* ================================================================== *)
(** * The Robin boundary operator *)

(** ['e,pi,pj,e,p->eij'] *)
Definition einsum_e_pi_pj_e_p (c : list R) (A B : list (list R)) (ie w : list R)
    : list (list (list R)) :=
  tabulate (length c) (fun e => tabulate (dim2 A) (fun i => tabulate (dim2 B) (fun j =>
    sum_n (length w) (fun p => get1 c e * get2 A p i * get2 B p j * get1 ie e * get1 w p)))).

(** The assertion on [robin_data]: a pair of functions on the grid's
    dimension, each scalar- or vector-valued. *)
Definition robin_data_ok (g : Grid) (robin_data : option (Function * Function)) : bool :=
  match robin_data with
  | None => true
  | Some (f1, f2) =>
      forallb (fun f => (dim_domain f =? dim g)%nat
                        && (list_nat_eqb (shape_range f) []
                            || list_nat_eqb (shape_range f) [dim g])) [f1; f2]
  end.

Module RobinBoundaryOperator.

Record t := {
  grid : Grid;
  boundary_info : option BoundaryInfo;
  robin_data : option (Function * Function)
}.

Definition __init__ (grid : Grid) (boundary_info : option BoundaryInfo)
    (robin_data : option (Function * Function)) : option t :=
  _ <- assert (robin_data_ok grid robin_data) ;;
  Some (Build_t grid boundary_info robin_data).

(** The part of [_assemble] after the early return, for the Robin
    parameter function [c] and the boundary info [bi]. *)
Definition assemble_robin (quadrature : Quadrature) (g : Grid) (bi : BoundaryInfo)
    (c : Function) (mu : Params) : option sparse :=
  let RI := robin_boundaries bi 1 in
  if (dim g =? 1)%nat then
    xs <- fancy (centers g 1) RI ;;
    robin_c <- as_scalars (call c xs mu) ;;
    I <- coo_matrix robin_c RI RI (size g (dim g), size g (dim g)) ;;
    Some (eliminate_zeros I)
  else
    xref <- fancy (centers g 1) RI ;;
    robin_c <- match shape_range c with
               | [] => as_scalars (call c xref mu)
               | _ =>
                   sup <- fancy (superentities g 1 0) RI ;;
                   robin_elements <- mapM (fun row => nth_error row 0) sup ;;
                   idx <- fancy (superentity_indices g 1 0) RI ;;
                   robin_indices <- mapM (fun row => nth_error row 0) idx ;;
                   normals <- mapM (fun ei => per_e <- nth_error (unit_outer_normals g) (fst ei) ;;
                                              nth_error per_e (snd ei))
                                (combine robin_elements robin_indices) ;;
                   robin_values <- as_matrices (call c xref mu) ;;
                   (* ['ei,eqi->eq'] gives an array of rank 2, which the
                      contraction below, with subscript [e], rejects *)
                   None
               end ;;
    let '(q, w) := quadrature line 2%nat in
    let q := map (fun X => X@0) q in
    let SF := [map (fun x => 1 - x) q; q] in
    ie <- fancy (integration_elements g 1) RI ;;
    let SF_INTS := ravel3 (einsum_e_pi_pj_e_p robin_c SF SF ie w) in
    sub <- fancy (subentities g 1 (dim g)) RI ;;
    let SF_I0 := flat_map (fun x => repeat x 2) (ravel sub) in
    let SF_I1 := ravel (np_tile_axis1 sub 2) in
    I <- coo_matrix SF_INTS SF_I0 SF_I1 (size g (dim g), size g (dim g)) ;;
    Some (eliminate_zeros I).

Definition _assemble (quadrature : Quadrature) (self : t) (mu : Params) : option sparse :=
  let g := grid self in
  let bi := boundary_info self in
  if (2 <? dim g)%nat then None
  else
    match bi, robin_data self with
    | Some bi, Some (c, _) =>
        if has_robin bi then assemble_robin quadrature g bi c mu
        else Some (coo_empty (size g (dim g), size g (dim g)))
    | _, _ => Some (coo_empty (size g (dim g), size g (dim g)))
    end.

End RobinBoundaryOperator.

(* ================================================================== *)
(** * The linear functionals *)

(** [A.toarray()]: the dense array of a sparse matrix. *)
Definition toarray (A : sparse) : list (list R) :=
  tabulate (fst (shape A)) (fun i => tabulate (snd (shape A)) (fun j => entry A i j)).

(** ['e,pi,e,i->ep'] *)
Definition einsum_e_pi_e_i (F : list R) (SF : list (list R)) (ie w : list R) : list (list R) :=
  tabulate (length F) (fun e => tabulate (length SF) (fun p =>
    sum_n (length w) (fun i => get1 F e * get2 SF p i * get1 ie e * get1 w i))).

(** [boundary_info] used as a truth value: an object is true, [None] is
    false. *)
Definition truthy {A} (o : option A) : bool :=
  match o with Some _ => true | None => false end.

(** The body that [L2ProductFunctionalP1._assemble] and
    [L2ProductFunctionalQ1._assemble] share, statement by statement. *)
Definition assemble_l2_functional (quadrature : Quadrature) (g : Grid) (function : Function)
    (dirichlet_clear_dofs : bool) (bi : option BoundaryInfo) (mu : Params)
    : option (list R) :=
  F <- as_scalars (call function (centers g 0) mu) ;;
  let '(q, w) := quadrature (reference_element g) 1%nat in
  let SF := shape_values (reference_element g) q in
  let SF_INTS := ravel (einsum_e_pi_e_i F SF (integration_elements g 0) w) in
  let SF_I := ravel (subentities g 0 (dim g)) in
  A <- coo_matrix SF_INTS (map (fun _ => 0%nat) SF_I) SF_I (1%nat, size g (dim g)) ;;
  let I := ravel (toarray A) in
  if dirichlet_clear_dofs then
    bi <- bi ;;
    if has_dirichlet bi then set_zero I (dirichlet_boundaries bi (dim g)) else Some I
  else Some I.

Module L2ProductFunctionalP1.

Record t := {
  grid : Grid;
  function : Function;
  dirichlet_clear_dofs : bool;
  boundary_info : option BoundaryInfo
}.

Definition __init__ (grid : Grid) (function : Function) (dirichlet_clear_dofs : bool)
    (boundary_info : option BoundaryInfo) : option t :=
  _ <- assert (re_in (reference_element grid) [line; triangle]) ;;
  _ <- assert (list_nat_eqb (shape_range function) []) ;;
  _ <- assert (negb dirichlet_clear_dofs || truthy boundary_info) ;;
  Some (Build_t grid function dirichlet_clear_dofs boundary_info).

(** The result [I.reshape((-1, 1))] is given by its entries. *)
Definition _assemble (quadrature : Quadrature) (self : t) (mu : Params) : option (list R) :=
  assemble_l2_functional quadrature (grid self) (function self) (dirichlet_clear_dofs self)
    (boundary_info self) mu.

End L2ProductFunctionalP1.

Module L2ProductFunctionalQ1.

Record t := {
  grid : Grid;
  function : Function;
  dirichlet_clear_dofs : bool;
  boundary_info : option BoundaryInfo
}.

Definition __init__ (grid : Grid) (function : Function) (dirichlet_clear_dofs : bool)
    (boundary_info : option BoundaryInfo) : option t :=
  _ <- assert (re_in (reference_element grid) [square]) ;;
  _ <- assert (list_nat_eqb (shape_range function) []) ;;
  _ <- assert (negb dirichlet_clear_dofs || truthy boundary_info) ;;
  Some (Build_t grid function dirichlet_clear_dofs boundary_info).

Definition _assemble (quadrature : Quadrature) (self : t) (mu : Params) : option (list R) :=
  assemble_l2_functional quadrature (grid self) (function self) (dirichlet_clear_dofs self)
    (boundary_info self) mu.

End L2ProductFunctionalQ1.

(** [I[DI] = values] for an index array and values of the same length:
    IndexError when an index is out of bounds.  For an index that occurs
    twice the later value stays. *)
Definition assign_at (a : list R) (DI : list nat) (values : list R) : option (list R) :=
  _ <- assert (forallb (fun d => (d <? length a)%nat) DI) ;;
  Some (fold_left (fun acc dv => set_nth (fst dv) acc (snd dv)) (combine DI values) a).

Module BoundaryDirichletFunctional.

Record t := {
  grid : Grid;
  dirichlet_data : Function;
  boundary_info : option BoundaryInfo
}.

Definition __init__ (grid : Grid) (dirichlet_data : Function)
    (boundary_info : option BoundaryInfo) : option t :=
  _ <- assert (re_in (reference_element grid) [line; triangle; square]) ;;
  Some (Build_t grid dirichlet_data boundary_info).

(** The values of the Dirichlet data are taken as scalars, one per
    Dirichlet DOF, which is the shape the assignment [I[DI] = ...]
    expects. *)
Definition _assemble (self : t) (mu : Params) : option (list R) :=
  let g := grid self in
  bi <- boundary_info self ;;
  let I := repeat 0 (size g (dim g)) in
  let DI := dirichlet_boundaries bi (dim g) in
  points <- fancy (centers g (dim g)) DI ;;
  values <- as_scalars (call (dirichlet_data self) points mu) ;;
  assign_at I DI values.

End BoundaryDirichletFunctional.

(** [a.reshape((-1, 1))] of the array of the values of a function: the
    components of every value, in row-major order. *)
Definition flatten_value (v : ndvalue) : list R :=
  match v with
  | Scalar x => [x]
  | Vector v => v
  | Matrix m => concat m
  end.

Module InterpolationOperator.

Record t := {
  grid : Grid;
  function : Function
}.

Definition __init__ (grid : Grid) (function : Function) : option t :=
  _ <- assert (dim_domain function =? dim grid)%nat ;;
  _ <- assert (list_nat_eqb (shape_range function) []) ;;
  Some (Build_t grid function).

Definition _assemble (self : t) (mu : Params) : option (list R) :=
  values <- call (function self) (centers (grid self) (dim (grid self))) mu ;;
  Some (flat_map flatten_value values).

End InterpolationOperator.

(* ================================================================== *)
(** * Notions used in the statements *)

(** The stored entries that one element contributes: the local block [M]
    (a square array) against the element's DOFs [s], row index repeated,
    column index tiled. *)
Definition elem_triples (s : list nat) (M : list (list R)) : list (nat * nat * R) :=
  flat_map (fun xv => map (fun cd => (fst xv, fst cd, snd cd)) (combine s (snd xv)))
           (combine s M).

Definition scatter (S : list (list nat)) (T : list (list (list R))) : list (nat * nat * R) :=
  flat_map (fun sM => elem_triples (fst sM) (snd sM)) (combine S T).

(** The stored value of an entry of row [r], zero for the other rows. *)
Definition pick_row (r : nat) (t : nat * nat * R) : R :=
  let '(i, _, v) := t in if (i =? r)%nat then v else 0.

Definition row_sum (A : sparse) (r : nat) : R :=
  sum_n (snd (shape A)) (fun j => entry A r j).

(** The shape invariants of the arrays a grid hands out: the dimension
    is that of the reference element, the per-element arrays have one
    entry per element, every element lists one DOF per local shape
    function, and the DOF indices lie in [range(size(dim))]. *)
Definition grid_ok (g : Grid) : bool :=
  (dim g =? ref_dim (reference_element g))%nat
  && (length (subentities g 0 (dim g)) =? size g 0)%nat
  && (length (volumes g 0) =? size g 0)%nat
  && (length (integration_elements g 0) =? size g 0)%nat
  && (length (jacobian_inverse_transposed g 0) =? size g 0)%nat
  && (length (centers g 0) =? size g 0)%nat
  && forallb (fun row => (length row =? n_local (reference_element g))%nat
                         && forallb (fun i => (i <? size g (dim g))%nat) row)
             (subentities g 0 (dim g)).

(** The diffusion function is absent or scalar-valued. *)
Definition scalar_valued (f : option Function) : Prop :=
  match f with
  | None => True
  | Some d => shape_range d = []
  end.

(** The diffusion operators with a scalar-valued (or absent) diffusion
    function: a constant coefficient is one of them. *)
Definition scalar_diffusion_operator (op : BilinearOperator) : Prop :=
  match op with
  | OpDiffusionP1 o => scalar_valued (DiffusionOperatorP1.diffusion_function o)
  | OpDiffusionQ1 o => scalar_valued (DiffusionOperatorQ1.diffusion_function o)
  | _ => False
  end.

(** The quadratic form [x^T A x] of an assembled matrix. *)
Definition quad_form (A : sparse) (x : list R) : R :=
  sum_n (fst (shape A)) (fun i => sum_n (snd (shape A)) (fun j =>
    get1 x i * entry A i j * get1 x j)).

(** The DOF of local index [p] of element [e]. *)
Definition dof (S : list (list nat)) (e p : nat) : nat := nth p (nth e S []) 0%nat.

(** The factor by which a contribution in row or column [i] survives the
    clearing: 0 for a Dirichlet DOF when clearing is active, else 1. *)
Definition keep (active : bool) (mask : list bool) (i : nat) : R :=
  if active && nth i mask false then 0 else 1.

(** The Dirichlet DOFs whose unit diagonal entry is appended. *)
Definition unit_dofs (g : Grid) (bi : BoundaryInfo) (b diag : bool) : list nat :=
  if has_dirichlet bi && b && negb diag then dirichlet_boundaries bi (dim g) else [].

(** Indicator of the position [(i, j)]. *)
Definition ind (i j r c : nat) : R := if ((r =? i) && (c =? j))%nat then 1 else 0.

(** Geometry of a valid grid: positive integration elements, elements
    with pairwise distinct vertices, every vertex in some element. *)
Definition valid_geometry (g : Grid) : Prop :=
  Forall (fun v => 0 < v) (integration_elements g 0)
  /\ Forall (@NoDup nat) (subentities g 0 (dim g))
  /\ (forall i, (i < size g (dim g))%nat ->
        exists e p, (e < size g 0)%nat /\ (p < n_local (reference_element g))%nat
                    /\ dof (subentities g 0 (dim g)) e p = i).

(** A quadrature rule of order 2 with non-negative weights that sees
    the square of every shape function. *)
Definition quadrature_positive (quadrature : Quadrature) (re : ReferenceElement) : Prop :=
  Forall (fun x => 0 <= x) (snd (quadrature re 2%nat))
  /\ Forall (fun row => 0 < sum_n (length (snd (quadrature re 2%nat)))
                             (fun k => get1 row k * get1 row k
                                       * get1 (snd (quadrature re 2%nat)) k))
            (shape_values re (fst (quadrature re 2%nat))).

(** The coefficient function is absent or positive at the centers. *)
Definition coefficient_positive (g : Grid) (c : option Function) (mu : Params) : Prop :=
  match c with
  | None => True
  | Some f => forall x, In x (centers g 0) -> exists v, evaluate f x mu = Scalar v /\ 0 < v
  end.

(** The mass operators, constructed on a grid their [__init__] accepts. *)
Definition mass_operator (op : BilinearOperator) (mu : Params) : Prop :=
  match op with
  | OpL2ProductP1 o =>
      re_in (reference_element (L2ProductP1.grid o)) [line; triangle] = true
      /\ coefficient_positive (L2ProductP1.grid o) (L2ProductP1.coefficient_function o) mu
  | OpL2ProductQ1 o =>
      re_in (reference_element (L2ProductQ1.grid o)) [square] = true
      /\ coefficient_positive (L2ProductQ1.grid o) (L2ProductQ1.coefficient_function o) mu
  | _ => False
  end.

(** No Dirichlet treatment, or rows and columns cleared together with the
    unit diagonal kept. *)
Definition symmetric_treatment (op : BilinearOperator) (bi : BoundaryInfo) : Prop :=
  has_dirichlet bi = false
  \/ (op_clear_rows op = op_clear_columns op
      /\ (op_clear_rows op = true -> op_clear_diag op = false)).

(** Two sparse matrices with the same shape and the same value at every
    position. *)
Definition same_matrix (A B : sparse) : Prop :=
  shape A = shape B /\ forall i j, entry A i j = entry B i j.

(** The two L2 functionals behind one interface (the discretizer selects
    the class by the reference element). *)
Inductive L2Functional :=
| FunctionalP1 (op : L2ProductFunctionalP1.t)
| FunctionalQ1 (op : L2ProductFunctionalQ1.t).

Definition assemble_functional (quadrature : Quadrature) (op : L2Functional) (mu : Params)
    : option (list R) :=
  match op with
  | FunctionalP1 op => L2ProductFunctionalP1._assemble quadrature op mu
  | FunctionalQ1 op => L2ProductFunctionalQ1._assemble quadrature op mu
  end.

Definition functional_grid (op : L2Functional) : Grid :=
  match op with
  | FunctionalP1 op => L2ProductFunctionalP1.grid op
  | FunctionalQ1 op => L2ProductFunctionalQ1.grid op
  end.

Definition functional_function (op : L2Functional) : Function :=
  match op with
  | FunctionalP1 op => L2ProductFunctionalP1.function op
  | FunctionalQ1 op => L2ProductFunctionalQ1.function op
  end.

Definition functional_boundary_info (op : L2Functional) : option BoundaryInfo :=
  match op with
  | FunctionalP1 op => L2ProductFunctionalP1.boundary_info op
  | FunctionalQ1 op => L2ProductFunctionalQ1.boundary_info op
  end.

Definition functional_clear_dofs (op : L2Functional) : bool :=
  match op with
  | FunctionalP1 op => L2ProductFunctionalP1.dirichlet_clear_dofs op
  | FunctionalQ1 op => L2ProductFunctionalQ1.dirichlet_clear_dofs op
  end.

(** The same functional with [dirichlet_clear_dofs=False]. *)
Definition functional_without_clearing (op : L2Functional) : L2Functional :=
  match op with
  | FunctionalP1 op =>
      FunctionalP1 (L2ProductFunctionalP1.Build_t (L2ProductFunctionalP1.grid op)
                      (L2ProductFunctionalP1.function op) false
                      (L2ProductFunctionalP1.boundary_info op))
  | FunctionalQ1 op =>
      FunctionalQ1 (L2ProductFunctionalQ1.Build_t (L2ProductFunctionalQ1.grid op)
                      (L2ProductFunctionalQ1.function op) false
                      (L2ProductFunctionalQ1.boundary_info op))
  end.


(** The function is scalar-valued at the points. *)
Definition scalar_at (f : Function) (points : list point) (mu : Params) : Prop :=
  forall x, In x points -> exists v, evaluate f x mu = Scalar v.

(** The global quantity and the element contributions of a result. *)
Definition result_global {X} (r : result X) : X :=
  match r with
  | Plain A => A
  | WithContributions A _ => A
  end.

Definition result_contributions {X} (r : result X) : list X :=
  match r with
  | Plain _ => []
  | WithContributions _ A_e_list => A_e_list
  end.

(** The operator that the discretizer names 'boundary_part': a diffusion
    operator with [diffusion_constant=0] that keeps the unit diagonal. *)
Definition boundary_part (op : BilinearOperator) : Prop :=
  match op with
  | OpDiffusionP1 o =>
      DiffusionOperatorP1.diffusion_constant o = Some 0
      /\ DiffusionOperatorP1.dirichlet_clear_diag o = false
  | OpDiffusionQ1 o =>
      DiffusionOperatorQ1.diffusion_constant o = Some 0
      /\ DiffusionOperatorQ1.dirichlet_clear_diag o = false
  | _ => False
  end.

(** The diffusion function is absent, or scalar-valued and non-negative
    at the element centers. *)
Definition diffusion_nonnegative (g : Grid) (f : option Function) (mu : Params) : Prop :=
  match f with
  | None => True
  | Some d => shape_range d = []
              /\ forall x, In x (centers g 0) -> exists v, evaluate d x mu = Scalar v /\ 0 <= v
  end.

Definition constant_nonnegative (c : option R) : Prop :=
  match c with
  | None => True
  | Some c => 0 <= c
  end.

(** The diffusion operators with non-negative data: the element volumes
    (P1) or the integration elements and the quadrature weights (Q1), the
    diffusion function and the diffusion constant. *)
Definition nonnegative_diffusion_operator (quadrature : Quadrature) (op : BilinearOperator)
    (mu : Params) : Prop :=
  match op with
  | OpDiffusionP1 o =>
      let g := DiffusionOperatorP1.grid o in
      Forall (fun v => 0 <= v) (volumes g 0)
      /\ diffusion_nonnegative g (DiffusionOperatorP1.diffusion_function o) mu
      /\ constant_nonnegative (DiffusionOperatorP1.diffusion_constant o)
  | OpDiffusionQ1 o =>
      let g := DiffusionOperatorQ1.grid o in
      Forall (fun v => 0 <= v) (integration_elements g 0)
      /\ Forall (fun x => 0 <= x) (snd (quadrature (reference_element g) 2%nat))
      /\ diffusion_nonnegative g (DiffusionOperatorQ1.diffusion_function o) mu
      /\ constant_nonnegative (DiffusionOperatorQ1.diffusion_constant o)
  | _ => False
  end.

(** The sum of the entries of column [c]. *)
Definition col_sum (A : sparse) (c : nat) : R :=
  sum_n (fst (shape A)) (fun i => entry A i c).

Definition advection_operator (op : BilinearOperator) : Prop :=
  match op with
  | OpAdvectionP1 _ | OpAdvectionQ1 _ => True
  | _ => False
  end.

(** The sum of all entries of a matrix. *)
Definition matrix_total (A : sparse) : R :=
  sum_n (fst (shape A)) (fun i => sum_n (snd (shape A)) (fun j => entry A i j)).

(** The L2 product operators, constructed on a grid their [__init__]
    accepts. *)
Definition l2_product_operator (op : BilinearOperator) : Prop :=
  match op with
  | OpL2ProductP1 o => re_in (reference_element (L2ProductP1.grid o)) [line; triangle] = true
  | OpL2ProductQ1 o => re_in (reference_element (L2ProductQ1.grid o)) [square] = true
  | _ => False
  end.

(** The coefficient of an L2 product at the element centers: 1 when there
    is no coefficient function. *)
Definition element_coefficients (g : Grid) (cf : option Function) (mu : Params)
    : option (list R) :=
  match cf with
  | Some c => as_scalars (call c (centers g 0) mu)
  | None => Some (repeat 1 (size g 0))
  end.

Definition op_coefficient_function (op : BilinearOperator) : option Function :=
  match op with
  | OpL2ProductP1 o => L2ProductP1.coefficient_function o
  | OpL2ProductQ1 o => L2ProductQ1.coefficient_function o
  | _ => None
  end.

(* ================================================================== *)
(** * Example data *)

(** Modelled from the spec: the quadrature provider is an external
    collaborator ([quadrature(order) -> (points, weights)]), not part of
    this module.  The instance below, used in the examples only, is the
    rule of pyMOR's reference elements: the centre rule for order 1; for
    order 2 the three edge midpoints of the triangle, the two-point Gauss
    rule on the line and its tensor product on the square. *)
Definition reference_quadrature : Quadrature := fun re order =>
  let a := (1 - / sqrt 3) / 2 in
  let b := (1 + / sqrt 3) / 2 in
  match re, order with
  | line, 1%nat => ([[1/2]], [1])
  | line, _ => ([[a]; [b]], [1/2; 1/2])
  | triangle, 1%nat => ([[1/3; 1/3]], [1/2])
  | triangle, _ => ([[1/2; 1/2]; [0; 1/2]; [1/2; 0]], [1/6; 1/6; 1/6])
  | square, 1%nat => ([[1/2; 1/2]], [1])
  | square, _ => ([[a; a]; [a; b]; [b; a]; [b; b]], [1/4; 1/4; 1/4; 1/4])
  end.

(** The reference triangle as a grid of one element, with the vertices
    (0,0), (1,0), (0,1) numbered 0, 1, 2. *)
Definition one_triangle : Grid := {|
  reference_element := triangle;
  dim := 2;
  size := fun codim => match codim with 0%nat => 1%nat | _ => 3%nat end;
  subentities := fun c s =>
    match c, s with
    | 0%nat, 2%nat => [[0; 1; 2]]
    | 0%nat, 1%nat => [[0; 1; 2]]
    | 1%nat, 2%nat => [[1; 2]; [0; 2]; [0; 1]]
    | _, _ => []
    end%nat;
  centers := fun codim =>
    match codim with
    | 0%nat => [[1/3; 1/3]]
    | 1%nat => [[1/2; 1/2]; [0; 1/2]; [1/2; 0]]
    | _ => [[0; 0]; [1; 0]; [0; 1]]
    end;
  volumes := fun codim =>
    match codim with
    | 0%nat => [1/2]
    | 1%nat => [sqrt 2; 1; 1]
    | _ => [1; 1; 1]
    end;
  integration_elements := fun codim =>
    match codim with
    | 0%nat => [1]
    | 1%nat => [sqrt 2; 1; 1]
    | _ => [1; 1; 1]
    end;
  jacobian_inverse_transposed := fun _ => [[[1; 0]; [0; 1]]];
  superentities := fun _ _ => [[0]; [0]; [0]]%nat;
  superentity_indices := fun _ _ => [[0]; [1]; [2]]%nat;
  unit_outer_normals := [[[/ sqrt 2; / sqrt 2]; [-1; 0]; [0; -1]]]
|}.

(** The unit interval as a grid of one line element. *)
Definition one_interval : Grid := {|
  reference_element := line;
  dim := 1;
  size := fun codim => match codim with 0%nat => 1%nat | _ => 2%nat end;
  subentities := fun c s =>
    match c, s with
    | 0%nat, 1%nat => [[0; 1]]
    | _, _ => []
    end%nat;
  centers := fun codim => match codim with 0%nat => [[1/2]] | _ => [[0]; [1]] end;
  volumes := fun codim => match codim with 0%nat => [1] | _ => [1; 1] end;
  integration_elements := fun codim => match codim with 0%nat => [1] | _ => [1; 1] end;
  jacobian_inverse_transposed := fun _ => [[[1]]];
  superentities := fun _ _ => [[0]; [0]]%nat;
  superentity_indices := fun _ _ => [[0]; [1]]%nat;
  unit_outer_normals := [[[-1]; [1]]]
|}.

(** A boundary info with the vertex 0 as the only Dirichlet DOF. *)
Definition dirichlet_at_0 : BoundaryInfo := {|
  has_dirichlet := true;
  has_neumann := false;
  has_robin := false;
  dirichlet_mask := fun _ => [true; false; false];
  robin_boundaries := fun _ => []
|}.

(** A boundary info without boundary types (pyMOR's EmptyBoundaryInfo). *)
Definition no_boundary (n : nat) : BoundaryInfo := {|
  has_dirichlet := false;
  has_neumann := false;
  has_robin := false;
  dirichlet_mask := fun _ => repeat false n;
  robin_boundaries := fun _ => []
|}.

(** The mass matrix of the one-triangle grid with the default flags
    (Dirichlet rows cleared, unit diagonal). *)
Definition mass_rows_cleared : L2ProductP1.t :=
  L2ProductP1.Build_t one_triangle (Some dirichlet_at_0) true false false None.

(** The same with only the Dirichlet columns cleared. *)
Definition mass_columns_cleared : L2ProductP1.t :=
  L2ProductP1.Build_t one_triangle (Some dirichlet_at_0) false true false None.

(** The Laplacian with constant coefficient 2 on the one-triangle grid,
    with the Dirichlet row of vertex 0 cleared. *)
Definition laplace_rows_cleared : DiffusionOperatorP1.t :=
  DiffusionOperatorP1.Build_t one_triangle (Some dirichlet_at_0) None (Some 2) false false.

(** The mass matrix of the one-triangle grid with the Dirichlet rows and
    columns cleared and the unit diagonal kept (the [l2_0] product). *)
Definition mass_rows_columns_cleared : L2ProductP1.t :=
  L2ProductP1.Build_t one_triangle (Some dirichlet_at_0) true true false None.

(** Example operators: reaction coefficient 1 and the reaction function
    [c_nl(u) = u] with derivative 1. *)
Definition constant_one (d : nat) : Function :=
  {| dim_domain := d; shape_range := []; evaluate := fun _ _ => Scalar 1 |}.

Definition identity_reaction : Function :=
  {| dim_domain := 1; shape_range := []; evaluate := fun u _ => Scalar (u@0) |}.

Definition reaction_on (g : Grid) (bi : BoundaryInfo) : NonlinearReactionOperator.t :=
  NonlinearReactionOperator.Build_t g (Some bi) (constant_one (dim g)) identity_reaction
    (constant_one 1).

(** A Robin operator without Robin data on the one-triangle grid. *)
Definition robin_absent : RobinBoundaryOperator.t :=
  RobinBoundaryOperator.Build_t one_triangle (Some dirichlet_at_0) None.

(** A grid of dimension 3 with four vertices: the Robin assembly reads
    [g.dim] first.  The operator never reads the reference element of
    the grid, and the three kinds of the module's tables have none of
    dimension 3; the field holds a placeholder. *)
Definition grid_3d : Grid := {|
  reference_element := triangle;
  dim := 3;
  size := fun _ => 4%nat;
  subentities := fun _ _ => [];
  centers := fun _ => [];
  volumes := fun _ => [];
  integration_elements := fun _ => [];
  jacobian_inverse_transposed := fun _ => [];
  superentities := fun _ _ => [];
  superentity_indices := fun _ _ => [];
  unit_outer_normals := []
|}.

(** The Dirichlet data [x[0] + 2] and its functional on the one-triangle
    grid. *)
Definition dirichlet_data_example : Function :=
  {| dim_domain := 2; shape_range := []; evaluate := fun x _ => Scalar (x@0 + 2) |}.

Definition dirichlet_functional_example : BoundaryDirichletFunctional.t :=
  BoundaryDirichletFunctional.Build_t one_triangle dirichlet_data_example (Some dirichlet_at_0).

(** The right-hand side [f = 1] on the one-triangle grid, with the
    Dirichlet DOF cleared. *)
Definition rhs_example : L2ProductFunctionalP1.t :=
  L2ProductFunctionalP1.Build_t one_triangle (constant_one 2) true (Some dirichlet_at_0).

(** The 'boundary_part' operator and a diffusion operator with cleared
    diagonal on the one-triangle grid. *)
Definition boundary_part_example : DiffusionOperatorP1.t :=
  DiffusionOperatorP1.Build_t one_triangle (Some dirichlet_at_0) None (Some 0) false false.

Definition laplace_diag_cleared : DiffusionOperatorP1.t :=
  DiffusionOperatorP1.Build_t one_triangle (Some dirichlet_at_0) None None false true.

(** The Laplacian of the energy product on the one-triangle grid:
    Dirichlet rows and columns cleared, no unit diagonal. *)
Definition laplace_energy : DiffusionOperatorP1.t :=
  DiffusionOperatorP1.Build_t one_triangle (Some dirichlet_at_0) None None true true.

(** A boundary info whose boundary entities [RI] are all Robin
    boundaries. *)
Definition robin_at (n : nat) (RI : list nat) : BoundaryInfo := {|
  has_dirichlet := false;
  has_neumann := false;
  has_robin := true;
  dirichlet_mask := fun _ => repeat false n;
  robin_boundaries := fun _ => RI
|}.

(** Robin operators with the parameter function 1: on the unit interval
    with the Robin vertex 1, and on the one-triangle grid with the Robin
    edges 0 and 2. *)
Definition robin_interval : RobinBoundaryOperator.t :=
  RobinBoundaryOperator.Build_t one_interval (Some (robin_at 2 [1%nat]))
    (Some (constant_one 1, constant_one 1)).

Definition robin_triangle : RobinBoundaryOperator.t :=
  RobinBoundaryOperator.Build_t one_triangle (Some (robin_at 3 [0%nat; 2%nat]))
    (Some (constant_one 2, constant_one 2)).

(** The same operator with the vector-valued parameter function
    (1, 1). *)
Definition robin_triangle_vector : RobinBoundaryOperator.t :=
  RobinBoundaryOperator.Build_t one_triangle (Some (robin_at 3 [0%nat; 2%nat]))
    (Some (ConstantFunction_ones 2, constant_one 2)).

(** Advection with the velocity (1, 1) on the one-triangle grid, without
    boundary types. *)
Definition advection_example : AdvectionOperatorP1.t :=
  AdvectionOperatorP1.Build_t one_triangle (Some (no_boundary 3)) (ConstantFunction_ones 2)
    None false false.

(** The mass matrix of the one-triangle grid without boundary types. *)
Definition mass_plain : L2ProductP1.t :=
  L2ProductP1.Build_t one_triangle (Some (no_boundary 3)) true false false None.

(* ================================================================== *)
(** * Properties *)

(** ** The error monad *)

Lemma bind_Some {A B} (m : option A) (k : A -> option B) (b : B) :
  bind m k = Some b <-> exists a, m = Some a /\ k a = Some b.
Proof.
  destruct m as [a|]; simpl; split.
  - intros H. exists a. split; [reflexivity | exact H].
  - intros (a' & Ha & Hk). inversion Ha. subst. exact Hk.
  - discriminate.
  - intros (a' & Ha & _). discriminate.
Qed.

Lemma assert_Some (c : bool) (u : unit) : assert c = Some u <-> c = true.
Proof. destruct c, u; simpl; split; intros; try reflexivity; discriminate. Qed.

(** Decompose a successful run of monadic code, statement by statement. *)
Ltac inv_bind H :=
  let a := fresh "x" in
  let H1 := fresh "E" in
  apply bind_Some in H; destruct H as (a & H1 & H).

Ltac inv_some :=
  repeat match goal with
  | H : Some _ = Some _ |- _ => inversion H; clear H; subst
  | H : assert _ = Some _ |- _ => apply assert_Some in H
  end.

Lemma mapM_length {A B} (f : A -> option B) (l : list A) (r : list B) :
  mapM f l = Some r -> length r = length l.
Proof.
  revert r. induction l as [|a l IH]; simpl; intros r H.
  - inv_some. reflexivity.
  - inv_bind H. inv_bind H. inv_some. simpl. f_equal. apply IH. assumption.
Qed.

Lemma mapM_nth_error {A B} (f : A -> option B) (l : list A) (r : list B) :
  mapM f l = Some r ->
  forall k a, nth_error l k = Some a -> exists b, nth_error r k = Some b /\ f a = Some b.
Proof.
  revert r. induction l as [|a l IH]; simpl; intros r H k a' Hk.
  - destruct k; discriminate.
  - inv_bind H. inv_bind H. inv_some. destruct k as [|k]; simpl in *.
    + inv_some. eexists. split; [reflexivity | assumption].
    + eapply IH; eassumption.
Qed.


(** ** Calls of functions *)

Lemma call_Some (f : Function) (pts : list point) (mu : Params) (vals : list ndvalue) :
  call f pts mu = Some vals <->
  Forall (fun x => length x = dim_domain f) pts
  /\ vals = map (fun x => evaluate f x mu) pts.
Proof.
  unfold call. split.
  - intros H. inv_bind H. inv_some. split; [|reflexivity].
    apply Forall_forall. intros X HX. rewrite forallb_forall in E.
    apply Nat.eqb_eq. apply E. exact HX.
  - intros [Hd ->].
    assert (E : forallb (fun x => (length x =? dim_domain f)%nat) pts = true).
    { apply forallb_forall. intros x Hx. rewrite Forall_forall in Hd.
      apply Nat.eqb_eq. apply Hd. exact Hx. }
    rewrite E. reflexivity.
Qed.

Lemma as_scalars_call (f : Function) (pts : list point) (mu : Params) (C : list R) :
  as_scalars (call f pts mu) = Some C <->
  Forall (fun x => length x = dim_domain f) pts
  /\ mapM (fun v => match v with Scalar x => Some x | _ => None end)
          (map (fun x => evaluate f x mu) pts) = Some C.
Proof.
  unfold as_scalars. split.
  - intros H. inv_bind H. apply call_Some in E. destruct E as [Hd ->]. auto.
  - intros [Hd H]. rewrite (proj2 (call_Some f pts mu _) (conj Hd eq_refl)). exact H.
Qed.

(** ** Sums *)

Lemma Rsum_app (l1 l2 : list R) : Rsum (l1 ++ l2) = Rsum l1 + Rsum l2.
Proof. induction l1 as [|x l1 IH]; simpl; [lra | rewrite IH; lra]. Qed.

Lemma Rsum_map_zero {A} (f : A -> R) (l : list A) :
  (forall a, In a l -> f a = 0) -> Rsum (map f l) = 0.
Proof.
  induction l as [|a l IH]; simpl; intros H; [reflexivity|].
  rewrite H by (left; reflexivity). rewrite IH; [lra|].
  intros a' Ha'. apply H. right. exact Ha'.
Qed.

Lemma Rsum_map_ext {A} (f g : A -> R) (l : list A) :
  (forall a, In a l -> f a = g a) -> Rsum (map f l) = Rsum (map g l).
Proof.
  induction l as [|a l IH]; simpl; intros H; [reflexivity|].
  rewrite H by (left; reflexivity). rewrite IH; [reflexivity|].
  intros a' Ha'. apply H. right. exact Ha'.
Qed.

Lemma Rsum_map_plus {A} (f g : A -> R) (l : list A) :
  Rsum (map (fun a => f a + g a) l) = Rsum (map f l) + Rsum (map g l).
Proof. induction l as [|a l IH]; simpl; [lra | rewrite IH; lra]. Qed.

Lemma Rsum_map_scal {A} (c : R) (f : A -> R) (l : list A) :
  Rsum (map (fun a => c * f a) l) = c * Rsum (map f l).
Proof. induction l as [|a l IH]; simpl; [lra | rewrite IH; lra]. Qed.

Lemma Rsum_map_scal_r {A} (c : R) (f : A -> R) (l : list A) :
  Rsum (map (fun a => f a * c) l) = Rsum (map f l) * c.
Proof. induction l as [|a l IH]; simpl; [lra | rewrite IH; lra]. Qed.

Lemma Rsum_concat (ls : list (list R)) : Rsum (concat ls) = Rsum (map Rsum ls).
Proof. induction ls as [|l ls IH]; simpl; [reflexivity | rewrite Rsum_app, IH; reflexivity]. Qed.

Lemma Rsum_flat_map {A B} (f : B -> R) (g : A -> list B) (l : list A) :
  Rsum (map f (flat_map g l)) = Rsum (map (fun a => Rsum (map f (g a))) l).
Proof.
  induction l as [|a l IH]; simpl; [reflexivity|].
  rewrite map_app, Rsum_app, IH. reflexivity.
Qed.

Lemma Rsum_nonneg (l : list R) : (forall x, In x l -> 0 <= x) -> 0 <= Rsum l.
Proof.
  induction l as [|x l IH]; simpl; intros H; [lra|].
  assert (0 <= x) by (apply H; left; reflexivity).
  assert (0 <= Rsum l) by (apply IH; intros y Hy; apply H; right; exact Hy).
  lra.
Qed.

(** Exchange of two finite sums. *)
Lemma Rsum_exchange {A B} (f : A -> B -> R) (la : list A) (lb : list B) :
  Rsum (map (fun a => Rsum (map (fun b => f a b) lb)) la)
  = Rsum (map (fun b => Rsum (map (fun a => f a b) la)) lb).
Proof.
  induction la as [|a la IH]; simpl.
  - symmetry. apply Rsum_map_zero. reflexivity.
  - rewrite IH. rewrite <- Rsum_map_plus. reflexivity.
Qed.

Lemma sum_n_ext (n : nat) (f g : nat -> R) :
  (forall k, (k < n)%nat -> f k = g k) -> sum_n n f = sum_n n g.
Proof.
  intros H. unfold sum_n, tabulate. apply Rsum_map_ext.
  intros k Hk. apply in_seq in Hk. apply H. lia.
Qed.

Lemma sum_n_exchange (n m : nat) (f : nat -> nat -> R) :
  sum_n n (fun i => sum_n m (fun j => f i j)) = sum_n m (fun j => sum_n n (fun i => f i j)).
Proof. unfold sum_n, tabulate. apply Rsum_exchange. Qed.

Lemma sum_n_scal (n : nat) (c : R) (f : nat -> R) :
  sum_n n (fun k => c * f k) = c * sum_n n f.
Proof. unfold sum_n, tabulate. apply Rsum_map_scal. Qed.

Lemma sum_n_scal_r (n : nat) (c : R) (f : nat -> R) :
  sum_n n (fun k => f k * c) = sum_n n f * c.
Proof. unfold sum_n, tabulate. apply Rsum_map_scal_r. Qed.

Lemma sum_n_zero (n : nat) (f : nat -> R) :
  (forall k, (k < n)%nat -> f k = 0) -> sum_n n f = 0.
Proof.
  intros H. unfold sum_n, tabulate. apply Rsum_map_zero.
  intros k Hk. apply in_seq in Hk. apply H. lia.
Qed.

Lemma sum_n_plus (n : nat) (f g : nat -> R) :
  sum_n n (fun k => f k + g k) = sum_n n f + sum_n n g.
Proof. unfold sum_n, tabulate. apply Rsum_map_plus. Qed.

(** A sum over [range(n)] of terms that vanish except at [k]. *)
Lemma sum_n_single (n k : nat) (f : nat -> R) :
  (k < n)%nat -> sum_n n (fun i => if (i =? k)%nat then f i else 0) = f k.
Proof.
  intros Hk. unfold sum_n, tabulate.
  assert (G : forall len start, (start <= k < start + len)%nat ->
            Rsum (map (fun i => if (i =? k)%nat then f i else 0) (seq start len)) = f k).
  { induction len as [|len IH]; intros start Hs; [lia|]. simpl.
    destruct (Nat.eqb_spec start k) as [->|Hne].
    - rewrite Rsum_map_zero; [lra|]. intros i Hi. apply in_seq in Hi.
      destruct (Nat.eqb_spec i k); [lia | reflexivity].
    - rewrite IH by lia. lra. }
  apply G. lia.
Qed.

Lemma tabulate_length {A} (n : nat) (f : nat -> A) : length (tabulate n f) = n.
Proof. unfold tabulate. rewrite length_map, length_seq. reflexivity. Qed.

Lemma tabulate_nth {A} (n : nat) (f : nat -> A) (d : A) (k : nat) :
  (k < n)%nat -> nth k (tabulate n f) d = f k.
Proof.
  intros Hk. unfold tabulate.
  rewrite nth_indep with (d' := f 0%nat) by (rewrite length_map, length_seq; exact Hk).
  rewrite map_nth, seq_nth by exact Hk. reflexivity.
Qed.

(** A list is the table of its elements. *)
Lemma tabulate_self {A} (l : list A) (d : A) : l = tabulate (length l) (fun k => nth k l d).
Proof.
  apply nth_ext with (d := d) (d' := d).
  - rewrite tabulate_length. reflexivity.
  - intros k Hk. rewrite tabulate_nth by exact Hk. reflexivity.
Qed.

(* ------------------------------------------------------------------ *)
(** ** The shape-function tables *)

(** C9: on every reference element and at every local coordinate [X] of
    its dimension, the order-1 Lagrange shape functions sum to 1 and
    their gradients sum to the zero vector. *)
Theorem shape_functions_partition_of_unity (re : ReferenceElement) (X : point) :
  length X = ref_dim re ->
  Rsum (map (fun f => f X) (LagrangeShapeFunctions re)) = 1
  /\ sum_rows (ref_dim re) (grads_at (LagrangeShapeFunctionsGrads re) X)
     = repeat 0 (ref_dim re).
Proof.
  intros HX.
  destruct re; simpl in HX;
    (destruct X as [|x [|y [|z X]]]; simpl in HX; try discriminate HX);
    split; unfold sum_rows, tabulate, get1, coord; simpl;
    repeat (f_equal; try lra); lra.
Qed.

Lemma shape_functions_partition_of_unity_witness :
  Rsum (map (fun f => f [1/4; 1/2]) (LagrangeShapeFunctions square)) = 1
  /\ sum_rows 2 (grads_at (LagrangeShapeFunctionsGrads square) [1/4; 1/2]) = [0; 0].
Proof.
  apply (shape_functions_partition_of_unity square [1/4; 1/2]). reflexivity.
Defined.

(* ------------------------------------------------------------------ *)
(** ** Dirichlet clearing *)

Lemma np_where0_length (m : list bool) (a : list R) :
  length m = length a -> length (np_where0 m a) = length a.
Proof.
  revert a. induction m as [|c m IH]; intros [|x a] H; simpl in *; try discriminate; auto.
Qed.

Lemma np_where0_twice (m : list bool) (a : list R) :
  np_where0 m (np_where0 m a) = np_where0 m a.
Proof.
  revert a. induction m as [|c m IH]; intros [|x a]; simpl; try reflexivity.
  rewrite IH. destruct c; reflexivity.
Qed.

Lemma np_where0_comm (m1 m2 : list bool) (a : list R) :
  np_where0 m1 (np_where0 m2 a) = np_where0 m2 (np_where0 m1 a).
Proof.
  revert m2 a. induction m1 as [|c1 m1 IH]; intros [|c2 m2] [|x a]; simpl; try reflexivity.
  rewrite IH. destruct c1, c2; reflexivity.
Qed.

Lemma clear_dirichlet_Some (mask : list bool) (I : list nat) (a a' : list R) :
  clear_dirichlet mask I a = Some a' <->
  exists m, fancy mask I = Some m /\ length m = length a /\ a' = np_where0 m a.
Proof.
  unfold clear_dirichlet. split.
  - intros H. inv_bind H. inv_bind H. inv_some.
    exists x. repeat split; [assumption | apply Nat.eqb_eq; assumption].
  - intros (m & Hm & Hl & ->). rewrite Hm. simpl.
    apply Nat.eqb_eq in Hl. rewrite Hl. reflexivity.
Qed.

Lemma clear_dirichlet_again (mask : list bool) (I : list nat) (a a' : list R) :
  clear_dirichlet mask I a = Some a' -> clear_dirichlet mask I a' = Some a'.
Proof.
  intros H. apply clear_dirichlet_Some in H. destruct H as (m & Hm & Hl & ->).
  apply clear_dirichlet_Some. exists m. repeat split.
  - exact Hm.
  - rewrite np_where0_length; auto.
  - symmetry. apply np_where0_twice.
Qed.

(** Clearing with respect to one index array commutes with a clearing
    that was done before with respect to another. *)
Lemma clear_dirichlet_after (mask : list bool) (I J : list nat) (a b c : list R) :
  clear_dirichlet mask I a = Some b ->
  clear_dirichlet mask J b = Some c ->
  clear_dirichlet mask I c = Some c /\ clear_dirichlet mask J c = Some c.
Proof.
  intros H1 H2.
  apply clear_dirichlet_Some in H1. destruct H1 as (m1 & Hm1 & Hl1 & ->).
  apply clear_dirichlet_Some in H2. destruct H2 as (m2 & Hm2 & Hl2 & ->).
  rewrite np_where0_length in Hl2 by exact Hl1.
  split; apply clear_dirichlet_Some.
  - exists m1. repeat split; [exact Hm1 | |].
    + rewrite !np_where0_length; auto. rewrite np_where0_length; auto.
    + rewrite np_where0_comm, np_where0_twice. reflexivity.
  - exists m2. repeat split; [exact Hm2 | |].
    + rewrite !np_where0_length; auto. rewrite np_where0_length; auto.
    + rewrite np_where0_twice. reflexivity.
Qed.

(** C5: the Dirichlet clearing step is idempotent.  Applied to its own
    result, with the same mask and the same row (or column) index array,
    [np.where(mask[I], 0, .)] returns that result unchanged; and the
    boundary treatment that clears rows and/or columns (without the
    appended diagonal) returns, on its own output, that output. *)
Theorem dirichlet_clearing_idempotent
    (g : Grid) (bi : BoundaryInfo) (rows cols : bool)
    (SF_INTS SF_INTS' : list R) (SF_I0 SF_I1 I0' I1' : list nat) :
  boundary_treatment g bi rows cols true SF_INTS SF_I0 SF_I1 = Some (SF_INTS', I0', I1') ->
  boundary_treatment g bi rows cols true SF_INTS' I0' I1' = Some (SF_INTS', I0', I1')
  /\ (forall I a a', clear_dirichlet (dirichlet_mask bi (dim g)) I a = Some a' ->
                     clear_dirichlet (dirichlet_mask bi (dim g)) I a' = Some a').
Proof.
  intros H. split; [| intros I a a'; apply clear_dirichlet_again].
  unfold boundary_treatment in *.
  destruct (has_dirichlet bi); [| inv_some; reflexivity].
  inv_bind H. inv_bind H. simpl in H. inv_some.
  destruct rows, cols; inv_some.
  - destruct (clear_dirichlet_after _ _ _ _ _ _ E E0) as [R1 R2].
    rewrite R1. cbn [bind]. rewrite R2. reflexivity.
  - rewrite (clear_dirichlet_again _ _ _ _ E). reflexivity.
  - cbn [bind]. rewrite (clear_dirichlet_again _ _ _ _ E0). reflexivity.
  - reflexivity.
Qed.

(* ------------------------------------------------------------------ *)
(** ** Entries of an assembled matrix *)

Lemma zip3_app (r1 c1 : list nat) (d1 : list R) (r2 c2 : list nat) (d2 : list R) :
  length r1 = length d1 -> length c1 = length d1 ->
  zip3 (r1 ++ r2) (c1 ++ c2) (d1 ++ d2) = zip3 r1 c1 d1 ++ zip3 r2 c2 d2.
Proof.
  revert c1 d1. induction r1 as [|i r1 IH]; intros [|j c1] [|v d1] Hr Hc;
    simpl in *; try discriminate; [reflexivity|].
  f_equal. apply IH; lia.
Qed.

Lemma fancy_cons {A} (a : list A) (i : nat) (I : list nat) (m : list A) :
  fancy a (i :: I) = Some m ->
  exists b m', nth_error a i = Some b /\ fancy a I = Some m' /\ m = b :: m'.
Proof.
  unfold fancy. simpl. intros H. inv_bind H. inv_bind H. inv_some.
  eexists. eexists. repeat split; eassumption.
Qed.

(** After [np.where(mask[rows], 0, a)], a stored entry in a masked row
    is zero; likewise for the columns. *)
Lemma zip3_cleared_rows (mask : list bool) (rows cols : list nat) (m : list bool) (a : list R) :
  fancy mask rows = Some m ->
  forall r c v, In (r, c, v) (zip3 rows cols (np_where0 m a)) ->
                nth_error mask r = Some true -> v = 0.
Proof.
  revert cols m a. induction rows as [|i rows IH]; intros cols m a Hm r c v Hin Hr.
  - destruct Hin.
  - apply fancy_cons in Hm. destruct Hm as (b & m' & Hb & Hm' & ->).
    destruct cols as [|j cols]; [destruct Hin|].
    destruct a as [|x a]; [destruct Hin|].
    simpl in Hin. destruct Hin as [Heq | Hin].
    + inversion Heq; subst. rewrite Hr in Hb. inversion Hb; subst. reflexivity.
    + eapply IH; eassumption.
Qed.

Lemma zip3_cleared_cols (mask : list bool) (rows cols : list nat) (m : list bool) (a : list R) :
  fancy mask cols = Some m ->
  forall r c v, In (r, c, v) (zip3 rows cols (np_where0 m a)) ->
                nth_error mask c = Some true -> v = 0.
Proof.
  revert rows m a. induction cols as [|j cols IH]; intros rows m a Hm r c v Hin Hc.
  - destruct rows; destruct Hin.
  - apply fancy_cons in Hm. destruct Hm as (b & m' & Hb & Hm' & ->).
    destruct rows as [|i rows]; [destruct Hin|].
    destruct a as [|x a]; [destruct Hin|].
    simpl in Hin. destruct Hin as [Heq | Hin].
    + inversion Heq; subst. rewrite Hc in Hb. inversion Hb; subst. reflexivity.
    + eapply IH; eassumption.
Qed.

(** [np.where(m, 0, a)] only replaces values by zero. *)
Lemma zip3_np_where0 (rows cols : list nat) (m : list bool) (a : list R) :
  forall r c v, In (r, c, v) (zip3 rows cols (np_where0 m a)) ->
                v = 0 \/ In (r, c, v) (zip3 rows cols a).
Proof.
  revert cols m a. induction rows as [|i rows IH]; intros cols m a r c v Hin.
  - destruct Hin.
  - destruct cols as [|j cols]; [destruct Hin|].
    destruct m as [|b m]; [destruct Hin|].
    destruct a as [|x a]; [destruct Hin|].
    simpl in Hin. destruct Hin as [Heq | Hin].
    + inversion Heq; subst. destruct b; [left; reflexivity | right; left; reflexivity].
    + destruct (IH _ _ _ _ _ _ Hin) as [H0 | H1]; [left; exact H0 | right; right; exact H1].
Qed.

Lemma entry_sum_zero (i j : nat) (l : list (nat * nat * R)) :
  (forall v, In (i, j, v) l -> v = 0) -> Rsum (map (pick i j) l) = 0.
Proof.
  intros H. apply Rsum_map_zero. intros [[r c] v] Hin. unfold pick.
  destruct (Nat.eqb_spec r i) as [->|]; [|reflexivity].
  destruct (Nat.eqb_spec c j) as [->|]; [|reflexivity].
  simpl. apply H. exact Hin.
Qed.

(** The appended unit diagonal over an index set without repetition. *)
Lemma zip3_diag_In (DB : list nat) (r c : nat) (v : R) :
  In (r, c, v) (zip3 DB DB (repeat 1 (length DB))) -> r = c /\ In r DB /\ v = 1.
Proof.
  induction DB as [|d DB IH]; simpl; intros H; [destruct H|].
  destruct H as [Heq | H].
  - inversion Heq; subst. auto.
  - destruct (IH H) as (? & ? & ?). auto.
Qed.

Lemma entry_diag_off (DB : list nat) (i j : nat) :
  i <> j -> Rsum (map (pick i j) (zip3 DB DB (repeat 1 (length DB)))) = 0.
Proof.
  intros Hne. apply entry_sum_zero. intros v Hin.
  apply zip3_diag_In in Hin. destruct Hin as (Heq & _). contradiction.
Qed.

Lemma entry_diag_absent (DB : list nat) (d : nat) :
  ~ In d DB -> Rsum (map (pick d d) (zip3 DB DB (repeat 1 (length DB)))) = 0.
Proof.
  intros Hn. apply entry_sum_zero. intros v Hin.
  apply zip3_diag_In in Hin. destruct Hin as (_ & Hd & _). contradiction.
Qed.

Lemma entry_diag_on (DB : list nat) (d : nat) :
  NoDup DB -> In d DB -> Rsum (map (pick d d) (zip3 DB DB (repeat 1 (length DB)))) = 1.
Proof.
  induction DB as [|x DB IH]; intros Hnd Hin; [destruct Hin|].
  inversion Hnd as [|? ? Hx Hnd']; subst.
  change (Rsum (pick d d (x, x, 1) :: map (pick d d) (zip3 DB DB (repeat 1 (length DB)))) = 1).
  cbn [Rsum fold_right]. fold (Rsum (map (pick d d) (zip3 DB DB (repeat 1 (length DB))))).
  unfold pick at 1. destruct (Nat.eqb_spec x d) as [->|Hne]; simpl.
  - rewrite entry_diag_absent by exact Hx. lra.
  - destruct Hin as [Heq | Hin]; [contradiction|]. rewrite IH by assumption. lra.
Qed.

Lemma where_from_In (k : nat) (mask : list bool) (d : nat) :
  In d (where_from k mask) <-> (k <= d)%nat /\ nth_error mask (d - k) = Some true.
Proof.
  revert k. induction mask as [|b mask IH]; intros k; simpl.
  - split; [intros [] | intros (_ & H); destruct (d - k)%nat; discriminate].
  - assert (Hstep : In d (where_from (S k) mask) <->
                    (k < d)%nat /\ nth_error (b :: mask) (d - k) = Some true).
    { rewrite IH. split; intros (Hle & Hn); split; try lia.
      - replace (d - k)%nat with (S (d - S k)) by lia. exact Hn.
      - replace (d - k)%nat with (S (d - S k)) in Hn by lia. exact Hn. }
    destruct b; simpl.
    + rewrite Hstep. split.
      * intros [-> | (Hlt & Hn)]; [split; [lia | rewrite Nat.sub_diag; reflexivity]|].
        split; [lia | exact Hn].
      * intros (Hle & Hn). destruct (Nat.eq_dec k d) as [->|Hne]; [left; reflexivity|].
        right. split; [lia | exact Hn].
    + rewrite Hstep. split.
      * intros (Hlt & Hn). split; [lia | exact Hn].
      * intros (Hle & Hn). destruct (Nat.eq_dec k d) as [->|Hne].
        -- rewrite Nat.sub_diag in Hn. discriminate.
        -- split; [lia | exact Hn].
Qed.

Lemma where_from_NoDup (k : nat) (mask : list bool) : NoDup (where_from k mask).
Proof.
  revert k. induction mask as [|b mask IH]; intros k; simpl; [constructor|].
  destruct b; [|apply IH]. constructor; [|apply IH].
  intros Hin. apply where_from_In in Hin. lia.
Qed.

Lemma dirichlet_boundaries_In (bi : BoundaryInfo) (codim d : nat) :
  In d (dirichlet_boundaries bi codim) <-> nth_error (dirichlet_mask bi codim) d = Some true.
Proof.
  unfold dirichlet_boundaries, np_where1. rewrite where_from_In, Nat.sub_0_r.
  split; [intros (_ & H); exact H | intros H; split; [lia | exact H]].
Qed.

Lemma pick_zero (i j r c : nat) : pick i j (r, c, 0) = 0.
Proof. unfold pick. destruct ((r =? i)%nat && (c =? j)%nat); reflexivity. Qed.

Lemma Rsum_cons (x : R) (l : list R) : Rsum (x :: l) = x + Rsum l.
Proof. reflexivity. Qed.

Lemma entry_eliminate_zeros (A : sparse) (i j : nat) :
  entry (eliminate_zeros A) i j = entry A i j.
Proof.
  unfold entry, eliminate_zeros. cbn [entries].
  induction (entries A) as [|[[r c] v] l IH]; [reflexivity|].
  cbn [filter snd]. unfold Rnonzero at 1.
  destruct (Req_dec_T v 0) as [->|Hv]; cbn [map].
  - rewrite Rsum_cons, pick_zero, IH. lra.
  - rewrite !Rsum_cons, IH. reflexivity.
Qed.

Lemma coo_matrix_Some (data : list R) (row col : list nat) (shp : nat * nat) (A : sparse) :
  coo_matrix data row col shp = Some A ->
  A = {| shape := shp; entries := zip3 row col data |}
  /\ length row = length data /\ length col = length data
  /\ Forall (fun i => (i < fst shp)%nat) row /\ Forall (fun j => (j < snd shp)%nat) col.
Proof.
  unfold coo_matrix. intros H. inv_bind H. inv_bind H. inv_some.
  apply andb_true_iff in E. destruct E as [E1 E2].
  apply andb_true_iff in E0. destruct E0 as [E3 E4].
  apply Nat.eqb_eq in E1, E2. rewrite forallb_forall in E3, E4.
  repeat split; try assumption; apply Forall_forall; intros k Hk.
  - apply Nat.ltb_lt. apply E3. exact Hk.
  - apply Nat.ltb_lt. apply E4. exact Hk.
Qed.

(** What the stored entries look like after the clearing steps of the
    boundary treatment. *)
Lemma boundary_treatment_cleared (g : Grid) (bi : BoundaryInfo) (rows cols diag : bool)
    (a : list R) (I0 I1 : list nat) (SF : list R * list nat * list nat) :
  has_dirichlet bi = true ->
  boundary_treatment g bi rows cols diag a I0 I1 = Some SF ->
  exists a2,
    SF = (if negb diag && (rows || cols)
          then (a2 ++ repeat 1 (length (dirichlet_boundaries bi (dim g))),
                I0 ++ dirichlet_boundaries bi (dim g),
                I1 ++ dirichlet_boundaries bi (dim g))
          else (a2, I0, I1))
    /\ (forall r c v, In (r, c, v) (zip3 I0 I1 a2) ->
          (rows = true -> nth_error (dirichlet_mask bi (dim g)) r = Some true -> v = 0)
          /\ (cols = true -> nth_error (dirichlet_mask bi (dim g)) c = Some true -> v = 0)
          /\ (v = 0 \/ In (r, c, v) (zip3 I0 I1 a))).
Proof.
  intros Hd H. unfold boundary_treatment in H. rewrite Hd in H.
  inv_bind H. inv_bind H. rename x into a1, x0 into a2. exists a2. split.
  { destruct (negb diag && (rows || cols)); inv_some; reflexivity. }
  clear H. intros r c v Hin.
  destruct rows, cols; inv_some.
  - apply clear_dirichlet_Some in E, E0.
    destruct E as (m1 & Hm1 & _ & ->). destruct E0 as (m2 & Hm2 & _ & ->).
    repeat split.
    + intros _ Hr. destruct (zip3_np_where0 _ _ _ _ _ _ _ Hin) as [H0 | H1]; [exact H0|].
      eapply zip3_cleared_rows; [exact Hm1 | exact H1 | exact Hr].
    + intros _ Hc. eapply zip3_cleared_cols; [exact Hm2 | exact Hin | exact Hc].
    + destruct (zip3_np_where0 _ _ _ _ _ _ _ Hin) as [H0 | H1]; [left; exact H0|].
      apply zip3_np_where0 in H1. exact H1.
  - apply clear_dirichlet_Some in E. destruct E as (m1 & Hm1 & _ & ->).
    repeat split.
    + intros _ Hr. eapply zip3_cleared_rows; eassumption.
    + discriminate.
    + apply zip3_np_where0 in Hin. exact Hin.
  - apply clear_dirichlet_Some in E0. destruct E0 as (m2 & Hm2 & _ & ->).
    repeat split.
    + discriminate.
    + intros _ Hc. eapply zip3_cleared_cols; eassumption.
    + apply zip3_np_where0 in Hin. exact Hin.
  - repeat split; try discriminate. right. exact Hin.
Qed.

Lemma treated_dirichlet_entries (g : Grid) (bi : BoundaryInfo) (rows cols : bool)
    (a : list R) (I0 I1 : list nat) (SF : list R * list nat * list nat) (A : sparse) (d : nat) :
  has_dirichlet bi = true -> (rows || cols) = true ->
  boundary_treatment g bi rows cols false a I0 I1 = Some SF ->
  assemble_system g SF = Some A ->
  In d (dirichlet_boundaries bi (dim g)) ->
  entry A d d = 1
  /\ (rows = true -> forall j, j <> d -> entry A d j = 0)
  /\ (cols = true -> forall i, i <> d -> entry A i d = 0).
Proof.
  intros Hd Hrc Hbt Hasm Hin.
  destruct (boundary_treatment_cleared _ _ _ _ _ _ _ _ _ Hd Hbt) as (a2 & -> & Hcl).
  rewrite Hrc in Hasm. cbn [negb andb] in Hasm.
  unfold assemble_system in Hasm. inv_bind Hasm. inv_some.
  apply coo_matrix_Some in E. destruct E as (-> & Hl0 & Hl1 & _ & _).
  rewrite !length_app, repeat_length in Hl0, Hl1.
  assert (L0 : length I0 = length a2) by lia.
  assert (L1 : length I1 = length a2) by lia.
  assert (Hmask : nth_error (dirichlet_mask bi (dim g)) d = Some true)
    by (apply dirichlet_boundaries_In; exact Hin).
  assert (Hnd : NoDup (dirichlet_boundaries bi (dim g)))
    by (apply where_from_NoDup).
  assert (Hent : forall i j,
            entry (eliminate_zeros
                     {| shape := (size g (dim g), size g (dim g));
                        entries := zip3 (I0 ++ dirichlet_boundaries bi (dim g))
                                        (I1 ++ dirichlet_boundaries bi (dim g))
                                        (a2 ++ repeat 1 (length (dirichlet_boundaries bi (dim g)))) |})
                  i j
            = Rsum (map (pick i j) (zip3 I0 I1 a2))
              + Rsum (map (pick i j)
                        (zip3 (dirichlet_boundaries bi (dim g)) (dirichlet_boundaries bi (dim g))
                              (repeat 1 (length (dirichlet_boundaries bi (dim g))))))).
  { intros i j. rewrite entry_eliminate_zeros. unfold entry. cbn [entries].
    rewrite zip3_app by assumption. rewrite map_app, Rsum_app. reflexivity. }
  split; [|split].
  - rewrite Hent, entry_diag_on by assumption.
    rewrite entry_sum_zero; [lra|]. intros v Hv.
    destruct (Hcl _ _ _ Hv) as (Hr & Hc & _).
    destruct rows; [apply Hr; auto|]. destruct cols; [apply Hc; auto | discriminate].
  - intros -> j Hj. rewrite Hent, entry_diag_off by auto.
    rewrite entry_sum_zero; [lra|]. intros v Hv.
    destruct (Hcl _ _ _ Hv) as (Hr & _ & _). apply Hr; auto.
  - intros -> i Hi. rewrite Hent, entry_diag_off by auto.
    rewrite entry_sum_zero; [lra|]. intros v Hv.
    destruct (Hcl _ _ _ Hv) as (_ & Hc & _). apply Hc; auto.
Qed.

(** Every [_assemble] of a bilinear form ends with the boundary
    treatment and the construction of the sparse matrix. *)
Lemma assemble_factors (quadrature : Quadrature) (op : BilinearOperator) (mu : Params)
    (A : sparse) :
  assemble quadrature op mu = Some A ->
  exists bi a I0 I1 SF,
    op_boundary_info op = Some bi
    /\ boundary_treatment (op_grid op) bi (op_clear_rows op) (op_clear_columns op)
         (op_clear_diag op) a I0 I1 = Some SF
    /\ assemble_system (op_grid op) SF = Some A.
Proof.
  destruct op as [op|op|op|op|op|op]; cbn [assemble op_boundary_info op_grid op_clear_rows
                                             op_clear_columns op_clear_diag]; intros H.
  - unfold L2ProductP1._assemble in H.
    destruct (quadrature _ _) as [q w]. inv_bind H. inv_bind H. inv_bind H. eauto 10.
  - unfold L2ProductQ1._assemble in H.
    destruct (quadrature _ _) as [q w]. inv_bind H. inv_bind H. inv_bind H. eauto 10.
  - unfold DiffusionOperatorP1._assemble in H.
    inv_bind H. inv_bind H. inv_bind H. inv_bind H. eauto 10.
  - unfold DiffusionOperatorQ1._assemble in H.
    destruct (quadrature _ _) as [q w]. inv_bind H. inv_bind H. inv_bind H. inv_bind H. eauto 10.
  - unfold AdvectionOperatorP1._assemble in H.
    destruct (quadrature _ _) as [q w]. inv_bind H. inv_bind H. inv_bind H. inv_bind H. eauto 10.
  - unfold AdvectionOperatorQ1._assemble in H.
    destruct (quadrature _ _) as [q w].
    inv_bind H. inv_bind H. inv_bind H. inv_bind H. inv_bind H. eauto 10.
Qed.

(** C2 (as amended): for each of the six bilinear forms, when the
    boundary info has Dirichlet DOFs, rows or columns were cleared and
    [dirichlet_clear_diag] is false, the assembled matrix has the entry 1
    at [(d, d)] for every Dirichlet DOF [d]; every other entry of row [d]
    is zero when the rows were cleared, and every other entry of column
    [d] is zero when the columns were cleared. *)
Theorem dirichlet_unit_diagonal (quadrature : Quadrature) (op : BilinearOperator)
    (mu : Params) (A : sparse) (bi : BoundaryInfo) (d : nat) :
  assemble quadrature op mu = Some A ->
  op_boundary_info op = Some bi ->
  has_dirichlet bi = true ->
  (op_clear_rows op || op_clear_columns op) = true ->
  op_clear_diag op = false ->
  In d (dirichlet_boundaries bi (dim (op_grid op))) ->
  entry A d d = 1
  /\ (op_clear_rows op = true -> forall j, j <> d -> entry A d j = 0)
  /\ (op_clear_columns op = true -> forall i, i <> d -> entry A i d = 0).
Proof.
  intros Hasm Hbi Hd Hrc Hdiag Hin.
  destruct (assemble_factors _ _ _ _ Hasm) as (bi' & a & I0 & I1 & SF & Hbi' & Hbt & Hsys).
  rewrite Hbi in Hbi'. inversion Hbi'; subst bi'. rewrite Hdiag in Hbt.
  eapply treated_dirichlet_entries; eassumption.
Qed.

(* ------------------------------------------------------------------ *)
(** ** The Dirichlet treatment on the one-triangle grid *)

Lemma dirichlet_clearing_idempotent_witness :
  boundary_treatment one_triangle dirichlet_at_0 true false true
    [0; 0; 3] [0; 0; 1]%nat [0; 1; 1]%nat = Some ([0; 0; 3], [0; 0; 1]%nat, [0; 1; 1]%nat)
  /\ (forall I a a',
        clear_dirichlet (dirichlet_mask dirichlet_at_0 (dim one_triangle)) I a = Some a' ->
        clear_dirichlet (dirichlet_mask dirichlet_at_0 (dim one_triangle)) I a' = Some a').
Proof.
  apply (dirichlet_clearing_idempotent one_triangle dirichlet_at_0 true false
           [1; 2; 3] [0; 0; 3] [0; 0; 1]%nat [0; 1; 1]%nat [0; 0; 1]%nat [0; 1; 1]%nat).
  reflexivity.
Defined.

Lemma dirichlet_unit_diagonal_witness :
  exists A, assemble reference_quadrature (OpL2ProductP1 mass_rows_cleared) [] = Some A
            /\ entry A 0 0 = 1
            /\ (true = true -> forall j, j <> 0%nat -> entry A 0 j = 0)
            /\ (false = true -> forall i, i <> 0%nat -> entry A i 0 = 0).
Proof.
  eexists. split; [reflexivity|].
  apply (dirichlet_unit_diagonal reference_quadrature (OpL2ProductP1 mass_rows_cleared) []
           _ dirichlet_at_0 0%nat); try reflexivity.
  simpl. left. reflexivity.
Defined.

(** C2 (as stated) fails when only the columns are cleared: vertex 0 is a
    Dirichlet DOF, the diagonal entry is 1, but the entry (0, 1) of the
    Dirichlet row keeps the mass 1/24. *)
Lemma dirichlet_row_kept_counterexample :
  exists A, assemble reference_quadrature (OpL2ProductP1 mass_columns_cleared) [] = Some A
            /\ op_boundary_info (OpL2ProductP1 mass_columns_cleared) = Some dirichlet_at_0
            /\ has_dirichlet dirichlet_at_0 = true
            /\ (op_clear_rows (OpL2ProductP1 mass_columns_cleared)
                || op_clear_columns (OpL2ProductP1 mass_columns_cleared)) = true
            /\ op_clear_diag (OpL2ProductP1 mass_columns_cleared) = false
            /\ In 0%nat (dirichlet_boundaries dirichlet_at_0 2)
            /\ entry A 0 0 = 1
            /\ entry A 0 1 = 1 / 24
            /\ entry A 0 1 <> 0.
Proof.
  eexists. split; [reflexivity|].
  repeat (split; [first [reflexivity | left; reflexivity]|]).
  assert (E : forall A0, entry (eliminate_zeros A0) 0 1 = 1 / 24 ->
                         entry (eliminate_zeros A0) 0 1 <> 0) by (intros A0 ->; lra).
  split; [|split; [|apply E]];
    rewrite entry_eliminate_zeros; unfold entry; cbn; unfold get1, get2, coord; cbn; lra.
Qed.

(* ------------------------------------------------------------------ *)
(** ** Scattering local blocks into the global index arrays *)

Lemma zip3_row (x : nat) (s : list nat) (v : list R) (R0 C0 : list nat) (D0 : list R) :
  length s = length v ->
  zip3 (repeat x (length s) ++ R0) (s ++ C0) (v ++ D0)
  = map (fun cd => (x, fst cd, snd cd)) (combine s v) ++ zip3 R0 C0 D0.
Proof.
  revert v. induction s as [|c s IH]; intros [|d v] H; simpl in *; try discriminate;
    [reflexivity|].
  f_equal. apply IH. lia.
Qed.

Lemma zip3_block (s s1 : list nat) (M : list (list R)) (R0 C0 : list nat) (D0 : list R) :
  length s1 = length M ->
  Forall (fun v => length v = length s) M ->
  zip3 (flat_map (fun x => repeat x (length s)) s1 ++ R0)
       (concat (repeat s (length s1)) ++ C0) (concat M ++ D0)
  = flat_map (fun xv => map (fun cd => (fst xv, fst cd, snd cd)) (combine s (snd xv)))
             (combine s1 M) ++ zip3 R0 C0 D0.
Proof.
  revert M. induction s1 as [|x s1 IH]; intros [|v M] Hl HM; simpl in *; try discriminate;
    [reflexivity|].
  inversion HM as [|? ? Hv HM']; subst.
  rewrite <- !app_assoc. rewrite zip3_row by (symmetry; exact Hv).
  rewrite IH by (try lia; assumption). reflexivity.
Qed.

(** The three flat arrays of an assembly, zipped, are the scattered
    local blocks. *)
Lemma zip3_scatter (n : nat) (S : list (list nat)) (T : list (list (list R))) :
  length S = length T ->
  Forall (fun s => length s = n) S ->
  Forall (fun M => length M = n /\ Forall (fun v => length v = n) M) T ->
  zip3 (ravel (np_repeat_axis1 S n)) (ravel (np_tile_axis1 S n)) (ravel3 T) = scatter S T.
Proof.
  unfold ravel, ravel3, np_repeat_axis1, np_tile_axis1, scatter.
  revert T. induction S as [|s S IH]; intros [|M T] Hl HS HT; simpl in *; try discriminate;
    [reflexivity|].
  inversion HS as [|? ? Hs HS']; subst. inversion HT as [|? ? [HM Hv] HT']; subst.
  rewrite <- IH by (try lia; assumption).
  pose proof (zip3_block s s M
                (concat (map (fun row => flat_map (fun x => repeat x (length s)) row) S))
                (concat (map (fun row => concat (repeat row (length s))) S))
                (concat (map (@concat R) T))) as Hb.
  apply Hb; [symmetry; exact HM | exact Hv].
Qed.

Lemma Rsum_scatter (f : nat * nat * R -> R) (S : list (list nat)) (T : list (list (list R))) :
  Rsum (map f (scatter S T))
  = Rsum (map (fun sM =>
       Rsum (map (fun xv =>
          Rsum (map (fun cd => f (fst xv, fst cd, snd cd)) (combine (fst sM) (snd xv))))
        (combine (fst sM) (snd sM))))
     (combine S T)).
Proof.
  unfold scatter. rewrite Rsum_flat_map. apply Rsum_map_ext. intros [s M] _.
  unfold elem_triples. cbn [fst snd]. rewrite Rsum_flat_map.
  apply Rsum_map_ext. intros [x v] _. cbn [fst snd]. rewrite map_map. reflexivity.
Qed.

(** ** Row sums *)

Lemma row_sum_entries (A : sparse) (r : nat) :
  Forall (fun t => (snd (fst t) < snd (shape A))%nat) (entries A) ->
  row_sum A r = Rsum (map (pick_row r) (entries A)).
Proof.
  intros Hc. unfold row_sum, entry, sum_n, tabulate.
  rewrite Rsum_exchange. apply Rsum_map_ext. intros [[i c] v] Hin.
  rewrite Forall_forall in Hc. specialize (Hc _ Hin). cbn [fst snd] in Hc.
  unfold pick, pick_row. destruct (Nat.eqb_spec i r) as [->|Hne]; cbn [andb].
  - rewrite (Rsum_map_ext _ (fun j => if (j =? c)%nat then v else 0)).
    + apply (sum_n_single (snd (shape A)) c (fun _ => v)). exact Hc.
    + intros j _. rewrite Nat.eqb_sym. reflexivity.
  - apply Rsum_map_zero. reflexivity.
Qed.

Lemma Rsum_snd_combine (s : list nat) (v : list R) :
  length s = length v -> Rsum (map (fun cd => snd cd) (combine s v)) = Rsum v.
Proof.
  revert v. induction s as [|c s IH]; intros [|d v] H; simpl in *; try discriminate;
    [reflexivity|].
  rewrite IH by lia. reflexivity.
Qed.

(** When every row of every local block sums to zero, so does every row
    of the scattered matrix. *)
Lemma pick_row_scatter_zero (n r : nat) (S : list (list nat)) (T : list (list (list R))) :
  Forall (fun s => length s = n) S ->
  Forall (fun M => Forall (fun v => length v = n /\ Rsum v = 0) M) T ->
  Rsum (map (pick_row r) (scatter S T)) = 0.
Proof.
  intros HS HT. rewrite Rsum_scatter. apply Rsum_map_zero. intros [s M] Hin.
  cbn [fst snd]. apply Rsum_map_zero. intros [x v] Hxv. cbn [fst snd].
  rewrite Forall_forall in HS, HT.
  pose proof (HS s (in_combine_l _ _ _ _ Hin)) as Hs.
  pose proof (HT M (in_combine_r _ _ _ _ Hin)) as HM.
  rewrite Forall_forall in HM. destruct (HM v (in_combine_r _ _ _ _ Hxv)) as [Hv H0].
  unfold pick_row. destruct (x =? r)%nat.
  - rewrite Rsum_snd_combine by lia. exact H0.
  - apply Rsum_map_zero. reflexivity.
Qed.

Lemma tabulate_In {A} (n : nat) (f : nat -> A) (x : A) :
  In x (tabulate n f) <-> exists k, (k < n)%nat /\ x = f k.
Proof.
  unfold tabulate. rewrite in_map_iff. split.
  - intros (k & <- & Hk). apply in_seq in Hk. exists k. split; [lia | reflexivity].
  - intros (k & Hk & ->). exists k. split; [reflexivity | apply in_seq; lia].
Qed.

Lemma tabulate_S {A} (n : nat) (f : nat -> A) :
  tabulate (S n) f = f 0%nat :: tabulate n (fun k => f (S k)).
Proof. unfold tabulate. simpl. rewrite <- seq_shift, map_map. reflexivity. Qed.

Lemma dim2_tabulate {A} (n : nat) (f : nat -> list A) :
  (0 < n)%nat -> dim2 (tabulate n f) = length (f 0%nat).
Proof. intros H. destruct n; [lia|]. rewrite tabulate_S. reflexivity. Qed.

Lemma get1_tabulate (n : nat) (f : nat -> R) (k : nat) :
  (k < n)%nat -> get1 (tabulate n f) k = f k.
Proof. intros H. unfold get1. apply tabulate_nth. exact H. Qed.

Lemma get2_tabulate (n m : nat) (f : nat -> nat -> R) (i j : nat) :
  (i < n)%nat -> (j < m)%nat ->
  get2 (tabulate n (fun i => tabulate m (f i))) i j = f i j.
Proof.
  intros Hi Hj. unfold get2. rewrite tabulate_nth by exact Hi.
  apply get1_tabulate. exact Hj.
Qed.

Lemma get3_tabulate (n m l : nat) (f : nat -> nat -> nat -> R) (i j k : nat) :
  (i < n)%nat -> (j < m)%nat -> (k < l)%nat ->
  get3 (tabulate n (fun i => tabulate m (fun j => tabulate l (f i j)))) i j k = f i j k.
Proof.
  intros Hi Hj Hk. unfold get3. rewrite tabulate_nth by exact Hi.
  apply (get2_tabulate m l (f i)); assumption.
Qed.

(** The rows of the local blocks [t e p q] sum to zero when the sums
    over [q] do. *)
Lemma local_rows_zero (ne n : nat) (t : nat -> nat -> nat -> R) :
  (forall e p, (e < ne)%nat -> (p < n)%nat -> sum_n n (fun q => t e p q) = 0) ->
  Forall (fun M => Forall (fun v => length v = n /\ Rsum v = 0) M)
         (tabulate ne (fun e => tabulate n (fun p => tabulate n (fun q => t e p q)))).
Proof.
  intros H. apply Forall_forall. intros M HM. apply tabulate_In in HM.
  destruct HM as (e & He & ->). apply Forall_forall. intros v Hv.
  apply tabulate_In in Hv. destruct Hv as (p & Hp & ->).
  split; [apply tabulate_length | apply (H e p He Hp)].
Qed.

Lemma local_blocks_shape (ne n : nat) (t : nat -> nat -> nat -> R) :
  Forall (fun M => length M = n /\ Forall (fun v => length v = n) M)
         (tabulate ne (fun e => tabulate n (fun p => tabulate n (fun q => t e p q)))).
Proof.
  apply Forall_forall. intros M HM. apply tabulate_In in HM.
  destruct HM as (e & He & ->). split; [apply tabulate_length|].
  apply Forall_forall. intros v Hv. apply tabulate_In in Hv.
  destruct Hv as (p & Hp & ->). apply tabulate_length.
Qed.

(** Gradients transformed by the reference map still sum to zero over
    the shape functions (P1: ['eij,pj->epi']). *)
Lemma transformed_grads_P1 (J : list (list (list R))) (G : list (list R)) (e i : nat) :
  (forall j, sum_n (length G) (fun p => get2 G p j) = 0) ->
  (e < length J)%nat -> (i < dim2 J)%nat ->
  sum_n (length G) (fun p => get3 (einsum_eij_pj J G) e p i) = 0.
Proof.
  intros HG He Hi.
  rewrite (sum_n_ext _ _ (fun p => sum_n (dim2 G) (fun j => get3 J e i j * get2 G p j))).
  - rewrite sum_n_exchange. apply sum_n_zero. intros j _.
    rewrite sum_n_scal, HG. lra.
  - intros p Hp. unfold einsum_eij_pj.
    apply (get3_tabulate (length J) (length G) (dim2 J)
             (fun e p i => sum_n (dim2 G) (fun j => get3 J e i j * get2 G p j))); assumption.
Qed.

Lemma einsum_eij_pj_shape (J : list (list (list R))) (G : list (list R)) :
  length (einsum_eij_pj J G) = length J
  /\ ((0 < length J)%nat -> dim2 (einsum_eij_pj J G) = length G)
  /\ ((0 < length J)%nat -> (0 < length G)%nat -> dim3 (einsum_eij_pj J G) = dim2 J).
Proof.
  unfold einsum_eij_pj. split; [apply tabulate_length|]. split.
  - intros HJ. rewrite dim2_tabulate by exact HJ. apply tabulate_length.
  - intros HJ HG. unfold dim3. destruct (length J) as [|n]; [lia|].
    rewrite tabulate_S. cbn [hd]. rewrite dim2_tabulate by exact HG. apply tabulate_length.
Qed.

(** The local stiffness blocks of the P1 diffusion operator, with a
    factor [c e] per element, have rows that sum to zero. *)
Lemma stiffness_P1_rows (J : list (list (list R))) (G : list (list R))
    (h : nat -> nat -> nat -> nat -> R) (c : nat -> R) :
  (forall j, sum_n (length G) (fun p => get2 G p j) = 0) ->
  (0 < length G)%nat ->
  (forall e p q i, h e p q i
     = get3 (einsum_eij_pj J G) e p i * get3 (einsum_eij_pj J G) e q i * c e) ->
  let T := tabulate (length (einsum_eij_pj J G)) (fun e =>
             tabulate (dim2 (einsum_eij_pj J G)) (fun p =>
               tabulate (dim2 (einsum_eij_pj J G)) (fun q =>
                 sum_n (dim3 (einsum_eij_pj J G)) (fun i => h e p q i)))) in
  length T = length J
  /\ Forall (fun M => length M = length G /\ Forall (fun v => length v = length G) M) T
  /\ Forall (fun M => Forall (fun v => length v = length G /\ Rsum v = 0) M) T.
Proof.
  intros HG Hpos Hh T. subst T.
  destruct (einsum_eij_pj_shape J G) as (H1 & H2 & H3).
  rewrite H1. destruct (Nat.eq_dec (length J) 0) as [H0 | Hne].
  { rewrite H0. repeat split; constructor. }
  rewrite H2, H3 by lia.
  split; [apply tabulate_length|]. split; [apply local_blocks_shape|].
  apply local_rows_zero. intros e p He Hp.
  rewrite sum_n_exchange. apply sum_n_zero. intros i Hi.
  rewrite (sum_n_ext _ _ (fun q => (get3 (einsum_eij_pj J G) e p i * c e)
                                    * get3 (einsum_eij_pj J G) e q i))
    by (intros; rewrite Hh; ring).
  rewrite sum_n_scal, transformed_grads_P1 by assumption. lra.
Qed.

Lemma pick_row_zip3_scale (r : nat) (c : R) (I0 I1 : list nat) (a : list R) :
  Rsum (map (pick_row r) (zip3 I0 I1 (map (fun x => x * c) a)))
  = Rsum (map (pick_row r) (zip3 I0 I1 a)) * c.
Proof.
  revert I1 a. induction I0 as [|i I0 IH]; intros [|j I1] [|x a]; simpl; try lra.
  rewrite IH. destruct (i =? r)%nat; lra.
Qed.

Lemma pick_row_np_where0 (mask : list bool) (r : nat) (I0 I1 : list nat) (m : list bool)
    (a : list R) :
  fancy mask I0 = Some m -> length m = length a ->
  nth_error mask r <> Some true ->
  Rsum (map (pick_row r) (zip3 I0 I1 (np_where0 m a)))
  = Rsum (map (pick_row r) (zip3 I0 I1 a)).
Proof.
  revert I1 m a. induction I0 as [|i I0 IH]; intros I1 m a Hm Hl Hr.
  - reflexivity.
  - apply fancy_cons in Hm. destruct Hm as (b & m' & Hb & Hm' & ->).
    destruct a as [|x a]; [discriminate|]. destruct I1 as [|j I1]; [reflexivity|].
    simpl in Hl. cbn [np_where0 zip3 map]. rewrite !Rsum_cons.
    rewrite (IH I1 m' a) by (try lia; assumption). f_equal.
    unfold pick_row. destruct (Nat.eqb_spec i r) as [->|]; [|reflexivity].
    destruct b; [contradiction | reflexivity].
Qed.

Lemma pick_row_diag (DB : list nat) (r : nat) :
  ~ In r DB -> Rsum (map (pick_row r) (zip3 DB DB (repeat 1 (length DB)))) = 0.
Proof.
  intros Hn. apply Rsum_map_zero. intros [[i j] v] Hin.
  apply zip3_diag_In in Hin. destruct Hin as (_ & Hi & _).
  unfold pick_row. destruct (Nat.eqb_spec i r) as [->|]; [contradiction | reflexivity].
Qed.

Lemma row_sum_eliminate_zeros (A : sparse) (r : nat) :
  row_sum (eliminate_zeros A) r = row_sum A r.
Proof.
  unfold row_sum. cbn [eliminate_zeros shape]. apply sum_n_ext.
  intros j _. apply entry_eliminate_zeros.
Qed.

Lemma zip3_cols (I0 I1 : list nat) (a : list R) (n : nat) :
  Forall (fun j => (j < n)%nat) I1 ->
  Forall (fun t => (snd (fst t) < n)%nat) (zip3 I0 I1 a).
Proof.
  revert I0 a. induction I1 as [|j I1 IH]; intros [|i I0] [|x a] H; simpl; try constructor.
  - inversion H; subst. assumption.
  - inversion H; subst. apply IH. assumption.
Qed.

(** Row sums of a matrix assembled with cleared Dirichlet rows: a row
    that is not a Dirichlet row keeps the sum of its contributions. *)
Lemma row_sum_treated (g : Grid) (bi : BoundaryInfo) (cols diag : bool)
    (a : list R) (I0 I1 : list nat) (SF : list R * list nat * list nat) (A : sparse) (r : nat) :
  boundary_treatment g bi true cols diag a I0 I1 = Some SF ->
  assemble_system g SF = Some A ->
  has_dirichlet bi = false
  \/ (cols = false /\ ~ In r (dirichlet_boundaries bi (dim g))) ->
  row_sum A r = Rsum (map (pick_row r) (zip3 I0 I1 a)).
Proof.
  intros Hbt Hasm Hcase.
  assert (Hrs : forall a' I0' I1',
            assemble_system g (a', I0', I1') = Some A ->
            row_sum A r = Rsum (map (pick_row r) (zip3 I0' I1' a'))
            /\ length I0' = length a' /\ length I1' = length a').
  { intros a' I0' I1' H. unfold assemble_system in H. inv_bind H. inv_some.
    apply coo_matrix_Some in E. destruct E as (-> & L0 & L1 & _ & Hc).
    rewrite row_sum_eliminate_zeros.
    rewrite row_sum_entries by (apply zip3_cols; exact Hc). auto. }
  unfold boundary_treatment in Hbt. destruct (has_dirichlet bi) eqn:Hd.
  - destruct Hcase as [? | [-> Hr]]; [discriminate|].
    inv_bind Hbt. inv_bind Hbt. inv_some.
    apply clear_dirichlet_Some in E. destruct E as (m & Hm & Hl & ->).
    assert (Hmask : nth_error (dirichlet_mask bi (dim g)) r <> Some true).
    { intros Habs. apply Hr. apply dirichlet_boundaries_In. exact Habs. }
    destruct (negb diag && (true || false)); inv_some.
    + destruct (Hrs _ _ _ Hasm) as (-> & L0 & L1).
      rewrite !length_app, repeat_length in L0, L1.
      rewrite zip3_app by lia. rewrite map_app, Rsum_app.
      rewrite pick_row_diag by exact Hr.
      rewrite (pick_row_np_where0 _ _ _ _ _ _ Hm Hl Hmask). lra.
    + destruct (Hrs _ _ _ Hasm) as (-> & L0 & L1).
      apply (pick_row_np_where0 _ _ _ _ _ _ Hm Hl Hmask).
  - inv_some. destruct (Hrs _ _ _ Hasm) as (-> & _). reflexivity.
Qed.

(* ------------------------------------------------------------------ *)
(** ** Well-formed grids *)

Lemma grid_ok_spec (g : Grid) :
  grid_ok g = true ->
  dim g = ref_dim (reference_element g)
  /\ length (subentities g 0 (dim g)) = size g 0
  /\ length (volumes g 0) = size g 0
  /\ length (integration_elements g 0) = size g 0
  /\ length (jacobian_inverse_transposed g 0) = size g 0
  /\ length (centers g 0) = size g 0
  /\ Forall (fun row => length row = n_local (reference_element g)) (subentities g 0 (dim g))
  /\ Forall (Forall (fun i => (i < size g (dim g))%nat)) (subentities g 0 (dim g)).
Proof.
  unfold grid_ok. intros H.
  repeat (apply andb_true_iff in H; destruct H as [H ?]).
  repeat match goal with E : (_ =? _)%nat = true |- _ => apply Nat.eqb_eq in E end.
  rewrite forallb_forall in *.
  repeat split; try assumption; apply Forall_forall; intros row Hrow;
    match goal with F : forall x, In x _ -> _ |- _ => specialize (F row Hrow);
      apply andb_true_iff in F; destruct F as [F1 F2] end.
  - apply Nat.eqb_eq. exact F1.
  - apply Forall_forall. intros i Hi. rewrite forallb_forall in F2.
    apply Nat.ltb_lt. apply F2. exact Hi.
Qed.

(** ** Row sums of the stiffness matrix *)

Lemma grad_array_sum_zero (re : ReferenceElement) (G : list (list R)) :
  grad_array (LagrangeShapeFunctionsGrads re) = Some G ->
  (forall j, sum_n (length G) (fun p => get2 G p j) = 0)
  /\ length G = n_local re /\ (0 < length G)%nat.
Proof.
  destruct re; simpl; intros H; inversion H; subst; clear H;
    (split; [|split; unfold n_local; simpl; lia]);
    intros j; unfold sum_n, tabulate, get2, get1; simpl;
    destruct j as [|[|[|j]]]; simpl; lra.
Qed.

Lemma DiffusionOperatorP1_row_sum (op : DiffusionOperatorP1.t) (mu : Params) (A : sparse)
    (bi : BoundaryInfo) (r : nat) :
  grid_ok (DiffusionOperatorP1.grid op) = true ->
  scalar_valued (DiffusionOperatorP1.diffusion_function op) ->
  DiffusionOperatorP1._assemble op mu = Some A ->
  DiffusionOperatorP1.boundary_info op = Some bi ->
  has_dirichlet bi = false
  \/ (DiffusionOperatorP1.dirichlet_clear_columns op = false
      /\ ~ In r (dirichlet_boundaries bi (dim (DiffusionOperatorP1.grid op)))) ->
  row_sum A r = 0.
Proof.
  intros Hok Hsc H Hbi Hcase.
  unfold DiffusionOperatorP1._assemble in H.
  inv_bind H. rename x into G. inv_bind H. rename x into SF_INTS.
  inv_bind H. rewrite Hbi in E1. inv_some. inv_bind H.
  rewrite (row_sum_treated _ _ _ _ _ _ _ _ _ _ E1 H Hcase).
  set (g := DiffusionOperatorP1.grid op) in *.
  destruct (grid_ok_spec g Hok) as (Hdim & HS & _ & _ & HJ & _ & Hrows & _).
  destruct (grad_array_sum_zero _ _ E) as (HG & HGl & HGpos).
  assert (Hn : (dim g + 1)%nat = length G).
  { rewrite HGl, Hdim. destruct (reference_element g); try reflexivity; discriminate E. }
  assert (Hzero : Rsum (map (pick_row r)
                    (zip3 (ravel (np_repeat_axis1 (subentities g 0 (dim g)) (dim g + 1)))
                          (ravel (np_tile_axis1 (subentities g 0 (dim g)) (dim g + 1)))
                          SF_INTS)) = 0).
  { assert (Hgen : forall h c,
              (forall e p q i, h e p q i
                 = get3 (einsum_eij_pj (jacobian_inverse_transposed g 0) G) e p i
                   * get3 (einsum_eij_pj (jacobian_inverse_transposed g 0) G) e q i * c e) ->
              Rsum (map (pick_row r)
                (zip3 (ravel (np_repeat_axis1 (subentities g 0 (dim g)) (dim g + 1)))
                      (ravel (np_tile_axis1 (subentities g 0 (dim g)) (dim g + 1)))
                      (ravel3 (tabulate (length (einsum_eij_pj (jacobian_inverse_transposed g 0) G))
                         (fun e => tabulate (dim2 (einsum_eij_pj (jacobian_inverse_transposed g 0) G))
                           (fun p => tabulate (dim2 (einsum_eij_pj (jacobian_inverse_transposed g 0) G))
                             (fun q => sum_n (dim3 (einsum_eij_pj (jacobian_inverse_transposed g 0) G))
                                (fun i => h e p q i)))))))) = 0).
    { intros h c Hh.
      destruct (stiffness_P1_rows (jacobian_inverse_transposed g 0) G h c HG HGpos Hh)
        as (HT1 & HT2 & HT3).
      rewrite Hn. rewrite zip3_scatter.
      - apply pick_row_scatter_zero with (n := length G); [|exact HT3].
        rewrite <- HGl in Hrows. exact Hrows.
      - rewrite HT1. lia.
      - rewrite <- HGl in Hrows. exact Hrows.
      - exact HT2. }
    destruct (DiffusionOperatorP1.diffusion_function op) as [d|]; cbn [scalar_valued] in Hsc.
    - rewrite Hsc in E0. inv_bind E0. inv_some.
      match goal with
      | HD : as_scalars _ = Some ?D |- _ =>
          apply (Hgen _ (fun e => get1 (volumes g 0) e * get1 D e))
      end.
      intros; ring.
    - inv_some. apply (Hgen _ (fun e => get1 (volumes g 0) e)). intros; ring. }
  destruct (DiffusionOperatorP1.diffusion_constant op) as [c|]; cbn [scale_by].
  - rewrite pick_row_zip3_scale, Hzero. lra.
  - exact Hzero.
Qed.

(** The same for the Q1 operator, whose gradients depend on the
    quadrature point (['eij,pjc->epic']). *)
Lemma get1_tabulate_any (n : nat) (f : nat -> R) (k : nat) :
  get1 (tabulate n f) k = if (k <? n)%nat then f k else 0.
Proof.
  destruct (Nat.ltb_spec k n) as [Hlt | Hge].
  - apply get1_tabulate. exact Hlt.
  - unfold get1. apply nth_overflow. rewrite tabulate_length. exact Hge.
Qed.

Lemma get1_map_any (q : list point) (f : point -> R) (c : nat) :
  get1 (map f q) c = if (c <? length q)%nat then f (nth c q []) else 0.
Proof.
  unfold get1. destruct (Nat.ltb_spec c (length q)) as [Hlt | Hge].
  - rewrite nth_indep with (d' := f []) by (rewrite length_map; exact Hlt).
    apply map_nth.
  - apply nth_overflow. rewrite length_map. exact Hge.
Qed.

Lemma grad_call_sum_zero (re : ReferenceElement) (q : list point)
    (G : list (list (list R))) :
  grad_call (LagrangeShapeFunctionsGrads re) q = Some G ->
  re = square
  /\ length G = 4%nat /\ dim3 G = length q
  /\ (forall j c, sum_n (length G) (fun p => get3 G p j c) = 0).
Proof.
  destruct re; simpl; intros H; inversion H; subst; clear H.
  split; [reflexivity|]. split; [reflexivity|]. split.
  { unfold dim3, dim2, tabulate. simpl. apply length_map. }
  intros j c. unfold sum_n, tabulate at 1. rewrite tabulate_length.
  cbn [seq map Rsum fold_right]. unfold get3.
  rewrite !tabulate_nth by lia.
  destruct (Nat.ltb_spec j 2) as [Hj | Hj].
  - unfold get2. rewrite !tabulate_nth by exact Hj. rewrite !get1_map_any.
    destruct (c <? length q)%nat; [|lra].
    destruct j as [|[|j]]; [| |lia]; unfold get1, coord; simpl; lra.
  - unfold get2, get1. rewrite !(nth_overflow (tabulate 2 _)) by (rewrite tabulate_length; lia).
    destruct c; simpl; lra.
Qed.

Lemma einsum_eij_pjc_shape (J : list (list (list R))) (G : list (list (list R))) :
  length (einsum_eij_pjc J G) = length J
  /\ ((0 < length J)%nat -> dim2 (einsum_eij_pjc J G) = length G)
  /\ ((0 < length J)%nat -> (0 < length G)%nat -> dim3 (einsum_eij_pjc J G) = dim2 J).
Proof.
  unfold einsum_eij_pjc. split; [apply tabulate_length|]. split.
  - intros HJ. rewrite dim2_tabulate by exact HJ. apply tabulate_length.
  - intros HJ HG. unfold dim3. destruct (length J) as [|n]; [lia|].
    rewrite tabulate_S. cbn [hd]. rewrite dim2_tabulate by exact HG. apply tabulate_length.
Qed.

Lemma get4_einsum_eij_pjc (J : list (list (list R))) (G : list (list (list R)))
    (e p i c : nat) :
  (e < length J)%nat -> (p < length G)%nat -> (i < dim2 J)%nat ->
  get4 (einsum_eij_pjc J G) e p i c
  = if (c <? dim3 G)%nat then sum_n (dim2 G) (fun j => get3 J e i j * get3 G p j c) else 0.
Proof.
  intros He Hp Hi. unfold einsum_eij_pjc, get4, get3, get2.
  rewrite tabulate_nth by exact He. rewrite tabulate_nth by exact Hp.
  rewrite tabulate_nth by exact Hi. apply get1_tabulate_any.
Qed.

Lemma transformed_grads_Q1 (J : list (list (list R))) (G : list (list (list R)))
    (e i c : nat) :
  (forall j c, sum_n (length G) (fun p => get3 G p j c) = 0) ->
  (e < length J)%nat -> (i < dim2 J)%nat ->
  sum_n (length G) (fun p => get4 (einsum_eij_pjc J G) e p i c) = 0.
Proof.
  intros HG He Hi.
  rewrite (sum_n_ext _ _ (fun p => if (c <? dim3 G)%nat
                                   then sum_n (dim2 G) (fun j => get3 J e i j * get3 G p j c)
                                   else 0))
    by (intros p Hp; apply get4_einsum_eij_pjc; assumption).
  destruct (c <? dim3 G)%nat.
  - rewrite sum_n_exchange. apply sum_n_zero. intros j _.
    rewrite sum_n_scal, HG. lra.
  - apply sum_n_zero. reflexivity.
Qed.

Lemma stiffness_Q1_rows (J : list (list (list R))) (G : list (list (list R))) (nc : nat)
    (h : nat -> nat -> nat -> nat -> nat -> R) (k : nat -> nat -> R) :
  (forall j c, sum_n (length G) (fun p => get3 G p j c) = 0) ->
  (0 < length G)%nat ->
  (forall e p q i c, h e p q i c
     = get4 (einsum_eij_pjc J G) e p i c * get4 (einsum_eij_pjc J G) e q i c * k e c) ->
  let T := tabulate (length (einsum_eij_pjc J G)) (fun e =>
             tabulate (dim2 (einsum_eij_pjc J G)) (fun p =>
               tabulate (dim2 (einsum_eij_pjc J G)) (fun q =>
                 sum_n (dim3 (einsum_eij_pjc J G)) (fun i =>
                   sum_n nc (fun c => h e p q i c))))) in
  length T = length J
  /\ Forall (fun M => length M = length G /\ Forall (fun v => length v = length G) M) T
  /\ Forall (fun M => Forall (fun v => length v = length G /\ Rsum v = 0) M) T.
Proof.
  intros HG Hpos Hh T. subst T.
  destruct (einsum_eij_pjc_shape J G) as (H1 & H2 & H3).
  rewrite H1. destruct (Nat.eq_dec (length J) 0) as [H0 | Hne].
  { rewrite H0. repeat split; constructor. }
  rewrite H2, H3 by lia.
  split; [apply tabulate_length|]. split; [apply local_blocks_shape|].
  apply local_rows_zero. intros e p He Hp.
  rewrite sum_n_exchange. apply sum_n_zero. intros i Hi.
  rewrite sum_n_exchange. apply sum_n_zero. intros c Hc.
  rewrite (sum_n_ext _ _ (fun q => (get4 (einsum_eij_pjc J G) e p i c * k e c)
                                    * get4 (einsum_eij_pjc J G) e q i c))
    by (intros; rewrite Hh; ring).
  rewrite sum_n_scal, transformed_grads_Q1 by assumption. lra.
Qed.

Lemma DiffusionOperatorQ1_row_sum (quadrature : Quadrature) (op : DiffusionOperatorQ1.t)
    (mu : Params) (A : sparse) (bi : BoundaryInfo) (r : nat) :
  grid_ok (DiffusionOperatorQ1.grid op) = true ->
  scalar_valued (DiffusionOperatorQ1.diffusion_function op) ->
  DiffusionOperatorQ1._assemble quadrature op mu = Some A ->
  DiffusionOperatorQ1.boundary_info op = Some bi ->
  has_dirichlet bi = false
  \/ (DiffusionOperatorQ1.dirichlet_clear_columns op = false
      /\ ~ In r (dirichlet_boundaries bi (dim (DiffusionOperatorQ1.grid op)))) ->
  row_sum A r = 0.
Proof.
  intros Hok Hsc H Hbi Hcase.
  unfold DiffusionOperatorQ1._assemble in H.
  destruct (quadrature _ _) as [qp w].
  inv_bind H. rename x into G. inv_bind H. rename x into SF_INTS.
  inv_bind H. rewrite Hbi in E1. inv_some. inv_bind H.
  rewrite (row_sum_treated _ _ _ _ _ _ _ _ _ _ E1 H Hcase).
  set (g := DiffusionOperatorQ1.grid op) in *.
  destruct (grid_ok_spec g Hok) as (Hdim & HS & _ & _ & HJ & _ & Hrows & _).
  destruct (grad_call_sum_zero _ _ _ E) as (Hre & HGl & _ & HG).
  rewrite Hre in Hrows. change (n_local square) with 4%nat in Hrows.
  assert (Hzero : Rsum (map (pick_row r)
                    (zip3 (ravel (np_repeat_axis1 (subentities g 0 (dim g)) 4))
                          (ravel (np_tile_axis1 (subentities g 0 (dim g)) 4))
                          SF_INTS)) = 0).
  { assert (Hgen : forall h k,
              (forall e p q i c, h e p q i c
                 = get4 (einsum_eij_pjc (jacobian_inverse_transposed g 0) G) e p i c
                   * get4 (einsum_eij_pjc (jacobian_inverse_transposed g 0) G) e q i c * k e c) ->
              Rsum (map (pick_row r)
                (zip3 (ravel (np_repeat_axis1 (subentities g 0 (dim g)) 4))
                      (ravel (np_tile_axis1 (subentities g 0 (dim g)) 4))
                      (ravel3 (tabulate (length (einsum_eij_pjc (jacobian_inverse_transposed g 0) G))
                         (fun e => tabulate (dim2 (einsum_eij_pjc (jacobian_inverse_transposed g 0) G))
                           (fun p => tabulate (dim2 (einsum_eij_pjc (jacobian_inverse_transposed g 0) G))
                             (fun q => sum_n (dim3 (einsum_eij_pjc (jacobian_inverse_transposed g 0) G))
                                (fun i => sum_n (length w) (fun c => h e p q i c))))))))) = 0).
    { intros h k Hh.
      destruct (stiffness_Q1_rows (jacobian_inverse_transposed g 0) G (length w) h k HG
                  ltac:(lia) Hh) as (HT1 & HT2 & HT3).
      rewrite HGl in HT2, HT3. rewrite zip3_scatter.
      - apply pick_row_scatter_zero with (n := 4%nat); assumption.
      - rewrite HT1. lia.
      - exact Hrows.
      - exact HT2. }
    destruct (DiffusionOperatorQ1.diffusion_function op) as [d|]; cbn [scalar_valued] in Hsc.
    - rewrite Hsc in E0. inv_bind E0. inv_some.
      match goal with
      | HD : as_scalars _ = Some ?D |- _ =>
          apply (Hgen _ (fun e c => get1 w c * get1 (integration_elements g 0) e * get1 D e))
      end.
      intros; ring.
    - inv_some. apply (Hgen _ (fun e c => get1 w c * get1 (integration_elements g 0) e)).
      intros; ring. }
  destruct (DiffusionOperatorQ1.diffusion_constant op) as [c|]; cbn [scale_by].
  - rewrite pick_row_zip3_scale, Hzero. lra.
  - exact Hzero.
Qed.

(** C3: on a well-formed grid, with a scalar diffusion coefficient (and
    any diffusion constant), every row of the stiffness matrix sums to
    zero when no Dirichlet treatment is applied (the boundary info has no
    Dirichlet DOFs); and with the Dirichlet rows cleared (columns kept)
    every non-Dirichlet row still sums to zero. *)
Theorem stiffness_row_sums_zero (quadrature : Quadrature) (op : BilinearOperator)
    (mu : Params) (A : sparse) (bi : BoundaryInfo) (r : nat) :
  grid_ok (op_grid op) = true ->
  scalar_diffusion_operator op ->
  assemble quadrature op mu = Some A ->
  op_boundary_info op = Some bi ->
  has_dirichlet bi = false
  \/ (op_clear_columns op = false
      /\ ~ In r (dirichlet_boundaries bi (dim (op_grid op)))) ->
  row_sum A r = 0.
Proof.
  destruct op as [o|o|o|o|o|o]; cbn [scalar_diffusion_operator]; try contradiction.
  - intros. eapply DiffusionOperatorP1_row_sum; eassumption.
  - intros. eapply DiffusionOperatorQ1_row_sum; eassumption.
Qed.

Lemma stiffness_row_sums_zero_witness :
  exists A, assemble reference_quadrature (OpDiffusionP1 laplace_rows_cleared) [] = Some A
            /\ row_sum A 1 = 0.
Proof.
  eexists. split; [reflexivity|].
  apply (stiffness_row_sums_zero reference_quadrature (OpDiffusionP1 laplace_rows_cleared) []
           _ dirichlet_at_0 1%nat); try reflexivity.
  right. split; [reflexivity|]. simpl. intros [H | []]. discriminate H.
Defined.

(* ------------------------------------------------------------------ *)
(** ** Bilinear sums over the stored entries *)

Lemma sum_n_pick (n m : nat) (g : nat -> nat -> R) (t : nat * nat * R) :
  (fst (fst t) < n)%nat -> (snd (fst t) < m)%nat ->
  sum_n n (fun i => sum_n m (fun j => g i j * pick i j t))
  = g (fst (fst t)) (snd (fst t)) * snd t.
Proof.
  destruct t as [[r c] v]. cbn [fst snd]. intros Hr Hc.
  rewrite (sum_n_ext _ _ (fun i => if (i =? r)%nat then g i c * v else 0)).
  - apply (sum_n_single n r (fun i => g i c * v)). exact Hr.
  - intros i Hi. unfold pick. rewrite (Nat.eqb_sym r i). destruct (i =? r)%nat.
    + cbn [andb].
      rewrite (sum_n_ext _ _ (fun j => if (j =? c)%nat then g i j * v else 0)).
      * apply (sum_n_single m c (fun j => g i j * v)). exact Hc.
      * intros j _. rewrite (Nat.eqb_sym c j). destruct (j =? c)%nat; ring.
    + cbn [andb]. apply sum_n_zero. intros; ring.
Qed.

(** A double sum against the entries of the matrix is a single sum over
    the stored entries. *)
Lemma bilinear_sum_entries (A : sparse) (g : nat -> nat -> R) :
  Forall (fun t => (fst (fst t) < fst (shape A))%nat /\ (snd (fst t) < snd (shape A))%nat)
         (entries A) ->
  sum_n (fst (shape A)) (fun i => sum_n (snd (shape A)) (fun j => g i j * entry A i j))
  = Rsum (map (fun t => g (fst (fst t)) (snd (fst t)) * snd t) (entries A)).
Proof.
  intros Hin. unfold entry.
  induction (entries A) as [|t l IH].
  - cbn [map Rsum fold_right]. apply sum_n_zero. intros i _. apply sum_n_zero. intros; ring.
  - inversion Hin as [|? ? [Hr Hc] Hl]; subst. cbn [map]. rewrite Rsum_cons.
    rewrite <- IH by exact Hl. rewrite <- (sum_n_pick _ _ g t Hr Hc).
    rewrite <- sum_n_plus. apply sum_n_ext. intros i _.
    rewrite <- sum_n_plus. apply sum_n_ext. intros j _.
    rewrite Rsum_cons. ring.
Qed.

Lemma quad_form_entries (A : sparse) (x : list R) :
  Forall (fun t => (fst (fst t) < fst (shape A))%nat /\ (snd (fst t) < snd (shape A))%nat)
         (entries A) ->
  quad_form A x
  = Rsum (map (fun t => get1 x (fst (fst t)) * get1 x (snd (fst t)) * snd t) (entries A)).
Proof.
  intros Hin. rewrite <- (bilinear_sum_entries A (fun i j => get1 x i * get1 x j) Hin).
  unfold quad_form. apply sum_n_ext. intros i _. apply sum_n_ext. intros j _. ring.
Qed.

Lemma entry_as_bilinear (A : sparse) (i j : nat) :
  entry A i j
  = Rsum (map (fun t => (if ((fst (fst t) =? i) && (snd (fst t) =? j))%nat then 1 else 0)
                        * snd t) (entries A)).
Proof.
  unfold entry. apply Rsum_map_ext. intros [[r c] v] _. unfold pick. cbn [fst snd].
  destruct ((r =? i)%nat && (c =? j)%nat); ring.
Qed.

Lemma combine_tabulate {A B} (s : list A) (d : A) (n : nat) (f : nat -> B) :
  length s = n ->
  combine s (tabulate n f) = tabulate n (fun k => (nth k s d, f k)).
Proof.
  revert n f. induction s as [|a s IH]; intros n f Hn; subst n; [reflexivity|].
  cbn [length]. rewrite !tabulate_S. cbn [combine nth]. f_equal.
  apply IH. reflexivity.
Qed.

(** A weighted sum over the scattered local blocks [m e p q], written
    with indices. *)
Lemma Rsum_scatter_tabulate (phi : nat -> nat -> R) (S : list (list nat)) (n : nat)
    (m : nat -> nat -> nat -> R) :
  Forall (fun s => length s = n) S ->
  Rsum (map (fun t => phi (fst (fst t)) (snd (fst t)) * snd t)
          (scatter S (tabulate (length S) (fun e => tabulate n (fun p => tabulate n (m e p))))))
  = sum_n (length S) (fun e => sum_n n (fun p => sum_n n (fun q =>
      phi (dof S e p) (dof S e q) * m e p q))).
Proof.
  intros HS. rewrite Rsum_scatter.
  rewrite (combine_tabulate S [] (length S) _ eq_refl).
  unfold sum_n at 1. unfold tabulate at 1 4. rewrite map_map.
  apply Rsum_map_ext. intros e He. cbn [fst snd].
  apply in_seq in He.
  assert (Hs : length (nth e S []) = n).
  { rewrite Forall_forall in HS. apply HS. apply nth_In. lia. }
  rewrite (combine_tabulate (nth e S []) 0%nat n _ Hs).
  unfold sum_n at 1. unfold tabulate at 1 3. rewrite map_map.
  apply Rsum_map_ext. intros p _. cbn [fst snd].
  rewrite (combine_tabulate (nth e S []) 0%nat n _ Hs).
  unfold sum_n, tabulate. rewrite map_map. reflexivity.
Qed.

(* ------------------------------------------------------------------ *)
(** ** The mass matrix *)

Lemma Rsum_filter_nonzero (g : nat * nat * R -> R) (l : list (nat * nat * R)) :
  Rsum (map (fun t => g t * snd t) (filter (fun t => Rnonzero (snd t)) l))
  = Rsum (map (fun t => g t * snd t) l).
Proof.
  induction l as [|t l IH]; [reflexivity|].
  cbn [filter]. unfold Rnonzero at 1. destruct (Req_dec_T (snd t) 0) as [H0 | Hne]; cbn [map].
  - rewrite Rsum_cons, IH, H0. lra.
  - rewrite !Rsum_cons, IH. reflexivity.
Qed.

Lemma cleared_both_sum (mask : list bool) (phi : nat -> nat -> R)
    (I0 I1 : list nat) (m1 m2 : list bool) (a : list R) :
  fancy mask I0 = Some m1 -> fancy mask I1 = Some m2 ->
  Rsum (map (fun t => phi (fst (fst t)) (snd (fst t)) * snd t)
          (zip3 I0 I1 (np_where0 m2 (np_where0 m1 a))))
  = Rsum (map (fun t => phi (fst (fst t)) (snd (fst t))
                        * (keep true mask (fst (fst t)) * keep true mask (snd (fst t)))
                        * snd t)
          (zip3 I0 I1 a)).
Proof.
  revert I1 m1 m2 a. induction I0 as [|i I0 IH]; intros I1 m1 m2 a H1 H2; [reflexivity|].
  apply fancy_cons in H1. destruct H1 as (b1 & m1' & Hb1 & Hm1 & ->).
  destruct I1 as [|j I1]; [reflexivity|].
  apply fancy_cons in H2. destruct H2 as (b2 & m2' & Hb2 & Hm2 & ->).
  destruct a as [|x a]; [reflexivity|].
  cbn [np_where0 zip3 map fst snd]. rewrite !Rsum_cons.
  rewrite (IH I1 m1' m2' a Hm1 Hm2). f_equal.
  unfold keep. cbn [andb].
  rewrite (nth_error_nth _ _ false Hb1), (nth_error_nth _ _ false Hb2).
  destruct b1, b2; ring.
Qed.

Lemma diag_sum (phi : nat -> nat -> R) (DB : list nat) :
  Rsum (map (fun t => phi (fst (fst t)) (snd (fst t)) * snd t)
          (zip3 DB DB (repeat 1 (length DB))))
  = Rsum (map (fun d => phi d d) DB).
Proof.
  induction DB as [|d DB IH]; [reflexivity|].
  cbn [length repeat zip3 map fst snd]. rewrite !Rsum_cons, IH. ring.
Qed.

Lemma zip3_bounds (I0 I1 : list nat) (a : list R) (n m : nat) :
  Forall (fun i => (i < n)%nat) I0 -> Forall (fun j => (j < m)%nat) I1 ->
  Forall (fun t => (fst (fst t) < n)%nat /\ (snd (fst t) < m)%nat) (zip3 I0 I1 a).
Proof.
  revert I1 a. induction I0 as [|i I0 IH]; intros [|j I1] [|x a] H0 H1; simpl; try constructor.
  - inversion H0; inversion H1; subst. cbn [fst snd]. auto.
  - inversion H0; inversion H1; subst. apply IH; assumption.
Qed.

(** What a symmetric boundary treatment (rows and columns cleared
    together, or not at all) leaves in the assembled matrix. *)
Lemma symmetric_treatment_sum (g : Grid) (bi : BoundaryInfo) (b diag : bool)
    (a : list R) (I0 I1 : list nat) (SF : list R * list nat * list nat) (A : sparse)
    (phi : nat -> nat -> R) :
  boundary_treatment g bi b b diag a I0 I1 = Some SF ->
  assemble_system g SF = Some A ->
  Rsum (map (fun t => phi (fst (fst t)) (snd (fst t)) * snd t) (entries A))
  = Rsum (map (fun t => phi (fst (fst t)) (snd (fst t))
                        * (keep (has_dirichlet bi && b) (dirichlet_mask bi (dim g)) (fst (fst t))
                           * keep (has_dirichlet bi && b) (dirichlet_mask bi (dim g)) (snd (fst t)))
                        * snd t)
          (zip3 I0 I1 a))
    + Rsum (map (fun d => phi d d) (unit_dofs g bi b diag))
  /\ shape A = (size g (dim g), size g (dim g))
  /\ Forall (fun t => (fst (fst t) < size g (dim g))%nat /\ (snd (fst t) < size g (dim g))%nat)
            (entries A).
Proof.
  intros Hbt Hasm.
  assert (Hsys : forall a' I0' I1',
            assemble_system g (a', I0', I1') = Some A ->
            Rsum (map (fun t => phi (fst (fst t)) (snd (fst t)) * snd t) (entries A))
            = Rsum (map (fun t => phi (fst (fst t)) (snd (fst t)) * snd t) (zip3 I0' I1' a'))
            /\ shape A = (size g (dim g), size g (dim g))
            /\ Forall (fun t => (fst (fst t) < size g (dim g))%nat
                                /\ (snd (fst t) < size g (dim g))%nat) (entries A)
            /\ length I0' = length a' /\ length I1' = length a').
  { intros a' I0' I1' H. unfold assemble_system in H. inv_bind H. inv_some.
    apply coo_matrix_Some in E. destruct E as (-> & L0 & L1 & B0 & B1).
    cbn [eliminate_zeros entries shape fst snd] in *.
    split; [apply (Rsum_filter_nonzero (fun t => phi (fst (fst t)) (snd (fst t))))|].
    split; [reflexivity|]. split; [|auto].
    apply Forall_forall. intros t Ht. apply filter_In in Ht. destruct Ht as [Ht _].
    pose proof (zip3_bounds I0' I1' a' _ _ B0 B1) as HB.
    rewrite Forall_forall in HB. apply HB. exact Ht. }
  assert (Hplain : forall t : nat * nat * R,
            phi (fst (fst t)) (snd (fst t)) * snd t
            = phi (fst (fst t)) (snd (fst t))
              * (keep false (dirichlet_mask bi (dim g)) (fst (fst t))
                 * keep false (dirichlet_mask bi (dim g)) (snd (fst t))) * snd t).
  { intros t. unfold keep. cbn [andb]. ring. }
  unfold boundary_treatment in Hbt. unfold unit_dofs.
  destruct (has_dirichlet bi) eqn:Hd; cbn [andb].
  - destruct b; cbn [andb orb] in *.
    + inv_bind Hbt. inv_bind Hbt.
      apply clear_dirichlet_Some in E, E0.
      destruct E as (m1 & Hm1 & _ & ->). destruct E0 as (m2 & Hm2 & _ & ->).
      rewrite andb_true_r in Hbt. destruct (negb diag); inv_some.
      * destruct (Hsys _ _ _ Hasm) as (-> & Hsh & HB & L0 & L1).
        rewrite !length_app, repeat_length in L0, L1.
        rewrite zip3_app by lia. rewrite map_app, Rsum_app, diag_sum.
        rewrite (cleared_both_sum _ phi _ _ _ _ _ Hm1 Hm2). auto.
      * destruct (Hsys _ _ _ Hasm) as (-> & Hsh & HB & _).
        rewrite (cleared_both_sum _ phi _ _ _ _ _ Hm1 Hm2).
        cbn [map Rsum fold_right]. rewrite Rplus_0_r. auto.
    + cbn [bind] in Hbt. rewrite andb_false_r in Hbt. inv_some.
      destruct (Hsys _ _ _ Hasm) as (-> & Hsh & HB & _).
      cbn [map Rsum fold_right]. rewrite Rplus_0_r.
      split; [apply Rsum_map_ext; intros; apply Hplain | auto].
  - inv_some. destruct (Hsys _ _ _ Hasm) as (-> & Hsh & HB & _).
    cbn [map Rsum fold_right]. rewrite Rplus_0_r.
    split; [apply Rsum_map_ext; intros; apply Hplain | auto].
Qed.

Lemma sum_n_nonneg (n : nat) (f : nat -> R) :
  (forall k, (k < n)%nat -> 0 <= f k) -> 0 <= sum_n n f.
Proof.
  intros H. unfold sum_n. apply Rsum_nonneg. intros x Hx.
  apply tabulate_In in Hx. destruct Hx as (k & Hk & ->). apply H. exact Hk.
Qed.

Lemma sum_n_pos (n k0 : nat) (f : nat -> R) :
  (forall k, (k < n)%nat -> 0 <= f k) -> (k0 < n)%nat -> 0 < f k0 -> 0 < sum_n n f.
Proof.
  intros Hnn Hk0 Hpos.
  replace (sum_n n f)
    with (sum_n n (fun k => if (k =? k0)%nat then f k else 0)
          + sum_n n (fun k => if (k =? k0)%nat then 0 else f k)).
  - rewrite (sum_n_single n k0 f Hk0).
    assert (0 <= sum_n n (fun k => if (k =? k0)%nat then 0 else f k)).
    { apply sum_n_nonneg. intros k Hk. destruct (k =? k0)%nat; [lra | apply Hnn; exact Hk]. }
    lra.
  - rewrite <- sum_n_plus. apply sum_n_ext. intros k _. destruct (k =? k0)%nat; lra.
Qed.

Lemma sum_n_square (n : nat) (a : nat -> R) :
  sum_n n (fun p => sum_n n (fun q => a p * a q)) = sum_n n a * sum_n n a.
Proof.
  rewrite <- sum_n_scal_r. apply sum_n_ext. intros p _. apply sum_n_scal.
Qed.

Lemma Rsum_map_nonneg {A} (f : A -> R) (l : list A) :
  (forall a, In a l -> 0 <= f a) -> 0 <= Rsum (map f l).
Proof.
  intros H. apply Rsum_nonneg. intros x Hx. apply in_map_iff in Hx.
  destruct Hx as (a & <- & Ha). apply H. exact Ha.
Qed.

Lemma Rsum_map_pos {A} (f : A -> R) (l : list A) (a0 : A) :
  (forall a, In a l -> 0 <= f a) -> In a0 l -> 0 < f a0 -> 0 < Rsum (map f l).
Proof.
  induction l as [|a l IH]; intros Hnn Hin Hpos; [destruct Hin|].
  cbn [map]. rewrite Rsum_cons.
  assert (0 <= f a) by (apply Hnn; left; reflexivity).
  assert (0 <= Rsum (map f l)) by (apply Rsum_map_nonneg; intros; apply Hnn; right; assumption).
  destruct Hin as [-> | Hin]; [lra|].
  assert (0 < Rsum (map f l)) by (apply IH; [intros; apply Hnn; right; assumption | | ]; assumption).
  lra.
Qed.

(** The algebraic core of the mass-matrix properties: local blocks
    [kappa e * sum_k BF p k * BF q k * w k] scattered through [S] and
    treated symmetrically on the Dirichlet boundary. *)
Lemma mass_spd_core (g : Grid) (bi : BoundaryInfo) (b diag : bool)
    (S : list (list nat)) (n nw : nat) (BF : nat -> nat -> R) (w kappa : nat -> R)
    (h : nat -> nat -> nat -> nat -> R)
    (SF : list R * list nat * list nat) (A : sparse) :
  Forall (fun s => length s = n) S ->
  Forall (@NoDup nat) S ->
  (forall k, (k < nw)%nat -> 0 <= w k) ->
  (forall e, (e < length S)%nat -> 0 < kappa e) ->
  (forall p, (p < n)%nat -> 0 < sum_n nw (fun k => BF p k * BF p k * w k)) ->
  (forall i, (i < size g (dim g))%nat ->
     exists e p, (e < length S)%nat /\ (p < n)%nat /\ dof S e p = i) ->
  (has_dirichlet bi && b = true -> diag = false) ->
  (forall e p q k, h e p q k = BF p k * BF q k * w k * kappa e) ->
  boundary_treatment g bi b b diag
    (ravel3 (tabulate (length S) (fun e => tabulate n (fun p => tabulate n (fun q =>
               sum_n nw (fun k => h e p q k))))))
    (ravel (np_repeat_axis1 S n)) (ravel (np_tile_axis1 S n)) = Some SF ->
  assemble_system g SF = Some A ->
  (forall i j, entry A i j = entry A j i)
  /\ (forall x, 0 <= quad_form A x)
  /\ (forall i, (i < size g (dim g))%nat -> 0 < entry A i i).
Proof.
  intros HS Hnd Hw Hk Hq Hcov Hdiag Hh Hbt Hasm.
  set (K := keep (has_dirichlet bi && b) (dirichlet_mask bi (dim g))).
  set (m := fun e p q => sum_n nw (fun k => h e p q k)).
  assert (Hsum : forall phi,
            Rsum (map (fun t => phi (fst (fst t)) (snd (fst t)) * snd t) (entries A))
            = sum_n (length S) (fun e => sum_n n (fun p => sum_n n (fun q =>
                (phi (dof S e p) (dof S e q) * (K (dof S e p) * K (dof S e q))) * m e p q)))
              + Rsum (map (fun d => phi d d) (unit_dofs g bi b diag))).
  { intros phi.
    destruct (symmetric_treatment_sum _ _ _ _ _ _ _ _ _ phi Hbt Hasm) as (-> & _ & _).
    f_equal. rewrite zip3_scatter.
    - apply (Rsum_scatter_tabulate
               (fun r c => phi r c * (K r * K c)) S n
               (fun e p q => sum_n nw (fun k => h e p q k)) HS).
    - rewrite tabulate_length. reflexivity.
    - exact HS.
    - apply local_blocks_shape. }
  destruct (symmetric_treatment_sum _ _ _ _ _ _ _ _ _ (fun _ _ => 0) Hbt Hasm)
    as (_ & Hshape & Hbounds).
  assert (Hm_sym : forall e p q, m e p q = m e q p).
  { intros e p q. unfold m. apply sum_n_ext. intros k _. rewrite !Hh. ring. }
  assert (Hm_diag : forall e p, (e < length S)%nat -> (p < n)%nat -> 0 < m e p p).
  { intros e p He Hp. unfold m.
    rewrite (sum_n_ext _ _ (fun k => (BF p k * BF p k * w k) * kappa e))
      by (intros; rewrite Hh; ring).
    rewrite sum_n_scal_r. apply Rmult_lt_0_compat; [apply Hq | apply Hk]; assumption. }
  assert (HK : forall i, 0 <= K i).
  { intros i. unfold K, keep.
    match goal with |- context [if ?c then _ else _] => destruct c end; lra. }
  assert (Hdof : forall e p q, (e < length S)%nat -> (p < n)%nat -> (q < n)%nat ->
                               dof S e p = dof S e q -> p = q).
  { intros e p q He Hp Hq' Heq. rewrite Forall_forall in HS, Hnd.
    assert (Hin : In (nth e S []) S) by (apply nth_In; exact He).
    specialize (HS _ Hin). specialize (Hnd _ Hin).
    apply (proj1 (NoDup_nth (nth e S []) 0%nat) Hnd); [lia | lia | exact Heq]. }
  split; [|split].
  - (* symmetry *)
    intros i j. rewrite (entry_as_bilinear A i j), (entry_as_bilinear A j i).
    change (Rsum (map (fun t => ind i j (fst (fst t)) (snd (fst t)) * snd t) (entries A))
            = Rsum (map (fun t => ind j i (fst (fst t)) (snd (fst t)) * snd t) (entries A))).
    rewrite !Hsum. f_equal.
    + apply sum_n_ext. intros e _. rewrite sum_n_exchange.
      apply sum_n_ext. intros p _. apply sum_n_ext. intros q _.
      rewrite (Hm_sym e q p). unfold ind.
      rewrite (andb_comm (dof S e q =? i)%nat). ring.
    + apply Rsum_map_ext. intros d _. unfold ind. rewrite andb_comm. reflexivity.
  - (* positive semi-definite *)
    intros x. rewrite quad_form_entries by (rewrite Hshape; exact Hbounds).
    rewrite (Hsum (fun r c => get1 x r * get1 x c)).
    apply Rplus_le_le_0_compat.
    + apply sum_n_nonneg. intros e He.
      rewrite (sum_n_ext _ _ (fun p => sum_n n (fun q => sum_n nw (fun k =>
                 (kappa e * w k) * ((get1 x (dof S e p) * K (dof S e p) * BF p k)
                                    * (get1 x (dof S e q) * K (dof S e q) * BF q k)))))).
      2:{ intros p _. apply sum_n_ext. intros q _. unfold m. rewrite <- sum_n_scal.
          apply sum_n_ext. intros k _. rewrite Hh. ring. }
      rewrite (sum_n_ext _ _ (fun p => sum_n nw (fun k => sum_n n (fun q =>
                 (kappa e * w k) * ((get1 x (dof S e p) * K (dof S e p) * BF p k)
                                    * (get1 x (dof S e q) * K (dof S e q) * BF q k))))))
        by (intros; apply sum_n_exchange).
      rewrite sum_n_exchange. apply sum_n_nonneg. intros k Hk'.
      rewrite (sum_n_ext _ _ (fun p => (kappa e * w k) * sum_n n (fun q =>
                 (get1 x (dof S e p) * K (dof S e p) * BF p k)
                 * (get1 x (dof S e q) * K (dof S e q) * BF q k))))
        by (intros; apply sum_n_scal).
      rewrite sum_n_scal.
      rewrite (sum_n_square n (fun p => get1 x (dof S e p) * K (dof S e p) * BF p k)).
      apply Rmult_le_pos.
      * apply Rmult_le_pos; [apply Rlt_le, Hk; exact He | apply Hw; exact Hk'].
      * apply Rle_0_sqr.
    + apply Rsum_map_nonneg. intros d _. apply Rle_0_sqr.
  - (* positive diagonal *)
    intros i Hi. rewrite (entry_as_bilinear A i i).
    change (0 < Rsum (map (fun t => ind i i (fst (fst t)) (snd (fst t)) * snd t) (entries A))).
    rewrite Hsum.
    assert (Hterm : forall e p q, (e < length S)%nat -> (p < n)%nat -> (q < n)%nat ->
              0 <= ind i i (dof S e p) (dof S e q) * (K (dof S e p) * K (dof S e q)) * m e p q).
    { intros e p q He Hp Hq'. unfold ind.
      destruct (Nat.eqb_spec (dof S e p) i) as [E1|]; cbn [andb]; [|lra].
      destruct (Nat.eqb_spec (dof S e q) i) as [E2|]; [|lra].
      assert (p = q) by (apply (Hdof e); congruence). subst q.
      pose proof (Hm_diag e p He Hp). pose proof (HK (dof S e p)).
      assert (0 <= K (dof S e p) * K (dof S e p)) by (apply Rle_0_sqr). nra. }
    assert (Hfirst : 0 <= sum_n (length S) (fun e => sum_n n (fun p => sum_n n (fun q =>
              ind i i (dof S e p) (dof S e q) * (K (dof S e p) * K (dof S e q)) * m e p q)))).
    { apply sum_n_nonneg. intros e He. apply sum_n_nonneg. intros p Hp.
      apply sum_n_nonneg. intros q Hq'. apply Hterm; assumption. }
    assert (Hsecond : 0 <= Rsum (map (fun d => ind i i d d) (unit_dofs g bi b diag))).
    { apply Rsum_map_nonneg. intros d _. unfold ind.
      match goal with |- context [if ?c then _ else _] => destruct c end; lra. }
    destruct (in_dec Nat.eq_dec i (unit_dofs g bi b diag)) as [Hin | Hnin].
    + assert (0 < Rsum (map (fun d => ind i i d d) (unit_dofs g bi b diag))).
      { apply Rsum_map_pos with (a0 := i); [| exact Hin |].
        - intros d _. unfold ind.
      match goal with |- context [if ?c then _ else _] => destruct c end; lra.
        - unfold ind. rewrite Nat.eqb_refl. cbn [andb]. lra. }
      lra.
    + assert (HKi : K i = 1).
      { unfold K, keep. destruct (has_dirichlet bi && b) eqn:Hact; cbn [andb]; [|reflexivity].
        destruct (nth i (dirichlet_mask bi (dim g)) false) eqn:Hm; [|reflexivity].
        exfalso. apply Hnin. unfold unit_dofs. rewrite Hact, (Hdiag eq_refl). cbn [negb andb].
        apply dirichlet_boundaries_In.
        destruct (nth_error (dirichlet_mask bi (dim g)) i) as [bb|] eqn:Hne.
        - rewrite (nth_error_nth _ _ false Hne) in Hm. subst bb. reflexivity.
        - apply nth_error_None in Hne. rewrite nth_overflow in Hm by exact Hne. discriminate. }
      destruct (Hcov i Hi) as (e0 & p0 & He0 & Hp0 & Hd0).
      assert (0 < sum_n (length S) (fun e => sum_n n (fun p => sum_n n (fun q =>
                ind i i (dof S e p) (dof S e q) * (K (dof S e p) * K (dof S e q)) * m e p q)))).
      { apply sum_n_pos with (k0 := e0); [| exact He0 |].
        - intros e He. apply sum_n_nonneg. intros p Hp.
          apply sum_n_nonneg. intros q Hq'. apply Hterm; assumption.
        - apply sum_n_pos with (k0 := p0); [| exact Hp0 |].
          + intros p Hp. apply sum_n_nonneg. intros q Hq'. apply Hterm; assumption.
          + apply sum_n_pos with (k0 := p0); [| exact Hp0 |].
            * intros q Hq'. apply Hterm; assumption.
            * unfold ind. rewrite Hd0, Nat.eqb_refl, HKi. cbn [andb].
              pose proof (Hm_diag e0 p0 He0 Hp0). lra. }
      lra.
Qed.

Lemma as_scalars_positive (f : Function) (pts : list point) (mu : Params) (C : list R) :
  (forall x, In x pts -> exists v, evaluate f x mu = Scalar v /\ 0 < v) ->
  as_scalars (call f pts mu) = Some C ->
  forall e, (e < length pts)%nat -> 0 < get1 C e.
Proof.
  intros Hpos HC e He. apply as_scalars_call in HC. destruct HC as [_ HC].
  destruct (nth_error pts e) as [x|] eqn:Hx; [|apply nth_error_None in Hx; lia].
  assert (Hn : nth_error (map (fun x => evaluate f x mu) pts) e = Some (evaluate f x mu))
    by (rewrite nth_error_map, Hx; reflexivity).
  destruct (mapM_nth_error _ _ _ HC _ _ Hn) as (v & Hv & Hfv).
  destruct (Hpos x (nth_error_In _ _ Hx)) as (v' & Hev & Hv').
  rewrite Hev in Hfv. inversion Hfv; subst v'.
  unfold get1. rewrite (nth_error_nth _ _ 0 Hv). exact Hv'.
Qed.

(** The common body of [L2ProductP1._assemble] and [L2ProductQ1._assemble]. *)
Lemma mass_body_spd (g : Grid) (obi : option BoundaryInfo) (rows cols diag : bool)
    (cf : option Function) (mu : Params) (qw : list point * list R)
    (A : sparse) (bi : BoundaryInfo) :
  grid_ok g = true -> valid_geometry g ->
  coefficient_positive g cf mu ->
  Forall (fun x => 0 <= x) (snd qw) ->
  Forall (fun row => 0 < sum_n (length (snd qw))
                           (fun k => get1 row k * get1 row k * get1 (snd qw) k))
         (shape_values (reference_element g) (fst qw)) ->
  obi = Some bi ->
  has_dirichlet bi = false \/ (rows = cols /\ (rows = true -> diag = false)) ->
  (let '(q, w) := qw in
   let SF := shape_values (reference_element g) q in
   SF_INTS <- match cf with
              | Some c =>
                  C <- as_scalars (call c (centers g 0) mu) ;;
                  Some (ravel3 (einsum_iq_jq_q_e_e SF SF w (integration_elements g 0) C))
              | None =>
                  Some (ravel3 (einsum_iq_jq_q_e SF SF w (integration_elements g 0)))
              end ;;
   let SF_I0 := ravel (np_repeat_axis1 (subentities g 0 (dim g))
                         (n_local (reference_element g))) in
   let SF_I1 := ravel (np_tile_axis1 (subentities g 0 (dim g))
                         (n_local (reference_element g))) in
   bi <- obi ;;
   SF <- boundary_treatment g bi rows cols diag SF_INTS SF_I0 SF_I1 ;;
   assemble_system g SF) = Some A ->
  (forall i j, entry A i j = entry A j i)
  /\ (forall x, 0 <= quad_form A x)
  /\ (forall i, (i < size g (dim g))%nat -> 0 < entry A i i).
Proof.
  intros Hok (Hie & Hnd & Hcov) Hcf Hw Hq Hbi Hsym H.
  destruct qw as [q w]. cbn [fst snd] in *.
  set (n := n_local (reference_element g)) in *.
  inv_bind H. rename x into SF_INTS, E into ESF.
  inv_bind H. rewrite Hbi in E. inversion E; subst x; clear E.
  inv_bind H. rename x into SFr, E into Hbt0.
  destruct (grid_ok_spec g Hok) as (Hdim & HS & _ & Hiel & _ & Hcl & Hrows & _).
  set (S := subentities g 0 (dim g)) in *.
  set (SF := shape_values (reference_element g) q) in *.
  assert (HSFl : length SF = n).
  { unfold SF, shape_values. rewrite length_map. reflexivity. }
  assert (Hiel' : length (integration_elements g 0) = length S) by lia.
  (* bring the boundary treatment into the symmetric form *)
  assert (Hb : exists b, boundary_treatment g bi b b diag SF_INTS
                           (ravel (np_repeat_axis1 S n)) (ravel (np_tile_axis1 S n)) = Some SFr
                         /\ (has_dirichlet bi && b = true -> diag = false)).
  { destruct Hsym as [Hd | [-> Hdg]].
    - exists false. split; [|rewrite Hd; discriminate].
      unfold boundary_treatment in *. rewrite Hd in *. exact Hbt0.
    - exists cols. split; [exact Hbt0|]. intros Hact.
      apply andb_true_iff in Hact. apply Hdg. apply Hact. }
  destruct Hb as (b & Hbt & Hdiag).
  assert (Hgen : forall kappa h,
            (forall e, (e < length S)%nat -> 0 < kappa e) ->
            (forall e p q0 k, h e p q0 k
               = get2 SF p k * get2 SF q0 k * get1 w k * kappa e) ->
            SF_INTS = ravel3 (tabulate (length S) (fun e => tabulate n (fun p =>
                        tabulate n (fun q0 => sum_n (length w) (fun k => h e p q0 k))))) ->
            (forall i j, entry A i j = entry A j i)
            /\ (forall x, 0 <= quad_form A x)
            /\ (forall i, (i < size g (dim g))%nat -> 0 < entry A i i)).
  { intros kappa h Hk Hh ->.
    apply (mass_spd_core g bi b diag S n (length w) (get2 SF) (get1 w) kappa h SFr A).
    - exact Hrows.
    - exact Hnd.
    - intros k Hk'. rewrite Forall_forall in Hw. apply Hw. apply nth_In. exact Hk'.
    - exact Hk.
    - intros p Hp. rewrite Forall_forall in Hq.
      apply (Hq (nth p SF [])). apply nth_In. lia.
    - intros i Hi. destruct (Hcov i Hi) as (e & p & He & Hp & Hd).
      exists e, p. repeat split; [lia | lia | exact Hd].
    - exact Hdiag.
    - exact Hh.
    - exact Hbt.
    - exact H. }
  destruct cf as [c|]; cbn [coefficient_positive] in Hcf.
  - inv_bind ESF. inv_some. rename x into C, E into EC.
    apply (Hgen (fun e => get1 (integration_elements g 0) e * get1 C e)
                (fun e p q0 k => get2 SF p k * get2 SF q0 k * get1 w k
                                 * get1 (integration_elements g 0) e * get1 C e)).
    + intros e He. apply Rmult_lt_0_compat.
      * rewrite Forall_forall in Hie. apply Hie. apply nth_In. lia.
      * apply (as_scalars_positive c (centers g 0) mu C Hcf EC). lia.
    + intros; ring.
    + unfold einsum_iq_jq_q_e_e. rewrite Hiel', HSFl. reflexivity.
  - inv_some.
    apply (Hgen (fun e => get1 (integration_elements g 0) e)
                (fun e p q0 k => get2 SF p k * get2 SF q0 k * get1 w k
                                 * get1 (integration_elements g 0) e)).
    + intros e He. rewrite Forall_forall in Hie. apply Hie. apply nth_In. lia.
    + intros; ring.
    + unfold einsum_iq_jq_q_e. rewrite Hiel', HSFl. reflexivity.
Qed.

(** C7 (as amended): on a valid grid, with a quadrature rule of
    non-negative weights and an absent or positive coefficient function,
    the mass matrix assembled without Dirichlet treatment, or with rows
    and columns cleared together and the unit diagonal kept, is
    symmetric and positive semi-definite, and its diagonal entries are
    strictly positive. *)
Theorem mass_matrix_spd (quadrature : Quadrature) (op : BilinearOperator) (mu : Params)
    (A : sparse) (bi : BoundaryInfo) :
  grid_ok (op_grid op) = true ->
  valid_geometry (op_grid op) ->
  mass_operator op mu ->
  quadrature_positive quadrature (reference_element (op_grid op)) ->
  assemble quadrature op mu = Some A ->
  op_boundary_info op = Some bi ->
  symmetric_treatment op bi ->
  (forall i j, entry A i j = entry A j i)
  /\ (forall x, 0 <= quad_form A x)
  /\ (forall i, (i < size (op_grid op) (dim (op_grid op)))%nat -> 0 < entry A i i).
Proof.
  destruct op as [o|o|o|o|o|o]; cbn [mass_operator]; try (intros; contradiction);
    cbn [op_grid op_boundary_info assemble]; unfold symmetric_treatment;
    cbn [op_clear_rows op_clear_columns op_clear_diag];
    intros Hok Hgeo [Hre Hcf] [Hw Hq] H Hbi Hsym.
  - set (g := L2ProductP1.grid o) in *.
    assert (Hn : (dim g + 1)%nat = n_local (reference_element g)).
    { destruct (grid_ok_spec g Hok) as (-> & _).
      destruct (reference_element g); try reflexivity; discriminate Hre. }
    unfold L2ProductP1._assemble in H. fold g in H. rewrite Hn in H.
    apply (mass_body_spd g (L2ProductP1.boundary_info o) (L2ProductP1.dirichlet_clear_rows o)
             (L2ProductP1.dirichlet_clear_columns o) (L2ProductP1.dirichlet_clear_diag o)
             (L2ProductP1.coefficient_function o) mu
             (quadrature (reference_element g) 2%nat) A bi); assumption.
  - set (g := L2ProductQ1.grid o) in *.
    assert (Hsq : reference_element g = square).
    { destruct (reference_element g); try reflexivity; discriminate Hre. }
    unfold L2ProductQ1._assemble in H. fold g in H.
    change 4%nat with (n_local square) in H. rewrite <- Hsq in H.
    apply (mass_body_spd g (L2ProductQ1.boundary_info o) (L2ProductQ1.dirichlet_clear_rows o)
             (L2ProductQ1.dirichlet_clear_columns o) (L2ProductQ1.dirichlet_clear_diag o)
             (L2ProductQ1.coefficient_function o) mu
             (quadrature (reference_element g) 2%nat) A bi); assumption.
Qed.

Lemma one_triangle_valid : valid_geometry one_triangle.
Proof.
  split; [|split].
  - repeat constructor. simpl. lra.
  - repeat constructor; simpl; intuition lia.
  - intros i Hi. simpl in Hi. exists 0%nat, i. repeat split; [simpl; lia | exact Hi |].
    unfold dof. simpl. destruct i as [|[|[|i]]]; try reflexivity; lia.
Qed.

Lemma reference_quadrature_triangle_positive :
  quadrature_positive reference_quadrature triangle.
Proof.
  split; simpl.
  - repeat constructor; lra.
  - repeat constructor; unfold sum_n, tabulate, get1, coord; simpl; lra.
Qed.

Lemma mass_matrix_spd_witness :
  exists A, assemble reference_quadrature (OpL2ProductP1 mass_rows_columns_cleared) [] = Some A
            /\ (forall i j, entry A i j = entry A j i)
            /\ (forall x, 0 <= quad_form A x)
            /\ (forall i, (i < 3)%nat -> 0 < entry A i i).
Proof.
  eexists. split; [reflexivity|].
  apply (mass_matrix_spd reference_quadrature (OpL2ProductP1 mass_rows_columns_cleared) []
           _ dirichlet_at_0); try reflexivity.
  - exact one_triangle_valid.
  - split; [reflexivity | exact I].
  - exact reference_quadrature_triangle_positive.
  - right. split; [reflexivity | reflexivity].
Defined.

(** C7 (as stated) fails with the default flags: the Dirichlet row of
    vertex 0 is cleared, its column is not, so the entries (0, 1) and
    (1, 0) of the assembled mass matrix differ. *)
Lemma mass_matrix_asymmetric_counterexample :
  exists A, assemble reference_quadrature (OpL2ProductP1 mass_rows_cleared) [] = Some A
            /\ grid_ok one_triangle = true
            /\ entry A 0 1 = 0 /\ entry A 1 0 = 1 / 24
            /\ entry A 0 1 <> entry A 1 0.
Proof.
  eexists. split; [reflexivity|]. split; [reflexivity|].
  assert (E : forall A0, entry A0 0 1 = 0 -> entry A0 1 0 = 1 / 24 ->
                         entry A0 0 1 = 0 /\ entry A0 1 0 = 1 / 24 /\ entry A0 0 1 <> entry A0 1 0)
    by (intros A0 -> ->; repeat split; lra).
  apply E; rewrite entry_eliminate_zeros; unfold entry; cbn; unfold get1, get2, coord; cbn; lra.
Qed.

(* ------------------------------------------------------------------ *)
(** ** The fixed shape (3, 1) of the interpolated state *)

Lemma fancy_length {A} (a : list A) (I : list nat) (r : list A) :
  fancy a I = Some r -> length r = length I.
Proof. apply mapM_length. Qed.

Lemma fancy_In {A} (a : list A) (I : list nat) (r : list A) (x : A) :
  fancy a I = Some r -> In x r -> In x a.
Proof.
  revert r. induction I as [|i I IH]; intros r H Hin.
  - inversion H; subst. destruct Hin.
  - apply fancy_cons in H. destruct H as (b & r' & Hb & Hr & ->).
    destruct Hin as [<- | Hin]; [eapply nth_error_In; eassumption | eapply IH; eassumption].
Qed.

Lemma dim2_zeros_like2 {A} (a : list (list A)) : dim2 (zeros_like2 a) = dim2 a.
Proof. destruct a as [|row a]; [reflexivity|]. unfold dim2. simpl. apply length_map. Qed.

(** One pass through the loop body forces three quadrature points and
    three columns in the table that is filled. *)
Lemma element_loop_runs (f : Function) (mu : Params) (dofs : list R)
    (sub : list (list nat)) (SF : list (list R)) (e0 : nat) (rest : list nat)
    (table r : list (list R)) :
  element_loop f mu dofs sub SF (e0 :: rest) table = Some r ->
  dim2 table = 3%nat /\ dim2 SF = 3%nat.
Proof.
  unfold element_loop. cbn [for_each]. intros H.
  inv_bind H. clear H. rename E into H.
  inv_bind H. rename x0 into sub_e. inv_bind H. rename x0 into wert.
  inv_bind H. rename x0 into v.
  unfold interpolate in E0. inv_bind E0. inv_bind E0.
  unfold reshape_3_1 in E0. inv_bind E0. inv_some.
  apply Nat.eqb_eq in E4.
  unfold np_dot in E3. inv_bind E3. inv_some. rewrite tabulate_length in E4.
  assert (Hv : length v = 3%nat).
  { apply as_scalars_call in E1. destruct E1 as [_ E1]. apply mapM_length in E1.
    rewrite !length_map, tabulate_length in E1. lia. }
  unfold assign_row in H. inv_bind H. inv_bind H. inv_some.
  rewrite Hv in E5. apply orb_true_iff in E5. destruct E5 as [E5 | E5].
  - apply Nat.eqb_eq in E5. split; [symmetry; exact E5 | exact E4].
  - discriminate E5.
Qed.

Lemma three_shape_functions (re : ReferenceElement) :
  n_local re = 3%nat -> re = triangle.
Proof. destruct re; unfold n_local; simpl; intros H; try reflexivity; discriminate H. Qed.

Lemma grid_ok_columns (g : Grid) :
  grid_ok g = true -> dim2 (subentities g 0 (dim g)) = 3%nat ->
  reference_element g = triangle.
Proof.
  intros Hok H3. destruct (grid_ok_spec g Hok) as (_ & _ & _ & _ & _ & _ & Hrows & _).
  apply three_shape_functions.
  destruct (subentities g 0 (dim g)) as [|row S]; [discriminate H3|].
  inversion Hrows; subst. unfold dim2 in H3. simpl in H3. congruence.
Qed.

Lemma seq_nonempty (n : nat) : (0 < n)%nat -> seq 0 n = 0%nat :: seq 1 (n - 1).
Proof. intros H. destruct n; [lia|]. simpl. rewrite Nat.sub_0_r. reflexivity. Qed.

(** The loop over all elements of a non-empty well-formed grid succeeds
    only on a triangle grid. *)
Lemma full_loop_triangle (g : Grid) (f : Function) (mu : Params) (dofs : list R)
    (SF : list (list R)) (r : list (list R)) :
  grid_ok g = true -> (0 < size g 0)%nat ->
  element_loop f mu dofs (subentities g 0 (dim g)) SF (seq 0 (size g 0))
    (zeros_like2 (subentities g 0 (dim g))) = Some r ->
  reference_element g = triangle.
Proof.
  intros Hok Hpos H. rewrite (seq_nonempty _ Hpos) in H.
  apply element_loop_runs in H. destruct H as [H _].
  rewrite dim2_zeros_like2 in H. apply grid_ok_columns; assumption.
Qed.

(** The loop over the elements of non-zero weight succeeds only on a
    triangle grid, when there is such an element. *)
Lemma weighted_loop_triangle (g : Grid) (f : Function) (mu : Params) (dofs : list R)
    (SF : list (list R)) (NZ : list nat) (sub : list (list nat)) (r : list (list R)) :
  grid_ok g = true -> NZ <> [] ->
  fancy (subentities g 0 (dim g)) NZ = Some sub ->
  element_loop f mu dofs sub SF (seq 0 (length NZ)) (zeros_like2 sub) = Some r ->
  reference_element g = triangle.
Proof.
  intros Hok Hne Hsub H.
  assert (Hpos : (0 < length NZ)%nat) by (destruct NZ; [contradiction | simpl; lia]).
  rewrite (seq_nonempty _ Hpos) in H.
  apply element_loop_runs in H. destruct H as [H _]. rewrite dim2_zeros_like2 in H.
  destruct (grid_ok_spec g Hok) as (_ & _ & _ & _ & _ & _ & Hrows & _).
  apply three_shape_functions.
  destruct sub as [|row sub]; [discriminate H|].
  rewrite Forall_forall in Hrows. rewrite <- (Hrows row).
  - exact H.
  - apply (fancy_In _ _ _ _ Hsub). left. reflexivity.
Qed.

(** C10 (as amended): no constructor of the nonlinear operator or of the
    functionals checks the reference element; yet on a well-formed grid
    with at least one element, [apply] and [jacobian] of
    [NonlinearReactionOperator] and of [quadratic_functional] return a
    result only if the reference element is the triangle, and so do
    [apply] and [jacobian] of [element_quadratic_functional] whenever
    some element has a non-zero weight [rho]. *)
Theorem reshape_3_1_only_triangle (quadrature : Quadrature) (g : Grid) :
  grid_ok g = true -> (0 < size g 0)%nat ->
  (forall bi rc rf rfd, NonlinearReactionOperator.__init__ g bi rc rf rfd <> None)
  /\ (forall u_d mu_d, quadratic_functional.__init__ g u_d mu_d <> None)
  /\ (forall u_d mu_d rho, element_quadratic_functional.__init__ g u_d mu_d rho <> None)
  /\ (forall op U mu ec r,
        NonlinearReactionOperator.grid op = g ->
        NonlinearReactionOperator.apply quadrature op U mu ec = Some r ->
        reference_element g = triangle)
  /\ (forall op U mu ec r,
        NonlinearReactionOperator.grid op = g ->
        NonlinearReactionOperator.jacobian quadrature op U mu ec = Some r ->
        reference_element g = triangle)
  /\ (forall op U mu ec r,
        quadratic_functional.grid op = g ->
        quadratic_functional.apply quadrature op U mu ec = Some r ->
        reference_element g = triangle)
  /\ (forall op U mu ec r,
        quadratic_functional.grid op = g ->
        quadratic_functional.jacobian quadrature op U mu ec = Some r ->
        reference_element g = triangle)
  /\ (forall op U mu r,
        element_quadratic_functional.grid op = g ->
        NonZeroIndices (element_quadratic_functional.rho op) <> [] ->
        element_quadratic_functional.apply quadrature op U mu = Some r ->
        reference_element g = triangle)
  /\ (forall op U mu r,
        element_quadratic_functional.grid op = g ->
        NonZeroIndices (element_quadratic_functional.rho op) <> [] ->
        element_quadratic_functional.jacobian quadrature op U mu = Some r ->
        reference_element g = triangle).
Proof.
  intros Hok Hpos.
  split; [discriminate|]. split; [discriminate|]. split; [discriminate|].
  split; [|split; [|split; [|split; [|split]]]].
  - intros op U mu ec r <- H. unfold NonlinearReactionOperator.apply in H.
    destruct (quadrature _ _) as [q w]. inv_bind H. inv_bind H.
    eapply full_loop_triangle; eassumption.
  - intros op U mu ec r <- H. unfold NonlinearReactionOperator.jacobian in H.
    destruct (quadrature _ _) as [q w]. inv_bind H. inv_bind H.
    eapply full_loop_triangle; eassumption.
  - intros op U mu ec r <- H. unfold quadratic_functional.apply in H.
    destruct (quadrature _ _) as [q w]. inv_bind H. inv_bind H.
    eapply full_loop_triangle; eassumption.
  - intros op U mu ec r <- H. unfold quadratic_functional.jacobian in H.
    destruct (quadrature _ _) as [q w]. inv_bind H. inv_bind H.
    eapply full_loop_triangle; eassumption.
  - intros op U mu r <- Hnz H. unfold element_quadratic_functional.apply in H.
    destruct (quadrature _ _) as [q w]. inv_bind H. inv_bind H. inv_bind H.
    eapply weighted_loop_triangle; eassumption.
  - intros op U mu r <- Hnz H. unfold element_quadratic_functional.jacobian in H.
    destruct (quadrature _ _) as [q w]. inv_bind H. inv_bind H. inv_bind H.
    eapply weighted_loop_triangle; eassumption.
Qed.

Lemma reshape_3_1_only_triangle_witness :
  (forall bi rc rf rfd, NonlinearReactionOperator.__init__ one_triangle bi rc rf rfd <> None)
  /\ (forall u_d mu_d, quadratic_functional.__init__ one_triangle u_d mu_d <> None)
  /\ (forall u_d mu_d rho,
        element_quadratic_functional.__init__ one_triangle u_d mu_d rho <> None)
  /\ (forall op U mu ec r,
        NonlinearReactionOperator.grid op = one_triangle ->
        NonlinearReactionOperator.apply reference_quadrature op U mu ec = Some r ->
        reference_element one_triangle = triangle)
  /\ (forall op U mu ec r,
        NonlinearReactionOperator.grid op = one_triangle ->
        NonlinearReactionOperator.jacobian reference_quadrature op U mu ec = Some r ->
        reference_element one_triangle = triangle)
  /\ (forall op U mu ec r,
        quadratic_functional.grid op = one_triangle ->
        quadratic_functional.apply reference_quadrature op U mu ec = Some r ->
        reference_element one_triangle = triangle)
  /\ (forall op U mu ec r,
        quadratic_functional.grid op = one_triangle ->
        quadratic_functional.jacobian reference_quadrature op U mu ec = Some r ->
        reference_element one_triangle = triangle)
  /\ (forall op U mu r,
        element_quadratic_functional.grid op = one_triangle ->
        NonZeroIndices (element_quadratic_functional.rho op) <> [] ->
        element_quadratic_functional.apply reference_quadrature op U mu = Some r ->
        reference_element one_triangle = triangle)
  /\ (forall op U mu r,
        element_quadratic_functional.grid op = one_triangle ->
        NonZeroIndices (element_quadratic_functional.rho op) <> [] ->
        element_quadratic_functional.jacobian reference_quadrature op U mu = Some r ->
        reference_element one_triangle = triangle).
Proof.
  apply (reshape_3_1_only_triangle reference_quadrature one_triangle).
  - reflexivity.
  - simpl. lia.
Defined.

(** On the one-triangle grid the operator returns a result ... *)
Example apply_on_triangle :
  exists A, NonlinearReactionOperator.apply reference_quadrature
              (reaction_on one_triangle dirichlet_at_0) [1; 2; 3] [] false = Some (Plain A).
Proof. eexists. reflexivity. Qed.

Example jacobian_on_triangle :
  exists A, NonlinearReactionOperator.jacobian reference_quadrature
              (reaction_on one_triangle dirichlet_at_0) [1; 2; 3] [] false = Some (Plain A).
Proof. eexists. reflexivity. Qed.

Lemma Rnonzero_0 : Rnonzero 0 = false.
Proof. unfold Rnonzero. destruct (Req_dec_T 0 0) as [_ | H]; [reflexivity | contradiction]. Qed.

Lemma Rnonzero_1 : Rnonzero 1 = true.
Proof. unfold Rnonzero. destruct (Req_dec_T 1 0) as [H | _]; [lra | reflexivity]. Qed.

(** C10 (as stated) fails for [element_quadratic_functional.apply] when
    every weight is zero: the element loop is not entered, and on the
    one-element line grid the call returns the value 0. *)
Lemma zero_weights_counterexample :
  grid_ok one_interval = true
  /\ reference_element one_interval = line
  /\ element_quadratic_functional.apply reference_quadrature
       (element_quadratic_functional.Build_t one_interval [0; 0] [0] [0]) [1; 2] [1] = Some 0.
Proof.
  split; [reflexivity|]. split; [reflexivity|].
  unfold element_quadratic_functional.apply, NonZeroIndices.
  cbn [element_quadratic_functional.rho map]. rewrite Rnonzero_0. reflexivity.
Qed.

(* ------------------------------------------------------------------ *)
(** ** Construction-time assertions *)

(** C4 (the code departs from it): the Q1 classes reject the line grid in
    their constructors, but [NonlinearReactionOperator.__init__] has no
    assertion: on the one-element line grid the operator is constructed,
    and the failure comes from [np.reshape(wert, (3, 1))] inside [apply]
    and [jacobian].  Likewise [L2ProductP1.__init__] accepts a missing
    boundary info although the Dirichlet rows are to be cleared, and
    [_assemble] fails. *)
Theorem nonlinear_operator_unchecked_reference_element :
  L2ProductQ1.__init__ one_interval (Some dirichlet_at_0) true false false None = None
  /\ DiffusionOperatorQ1.__init__ one_interval (Some dirichlet_at_0) None None false false = None
  /\ NonlinearReactionOperator.__init__ one_interval (Some dirichlet_at_0)
       (constant_one 1) identity_reaction (constant_one 1)
     = Some (reaction_on one_interval dirichlet_at_0)
  /\ NonlinearReactionOperator.apply reference_quadrature
       (reaction_on one_interval dirichlet_at_0) [1; 2] [] false = None
  /\ NonlinearReactionOperator.jacobian reference_quadrature
       (reaction_on one_interval dirichlet_at_0) [1; 2] [] false = None
  /\ L2ProductP1.__init__ one_triangle None true false false None
     = Some (L2ProductP1.Build_t one_triangle None true false false None)
  /\ L2ProductP1._assemble reference_quadrature
       (L2ProductP1.Build_t one_triangle None true false false None) [] = None.
Proof. repeat split; reflexivity. Qed.

(* ------------------------------------------------------------------ *)
(** ** The functional and its element form *)

Lemma where_from_all_true (k n : nat) : where_from k (repeat true n) = seq k n.
Proof. revert k. induction n as [|n IH]; intros k; simpl; [reflexivity | rewrite IH; reflexivity]. Qed.

Lemma NonZeroIndices_ones (n : nat) : NonZeroIndices (repeat 1 n) = seq 0 n.
Proof.
  unfold NonZeroIndices, np_where1. rewrite map_repeat, Rnonzero_1.
  apply where_from_all_true.
Qed.

Lemma fancy_seq_from {A} (pre l : list A) :
  fancy (pre ++ l) (seq (length pre) (length l)) = Some l.
Proof.
  revert pre. induction l as [|a l IH]; intros pre; [reflexivity|].
  unfold fancy in *. cbn [length seq mapM].
  rewrite nth_error_app2 by lia. rewrite Nat.sub_diag. cbn [nth_error bind].
  specialize (IH (pre ++ [a])). rewrite <- app_assoc, length_app in IH. cbn [length app] in IH.
  rewrite Nat.add_1_r in IH. rewrite IH. reflexivity.
Qed.

Lemma fancy_seq {A} (l : list A) : fancy l (seq 0 (length l)) = Some l.
Proof. apply (fancy_seq_from [] l). Qed.

Lemma set_nth_length {A} (k : nat) (l : list A) (x : A) : length (set_nth k l x) = length l.
Proof.
  revert k. induction l as [|y l IH]; intros k; [destruct k; reflexivity|].
  destruct k; simpl; [reflexivity | rewrite IH; reflexivity].
Qed.

Lemma element_loop_length (f : Function) (mu : Params) (dofs : list R)
    (sub : list (list nat)) (SF : list (list R)) (elements : list nat)
    (table r : list (list R)) :
  element_loop f mu dofs sub SF elements table = Some r -> length r = length table.
Proof.
  unfold element_loop. revert table. induction elements as [|e l IH]; intros table H.
  - inversion H. reflexivity.
  - cbn [for_each] in H. inv_bind H. apply IH in H. rewrite H.
    inv_bind E. inv_bind E. inv_bind E. unfold assign_row in E.
    inv_bind E. inv_bind E. inv_some. apply set_nth_length.
Qed.

(** With unit weights the weighted sum of the element terms is the
    global value, because the volume fractions add up to one. *)
Lemma unit_weights_sum (S v : list R) (V N : R) :
  length S = length v -> V = Rsum v -> V <> 0 ->
  Rsum (map (fun rsv => fst (fst rsv) * (0.5 * snd (fst rsv) + 0.5 * snd rsv / V * N))
          (combine (combine (repeat 1 (length S)) S) v))
  = 0.5 * Rsum S + 0.5 * N.
Proof.
  intros Hl HV Hne.
  assert (G : Rsum (map (fun rsv => fst (fst rsv)
                                    * (0.5 * snd (fst rsv) + 0.5 * snd rsv / V * N))
                     (combine (combine (repeat 1 (length S)) S) v))
              = 0.5 * Rsum S + 0.5 * Rsum v / V * N).
  { clear HV. revert v Hl. induction S as [|s S IH]; intros [|x v] Hl; simpl in Hl;
      try discriminate.
    - cbn [length repeat combine map Rsum fold_right]. unfold Rdiv. lra.
    - cbn [length repeat combine map fst snd]. rewrite !Rsum_cons, (IH v) by lia.
      unfold Rdiv. lra. }
  rewrite G, <- HV. replace (0.5 * V / V) with 0.5; [reflexivity|].
  unfold Rdiv. rewrite Rmult_assoc, Rinv_r by exact Hne. lra.
Qed.

(** C6: on a well-formed grid of non-zero total volume,
    [element_quadratic_functional.apply] with [rho] all ones returns a
    value exactly when [quadratic_functional.apply] does, and the two
    values are equal (in exact arithmetic). *)
Theorem element_functional_equals_global (quadrature : Quadrature) (g : Grid)
    (u_d : list R) (mu_d : Params) (U : list R) (mu : Params) (A : R) :
  grid_ok g = true ->
  Rsum (volumes g 0) <> 0 ->
  element_quadratic_functional.apply quadrature
    (element_quadratic_functional.Build_t g u_d mu_d (repeat 1 (size g 0))) U mu = Some A
  <-> quadratic_functional.apply quadrature (quadratic_functional.Build_t g u_d mu_d)
        U mu false = Some (Plain A).
Proof.
  intros Hok HV.
  destruct (grid_ok_spec g Hok) as (_ & HS & Hvol & _).
  unfold element_quadratic_functional.apply, quadratic_functional.apply.
  cbn [element_quadratic_functional.grid element_quadratic_functional.rho
       element_quadratic_functional.u_d element_quadratic_functional.mu_d
       quadratic_functional.grid quadratic_functional.u_d quadratic_functional.mu_d].
  rewrite NonZeroIndices_ones, length_seq.
  destruct (quadrature (reference_element g) 2%nat) as [q w].
  rewrite <- HS at 1. rewrite fancy_seq. cbn [bind].
  destruct (np_sub U u_d) as [dofs|]; cbn [bind]; [|split; discriminate].
  destruct (element_loop quadatric_function [] dofs (subentities g 0 (dim g))
              (shape_values (reference_element g) q) (seq 0 (size g 0))
              (zeros_like2 (subentities g 0 (dim g)))) as [F|] eqn:EF; cbn [bind];
    [|split; discriminate].
  assert (EV : fancy (volumes g 0) (seq 0 (size g 0)) = Some (volumes g 0))
    by (rewrite <- Hvol; apply fancy_seq).
  assert (ER : fancy (repeat 1 (size g 0)) (seq 0 (size g 0)) = Some (repeat 1 (size g 0))).
  { pose proof (fancy_seq (repeat 1 (size g 0))) as ER. rewrite repeat_length in ER. exact ER. }
  rewrite EV. cbn [bind].
  destruct (np_sub mu mu_d) as [diff|]; cbn [bind]; [|split; discriminate].
  rewrite ER. cbn [bind].
  assert (HF : length F = size g 0).
  { apply element_loop_length in EF. unfold zeros_like2 in EF.
    rewrite length_map in EF. lia. }
  assert (HSI : length (einsum_ei_e_i F (volumes g 0) w) = length (volumes g 0)).
  { unfold einsum_ei_e_i. rewrite tabulate_length. lia. }
  rewrite HSI, Nat.eqb_refl, repeat_length, Hvol, Nat.eqb_refl. cbn [andb assert bind].
  replace (size g 0) with (length (einsum_ei_e_i F (volumes g 0) w)) by lia.
  rewrite (unit_weights_sum _ _ (Rsum (volumes g 0)) (norm_squared diff) HSI eq_refl HV).
  split; intros H; inversion H; reflexivity.
Qed.

Lemma element_functional_equals_global_witness :
  element_quadratic_functional.apply reference_quadrature
    (element_quadratic_functional.Build_t one_triangle [0; 0; 0] [1] [1]) [1; 2; 3] [3]
  = Some (25 / 48 + 2)
  <-> quadratic_functional.apply reference_quadrature
        (quadratic_functional.Build_t one_triangle [0; 0; 0] [1]) [1; 2; 3] [3] false
      = Some (Plain (25 / 48 + 2)).
Proof.
  apply (element_functional_equals_global reference_quadrature one_triangle
           [0; 0; 0] [1] [1; 2; 3] [3] (25 / 48 + 2)).
  - reflexivity.
  - simpl. lra.
Defined.

(** The value of the functional in this example: the L2 term 25/48 and
    the parameter term 2. *)
Example functional_on_triangle :
  exists A, quadratic_functional.apply reference_quadrature
              (quadratic_functional.Build_t one_triangle [0; 0; 0] [1]) [1; 2; 3] [3] false
            = Some (Plain A)
            /\ A = 25 / 48 + 2.
Proof.
  eexists. split; [reflexivity|].
  unfold norm_squared, einsum_ei_e_i, sum_n, tabulate, get2, get1, coord. cbn.
  replace ((3 - 1) * (3 - 1) + 0) with (2 * 2) by lra.
  rewrite sqrt_square by lra. lra.
Qed.

(* ------------------------------------------------------------------ *)
(** ** The Robin boundary operator *)

(** C8 (as amended): on a grid of dimension at most 2, when the
    boundary info is missing or has no Robin boundary, or [robin_data] is
    [None], the assembly returns the empty sparse matrix of shape
    size(dim) x size(dim): every entry is zero. *)
Theorem robin_absent_zero_matrix (quadrature : Quadrature) (op : RobinBoundaryOperator.t)
    (mu : Params) :
  (dim (RobinBoundaryOperator.grid op) <= 2)%nat ->
  RobinBoundaryOperator.robin_data op = None
  \/ RobinBoundaryOperator.boundary_info op = None
  \/ (exists bi, RobinBoundaryOperator.boundary_info op = Some bi /\ has_robin bi = false) ->
  exists A,
    RobinBoundaryOperator._assemble quadrature op mu = Some A
    /\ shape A = (size (RobinBoundaryOperator.grid op) (dim (RobinBoundaryOperator.grid op)),
                  size (RobinBoundaryOperator.grid op) (dim (RobinBoundaryOperator.grid op)))
    /\ entries A = []
    /\ (forall i j, entry A i j = 0).
Proof.
  intros Hdim Hcase.
  exists (coo_empty (size (RobinBoundaryOperator.grid op) (dim (RobinBoundaryOperator.grid op)),
                     size (RobinBoundaryOperator.grid op) (dim (RobinBoundaryOperator.grid op)))).
  split; [|repeat split].
  unfold RobinBoundaryOperator._assemble.
  destruct (Nat.ltb_spec 2 (dim (RobinBoundaryOperator.grid op))) as [Hgt | _]; [lia|].
  destruct Hcase as [Hr | [Hb | (bi & Hb & Hrobin)]].
  - rewrite Hr. destruct (RobinBoundaryOperator.boundary_info op); reflexivity.
  - rewrite Hb. reflexivity.
  - rewrite Hb, Hrobin. destruct (RobinBoundaryOperator.robin_data op) as [[c ?]|]; reflexivity.
Qed.

Lemma robin_absent_zero_matrix_witness :
  exists A,
    RobinBoundaryOperator._assemble reference_quadrature robin_absent [] = Some A
    /\ shape A = (3%nat, 3%nat)
    /\ entries A = []
    /\ (forall i j, entry A i j = 0).
Proof.
  apply (robin_absent_zero_matrix reference_quadrature robin_absent []).
  - simpl. lia.
  - left. reflexivity.
Defined.

(** C8 (as stated) fails on a grid of dimension 3: the operator is
    constructed without Robin data, on a boundary info without Robin
    boundaries, and the assembly raises NotImplementedError before it
    looks at either. *)
Lemma robin_3d_counterexample :
  has_robin (no_boundary 4) = false
  /\ RobinBoundaryOperator.__init__ grid_3d (Some (no_boundary 4)) None
     = Some (RobinBoundaryOperator.Build_t grid_3d (Some (no_boundary 4)) None)
  /\ RobinBoundaryOperator._assemble reference_quadrature
       (RobinBoundaryOperator.Build_t grid_3d (Some (no_boundary 4)) None) [] = None.
Proof. repeat split; reflexivity. Qed.

(* ------------------------------------------------------------------ *)
(** ** The element form of the nonlinear operator, in exact arithmetic *)

Lemma for_each_ext {St} (l : list nat) (f g : nat -> St -> option St) (s : St) :
  (forall e s', In e l -> f e s' = g e s') -> for_each l f s = for_each l g s.
Proof.
  revert s. induction l as [|e l IH]; intros s H; [reflexivity|].
  cbn [for_each]. rewrite (H e s) by (left; reflexivity).
  destruct (g e s) as [s'|]; cbn [bind]; [|reflexivity].
  apply IH. intros e' s'' Hin. apply H. right. exact Hin.
Qed.

Lemma tabulate_ext {A} (n : nat) (f g : nat -> A) :
  (forall k, (k < n)%nat -> f k = g k) -> tabulate n f = tabulate n g.
Proof.
  intros H. unfold tabulate. apply map_ext_in. intros k Hk. apply in_seq in Hk. apply H. lia.
Qed.

Lemma vadd_vscale_tabulate (n : nat) (c : R) (f g : nat -> R) :
  vadd (tabulate n f) (vscale c (tabulate n g)) = tabulate n (fun i => f i + c * g i).
Proof.
  unfold vadd, vscale, tabulate.
  induction (seq 0 n) as [|k l IH]; [reflexivity|]. simpl. f_equal. exact IH.
Qed.

(** *** Slices of the flat arrays *)

Lemma firstn_add {A} (k m : nat) (l : list A) :
  firstn (k + m) l = firstn k l ++ firstn m (skipn k l).
Proof.
  revert l. induction k as [|k IH]; intros l; [reflexivity|].
  destruct l as [|x l]; [simpl; rewrite firstn_nil; reflexivity|].
  simpl. f_equal. apply IH.
Qed.

Lemma zip3_firstn (n : nat) (r c : list nat) (d : list R) :
  zip3 (firstn n r) (firstn n c) (firstn n d) = firstn n (zip3 r c d).
Proof.
  revert r c d. induction n as [|n IH]; intros r c d; [reflexivity|].
  destruct r as [|i r]; [reflexivity|]. destruct c as [|j c]; [reflexivity|].
  destruct d as [|v d]; [reflexivity|]. simpl. f_equal. apply IH.
Qed.

Lemma zip3_skipn (n : nat) (r c : list nat) (d : list R) :
  length r = length d -> length c = length d ->
  zip3 (skipn n r) (skipn n c) (skipn n d) = skipn n (zip3 r c d).
Proof.
  revert r c d. induction n as [|n IH]; intros r c d Hr Hc; [reflexivity|].
  destruct r as [|i r]; destruct c as [|j c]; destruct d as [|v d];
    simpl in Hr, Hc; try discriminate; [reflexivity|].
  simpl. apply IH; lia.
Qed.

Lemma slice_zip3 (lo hi : nat) (r c : list nat) (d : list R) :
  length r = length d -> length c = length d ->
  zip3 (slice r lo hi) (slice c lo hi) (slice d lo hi) = slice (zip3 r c d) lo hi.
Proof.
  intros Hr Hc. unfold slice. rewrite zip3_firstn, zip3_skipn by assumption. reflexivity.
Qed.

(** The slices [z[k*e : k*(e+1)]] for [e] in [range(n)] make up [z]. *)
Lemma slices_from {A} (k : nat) (z : list A) (s n : nat) :
  flat_map (fun e => slice z (k * e) (k * (e + 1))) (seq s n)
  = firstn (k * n) (skipn (k * s) z).
Proof.
  revert s. induction n as [|n IH]; intros s.
  - rewrite Nat.mul_0_r. reflexivity.
  - cbn [seq flat_map]. rewrite IH. unfold slice.
    replace (k * (s + 1) - k * s)%nat with k by lia.
    replace (k * S n)%nat with (k + k * n)%nat by lia.
    rewrite firstn_add, skipn_skipn.
    replace (k + k * s)%nat with (k * S s)%nat by lia. reflexivity.
Qed.

Lemma slices_cover {A} (k : nat) (z : list A) (n : nat) :
  length z = (k * n)%nat ->
  flat_map (fun e => slice z (k * e) (k * (e + 1))) (seq 0 n) = z.
Proof.
  intros H. rewrite slices_from, Nat.mul_0_r. cbn [skipn]. rewrite <- H. apply firstn_all.
Qed.

Lemma slice_length {A} (z : list A) (lo hi : nat) :
  (hi <= length z)%nat -> length (slice z lo hi) = (hi - lo)%nat.
Proof. intros H. unfold slice. rewrite length_firstn, length_skipn. lia. Qed.

Lemma Forall_slice {A} (P : A -> Prop) (z : list A) (lo hi : nat) :
  Forall P z -> Forall P (slice z lo hi).
Proof.
  intros H. unfold slice.
  rewrite <- (firstn_skipn lo z) in H. apply Forall_app in H. destruct H as [_ H].
  rewrite <- (firstn_skipn (hi - lo) (skipn lo z)) in H. apply Forall_app in H. apply H.
Qed.

Lemma slice_map {A B} (f : A -> B) (z : list A) (lo hi : nat) :
  slice (map f z) lo hi = map f (slice z lo hi).
Proof. unfold slice. rewrite skipn_map, firstn_map. reflexivity. Qed.

Lemma map_const_3 {A} (s : list A) : length s = 3%nat -> map (fun _ => 0%nat) s = [0; 0; 0]%nat.
Proof. destruct s as [|a [|b [|c [|]]]]; intros H; try discriminate H. reflexivity. Qed.

Lemma concat_rows_length {A} (k : nat) (rows : list (list A)) :
  Forall (fun row => length row = k) rows -> length (concat rows) = (k * length rows)%nat.
Proof.
  induction 1 as [|row rows Hrow _ IH]; [simpl; lia|].
  cbn [concat length]. rewrite length_app, IH, Hrow. lia.
Qed.

Lemma coo_matrix_ok (data : list R) (row col : list nat) (shp : nat * nat) :
  length row = length data -> length col = length data ->
  Forall (fun i => (i < fst shp)%nat) row -> Forall (fun j => (j < snd shp)%nat) col ->
  coo_matrix data row col shp = Some {| shape := shp; entries := zip3 row col data |}.
Proof.
  intros Hr Hc Br Bc. unfold coo_matrix.
  apply Nat.eqb_eq in Hr, Hc. rewrite Hr, Hc. cbn [andb assert bind].
  assert (E1 : forallb (fun i => (i <? fst shp)%nat) row = true).
  { apply forallb_forall. intros i Hi. rewrite Forall_forall in Br.
    apply Nat.ltb_lt. apply Br. exact Hi. }
  assert (E2 : forallb (fun j => (j <? snd shp)%nat) col = true).
  { apply forallb_forall. intros j Hj. rewrite Forall_forall in Bc.
    apply Nat.ltb_lt. apply Bc. exact Hj. }
  rewrite E1, E2. reflexivity.
Qed.

Lemma einsum_ji_ei_e_e_i_rows (SF c_nl : list (list R)) (C vol w : list R) :
  length (einsum_ji_ei_e_e_i SF c_nl C vol w) = length c_nl
  /\ Forall (fun d => length d = length SF) (einsum_ji_ei_e_e_i SF c_nl C vol w).
Proof.
  unfold einsum_ji_ei_e_e_i. split; [apply tabulate_length|].
  apply Forall_forall. intros d Hd. unfold tabulate in Hd. apply in_map_iff in Hd.
  destruct Hd as (e & <- & _). apply tabulate_length.
Qed.

Lemma shape_values_length (re : ReferenceElement) (q : list point) :
  length (shape_values re q) = n_local re.
Proof. unfold shape_values, n_local. apply length_map. Qed.

(** *** The accumulation of the element vectors *)

Lemma accumulate_dense (N : nat) (B : nat -> sparse) (l : list nat) (f : nat -> R) :
  (forall e, In e l -> fst (shape (B e)) = N) ->
  for_each l (fun e A_e => add_dense A_e (vscale 1 (toarray1 (B e))))
    (DenseColumn (tabulate N f))
  = Some (DenseColumn (tabulate N (fun i => f i + Rsum (map (fun e => entry (B e) i 0) l)))).
Proof.
  revert f. induction l as [|e l IH]; intros f HB.
  - cbn [for_each map Rsum fold_right]. do 2 f_equal. apply tabulate_ext. intros; lra.
  - cbn [for_each]. unfold add_dense, toarray1, vscale. cbn [column_values].
    rewrite (HB e) by (left; reflexivity).
    rewrite length_map, !tabulate_length, Nat.eqb_refl. cbn [assert bind].
    fold (vscale 1 (tabulate N (fun i => entry (B e) i 0))).
    rewrite vadd_vscale_tabulate.
    change (for_each l (fun e A_e => add_dense A_e (vscale 1 (toarray1 (B e))))
              (DenseColumn (tabulate N (fun i => f i + 1 * entry (B e) i 0)))
            = Some (DenseColumn (tabulate N
                (fun i => f i + Rsum (map (fun e => entry (B e) i 0) (e :: l)))))).
    rewrite IH by (intros; apply HB; right; assumption).
    do 2 f_equal. apply tabulate_ext. intros i _. cbn [map]. rewrite Rsum_cons. lra.
Qed.

Lemma accumulate_elements (N : nat) (B : nat -> sparse) (e0 : nat) (l : list nat) :
  (forall e, In e (e0 :: l) -> fst (shape (B e)) = N) ->
  for_each (e0 :: l) (fun e A_e => add_dense A_e (vscale 1 (toarray1 (B e))))
    (SparseColumn (coo_empty (N, 1%nat)))
  = Some (DenseColumn (tabulate N (fun i => Rsum (map (fun e => entry (B e) i 0) (e0 :: l))))).
Proof.
  intros HB. cbn [for_each]. unfold add_dense at 1. cbn [column_values].
  unfold toarray1, vscale, coo_empty. cbn [shape fst]. rewrite (HB e0) by (left; reflexivity).
  rewrite length_map, !tabulate_length, Nat.eqb_refl. cbn [assert bind].
  fold (vscale 1 (tabulate N (fun i => entry (B e0) i 0))).
  rewrite vadd_vscale_tabulate.
  change (for_each l (fun e A_e => add_dense A_e (vscale 1 (toarray1 (B e))))
            (DenseColumn (tabulate N (fun i =>
               entry {| shape := (N, 1%nat); entries := [] |} i 0 + 1 * entry (B e0) i 0)))
          = Some (DenseColumn (tabulate N
              (fun i => Rsum (map (fun e => entry (B e) i 0) (e0 :: l)))))).
  rewrite accumulate_dense by (intros; apply HB; right; assumption).
  do 2 f_equal. apply tabulate_ext. intros i _. cbn [map]. rewrite Rsum_cons.
  unfold entry at 1. cbn [entries map Rsum fold_right]. lra.
Qed.

Lemma zip3_length (r c : list nat) (d : list R) :
  length r = length d -> length c = length d -> length (zip3 r c d) = length d.
Proof.
  revert c d. induction r as [|i r IH]; intros [|j c] [|v d] Hr Hc;
    simpl in *; try discriminate; [reflexivity|].
  f_equal. apply IH; lia.
Qed.

(** X1: with every weight equal to 1, on a well-formed grid with at least
    one element, [element_NonlinearReactionOperator.apply] and
    [NonlinearReactionOperator.apply] fail together or return the same
    vector, the numbers being real numbers.  The boundary info either has
    Dirichlet boundaries or lists no Dirichlet vertex. *)
Theorem element_apply_unit_weights (quadrature : Quadrature) (g : Grid) (bi : BoundaryInfo)
    (rc rf rfd : Function) (U : list R) (mu : Params) :
  grid_ok g = true -> (0 < size g 0)%nat ->
  (has_dirichlet bi = true \/ dirichlet_boundaries bi (dim g) = []) ->
  option_map Plain
    (element_NonlinearReactionOperator.apply quadrature
       (element_NonlinearReactionOperator.Build_t g (Some bi) rc rf rfd (repeat 1 (size g 0)))
       U mu)
  = NonlinearReactionOperator.apply quadrature
      (NonlinearReactionOperator.Build_t g (Some bi) rc rf rfd) U mu false.
Proof.
  intros Hok Hpos Hbi.
  unfold element_NonlinearReactionOperator.apply, NonlinearReactionOperator.apply.
  cbn [element_NonlinearReactionOperator.grid element_NonlinearReactionOperator.rho
       element_NonlinearReactionOperator.boundary_info
       element_NonlinearReactionOperator.reaction_coefficient
       element_NonlinearReactionOperator.reaction_function
       NonlinearReactionOperator.grid NonlinearReactionOperator.boundary_info
       NonlinearReactionOperator.reaction_coefficient
       NonlinearReactionOperator.reaction_function].
  rewrite NonZeroIndices_ones.
  destruct (quadrature (reference_element g) 2%nat) as [q w].
  destruct (as_scalars _) as [C|]; cbn [bind option_map]; [|reflexivity].
  destruct (element_loop _ _ _ _ _ _ _) as [c_nl|] eqn:Hloop; cbn [bind option_map];
    [|reflexivity].
  pose proof (full_loop_triangle _ _ _ _ _ _ Hok Hpos Hloop) as Hre.
  destruct (grid_ok_spec g Hok) as (_ & Hn & _ & _ & _ & _ & Hrows & Hbound).
  apply element_loop_length in Hloop.
  set (S := subentities g 0 (dim g)) in *.
  set (SF := shape_values (reference_element g) q).
  set (D := einsum_ji_ei_e_e_i SF c_nl C (volumes g 0) w).
  set (N := size g (dim g)) in *.
  set (n := size g 0) in *.
  assert (HS : length (ravel S) = (3 * n)%nat).
  { unfold ravel. rewrite (concat_rows_length 3), Hn; [reflexivity|].
    rewrite Hre in Hrows. exact Hrows. }
  assert (HD : length (ravel D) = (3 * n)%nat).
  { destruct (einsum_ji_ei_e_e_i_rows SF c_nl C (volumes g 0) w) as [HDl HDr].
    fold D in HDl, HDr. unfold ravel. rewrite (concat_rows_length 3).
    - rewrite HDl, Hloop. unfold zeros_like2. rewrite length_map, Hn. reflexivity.
    - unfold SF in HDr. rewrite shape_values_length, Hre in HDr. exact HDr. }
  assert (HB : Forall (fun i => (i < N)%nat) (ravel S)).
  { unfold ravel. apply Forall_concat. exact Hbound. }
  set (zeros := map (fun _ : nat => 0%nat) (ravel S)).
  assert (HZ : Forall (fun j => (j < 1)%nat) zeros).
  { unfold zeros. apply Forall_forall. intros j Hj. apply in_map_iff in Hj.
    destruct Hj as (_ & <- & _). lia. }
  rewrite (coo_matrix_ok (ravel D) (ravel S) zeros (N, 1%nat))
    by (unfold zeros; rewrite ?length_map; first [lia | assumption]).
  cbn [bind andb].
  set (z := zip3 (ravel S) zeros (ravel D)).
  set (B := fun e => {| shape := (N, 1%nat); entries := slice z (3 * e) (3 * (e + 1)) |}).
  rewrite (for_each_ext _ _ (fun e A_e => add_dense A_e (vscale 1 (toarray1 (B e))))).
  2:{ intros e A_e He. apply in_seq in He.
      rewrite nth_error_repeat by lia. cbn [bind].
      assert (E0 : [0; 0; 0]%nat = slice zeros (3 * e) (3 * (e + 1))).
      { unfold zeros. rewrite slice_map. symmetry. apply map_const_3.
        rewrite slice_length by lia. lia. }
      rewrite E0.
      rewrite coo_matrix_ok.
      - cbn [bind]. unfold B. rewrite slice_zip3 by (unfold zeros; rewrite ?length_map; lia).
        reflexivity.
      - rewrite !slice_length by lia. reflexivity.
      - unfold zeros. rewrite !slice_length by (rewrite ?length_map; lia). reflexivity.
      - apply Forall_slice. exact HB.
      - apply Forall_slice. exact HZ. }
  assert (Hsum : forall i,
            Rsum (map (fun e => entry (B e) i 0) (seq 0 n)) = Rsum (map (pick i 0%nat) z)).
  { intros i. unfold entry, B. cbn [entries].
    rewrite <- (Rsum_flat_map (pick i 0%nat) (fun e => slice z (3 * e) (3 * (e + 1)))).
    rewrite slices_cover; [reflexivity|].
    unfold z. rewrite zip3_length by (unfold zeros; rewrite ?length_map; lia). exact HD. }
  rewrite (seq_nonempty n Hpos) in *.
  rewrite (accumulate_elements N B) by (intros; reflexivity).
  cbn [bind set_rows_zero]. unfold toarray1. cbn [shape fst].
  replace (tabulate N (fun i => entry {| shape := (N, 1%nat); entries := z |} i 0))
    with (tabulate N (fun i => Rsum (map (fun e => entry (B e) i 0) (0%nat :: seq 1 (n - 1)))))
    by (apply tabulate_ext; intros i _; apply Hsum).
  destruct Hbi as [Hd | Hd].
  - rewrite Hd. destruct (set_zero _ _); reflexivity.
  - rewrite Hd. destruct (has_dirichlet bi); reflexivity.
Qed.

Lemma np_repeat_axis1_rows {A} (S : list (list A)) (L k : nat) :
  Forall (fun row => length row = L) S ->
  Forall (fun row => length row = (k * L)%nat) (np_repeat_axis1 S k).
Proof.
  intros H. unfold np_repeat_axis1. rewrite Forall_map.
  eapply Forall_impl; [|exact H]. intros row <-. clear H.
  induction row as [|x row IH]; [simpl; lia|].
  cbn [flat_map length]. rewrite length_app, repeat_length, IH. lia.
Qed.

Lemma np_tile_axis1_rows {A} (S : list (list A)) (L k : nat) :
  Forall (fun row => length row = L) S ->
  Forall (fun row => length row = (k * L)%nat) (np_tile_axis1 S k).
Proof.
  intros H. unfold np_tile_axis1. rewrite Forall_map.
  eapply Forall_impl; [|exact H]. intros row <-. clear H.
  induction k as [|k IH]; [reflexivity|].
  cbn [repeat concat]. rewrite length_app, IH. lia.
Qed.

Lemma np_repeat_axis1_bound {A} (P : A -> Prop) (S : list (list A)) (k : nat) :
  Forall (Forall P) S -> Forall P (ravel (np_repeat_axis1 S k)).
Proof.
  intros H. unfold ravel, np_repeat_axis1. apply Forall_concat. rewrite Forall_map.
  eapply Forall_impl; [|exact H]. intros row Hrow.
  apply Forall_flat_map. eapply Forall_impl; [|exact Hrow].
  intros x Hx. apply Forall_forall. intros y Hy. apply repeat_spec in Hy. subst y. exact Hx.
Qed.

Lemma np_tile_axis1_bound {A} (P : A -> Prop) (S : list (list A)) (k : nat) :
  Forall (Forall P) S -> Forall P (ravel (np_tile_axis1 S k)).
Proof.
  intros H. unfold ravel, np_tile_axis1. apply Forall_concat. rewrite Forall_map.
  eapply Forall_impl; [|exact H]. intros row Hrow.
  apply Forall_concat. apply Forall_forall. intros r Hr. apply repeat_spec in Hr.
  subst r. exact Hrow.
Qed.

Lemma ravel3_length (ne n : nat) (T : list (list (list R))) :
  length T = ne ->
  Forall (fun M => length M = n /\ Forall (fun v => length v = n) M) T ->
  length (ravel3 T) = (n * n * ne)%nat.
Proof.
  intros <- H. unfold ravel3. induction H as [|M T [HM Hv] _ IH]; [simpl; lia|].
  cbn [map concat length]. rewrite length_app, IH, (concat_rows_length n M Hv), HM. lia.
Qed.

Lemma sparse_scale_1 (B : sparse) : sparse_scale 1 B = B.
Proof.
  destruct B as [shp l]. unfold sparse_scale. cbn [shape entries]. f_equal.
  induction l as [|[ij v] l IH]; [reflexivity|].
  cbn [map fst snd]. rewrite IH, Rmult_1_l. reflexivity.
Qed.

Lemma accumulate_sparse (B : nat -> sparse) (l : list nat) (A : sparse) :
  (forall e, In e l -> shape (B e) = shape A) ->
  for_each l (fun e A_e_op => sparse_add A_e_op (sparse_scale 1 (B e))) A
  = Some {| shape := shape A; entries := entries A ++ flat_map (fun e => entries (B e)) l |}.
Proof.
  revert A. induction l as [|e l IH]; intros A HB.
  - cbn [for_each flat_map]. rewrite app_nil_r. destruct A; reflexivity.
  - cbn [for_each]. unfold sparse_add. rewrite sparse_scale_1, (HB e) by (left; reflexivity).
    rewrite !Nat.eqb_refl. cbn [andb assert bind].
    rewrite IH by (intros; cbn [shape]; apply HB; right; assumption).
    cbn [shape entries flat_map]. rewrite app_assoc. reflexivity.
Qed.

(** In the model a sum of sparse matrices keeps the stored entries of its
    summands, so that with unit weights the element form stores the
    entries of the global matrix. *)
Lemma element_jacobian_stored_entries (quadrature : Quadrature) (g : Grid) (bi : BoundaryInfo)
    (rc rf rfd : Function) (U : list R) (mu : Params) :
  grid_ok g = true ->
  option_map Plain
    (element_NonlinearReactionOperator.jacobian quadrature
       (element_NonlinearReactionOperator.Build_t g (Some bi) rc rf rfd (repeat 1 (size g 0)))
       U mu)
  = NonlinearReactionOperator.jacobian quadrature
      (NonlinearReactionOperator.Build_t g (Some bi) rc rf rfd) U mu false.
Proof.
  intros Hok.
  unfold element_NonlinearReactionOperator.jacobian, NonlinearReactionOperator.jacobian.
  cbn [element_NonlinearReactionOperator.grid element_NonlinearReactionOperator.rho
       element_NonlinearReactionOperator.boundary_info
       element_NonlinearReactionOperator.reaction_coefficient
       element_NonlinearReactionOperator.reaction_function_derivative
       NonlinearReactionOperator.grid NonlinearReactionOperator.boundary_info
       NonlinearReactionOperator.reaction_coefficient
       NonlinearReactionOperator.reaction_function_derivative].
  rewrite NonZeroIndices_ones.
  destruct (quadrature (reference_element g) 2%nat) as [q w].
  destruct (as_scalars _) as [C|]; cbn [bind option_map]; [|reflexivity].
  destruct (element_loop _ _ _ _ _ _ _) as [c_nl|] eqn:Hloop; cbn [bind option_map];
    [|reflexivity].
  destruct (grid_ok_spec g Hok) as (Hdim & Hn & _ & _ & _ & _ & Hrows & Hbound).
  set (S := subentities g 0 (dim g)) in *.
  set (SF := shape_values (reference_element g) q).
  set (T := einsum_pi_qi_ei_e_e_i SF SF c_nl C (volumes g 0) w).
  set (N := size g (dim g)) in *.
  set (n := size g 0) in *.
  set (SF_I0 := ravel (np_repeat_axis1 S (dim g + 1))).
  set (SF_I1 := ravel (np_tile_axis1 S (dim g + 1))).
  assert (H9 : n = 0%nat \/ (dim g = 2%nat /\ n_local (reference_element g) = 3%nat)).
  { destruct (Nat.eq_dec n 0) as [E | E]; [left; exact E | right].
    assert (Hre : reference_element g = triangle)
      by (eapply full_loop_triangle; [exact Hok | fold n; lia | exact Hloop]).
    rewrite Hdim, Hre. split; reflexivity. }
  assert (L0 : length SF_I0 = (9 * n)%nat).
  { unfold SF_I0, ravel.
    rewrite (concat_rows_length _ _ (np_repeat_axis1_rows S _ (dim g + 1) Hrows)).
    unfold np_repeat_axis1. rewrite length_map, Hn.
    destruct H9 as [-> | [-> ->]]; lia. }
  assert (L1 : length SF_I1 = (9 * n)%nat).
  { unfold SF_I1, ravel.
    rewrite (concat_rows_length _ _ (np_tile_axis1_rows S _ (dim g + 1) Hrows)).
    unfold np_tile_axis1. rewrite length_map, Hn.
    destruct H9 as [-> | [-> ->]]; lia. }
  assert (LT : length (ravel3 T) = (9 * n)%nat).
  { rewrite (ravel3_length n (length SF)).
    - unfold SF. rewrite shape_values_length. destruct H9 as [-> | [_ ->]]; lia.
    - unfold T, einsum_pi_qi_ei_e_e_i. rewrite tabulate_length.
      apply element_loop_length in Hloop. rewrite Hloop. unfold zeros_like2.
      rewrite length_map. exact Hn.
    - apply local_blocks_shape. }
  assert (B0 : Forall (fun i => (i < N)%nat) SF_I0)
    by (apply np_repeat_axis1_bound; exact Hbound).
  assert (B1 : Forall (fun i => (i < N)%nat) SF_I1)
    by (apply np_tile_axis1_bound; exact Hbound).
  destruct (if has_dirichlet bi then clear_dirichlet (dirichlet_mask bi (dim g)) SF_I0 (ravel3 T)
            else Some (ravel3 T)) as [a|] eqn:Ha; cbn [bind option_map]; [|reflexivity].
  assert (La : length a = (9 * n)%nat).
  { destruct (has_dirichlet bi).
    - apply clear_dirichlet_Some in Ha. destruct Ha as (m & _ & Hm & ->).
      rewrite np_where0_length by exact Hm. exact LT.
    - inversion Ha. subst a. exact LT. }
  rewrite (coo_matrix_ok a SF_I0 SF_I1 (N, N)) by first [lia | assumption].
  cbn [bind].
  set (z := zip3 SF_I0 SF_I1 a).
  set (B := fun e => {| shape := (N, N); entries := slice z (9 * e) (9 * (e + 1)) |}).
  rewrite (for_each_ext _ _ (fun e A_e_op => sparse_add A_e_op (sparse_scale 1 (B e)))).
  2:{ intros e A_e_op He. apply in_seq in He.
      rewrite nth_error_repeat by lia. cbn [bind].
      rewrite coo_matrix_ok.
      - cbn [bind]. unfold B. rewrite slice_zip3 by lia. reflexivity.
      - rewrite !slice_length by lia. reflexivity.
      - rewrite !slice_length by lia. reflexivity.
      - apply Forall_slice. exact B0.
      - apply Forall_slice. exact B1. }
  rewrite (accumulate_sparse B) by (intros; reflexivity).
  cbn [bind option_map]. unfold coo_empty. cbn [shape entries app].
  change (flat_map (fun e => entries (B e)) (seq 0 n))
    with (flat_map (fun e => slice z (9 * e) (9 * (e + 1))) (seq 0 n)).
  rewrite slices_cover; [reflexivity|].
  unfold z. rewrite zip3_length by lia. exact La.
Qed.

(** X2: with every weight equal to 1, on a well-formed grid,
    [element_NonlinearReactionOperator.jacobian] and
    [NonlinearReactionOperator.jacobian] fail together or return matrices
    of the same shape with the same value at every position, the numbers
    being real numbers. *)
Theorem element_jacobian_unit_weights (quadrature : Quadrature) (g : Grid) (bi : BoundaryInfo)
    (rc rf rfd : Function) (U : list R) (mu : Params) :
  grid_ok g = true ->
  match element_NonlinearReactionOperator.jacobian quadrature
          (element_NonlinearReactionOperator.Build_t g (Some bi) rc rf rfd
             (repeat 1 (size g 0))) U mu,
        NonlinearReactionOperator.jacobian quadrature
          (NonlinearReactionOperator.Build_t g (Some bi) rc rf rfd) U mu false with
  | Some A_e_op, Some (Plain A) => same_matrix A_e_op A
  | None, None => True
  | _, _ => False
  end.
Proof.
  intros Hok.
  rewrite <- (element_jacobian_stored_entries quadrature g bi rc rf rfd U mu Hok).
  destruct (element_NonlinearReactionOperator.jacobian _ _ _ _) as [A|]; cbn [option_map].
  - split; reflexivity.
  - exact I.
Qed.

Lemma element_apply_unit_weights_witness :
  option_map Plain
    (element_NonlinearReactionOperator.apply reference_quadrature
       (element_NonlinearReactionOperator.Build_t one_triangle (Some dirichlet_at_0)
          (constant_one 2) identity_reaction (constant_one 1) (repeat 1 (size one_triangle 0)))
       [1; 2; 3] [])
  = NonlinearReactionOperator.apply reference_quadrature
      (NonlinearReactionOperator.Build_t one_triangle (Some dirichlet_at_0)
         (constant_one 2) identity_reaction (constant_one 1)) [1; 2; 3] [] false.
Proof.
  apply (element_apply_unit_weights reference_quadrature one_triangle dirichlet_at_0).
  - reflexivity.
  - simpl. lia.
  - left. reflexivity.
Defined.

Lemma element_jacobian_unit_weights_witness :
  match element_NonlinearReactionOperator.jacobian reference_quadrature
          (element_NonlinearReactionOperator.Build_t one_triangle (Some dirichlet_at_0)
             (constant_one 2) identity_reaction (constant_one 1)
             (repeat 1 (size one_triangle 0))) [1; 2; 3] [],
        NonlinearReactionOperator.jacobian reference_quadrature
          (NonlinearReactionOperator.Build_t one_triangle (Some dirichlet_at_0)
             (constant_one 2) identity_reaction (constant_one 1)) [1; 2; 3] [] false with
  | Some A_e_op, Some (Plain A) => same_matrix A_e_op A
  | None, None => True
  | _, _ => False
  end.
Proof.
  apply (element_jacobian_unit_weights reference_quadrature one_triangle dirichlet_at_0).
  reflexivity.
Defined.

Lemma NonZeroIndices_zeros (n : nat) : NonZeroIndices (repeat 0 n) = [].
Proof.
  unfold NonZeroIndices, np_where1. rewrite map_repeat, Rnonzero_0.
  generalize 0%nat. induction n as [|n IH]; intros k; [reflexivity|]. simpl. apply IH.
Qed.

(** X3: when every weight is zero the loops of
    [element_NonlinearReactionOperator.apply] are not entered, the
    accumulator is still the empty sparse matrix, and clearing its
    Dirichlet rows fails: no vector is returned. *)
Theorem element_apply_zero_weights (quadrature : Quadrature) (g : Grid)
    (bi : option BoundaryInfo) (rc rf rfd : Function) (n : nat) (U : list R) (mu : Params) :
  element_NonlinearReactionOperator.apply quadrature
    (element_NonlinearReactionOperator.Build_t g bi rc rf rfd (repeat 0 n)) U mu = None.
Proof.
  unfold element_NonlinearReactionOperator.apply.
  cbn [element_NonlinearReactionOperator.grid element_NonlinearReactionOperator.rho
       element_NonlinearReactionOperator.boundary_info
       element_NonlinearReactionOperator.reaction_coefficient
       element_NonlinearReactionOperator.reaction_function].
  rewrite NonZeroIndices_zeros.
  destruct (quadrature (reference_element g) 2%nat) as [q w].
  destruct (as_scalars _) as [C|]; cbn [bind]; [|reflexivity].
  unfold element_loop. cbn [for_each bind].
  destruct bi as [bi|]; reflexivity.
Qed.

(* ------------------------------------------------------------------ *)
(** ** Assignments through an index array *)

Lemma nth_set_nth {A} (k : nat) (l : list A) (x : A) (i : nat) (d : A) :
  nth i (set_nth k l x) d = if ((i =? k) && (k <? length l))%nat then x else nth i l d.
Proof.
  revert k i. induction l as [|y l IH]; intros k i.
  - cbn [set_nth length]. rewrite andb_false_r. destruct k; reflexivity.
  - destruct k as [|k]; destruct i as [|i]; cbn [set_nth nth length]; try reflexivity.
    rewrite IH. reflexivity.
Qed.

Lemma set_zero_Some (a : list R) (DI : list nat) (a' : list R) :
  set_zero a DI = Some a' ->
  length a' = length a
  /\ (forall i, In i DI -> nth i a' 0 = 0)
  /\ (forall i, ~ In i DI -> nth i a' 0 = nth i a 0).
Proof.
  unfold set_zero. intros H. inv_bind H. inv_some.
  match goal with E : forallb _ _ = true |- _ => clear E end.
  revert a. induction DI as [|d DI IH]; intros a.
  - cbn [fold_left]. split; [reflexivity|]. split; [intros i [] | reflexivity].
  - cbn [fold_left]. destruct (IH (set_nth d a 0)) as (Hl & Hin & Hout).
    rewrite set_nth_length in Hl. split; [exact Hl|]. split.
    + intros i [-> | Hi]; [|apply Hin; exact Hi].
      destruct (in_dec Nat.eq_dec i DI) as [Hi | Hi]; [apply Hin; exact Hi|].
      rewrite Hout by exact Hi. rewrite nth_set_nth, Nat.eqb_refl. cbn [andb].
      destruct (i <? length a)%nat eqn:E; [reflexivity|].
      apply Nat.ltb_ge in E. apply nth_overflow. exact E.
    + intros i Hi. rewrite Hout by (intros Hc; apply Hi; right; exact Hc).
      rewrite nth_set_nth. destruct (Nat.eqb_spec i d) as [-> | _]; [|reflexivity].
      exfalso. apply Hi. left. reflexivity.
Qed.


Lemma assign_at_Some (a : list R) (DI : list nat) (values a' : list R) :
  assign_at a DI values = Some a' ->
  length values = length DI -> NoDup DI ->
  length a' = length a
  /\ (forall k d, nth_error DI k = Some d -> nth d a' 0 = nth k values 0)
  /\ (forall i, ~ In i DI -> nth i a' 0 = nth i a 0).
Proof.
  unfold assign_at. intros H. inv_bind H. inv_some.
  match goal with E : forallb _ _ = true |- _ => rename E into Hb end.
  revert a values Hb. induction DI as [|d DI IH]; intros a values Hb Hlen Hnd.
  - cbn [combine fold_left]. split; [reflexivity|]. split; [|reflexivity].
    intros k d Hk. destruct k; discriminate Hk.
  - destruct values as [|v values]; [discriminate Hlen|].
    cbn [combine fold_left fst snd]. cbn [forallb] in Hb.
    apply andb_true_iff in Hb. destruct Hb as [Hd Hb]. apply Nat.ltb_lt in Hd.
    inversion Hnd as [|? ? Hnotin Hnd']; subst.
    destruct (IH (set_nth d a v) values) as (Hl & Hin & Hout);
      [rewrite set_nth_length; exact Hb | simpl in Hlen; lia | exact Hnd' |].
    rewrite set_nth_length in Hl. split; [exact Hl|]. split.
    + intros k d' Hk. destruct k as [|k]; cbn [nth_error nth] in *.
      * inversion Hk; subst d'. rewrite Hout by exact Hnotin.
        rewrite nth_set_nth, Nat.eqb_refl. apply Nat.ltb_lt in Hd. rewrite Hd. reflexivity.
      * apply (Hin k d' Hk).
    + intros i Hi. rewrite Hout by (intros Hc; apply Hi; right; exact Hc).
      rewrite nth_set_nth. destruct (Nat.eqb_spec i d) as [-> | _]; [|reflexivity].
      exfalso. apply Hi. left. reflexivity.
Qed.

(* ------------------------------------------------------------------ *)
(** ** The Dirichlet functional and the interpolation operator *)

Lemma nth_error_In_index {A} (l : list A) (x : A) :
  In x l -> exists k, nth_error l k = Some x.
Proof. intros H. apply In_nth_error. exact H. Qed.

Lemma as_scalars_nth (f : Function) (points : list point) (mu : Params) (values : list R)
    (k : nat) (x : point) :
  as_scalars (call f points mu) = Some values ->
  nth_error points k = Some x ->
  evaluate f x mu = Scalar (nth k values 0).
Proof.
  intros H Hk. apply as_scalars_call in H. destruct H as [_ H].
  destruct (mapM_nth_error _ _ _ H k (evaluate f x mu)) as (b & Hb & Hv).
  { rewrite nth_error_map, Hk. reflexivity. }
  rewrite (nth_error_nth _ _ _ Hb). destruct (evaluate f x mu); inversion Hv. reflexivity.
Qed.

Lemma assemble_dirichlet_functional (self : BoundaryDirichletFunctional.t) (mu : Params)
    (bi : BoundaryInfo) (I : list R) :
  BoundaryDirichletFunctional._assemble self mu = Some I ->
  BoundaryDirichletFunctional.boundary_info self = Some bi ->
  let g := BoundaryDirichletFunctional.grid self in
  length I = size g (dim g)
  /\ (forall d, In d (dirichlet_boundaries bi (dim g)) ->
        exists x, nth_error (centers g (dim g)) d = Some x
                  /\ evaluate (BoundaryDirichletFunctional.dirichlet_data self) x mu
                     = Scalar (nth d I 0))
  /\ (forall i, ~ In i (dirichlet_boundaries bi (dim g)) -> nth i I 0 = 0).
Proof.
  intros H Hbi g. unfold BoundaryDirichletFunctional._assemble in H. fold g in H.
  rewrite Hbi in H. cbn [bind] in H.
  destruct (fancy (centers g (dim g)) (dirichlet_boundaries bi (dim g)))
    as [points|] eqn:Hp; cbn [bind] in H; [|discriminate H].
  destruct (as_scalars _) as [values|] eqn:Hv; cbn [bind] in H; [|discriminate H].
  assert (Hlen : length values = length (dirichlet_boundaries bi (dim g))).
  { apply as_scalars_call in Hv. destruct Hv as [_ Hv]. apply mapM_length in Hv.
    rewrite length_map in Hv.
    apply fancy_length in Hp. congruence. }
  destruct (assign_at_Some _ _ _ _ H Hlen (where_from_NoDup 0 _)) as (Hl & Hin & Hout).
  rewrite repeat_length in Hl. split; [exact Hl|]. split.
  - intros d Hd. destruct (nth_error_In_index _ _ Hd) as (k & Hk).
    destruct (mapM_nth_error _ _ _ Hp k d Hk) as (x & Hx & Hc).
    exists x. split; [exact Hc|].
    rewrite (Hin k d Hk). eapply as_scalars_nth; eassumption.
  - intros i Hi. rewrite (Hout i Hi). apply nth_repeat.
Qed.

(** X4: the vector of [BoundaryDirichletFunctional] has one entry per
    vertex; at a Dirichlet vertex it holds the value of the Dirichlet
    data at that vertex, everywhere else zero. *)
Theorem dirichlet_functional_values (self : BoundaryDirichletFunctional.t) (mu : Params)
    (bi : BoundaryInfo) (I : list R) :
  BoundaryDirichletFunctional._assemble self mu = Some I ->
  BoundaryDirichletFunctional.boundary_info self = Some bi ->
  let g := BoundaryDirichletFunctional.grid self in
  length I = size g (dim g)
  /\ (forall d, In d (dirichlet_boundaries bi (dim g)) ->
        exists x, nth_error (centers g (dim g)) d = Some x
                  /\ evaluate (BoundaryDirichletFunctional.dirichlet_data self) x mu
                     = Scalar (nth d I 0))
  /\ (forall i, ~ In i (dirichlet_boundaries bi (dim g)) -> nth i I 0 = 0).
Proof. exact (assemble_dirichlet_functional self mu bi I). Qed.

Lemma flat_map_scalars (f : Function) (points : list point) (mu : Params) :
  scalar_at f points mu ->
  forall k x, nth_error points k = Some x ->
    evaluate f x mu
    = Scalar (nth k (flat_map flatten_value (map (fun x => evaluate f x mu) points)) 0).
Proof.
  induction points as [|y points IH]; intros Hs k x Hk; [destruct k; discriminate Hk|].
  destruct (Hs y (or_introl eq_refl)) as (v & Hv).
  cbn [map flat_map]. rewrite Hv. cbn [flatten_value app].
  destruct k as [|k]; cbn [nth_error nth] in *.
  - inversion Hk; subst. exact Hv.
  - apply IH; [|exact Hk]. intros z Hz. apply Hs. right. exact Hz.
Qed.

(** X5: for Dirichlet data that is scalar at every vertex, the vector of
    [BoundaryDirichletFunctional] agrees with the vector of
    [InterpolationOperator] for the same function at the Dirichlet
    vertices, and is zero at the other vertices. *)
Theorem dirichlet_functional_interpolates (g : Grid) (f : Function) (bi : BoundaryInfo)
    (mu : Params) (I V : list R) (i : nat) :
  scalar_at f (centers g (dim g)) mu ->
  BoundaryDirichletFunctional._assemble
    (BoundaryDirichletFunctional.Build_t g f (Some bi)) mu = Some I ->
  InterpolationOperator._assemble (InterpolationOperator.Build_t g f) mu = Some V ->
  nth i I 0 = if in_dec Nat.eq_dec i (dirichlet_boundaries bi (dim g))
              then nth i V 0 else 0.
Proof.
  intros Hs HI HV.
  destruct (assemble_dirichlet_functional _ _ _ _ HI eq_refl) as (_ & Hin & Hout).
  cbn [BoundaryDirichletFunctional.grid BoundaryDirichletFunctional.dirichlet_data] in Hin, Hout.
  unfold InterpolationOperator._assemble in HV.
  cbn [InterpolationOperator.grid InterpolationOperator.function] in HV.
  inv_bind HV. apply call_Some in E. destruct E as [_ ->].
  inversion HV; subst V; clear HV.
  destruct (in_dec Nat.eq_dec i (dirichlet_boundaries bi (dim g))) as [Hd | Hd].
  - destruct (Hin i Hd) as (x & Hx & Hv).
    pose proof (flat_map_scalars f _ mu Hs i x Hx) as Hv'.
    rewrite Hv in Hv'. inversion Hv'. reflexivity.
  - apply Hout. exact Hd.
Qed.

(* ------------------------------------------------------------------ *)
(** ** The L2 functionals *)

Lemma ravel_toarray_row (n : nat) (l : list (nat * nat * R)) :
  ravel (toarray {| shape := (1%nat, n); entries := l |})
  = tabulate n (fun j => entry {| shape := (1%nat, n); entries := l |} 0 j).
Proof. unfold ravel, toarray. cbn [shape fst snd tabulate seq map concat]. apply app_nil_r. Qed.

Lemma assemble_l2_functional_clearing (quadrature : Quadrature) (g : Grid) (f : Function)
    (bi : BoundaryInfo) (obi : option BoundaryInfo) (mu : Params) (I : list R) :
  assemble_l2_functional quadrature g f true (Some bi) mu = Some I ->
  has_dirichlet bi = true ->
  exists I0,
    assemble_l2_functional quadrature g f false obi mu = Some I0
    /\ length I = size g (dim g)
    /\ length I0 = size g (dim g)
    /\ (forall d, In d (dirichlet_boundaries bi (dim g)) -> nth d I 0 = 0)
    /\ (forall i, ~ In i (dirichlet_boundaries bi (dim g)) -> nth i I 0 = nth i I0 0).
Proof.
  unfold assemble_l2_functional. intros H Hd.
  destruct (as_scalars _) as [F|]; cbn [bind] in *; [|discriminate H].
  destruct (quadrature (reference_element g) 1%nat) as [q w].
  destruct (coo_matrix _ _ _ _) as [A|] eqn:HA; cbn [bind] in *; [|discriminate H].
  rewrite Hd in H. eexists. split; [reflexivity|].
  apply coo_matrix_Some in HA. destruct HA as (-> & _).
  rewrite ravel_toarray_row in *.
  destruct (set_zero_Some _ _ _ H) as (Hl & Hin & Hout).
  rewrite tabulate_length in *. repeat split; assumption.
Qed.

(** The shape functions sum to 1 at every quadrature point. *)
Lemma shape_values_column_sum (re : ReferenceElement) (q : list point) (i : nat) :
  (i < length q)%nat ->
  sum_n (length (shape_values re q)) (fun p => get2 (shape_values re q) p i) = 1.
Proof.
  intros Hi. apply Nat.ltb_lt in Hi.
  destruct re; unfold sum_n, get2, shape_values;
    cbn [LagrangeShapeFunctions length seq map tabulate nth Rsum fold_right];
    rewrite !get1_map_any, Hi; ring.
Qed.

Lemma map_snd_zip3 (r c : list nat) (d : list R) :
  length r = length d -> length c = length d -> map snd (zip3 r c d) = d.
Proof.
  revert c d. induction r as [|i r IH]; intros [|j c] [|v d] Hr Hc;
    simpl in *; try discriminate; [reflexivity|].
  f_equal. apply IH; lia.
Qed.

Lemma Rsum_tabulate2 (n m : nat) (f : nat -> nat -> R) :
  Rsum (ravel (tabulate n (fun e => tabulate m (f e)))) = sum_n n (fun e => sum_n m (f e)).
Proof.
  unfold ravel, sum_n at 1. rewrite Rsum_concat. unfold tabulate at 1 3.
  rewrite map_map. reflexivity.
Qed.

Lemma sum_n_get1 (w : list R) : sum_n (length w) (get1 w) = Rsum w.
Proof. unfold sum_n. f_equal. symmetry. apply (tabulate_self w 0). Qed.

Lemma assemble_l2_functional_sum (quadrature : Quadrature) (g : Grid) (f : Function)
    (obi : option BoundaryInfo) (mu : Params) (I : list R) :
  length (fst (quadrature (reference_element g) 1%nat))
  = length (snd (quadrature (reference_element g) 1%nat)) ->
  assemble_l2_functional quadrature g f false obi mu = Some I ->
  exists F,
    as_scalars (call f (centers g 0) mu) = Some F
    /\ Rsum I = sum_n (length F) (fun e => get1 F e * get1 (integration_elements g 0) e)
                * Rsum (snd (quadrature (reference_element g) 1%nat)).
Proof.
  unfold assemble_l2_functional. intros Hq H.
  destruct (as_scalars _) as [F|]; cbn [bind] in *; [|discriminate H].
  exists F. split; [reflexivity|].
  destruct (quadrature (reference_element g) 1%nat) as [q w]. cbn [fst snd] in *.
  destruct (coo_matrix _ _ _ _) as [A|] eqn:HA; cbn [bind] in *; [|discriminate H].
  inversion H; subst I; clear H.
  apply coo_matrix_Some in HA. destruct HA as (-> & Hr & Hc & Br & Bc).
  rewrite ravel_toarray_row.
  set (A := {| shape := (1%nat, size g (dim g)); entries := _ |}).
  pose proof (bilinear_sum_entries A (fun _ _ => 1) (zip3_bounds _ _ _ _ _ Br Bc)) as HB.
  unfold A at 1 2 in HB. cbn [shape fst snd] in HB. unfold sum_n at 1 in HB.
  cbn [tabulate seq map Rsum fold_right] in HB.
  transitivity (sum_n (size g (dim g)) (fun j => 1 * entry A 0 j)).
  { unfold sum_n. f_equal. apply tabulate_ext. intros; lra. }
  rewrite Rplus_0_r in HB. rewrite HB. unfold A. cbn [entries].
  rewrite (Rsum_map_ext _ snd) by (intros; lra).
  rewrite map_snd_zip3 by assumption.
  unfold einsum_e_pi_e_i. rewrite Rsum_tabulate2.
  rewrite <- sum_n_scal_r. apply sum_n_ext. intros e He.
  rewrite sum_n_exchange.
  rewrite (sum_n_ext _ _ (fun i => get1 F e * get1 (integration_elements g 0) e * get1 w i)).
  - rewrite sum_n_scal, sum_n_get1. reflexivity.
  - intros i Hi.
    rewrite (sum_n_ext _ _ (fun p => get2 (shape_values (reference_element g) q) p i
                                      * (get1 F e * get1 (integration_elements g 0) e * get1 w i)))
      by (intros; ring).
    rewrite sum_n_scal_r, shape_values_column_sum by lia. ring.
Qed.

(** X6: when an L2 functional clears the Dirichlet DOFs, its vector is
    zero at every Dirichlet DOF and agrees at every other DOF with the
    vector assembled without clearing; both have one entry per vertex. *)
Theorem l2_functional_dirichlet_dofs (quadrature : Quadrature) (op : L2Functional)
    (mu : Params) (bi : BoundaryInfo) (I : list R) :
  assemble_functional quadrature op mu = Some I ->
  functional_clear_dofs op = true ->
  functional_boundary_info op = Some bi ->
  has_dirichlet bi = true ->
  let g := functional_grid op in
  exists I0,
    assemble_functional quadrature (functional_without_clearing op) mu = Some I0
    /\ length I = size g (dim g)
    /\ length I0 = size g (dim g)
    /\ (forall d, In d (dirichlet_boundaries bi (dim g)) -> nth d I 0 = 0)
    /\ (forall i, ~ In i (dirichlet_boundaries bi (dim g)) -> nth i I 0 = nth i I0 0).
Proof.
  destruct op as [o | o]; destruct o as [g f c obi];
    cbn [assemble_functional functional_clear_dofs functional_boundary_info functional_grid
         functional_without_clearing];
    unfold L2ProductFunctionalP1._assemble, L2ProductFunctionalQ1._assemble;
    cbn [L2ProductFunctionalP1.grid L2ProductFunctionalP1.function
         L2ProductFunctionalP1.dirichlet_clear_dofs L2ProductFunctionalP1.boundary_info
         L2ProductFunctionalQ1.grid L2ProductFunctionalQ1.function
         L2ProductFunctionalQ1.dirichlet_clear_dofs L2ProductFunctionalQ1.boundary_info];
    intros H -> -> Hd; eapply assemble_l2_functional_clearing; eassumption.
Qed.

Lemma l2_functional_dirichlet_dofs_witness :
  exists I,
    assemble_functional reference_quadrature (FunctionalP1 rhs_example) [] = Some I
    /\ exists I0,
         assemble_functional reference_quadrature
           (functional_without_clearing (FunctionalP1 rhs_example)) [] = Some I0
         /\ length I = 3%nat
         /\ length I0 = 3%nat
         /\ (forall d, In d (dirichlet_boundaries dirichlet_at_0 2) -> nth d I 0 = 0)
         /\ (forall i, ~ In i (dirichlet_boundaries dirichlet_at_0 2) -> nth i I 0 = nth i I0 0).
Proof.
  eexists. split; [reflexivity|].
  apply (l2_functional_dirichlet_dofs reference_quadrature (FunctionalP1 rhs_example) []
           dirichlet_at_0); reflexivity.
Defined.

(** X7: without Dirichlet clearing, for a quadrature rule with one weight
    per point, the entries of the vector of an L2 functional add up to
    the sum over the elements of the value of the function at the center
    times the integration element, times the sum of the weights: the
    shape functions sum to 1 at every quadrature point. *)
Theorem l2_functional_sum (quadrature : Quadrature) (op : L2Functional) (mu : Params)
    (I : list R) :
  let g := functional_grid op in
  length (fst (quadrature (reference_element g) 1%nat))
  = length (snd (quadrature (reference_element g) 1%nat)) ->
  functional_clear_dofs op = false ->
  assemble_functional quadrature op mu = Some I ->
  exists F,
    as_scalars (call (functional_function op) (centers g 0) mu) = Some F
    /\ Rsum I = sum_n (length F) (fun e => get1 F e * get1 (integration_elements g 0) e)
                * Rsum (snd (quadrature (reference_element g) 1%nat)).
Proof.
  destruct op as [o | o]; destruct o as [g f c obi];
    cbn [assemble_functional functional_clear_dofs functional_function functional_grid];
    unfold L2ProductFunctionalP1._assemble, L2ProductFunctionalQ1._assemble;
    cbn [L2ProductFunctionalP1.grid L2ProductFunctionalP1.function
         L2ProductFunctionalP1.dirichlet_clear_dofs L2ProductFunctionalP1.boundary_info
         L2ProductFunctionalQ1.grid L2ProductFunctionalQ1.function
         L2ProductFunctionalQ1.dirichlet_clear_dofs L2ProductFunctionalQ1.boundary_info];
    intros Hq -> H; eapply assemble_l2_functional_sum; eassumption.
Qed.

Lemma l2_functional_sum_witness :
  exists I,
    assemble_functional reference_quadrature
      (functional_without_clearing (FunctionalP1 rhs_example)) [] = Some I
    /\ exists F,
         as_scalars (call (constant_one 2) (centers one_triangle 0) []) = Some F
         /\ Rsum I = sum_n (length F) (fun e => get1 F e * get1 (integration_elements one_triangle 0) e)
                     * Rsum (snd (reference_quadrature triangle 1%nat)).
Proof.
  eexists. split; [reflexivity|].
  apply (l2_functional_sum reference_quadrature
           (functional_without_clearing (FunctionalP1 rhs_example)) []); reflexivity.
Defined.

Lemma dirichlet_functional_values_witness :
  length [0 + 2; 0; 0] = 3%nat
  /\ (forall d, In d (dirichlet_boundaries dirichlet_at_0 2) ->
        exists x, nth_error (centers one_triangle 2) d = Some x
                  /\ evaluate dirichlet_data_example x [] = Scalar (nth d [0 + 2; 0; 0] 0))
  /\ (forall i, ~ In i (dirichlet_boundaries dirichlet_at_0 2) -> nth i [0 + 2; 0; 0] 0 = 0).
Proof.
  apply (dirichlet_functional_values dirichlet_functional_example [] dirichlet_at_0
           [0 + 2; 0; 0]); reflexivity.
Defined.

Lemma dirichlet_functional_interpolates_witness :
  nth 0 [0 + 2; 0; 0] 0
  = if in_dec Nat.eq_dec 0%nat (dirichlet_boundaries dirichlet_at_0 2)
    then nth 0 [0 + 2; 1 + 2; 0 + 2] 0 else 0.
Proof.
  apply (dirichlet_functional_interpolates one_triangle dirichlet_data_example
           dirichlet_at_0 [] [0 + 2; 0; 0] [0 + 2; 1 + 2; 0 + 2] 0%nat);
    [|reflexivity|reflexivity].
  intros x _. eexists. reflexivity.
Defined.






(* ------------------------------------------------------------------ *)
(** ** The derivative of the functional with respect to the parameter *)

Lemma mapM_bind_map {A B C} (f : A -> option B) (h : B -> C) (l : list A) :
  mapM (fun a => b <- f a ;; Some (h b)) l = option_map (map h) (mapM f l).
Proof.
  induction l as [|a l IH]; [reflexivity|].
  cbn [mapM]. destruct (f a) as [b|]; cbn [bind option_map]; [|reflexivity].
  rewrite IH. destruct (mapM f l); reflexivity.
Qed.

Lemma nth_map_scal (c : R) (l : list R) (i : nat) :
  nth i (map (fun x => c * x) l) 0 = c * nth i l 0.
Proof.
  revert i. induction l as [|x l IH]; intros [|i]; cbn [map nth]; try ring. apply IH.
Qed.

Lemma np_sub_nth (a b diff : list R) (i : nat) (x y : R) :
  np_sub a b = Some diff ->
  nth_error a i = Some x -> nth_error b i = Some y ->
  nth i diff 0 = x - y.
Proof.
  unfold np_sub. intros H Ha Hb.
  assert (Hia : (i < length a)%nat) by (apply nth_error_Some; congruence).
  assert (Hib : (i < length b)%nat) by (apply nth_error_Some; congruence).
  destruct (Nat.eqb_spec (length a) (length b)) as [E | _].
  - inversion H; subst diff; clear H.
    clear Hia Hib. revert b i E Ha Hb. induction a as [|u a IH]; intros [|v b] i E Ha Hb;
      try discriminate E; [destruct i; discriminate Ha|].
    destruct i as [|i]; cbn [combine map nth nth_error fst snd] in *.
    + congruence.
    + apply IH; [simpl in E; lia | assumption | assumption].
  - destruct (Nat.eqb_spec (length a) 1) as [E1 | _].
    + inversion H; subst diff; clear H.
      destruct a as [|u [|? ?]]; try discriminate E1. destruct i as [|i]; [|simpl in Hia; lia].
      cbn [nth_error hd] in *. inversion Ha; subst.
      destruct b as [|v b]; [discriminate Hb|]. cbn [nth_error map nth] in *. congruence.
    + destruct (Nat.eqb_spec (length b) 1) as [E2 | _]; [|discriminate H].
      inversion H; subst diff; clear H.
      destruct b as [|v [|? ?]]; try discriminate E2. destruct i as [|i]; [|simpl in Hib; lia].
      cbn [nth_error hd] in *. inversion Hb; subst.
      destruct a as [|u a]; [discriminate Ha|]. cbn [nth_error map nth] in *. congruence.
Qed.

(** X9: with the element contributions requested, on a grid with one
    volume per element and non-zero total volume, [d_mu] returns one
    contribution per element, and the components [index] of the
    contributions add up to the returned derivative
    [mu[index] - mu_d[index]]. *)
Theorem d_mu_contributions_sum (self : quadratic_functional.t) (mu : Params) (index : nat)
    (d : R) (A_e_list : list (list R)) :
  let g := quadratic_functional.grid self in
  length (volumes g 0) = size g 0 ->
  Rsum (volumes g 0) <> 0 ->
  quadratic_functional.d_mu self mu index true = Some (d, Some A_e_list) ->
  length A_e_list = size g 0
  /\ Rsum (map (fun A_e => nth index A_e 0) A_e_list) = d.
Proof.
  intros g Hlen HV H. unfold quadratic_functional.d_mu in H. fold g in H.
  destruct (np_sub mu (quadratic_functional.mu_d self)) as [diff|] eqn:Hdiff;
    cbn [bind] in H; [|discriminate H].
  rewrite <- Hlen in H.
  rewrite (mapM_bind_map (fun e => nth_error (volumes g 0) e)
             (fun v => map (fun x => v / Rsum (volumes g 0) * x) diff)) in H.
  change (mapM (fun e => nth_error (volumes g 0) e) (seq 0 (length (volumes g 0))))
    with (fancy (volumes g 0) (seq 0 (length (volumes g 0)))) in H.
  rewrite fancy_seq in H. cbn [option_map bind] in H.
  destruct (nth_error mu index) as [m|] eqn:Hm; cbn [bind] in H; [|discriminate H].
  destruct (nth_error (quadratic_functional.mu_d self) index) as [m_d|] eqn:Hmd;
    cbn [bind] in H; [|discriminate H].
  inversion H; subst d A_e_list; clear H.
  split; [rewrite length_map; exact Hlen|].
  rewrite map_map.
  rewrite (Rsum_map_ext _ (fun v => v * (/ Rsum (volumes g 0) * nth index diff 0)))
    by (intros v _; rewrite nth_map_scal; unfold Rdiv; ring).
  rewrite Rsum_map_scal_r, map_id, (np_sub_nth _ _ _ _ _ _ Hdiff Hm Hmd).
  field. exact HV.
Qed.

Lemma d_mu_contributions_sum_witness :
  length [[1 / 2 / Rsum [1 / 2] * (3 - 1)]] = 1%nat
  /\ Rsum (map (fun A_e => nth 0 A_e 0) [[1 / 2 / Rsum [1 / 2] * (3 - 1)]]) = 3 - 1.
Proof.
  apply (d_mu_contributions_sum (quadratic_functional.Build_t one_triangle [0; 0; 0] [1])
           [3] 0%nat (3 - 1) [[1 / 2 / Rsum [1 / 2] * (3 - 1)]]).
  - reflexivity.
  - simpl. lra.
  - reflexivity.
Defined.

(** X10: with every weight equal to 1, on a grid with one volume per
    element and non-zero total volume, [element_quadratic_functional.d_mu]
    and [quadratic_functional.d_mu] fail together or return the same
    derivative. *)
Theorem element_d_mu_unit_weights (g : Grid) (u_d : list R) (mu_d mu : Params) (index : nat) :
  length (volumes g 0) = size g 0 ->
  Rsum (volumes g 0) <> 0 ->
  element_quadratic_functional.d_mu
    (element_quadratic_functional.Build_t g u_d mu_d (repeat 1 (size g 0))) mu index
  = option_map fst
      (quadratic_functional.d_mu (quadratic_functional.Build_t g u_d mu_d) mu index false).
Proof.
  intros Hlen HV. unfold element_quadratic_functional.d_mu, quadratic_functional.d_mu.
  cbn [element_quadratic_functional.grid element_quadratic_functional.rho
       element_quadratic_functional.mu_d quadratic_functional.grid quadratic_functional.mu_d].
  rewrite NonZeroIndices_ones, <- Hlen, fancy_seq. cbn [bind].
  destruct (nth_error mu index) as [m|]; cbn [bind option_map]; [|reflexivity].
  destruct (nth_error mu_d index) as [m_d|]; cbn [bind option_map fst]; [|reflexivity].
  f_equal. field. exact HV.
Qed.

Lemma element_d_mu_unit_weights_witness :
  element_quadratic_functional.d_mu
    (element_quadratic_functional.Build_t one_triangle [0; 0; 0] [1]
       (repeat 1 (size one_triangle 0))) [3] 0
  = option_map fst
      (quadratic_functional.d_mu (quadratic_functional.Build_t one_triangle [0; 0; 0] [1])
         [3] 0 false).
Proof.
  apply (element_d_mu_unit_weights one_triangle [0; 0; 0] [1] [3] 0%nat).
  - reflexivity.
  - simpl. lra.
Defined.

Lemma Rnonzero_scal (c x : R) : c <> 0 -> Rnonzero (c * x) = Rnonzero x.
Proof.
  intros Hc. unfold Rnonzero.
  destruct (Req_dec_T (c * x) 0) as [E | E]; destruct (Req_dec_T x 0) as [E' | E'];
    try reflexivity.
  - exfalso. apply Rmult_integral in E. destruct E; contradiction.
  - exfalso. apply E. rewrite E'. ring.
Qed.

Lemma NonZeroIndices_scal (c : R) (rho : list R) :
  c <> 0 -> NonZeroIndices (map (fun x => c * x) rho) = NonZeroIndices rho.
Proof.
  intros Hc. unfold NonZeroIndices. rewrite map_map. f_equal.
  apply map_ext. intros x. apply Rnonzero_scal. exact Hc.
Qed.

(** X11: [element_quadratic_functional.d_mu] reads the weights only
    through the set of elements with non-zero weight: scaling every
    weight by the same non-zero factor leaves the derivative unchanged. *)
Theorem element_d_mu_scaled_weights (g : Grid) (u_d : list R) (mu_d : Params)
    (rho : list R) (c : R) (mu : Params) (index : nat) :
  c <> 0 ->
  element_quadratic_functional.d_mu
    (element_quadratic_functional.Build_t g u_d mu_d (map (fun x => c * x) rho)) mu index
  = element_quadratic_functional.d_mu
      (element_quadratic_functional.Build_t g u_d mu_d rho) mu index.
Proof.
  intros Hc. unfold element_quadratic_functional.d_mu.
  cbn [element_quadratic_functional.grid element_quadratic_functional.rho
       element_quadratic_functional.mu_d].
  rewrite NonZeroIndices_scal by exact Hc. reflexivity.
Qed.

Lemma element_d_mu_scaled_weights_witness :
  element_quadratic_functional.d_mu
    (element_quadratic_functional.Build_t one_triangle [0; 0; 0] [1]
       (map (fun x => 2 * x) [1])) [3] 0
  = element_quadratic_functional.d_mu
      (element_quadratic_functional.Build_t one_triangle [0; 0; 0] [1] [1]) [3] 0.
Proof.
  apply (element_d_mu_scaled_weights one_triangle [0; 0; 0] [1] [1] 2 [3] 0%nat). lra.
Defined.

(* ------------------------------------------------------------------ *)
(** ** Dirichlet DOFs and element contributions of the nonlinear operator *)

Lemma mapM_In {A B} (f : A -> option B) (l : list A) (r : list B) (b : B) :
  mapM f l = Some r -> In b r -> exists a, In a l /\ f a = Some b.
Proof.
  revert r. induction l as [|a l IH]; cbn [mapM]; intros r H Hb.
  - inv_some. destruct Hb.
  - inv_bind H. inv_bind H. inv_some. destruct Hb as [<- | Hb].
    + exists a. split; [left; reflexivity | assumption].
    + match goal with E : mapM f l = Some _ |- _ =>
        destruct (IH _ E Hb) as (a' & Ha' & Hf) end.
      exists a'. split; [right|]; assumption.
Qed.

Lemma Rsum_mapM {A B} (f : A -> option B) (g : B -> R) (h : A -> R) (l : list A)
    (r : list B) :
  mapM f l = Some r ->
  (forall a b, In a l -> f a = Some b -> g b = h a) ->
  Rsum (map g r) = Rsum (map h l).
Proof.
  revert r. induction l as [|a l IH]; cbn [mapM]; intros r H Hgh.
  - inv_some. reflexivity.
  - inv_bind H. inv_bind H. inv_some. cbn [map]. rewrite !Rsum_cons. f_equal.
    + apply Hgh; [left; reflexivity | assumption].
    + apply IH; [assumption|]. intros a' b' Ha'. apply Hgh. right. exact Ha'.
Qed.

Lemma In_slice {A} (z : list A) (lo hi : nat) (x : A) : In x (slice z lo hi) -> In x z.
Proof.
  unfold slice. intros H.
  rewrite <- (firstn_skipn lo z). apply in_or_app. right.
  rewrite <- (firstn_skipn (hi - lo) (skipn lo z)). apply in_or_app. left. exact H.
Qed.

(** X12: on a boundary info with Dirichlet boundaries, the vector that
    [NonlinearReactionOperator.apply] returns is zero at every Dirichlet
    DOF, and so is every element contribution. *)
Theorem apply_dirichlet_dofs_zero (quadrature : Quadrature)
    (op : NonlinearReactionOperator.t) (U : list R) (mu : Params) (ec : bool)
    (r : result (list R)) (bi : BoundaryInfo) (d : nat) :
  NonlinearReactionOperator.apply quadrature op U mu ec = Some r ->
  NonlinearReactionOperator.boundary_info op = Some bi ->
  has_dirichlet bi = true ->
  In d (dirichlet_boundaries bi (dim (NonlinearReactionOperator.grid op))) ->
  nth d (result_global r) 0 = 0
  /\ Forall (fun A_e => nth d A_e 0 = 0) (result_contributions r).
Proof.
  intros H Hbi Hd Hin. unfold NonlinearReactionOperator.apply in H.
  destruct (quadrature _ _) as [q w].
  inv_bind H. inv_bind H. inv_bind H. rewrite Hbi in H. cbn [bind] in H. rewrite Hd in H.
  destruct ec; cbn [andb] in H.
  - inv_bind H. inv_bind H. inv_some. cbn [result_global result_contributions]. split.
    + match goal with E : set_zero _ _ = Some ?a |- nth d ?a 0 = 0 =>
        apply set_zero_Some in E; destruct E as (_ & Hz & _); apply Hz; exact Hin end.
    + apply Forall_forall. intros A_e HA.
      match goal with E : mapM _ _ = Some _ |- _ =>
        destruct (mapM_In _ _ _ _ E HA) as (e & _ & He) end.
      inv_bind He. apply set_zero_Some in He. destruct He as (_ & Hz & _). apply Hz. exact Hin.
  - inv_bind H. inv_some. cbn [result_global result_contributions]. split; [|constructor].
    match goal with E : set_zero _ _ = Some ?a |- nth d ?a 0 = 0 =>
      apply set_zero_Some in E; destruct E as (_ & Hz & _); apply Hz; exact Hin end.
Qed.

(** X13: on a boundary info with Dirichlet boundaries, every entry of a
    Dirichlet row of the matrix that [NonlinearReactionOperator.jacobian]
    returns is zero, the diagonal entry included (no unit diagonal is
    appended), and so it is in every element contribution. *)
Theorem jacobian_dirichlet_rows_zero (quadrature : Quadrature)
    (op : NonlinearReactionOperator.t) (U : list R) (mu : Params) (ec : bool)
    (r : result sparse) (bi : BoundaryInfo) (d j : nat) :
  NonlinearReactionOperator.jacobian quadrature op U mu ec = Some r ->
  NonlinearReactionOperator.boundary_info op = Some bi ->
  has_dirichlet bi = true ->
  In d (dirichlet_boundaries bi (dim (NonlinearReactionOperator.grid op))) ->
  entry (result_global r) d j = 0
  /\ Forall (fun A_e => entry A_e d j = 0) (result_contributions r).
Proof.
  intros H Hbi Hd Hin. unfold NonlinearReactionOperator.jacobian in H.
  destruct (quadrature _ _) as [q w].
  inv_bind H. inv_bind H. rewrite Hbi in H. cbn [bind] in H. rewrite Hd in H.
  destruct (clear_dirichlet _ _ _) as [a|] eqn:Ha; cbn [bind] in H; [|discriminate H].
  apply clear_dirichlet_Some in Ha. destruct Ha as (m & Hm & Hlen & ->).
  destruct (coo_matrix _ _ _ _) as [A|] eqn:HA; cbn [bind] in H; [|discriminate H].
  apply coo_matrix_Some in HA. destruct HA as (-> & Hr & Hc & _ & _).
  apply dirichlet_boundaries_In in Hin.
  assert (Hz : forall v, In (d, j, v)
                 (zip3 (ravel (np_repeat_axis1
                          (subentities (NonlinearReactionOperator.grid op) 0
                             (dim (NonlinearReactionOperator.grid op)))
                          (dim (NonlinearReactionOperator.grid op) + 1)))
                       (ravel (np_tile_axis1
                          (subentities (NonlinearReactionOperator.grid op) 0
                             (dim (NonlinearReactionOperator.grid op)))
                          (dim (NonlinearReactionOperator.grid op) + 1)))
                       (np_where0 m
                          (ravel3 (einsum_pi_qi_ei_e_e_i
                             (shape_values (reference_element (NonlinearReactionOperator.grid op)) q)
                             (shape_values (reference_element (NonlinearReactionOperator.grid op)) q)
                             x0 x (volumes (NonlinearReactionOperator.grid op) 0) w)))) -> v = 0).
  { intros v Hv. eapply zip3_cleared_rows; [exact Hm | exact Hv | exact Hin]. }
  destruct ec.
  - inv_bind H. inv_some. cbn [result_global result_contributions]. split.
    + rewrite entry_eliminate_zeros. unfold entry. cbn [entries]. apply entry_sum_zero. exact Hz.
    + apply Forall_forall. intros A_e HA.
      match goal with E : mapM _ _ = Some _ |- _ =>
        destruct (mapM_In _ _ _ _ E HA) as (e & _ & He) end.
      inv_bind He. inv_some.
      match goal with E : coo_matrix _ _ _ _ = Some _ |- _ =>
        apply coo_matrix_Some in E; destruct E as (-> & _) end.
      rewrite entry_eliminate_zeros. unfold entry. cbn [entries]. apply entry_sum_zero.
      intros v Hv. rewrite slice_zip3 in Hv by assumption. apply In_slice in Hv.
      apply Hz. exact Hv.
  - cbn [bind] in H. inv_some. cbn [result_global result_contributions]. split; [|constructor].
    rewrite entry_eliminate_zeros. unfold entry. cbn [entries]. apply entry_sum_zero. exact Hz.
Qed.

(** The flat arrays of [apply] hold three entries per element. *)
Lemma apply_flat_arrays (g : Grid) (f : Function) (mu : Params) (U : list R)
    (q : list point) (c_nl : list (list R)) (C vol w : list R) :
  grid_ok g = true ->
  element_loop f mu U (subentities g 0 (dim g)) (shape_values (reference_element g) q)
    (seq 0 (size g 0)) (zeros_like2 (subentities g 0 (dim g))) = Some c_nl ->
  length (ravel (subentities g 0 (dim g))) = (3 * size g 0)%nat
  /\ length (ravel (einsum_ji_ei_e_e_i (shape_values (reference_element g) q) c_nl C vol w))
     = (3 * size g 0)%nat.
Proof.
  intros Hok Hloop.
  destruct (grid_ok_spec g Hok) as (_ & Hn & _ & _ & _ & _ & Hrows & _).
  assert (H3 : size g 0 = 0%nat \/ n_local (reference_element g) = 3%nat).
  { destruct (Nat.eq_dec (size g 0) 0) as [E | E]; [left; exact E | right].
    rewrite (full_loop_triangle g f mu U _ c_nl Hok) by (first [lia | exact Hloop]).
    reflexivity. }
  apply element_loop_length in Hloop. unfold zeros_like2 in Hloop.
  rewrite length_map, Hn in Hloop.
  destruct (einsum_ji_ei_e_e_i_rows (shape_values (reference_element g) q) c_nl C vol w)
    as [HDl HDr].
  rewrite shape_values_length in HDr. unfold ravel.
  rewrite (concat_rows_length _ _ Hrows), (concat_rows_length _ _ HDr), HDl, Hn, Hloop.
  destruct H3 as [-> | ->]; lia.
Qed.

Lemma nth_toarray1 (A : sparse) (i : nat) :
  nth i (toarray1 A) 0 = if (i <? fst (shape A))%nat then entry A i 0 else 0.
Proof. exact (get1_tabulate_any (fst (shape A)) (fun k => entry A k 0%nat) i). Qed.

(** X14: on a well-formed grid, when [NonlinearReactionOperator.apply]
    returns the element contributions, there is one per element and they
    add up to the global vector, entry by entry. *)
Theorem apply_contributions_sum (quadrature : Quadrature) (op : NonlinearReactionOperator.t)
    (U : list R) (mu : Params) (A : list R) (A_e_list : list (list R)) (i : nat) :
  let g := NonlinearReactionOperator.grid op in
  grid_ok g = true ->
  NonlinearReactionOperator.apply quadrature op U mu true
  = Some (WithContributions A A_e_list) ->
  length A_e_list = size g 0
  /\ nth i A 0 = Rsum (map (fun A_e => nth i A_e 0) A_e_list).
Proof.
  intros g Hok H. unfold NonlinearReactionOperator.apply in H. fold g in H.
  destruct (quadrature (reference_element g) 2%nat) as [q w].
  destruct (as_scalars _) as [C|]; cbn [bind] in H; [|discriminate H].
  destruct (element_loop _ _ _ _ _ _ _) as [c_nl|] eqn:Hloop; cbn [bind] in H;
    [|discriminate H].
  destruct (apply_flat_arrays g _ mu U q c_nl C (volumes g 0) w Hok Hloop) as [HS HD].
  set (SF_I := ravel (subentities g 0 (dim g))) in *.
  set (SF_INTS := ravel (einsum_ji_ei_e_e_i _ c_nl C (volumes g 0) w)) in *.
  set (zeros := map (fun _ : nat => 0%nat) SF_I) in *.
  destruct (coo_matrix SF_INTS SF_I zeros _) as [A0|] eqn:HA0; cbn [bind] in H;
    [|discriminate H].
  apply coo_matrix_Some in HA0. destruct HA0 as (-> & Hr & Hc & _ & _).
  destruct (NonlinearReactionOperator.boundary_info op) as [bi|]; cbn [bind] in H;
    [|discriminate H].
  destruct (has_dirichlet bi); cbn [andb] in H; [|inv_bind H; discriminate H].
  destruct (mapM _ _) as [l|] eqn:Hl; cbn [bind] in H; [|discriminate H].
  destruct (set_zero _ _) as [A'|] eqn:HA'; cbn [bind] in H; [|discriminate H].
  inversion H; subst A' l; clear H.
  split; [apply mapM_length in Hl; rewrite length_seq in Hl; exact Hl|].
  set (DI := dirichlet_boundaries bi (dim g)) in *.
  set (N := size g (dim g)) in *.
  set (z := zip3 SF_I zeros SF_INTS) in *.
  set (B := fun e => {| shape := (N, 1%nat); entries := slice z (3 * e) (3 * (e + 1)) |}).
  rewrite (Rsum_mapM _ _ (fun e => if in_dec Nat.eq_dec i DI then 0
                                   else if (i <? N)%nat then entry (B e) i 0 else 0) _ _ Hl).
  - apply set_zero_Some in HA'. destruct HA' as (_ & Hin & Hout).
    destruct (in_dec Nat.eq_dec i DI) as [Hi | Hi].
    + rewrite (Hin i Hi). symmetry. apply Rsum_map_zero. reflexivity.
    + rewrite (Hout i Hi), nth_toarray1. cbn [shape fst].
      destruct (i <? N)%nat; [|symmetry; apply Rsum_map_zero; reflexivity].
      unfold entry, B. cbn [entries].
      rewrite <- (Rsum_flat_map (pick i 0%nat) (fun e => slice z (3 * e) (3 * (e + 1)))).
      rewrite slices_cover; [reflexivity|].
      unfold z. rewrite zip3_length by assumption. exact HD.
  - intros e A_e _ He. inv_bind He.
    match goal with E : coo_matrix _ _ _ _ = Some _ |- _ =>
      apply coo_matrix_Some in E; destruct E as (-> & Hre & Hce & _ & _) end.
    assert (E0 : [0; 0; 0]%nat = slice zeros (3 * e) (3 * (e + 1))).
    { unfold zeros. rewrite slice_map. symmetry. apply map_const_3.
      rewrite Hre. rewrite <- Hce. reflexivity. }
    rewrite E0, slice_zip3 in He by assumption. fold z in He. fold (B e) in He.
    apply set_zero_Some in He. destruct He as (_ & Hin & Hout).
    destruct (in_dec Nat.eq_dec i DI) as [Hi | Hi]; [apply Hin; exact Hi|].
    rewrite (Hout i Hi). apply nth_toarray1.
Qed.

(** The flat arrays of [jacobian] hold nine entries per element. *)
Lemma jacobian_flat_arrays (g : Grid) (f : Function) (mu : Params) (U : list R)
    (q : list point) (c_nl : list (list R)) (C vol w : list R) :
  grid_ok g = true ->
  element_loop f mu U (subentities g 0 (dim g)) (shape_values (reference_element g) q)
    (seq 0 (size g 0)) (zeros_like2 (subentities g 0 (dim g))) = Some c_nl ->
  length (ravel (np_repeat_axis1 (subentities g 0 (dim g)) (dim g + 1))) = (9 * size g 0)%nat
  /\ length (ravel (np_tile_axis1 (subentities g 0 (dim g)) (dim g + 1))) = (9 * size g 0)%nat
  /\ length (ravel3 (einsum_pi_qi_ei_e_e_i (shape_values (reference_element g) q)
                       (shape_values (reference_element g) q) c_nl C vol w))
     = (9 * size g 0)%nat.
Proof.
  intros Hok Hloop.
  destruct (grid_ok_spec g Hok) as (Hdim & Hn & _ & _ & _ & _ & Hrows & _).
  assert (H9 : size g 0 = 0%nat \/ (dim g = 2%nat /\ n_local (reference_element g) = 3%nat)).
  { destruct (Nat.eq_dec (size g 0) 0) as [E | E]; [left; exact E | right].
    rewrite Hdim, (full_loop_triangle g f mu U _ c_nl Hok) by (first [lia | exact Hloop]).
    split; reflexivity. }
  apply element_loop_length in Hloop. unfold zeros_like2 in Hloop.
  rewrite length_map, Hn in Hloop.
  split; [|split].
  - unfold ravel.
    rewrite (concat_rows_length _ _ (np_repeat_axis1_rows _ _ (dim g + 1) Hrows)).
    unfold np_repeat_axis1. rewrite length_map, Hn. destruct H9 as [-> | [-> ->]]; lia.
  - unfold ravel.
    rewrite (concat_rows_length _ _ (np_tile_axis1_rows _ _ (dim g + 1) Hrows)).
    unfold np_tile_axis1. rewrite length_map, Hn. destruct H9 as [-> | [-> ->]]; lia.
  - rewrite (ravel3_length (size g 0) (length (shape_values (reference_element g) q))).
    + rewrite shape_values_length. destruct H9 as [-> | [_ ->]]; lia.
    + unfold einsum_pi_qi_ei_e_e_i. rewrite tabulate_length. exact Hloop.
    + apply local_blocks_shape.
Qed.

(** X15: on a well-formed grid, when
    [NonlinearReactionOperator.jacobian] returns the element
    contributions, there is one per element and their values add up to
    the value of the global matrix at every position. *)
Theorem jacobian_contributions_sum (quadrature : Quadrature)
    (op : NonlinearReactionOperator.t) (U : list R) (mu : Params) (A : sparse)
    (A_e_list : list sparse) (i j : nat) :
  let g := NonlinearReactionOperator.grid op in
  grid_ok g = true ->
  NonlinearReactionOperator.jacobian quadrature op U mu true
  = Some (WithContributions A A_e_list) ->
  length A_e_list = size g 0
  /\ entry A i j = Rsum (map (fun A_e => entry A_e i j) A_e_list).
Proof.
  intros g Hok H. unfold NonlinearReactionOperator.jacobian in H. fold g in H.
  destruct (quadrature (reference_element g) 2%nat) as [q w].
  destruct (as_scalars _) as [C|]; cbn [bind] in H; [|discriminate H].
  destruct (element_loop _ _ _ _ _ _ _) as [c_nl|] eqn:Hloop; cbn [bind] in H;
    [|discriminate H].
  destruct (jacobian_flat_arrays g _ mu U q c_nl C (volumes g 0) w Hok Hloop)
    as (L0 & L1 & LT).
  set (SF_I0 := ravel (np_repeat_axis1 _ _)) in *.
  set (SF_I1 := ravel (np_tile_axis1 _ _)) in *.
  set (T := ravel3 _) in *.
  destruct (NonlinearReactionOperator.boundary_info op) as [bi|]; cbn [bind] in H;
    [|discriminate H].
  destruct (if has_dirichlet bi then clear_dirichlet (dirichlet_mask bi (dim g)) SF_I0 T
            else Some T) as [a|] eqn:Ha; cbn [bind] in H; [|discriminate H].
  assert (La : length a = (9 * size g 0)%nat).
  { destruct (has_dirichlet bi).
    - apply clear_dirichlet_Some in Ha. destruct Ha as (m & _ & Hm & ->).
      rewrite np_where0_length by exact Hm. exact LT.
    - inversion Ha. subst a. exact LT. }
  destruct (coo_matrix a SF_I0 SF_I1 _) as [A0|] eqn:HA0; cbn [bind] in H; [|discriminate H].
  apply coo_matrix_Some in HA0. destruct HA0 as (-> & Hr & Hc & _ & _).
  destruct (mapM _ _) as [l|] eqn:Hl; cbn [bind] in H; [|discriminate H].
  inversion H; subst A l; clear H.
  split; [apply mapM_length in Hl; rewrite length_seq in Hl; exact Hl|].
  set (z := zip3 SF_I0 SF_I1 a) in *.
  rewrite (Rsum_mapM _ _ (fun e => Rsum (map (pick i j) (slice z (9 * e) (9 * (e + 1))))) _ _ Hl).
  - rewrite entry_eliminate_zeros. unfold entry. cbn [entries].
    rewrite <- (Rsum_flat_map (pick i j) (fun e => slice z (9 * e) (9 * (e + 1)))).
    rewrite slices_cover; [reflexivity|].
    unfold z. rewrite zip3_length by assumption. exact La.
  - intros e A_e _ He. inv_bind He. inv_some.
    match goal with E : coo_matrix _ _ _ _ = Some _ |- _ =>
      apply coo_matrix_Some in E; destruct E as (-> & _) end.
    rewrite entry_eliminate_zeros. unfold entry. cbn [entries].
    rewrite slice_zip3 by assumption. reflexivity.
Qed.

Lemma apply_dirichlet_dofs_zero_witness :
  exists r,
    NonlinearReactionOperator.apply reference_quadrature
      (reaction_on one_triangle dirichlet_at_0) [1; 2; 3] [] true = Some r
    /\ nth 0 (result_global r) 0 = 0
    /\ Forall (fun A_e => nth 0 A_e 0 = 0) (result_contributions r).
Proof.
  eexists. split; [reflexivity|].
  apply (apply_dirichlet_dofs_zero reference_quadrature
           (reaction_on one_triangle dirichlet_at_0) [1; 2; 3] [] true _ dirichlet_at_0 0%nat);
    try reflexivity.
  left. reflexivity.
Defined.

Lemma jacobian_dirichlet_rows_zero_witness :
  exists r,
    NonlinearReactionOperator.jacobian reference_quadrature
      (reaction_on one_triangle dirichlet_at_0) [1; 2; 3] [] true = Some r
    /\ entry (result_global r) 0 0 = 0
    /\ Forall (fun A_e => entry A_e 0 0 = 0) (result_contributions r).
Proof.
  eexists. split; [reflexivity|].
  apply (jacobian_dirichlet_rows_zero reference_quadrature
           (reaction_on one_triangle dirichlet_at_0) [1; 2; 3] [] true _ dirichlet_at_0
           0%nat 0%nat); try reflexivity.
  left. reflexivity.
Defined.

Lemma apply_contributions_sum_witness :
  exists A A_e_list,
    NonlinearReactionOperator.apply reference_quadrature
      (reaction_on one_triangle dirichlet_at_0) [1; 2; 3] [] true
    = Some (WithContributions A A_e_list)
    /\ length A_e_list = 1%nat
    /\ nth 1 A 0 = Rsum (map (fun A_e => nth 1 A_e 0) A_e_list).
Proof.
  do 2 eexists. split; [reflexivity|].
  apply (apply_contributions_sum reference_quadrature
           (reaction_on one_triangle dirichlet_at_0) [1; 2; 3] [] _ _ 1%nat); reflexivity.
Defined.

Lemma jacobian_contributions_sum_witness :
  exists A A_e_list,
    NonlinearReactionOperator.jacobian reference_quadrature
      (reaction_on one_triangle dirichlet_at_0) [1; 2; 3] [] true
    = Some (WithContributions A A_e_list)
    /\ length A_e_list = 1%nat
    /\ entry A 1 2 = Rsum (map (fun A_e => entry A_e 1 2) A_e_list).
Proof.
  do 2 eexists. split; [reflexivity|].
  apply (jacobian_contributions_sum reference_quadrature
           (reaction_on one_triangle dirichlet_at_0) [1; 2; 3] [] _ _ 1%nat 2%nat); reflexivity.
Defined.

(* ------------------------------------------------------------------ *)
(** ** The zero state *)

Lemma Forall_set_nth {A} (P : A -> Prop) (k : nat) (l : list A) (x : A) :
  Forall P l -> P x -> Forall P (set_nth k l x).
Proof.
  revert k. induction l as [|y l IH]; intros k Hl Hx; [destruct k; constructor|].
  inversion Hl; subst. destruct k; cbn [set_nth]; constructor; auto.
Qed.

Lemma get1_zero (v : list R) (k : nat) : Forall (fun x => x = 0) v -> get1 v k = 0.
Proof.
  unfold get1. revert k. induction v as [|x v IH]; intros k H; [destruct k; reflexivity|].
  inversion H; subst. destruct k; cbn [nth]; [reflexivity | apply IH; assumption].
Qed.

Lemma get2_zero (M : list (list R)) (e k : nat) :
  Forall (Forall (fun x => x = 0)) M -> get2 M e k = 0.
Proof.
  unfold get2. intros H. apply get1_zero.
  destruct (nth_in_or_default e M []) as [Hin | ->]; [|constructor].
  rewrite Forall_forall in H. apply H. exact Hin.
Qed.

(** The interpolated state of the zero vector is zero at every
    quadrature point. *)
Lemma interpolate_zero (dofs : list R) (sub_e : list nat) (SF : list (list R))
    (wert : list point) :
  Forall (fun x => x = 0) dofs ->
  interpolate dofs sub_e SF = Some wert ->
  Forall (fun X => X = [0]) wert.
Proof.
  intros Hz H. unfold interpolate in H. inv_bind H. inv_bind H.
  unfold np_dot in E0. inv_bind E0. inv_some. unfold reshape_3_1 in H. inv_bind H. inv_some.
  apply Forall_forall. intros X HX. apply in_map_iff in HX. destruct HX as (y & <- & Hy).
  apply tabulate_In in Hy. destruct Hy as (k & _ & ->). f_equal.
  apply sum_n_zero. intros p _. rewrite get1_zero; [ring|].
  apply Forall_forall. intros u Hu. rewrite Forall_forall in Hz. apply Hz.
  eapply fancy_In; eassumption.
Qed.

Lemma element_loop_zero (f : Function) (mu : Params) (dofs : list R)
    (sub : list (list nat)) (SF : list (list R)) (elements : list nat)
    (table r : list (list R)) :
  Forall (fun x => x = 0) dofs ->
  (exists v, evaluate f [0] mu = Scalar v /\ v = 0) ->
  Forall (Forall (fun x => x = 0)) table ->
  element_loop f mu dofs sub SF elements table = Some r ->
  Forall (Forall (fun x => x = 0)) r.
Proof.
  intros Hz (v0 & Hf & Hv0). unfold element_loop.
  revert table. induction elements as [|e l IH]; intros table Ht H; cbn [for_each] in H.
  - inv_some. exact Ht.
  - inv_bind H. apply (IH x); [|exact H]. clear H IH.
    inv_bind E. inv_bind E. inv_bind E.
    pose proof (interpolate_zero _ _ _ _ Hz E1) as Hw.
    assert (Hvals : Forall (fun y => y = 0) x2).
    { apply Forall_forall. intros y Hy. apply as_scalars_call in E2. destruct E2 as [_ E2].
      destruct (mapM_In _ _ _ _ E2 Hy) as (a & Ha & Hy').
      apply in_map_iff in Ha. destruct Ha as (X & <- & HX).
      rewrite Forall_forall in Hw. rewrite (Hw X HX), Hf in Hy'. congruence. }
    unfold assign_row in E. inv_bind E. inv_bind E. inv_some.
    apply Forall_set_nth; [exact Ht|].
    destruct (length x2 =? dim2 table)%nat; [exact Hvals|].
    apply Forall_forall. intros y Hy. apply repeat_spec in Hy. subst y.
    destruct x2 as [|y x2]; [reflexivity|]. inversion Hvals; subst. reflexivity.
Qed.

Lemma zeros_like2_zero {A} (a : list (list A)) :
  Forall (Forall (fun x => x = 0)) (zeros_like2 a).
Proof.
  unfold zeros_like2. apply Forall_forall. intros row Hrow.
  apply in_map_iff in Hrow. destruct Hrow as (s & <- & _).
  apply Forall_forall. intros x Hx. apply in_map_iff in Hx. destruct Hx as (_ & <- & _).
  reflexivity.
Qed.

Lemma zip3_In_data (rows cols : list nat) (data : list R) (t : nat * nat * R) :
  In t (zip3 rows cols data) -> In (snd t) data.
Proof.
  revert cols data. induction rows as [|i rows IH]; intros [|j cols] [|v data] H;
    simpl in H; try contradiction. destruct H as [<- | H].
  - left. reflexivity.
  - right. eapply IH. exact H.
Qed.

Lemma entry_zero_data (shp : nat * nat) (rows cols : list nat) (data : list R) (i j : nat) :
  Forall (fun x => x = 0) data ->
  entry {| shape := shp; entries := zip3 rows cols data |} i j = 0.
Proof.
  intros H. unfold entry. cbn [entries]. apply entry_sum_zero. intros v Hv.
  apply zip3_In_data in Hv. rewrite Forall_forall in H. apply H. exact Hv.
Qed.

Lemma toarray1_zero_data (shp : nat * nat) (rows cols : list nat) (data : list R) (i : nat) :
  Forall (fun x => x = 0) data ->
  nth i (toarray1 {| shape := shp; entries := zip3 rows cols data |}) 0 = 0.
Proof.
  intros H. rewrite nth_toarray1. destruct (_ <? _)%nat; [|reflexivity].
  apply entry_zero_data. exact H.
Qed.

Lemma set_zero_keeps_zero (a : list R) (DI : list nat) (a' : list R) (i : nat) :
  set_zero a DI = Some a' -> nth i a 0 = 0 -> nth i a' 0 = 0.
Proof.
  intros H Ha. apply set_zero_Some in H. destruct H as (_ & Hin & Hout).
  destruct (in_dec Nat.eq_dec i DI) as [Hi | Hi]; [apply Hin; exact Hi|].
  rewrite (Hout i Hi). exact Ha.
Qed.

Lemma Forall_slice_zero (data : list R) (lo hi : nat) :
  Forall (fun x => x = 0) data -> Forall (fun x => x = 0) (slice data lo hi).
Proof. apply Forall_slice. Qed.

Lemma einsum_ji_ei_e_e_i_zero (SF c_nl : list (list R)) (C vol w : list R) :
  Forall (Forall (fun x => x = 0)) c_nl ->
  Forall (fun x => x = 0) (ravel (einsum_ji_ei_e_e_i SF c_nl C vol w)).
Proof.
  intros H. unfold ravel, einsum_ji_ei_e_e_i. apply Forall_concat.
  apply Forall_forall. intros row Hrow. apply tabulate_In in Hrow.
  destruct Hrow as (e & _ & ->). apply Forall_forall. intros x Hx.
  apply tabulate_In in Hx. destruct Hx as (j & _ & ->).
  apply sum_n_zero. intros i _. rewrite (get2_zero c_nl e i H). ring.
Qed.

(** X16: applied to the zero state, with a reaction function that
    vanishes at zero, [NonlinearReactionOperator.apply] returns the zero
    vector, and every element contribution is zero. *)
Theorem apply_zero_state (quadrature : Quadrature) (op : NonlinearReactionOperator.t)
    (U : list R) (mu : Params) (ec : bool) (r : result (list R)) :
  Forall (fun u => u = 0) U ->
  evaluate (NonlinearReactionOperator.reaction_function op) [0] mu = Scalar 0 ->
  NonlinearReactionOperator.apply quadrature op U mu ec = Some r ->
  (forall i, nth i (result_global r) 0 = 0)
  /\ Forall (fun A_e => forall i, nth i A_e 0 = 0) (result_contributions r).
Proof.
  intros HU Hf H. unfold NonlinearReactionOperator.apply in H.
  destruct (quadrature _ _) as [q w].
  destruct (as_scalars _) as [C|]; cbn [bind] in H; [|discriminate H].
  destruct (element_loop _ _ _ _ _ _ _) as [c_nl|] eqn:Hloop; cbn [bind] in H;
    [|discriminate H].
  apply element_loop_zero in Hloop;
    [|exact HU | exists 0; split; [exact Hf | reflexivity] | apply zeros_like2_zero].
  pose proof (einsum_ji_ei_e_e_i_zero
                (shape_values (reference_element (NonlinearReactionOperator.grid op)) q)
                c_nl C (volumes (NonlinearReactionOperator.grid op) 0) w Hloop) as HD.
  destruct (coo_matrix _ _ _ _) as [A0|] eqn:HA0; cbn [bind] in H; [|discriminate H].
  apply coo_matrix_Some in HA0. destruct HA0 as (-> & _).
  destruct (NonlinearReactionOperator.boundary_info op) as [bi|]; cbn [bind] in H;
    [|discriminate H].
  destruct (ec && has_dirichlet bi).
  - inv_bind H. inv_bind H. inv_some. cbn [result_global result_contributions]. split.
    + intros i. eapply set_zero_keeps_zero; [eassumption|].
      apply toarray1_zero_data. exact HD.
    + apply Forall_forall. intros A_e HA.
      match goal with E : mapM _ _ = Some _ |- _ =>
        destruct (mapM_In _ _ _ _ E HA) as (e & _ & He) end.
      inv_bind He.
      match goal with E : coo_matrix _ _ _ _ = Some _ |- _ =>
        apply coo_matrix_Some in E; destruct E as (-> & _) end.
      intros i. eapply set_zero_keeps_zero; [eassumption|].
      apply toarray1_zero_data. apply Forall_slice_zero. exact HD.
  - inv_bind H. inv_some. cbn [result_global result_contributions]. split; [|constructor].
    intros i. destruct (has_dirichlet bi).
    + eapply set_zero_keeps_zero; [eassumption|]. apply toarray1_zero_data. exact HD.
    + inv_some. apply toarray1_zero_data. exact HD.
Qed.

Lemma apply_zero_state_witness :
  exists r,
    NonlinearReactionOperator.apply reference_quadrature
      (reaction_on one_triangle dirichlet_at_0) [0; 0; 0] [] true = Some r
    /\ (forall i, nth i (result_global r) 0 = 0)
    /\ Forall (fun A_e => forall i, nth i A_e 0 = 0) (result_contributions r).
Proof.
  eexists. split; [reflexivity|].
  apply (apply_zero_state reference_quadrature (reaction_on one_triangle dirichlet_at_0)
           [0; 0; 0] [] true); try reflexivity.
  repeat constructor.
Defined.

(* ------------------------------------------------------------------ *)
(** ** The functional at its target *)

Lemma np_sub_self (a : list R) :
  exists d, np_sub a a = Some d /\ Forall (fun x => x = 0) d.
Proof.
  unfold np_sub. rewrite Nat.eqb_refl. eexists. split; [reflexivity|].
  induction a as [|x a IH]; cbn [combine map]; constructor; [cbn [fst snd]; ring | exact IH].
Qed.

Lemma norm_squared_zero (v : list R) : Forall (fun x => x = 0) v -> norm_squared v = 0.
Proof.
  intros H. unfold norm_squared.
  rewrite (Rsum_map_zero (fun x => x * x) v).
  - rewrite sqrt_0. ring.
  - intros x Hx. rewrite Forall_forall in H. rewrite (H x Hx). ring.
Qed.

Lemma einsum_ei_e_i_zero (F : list (list R)) (vol w : list R) :
  Forall (Forall (fun x => x = 0)) F ->
  Forall (fun x => x = 0) (einsum_ei_e_i F vol w).
Proof.
  intros H. unfold einsum_ei_e_i. apply Forall_forall. intros x Hx.
  apply tabulate_In in Hx. destruct Hx as (e & _ & ->).
  apply sum_n_zero. intros i _. rewrite (get2_zero F e i H). ring.
Qed.

Lemma einsum_ji_ei_e_i_zero (SF F : list (list R)) (vol w : list R) :
  Forall (Forall (fun x => x = 0)) F ->
  Forall (fun x => x = 0) (ravel (einsum_ji_ei_e_i SF F vol w)).
Proof.
  intros H. unfold ravel, einsum_ji_ei_e_i. apply Forall_concat.
  apply Forall_forall. intros row Hrow. apply tabulate_In in Hrow.
  destruct Hrow as (e & _ & ->). apply Forall_forall. intros x Hx.
  apply tabulate_In in Hx. destruct Hx as (j & _ & ->).
  apply sum_n_zero. intros i _. rewrite (get2_zero F e i H). ring.
Qed.

Lemma Rsum_zero (l : list R) : Forall (fun x => x = 0) l -> Rsum l = 0.
Proof.
  intros H. rewrite <- (map_id l). apply Rsum_map_zero. intros x Hx.
  rewrite Forall_forall in H. apply H. exact Hx.
Qed.

(** X17: at the target state and the target parameter,
    [quadratic_functional.apply] returns the value 0, and every element
    contribution is 0. *)
Theorem functional_zero_at_target (quadrature : Quadrature) (g : Grid) (u_d : list R)
    (mu_d : Params) (ec : bool) (r : result R) :
  quadratic_functional.apply quadrature (quadratic_functional.Build_t g u_d mu_d)
    u_d mu_d ec = Some r ->
  result_global r = 0 /\ Forall (fun A_e => A_e = 0) (result_contributions r).
Proof.
  intros H. unfold quadratic_functional.apply in H.
  cbn [quadratic_functional.grid quadratic_functional.u_d quadratic_functional.mu_d] in H.
  destruct (quadrature _ _) as [q w].
  destruct (np_sub_self u_d) as (dofs & Hsub & Hdofs). rewrite Hsub in H. cbn [bind] in H.
  destruct (element_loop _ _ _ _ _ _ _) as [F|] eqn:Hloop; cbn [bind] in H; [|discriminate H].
  apply element_loop_zero in Hloop;
    [|exact Hdofs | eexists; split; [reflexivity | unfold coord; cbn [nth]; ring]
     | apply zeros_like2_zero].
  destruct (np_sub_self mu_d) as (diff & Hsub' & Hdiff). rewrite Hsub' in H. cbn [bind] in H.
  pose proof (einsum_ei_e_i_zero F (volumes g 0) w Hloop) as HS.
  rewrite (norm_squared_zero diff Hdiff) in H.
  rewrite (Rsum_zero _ HS) in H.
  destruct ec.
  - inv_bind H. inv_some. cbn [result_global result_contributions]. split; [ring|].
    apply Forall_forall. intros A_e HA.
    match goal with E : mapM _ _ = Some _ |- _ =>
      destruct (mapM_In _ _ _ _ E HA) as (e & _ & He) end.
    inv_bind He. inv_bind He. inv_some.
    match goal with E : nth_error (einsum_ei_e_i _ _ _) _ = Some ?s |- _ =>
      apply nth_error_In in E; rewrite Forall_forall in HS; rewrite (HS s E) end.
    unfold Rdiv. ring.
  - inv_some. cbn [result_global result_contributions]. split; [ring | constructor].
Qed.

(** X18: at the target state, [quadratic_functional.jacobian] returns the
    zero vector, and every element contribution is the zero vector. *)
Theorem functional_jacobian_zero_at_target (quadrature : Quadrature) (g : Grid)
    (u_d : list R) (mu_d mu : Params) (ec : bool) (r : result (list R)) :
  quadratic_functional.jacobian quadrature (quadratic_functional.Build_t g u_d mu_d)
    u_d mu ec = Some r ->
  (forall i, nth i (result_global r) 0 = 0)
  /\ Forall (fun A_e => forall i, nth i A_e 0 = 0) (result_contributions r).
Proof.
  intros H. unfold quadratic_functional.jacobian in H.
  cbn [quadratic_functional.grid quadratic_functional.u_d quadratic_functional.mu_d] in H.
  destruct (quadrature _ _) as [q w].
  destruct (np_sub_self u_d) as (dofs & Hsub & Hdofs). rewrite Hsub in H. cbn [bind] in H.
  destruct (element_loop _ _ _ _ _ _ _) as [F|] eqn:Hloop; cbn [bind] in H; [|discriminate H].
  apply element_loop_zero in Hloop;
    [|exact Hdofs | eexists; split; [reflexivity | unfold coord; cbn [nth]; ring]
     | apply zeros_like2_zero].
  pose proof (einsum_ji_ei_e_i_zero (shape_values (reference_element g) q) F
                (volumes g 0) w Hloop) as HD.
  destruct (coo_matrix _ _ _ _) as [A0|] eqn:HA0; cbn [bind] in H; [|discriminate H].
  apply coo_matrix_Some in HA0. destruct HA0 as (-> & _).
  destruct ec.
  - inv_bind H. inv_some. cbn [result_global result_contributions]. split.
    + intros i. apply toarray1_zero_data. exact HD.
    + apply Forall_forall. intros A_e HA.
      match goal with E : mapM _ _ = Some _ |- _ =>
        destruct (mapM_In _ _ _ _ E HA) as (e & _ & He) end.
      inv_bind He. inv_some.
      match goal with E : coo_matrix _ _ _ _ = Some _ |- _ =>
        apply coo_matrix_Some in E; destruct E as (-> & _) end.
      intros i. apply toarray1_zero_data. apply Forall_slice_zero. exact HD.
  - inv_some. cbn [result_global result_contributions]. split; [|constructor].
    intros i. apply toarray1_zero_data. exact HD.
Qed.

Lemma functional_zero_at_target_witness :
  exists r,
    quadratic_functional.apply reference_quadrature
      (quadratic_functional.Build_t one_triangle [1; 2; 3] [3]) [1; 2; 3] [3] true = Some r
    /\ result_global r = 0 /\ Forall (fun A_e => A_e = 0) (result_contributions r).
Proof.
  eexists. split; [reflexivity|].
  apply (functional_zero_at_target reference_quadrature one_triangle [1; 2; 3] [3] true).
  reflexivity.
Defined.

Lemma functional_jacobian_zero_at_target_witness :
  exists r,
    quadratic_functional.jacobian reference_quadrature
      (quadratic_functional.Build_t one_triangle [1; 2; 3] [3]) [1; 2; 3] [5] true = Some r
    /\ (forall i, nth i (result_global r) 0 = 0)
    /\ Forall (fun A_e => forall i, nth i A_e 0 = 0) (result_contributions r).
Proof.
  eexists. split; [reflexivity|].
  apply (functional_jacobian_zero_at_target reference_quadrature one_triangle
           [1; 2; 3] [3] [5] true).
  reflexivity.
Defined.

(* ------------------------------------------------------------------ *)
(** ** The nonlinear operator on triangle grids *)













Lemma entry_scatter_symmetric (S : list (list nat)) (n : nat) (m : nat -> nat -> nat -> R)
    (shp : nat * nat) (i j : nat) :
  Forall (fun s => length s = n) S ->
  (forall e p q, m e p q = m e q p) ->
  entry {| shape := shp;
           entries := scatter S (tabulate (length S) (fun e => tabulate n (fun p =>
                                   tabulate n (m e p)))) |} i j
  = entry {| shape := shp;
             entries := scatter S (tabulate (length S) (fun e => tabulate n (fun p =>
                                     tabulate n (m e p)))) |} j i.
Proof.
  intros HS Hm. rewrite !entry_as_bilinear. cbn [entries].
  rewrite (Rsum_scatter_tabulate (fun r c => if ((r =? i) && (c =? j))%nat then 1 else 0)
             S n m HS).
  rewrite (Rsum_scatter_tabulate (fun r c => if ((r =? j) && (c =? i))%nat then 1 else 0)
             S n m HS).
  apply sum_n_ext. intros e _. rewrite sum_n_exchange.
  apply sum_n_ext. intros p _. apply sum_n_ext. intros q _.
  rewrite (Hm e q p), (andb_comm (dof S e q =? i)%nat). reflexivity.
Qed.

(** X21: on a well-formed grid, for a boundary info without Dirichlet
    boundaries, the matrix that [NonlinearReactionOperator.jacobian]
    returns is symmetric. *)
Theorem jacobian_symmetric (quadrature : Quadrature) (op : NonlinearReactionOperator.t)
    (U : list R) (mu : Params) (ec : bool) (r : result sparse) (bi : BoundaryInfo)
    (i j : nat) :
  let g := NonlinearReactionOperator.grid op in
  grid_ok g = true ->
  NonlinearReactionOperator.boundary_info op = Some bi ->
  has_dirichlet bi = false ->
  NonlinearReactionOperator.jacobian quadrature op U mu ec = Some r ->
  entry (result_global r) i j = entry (result_global r) j i.
Proof.
  intros g Hok Hbi Hd H. unfold NonlinearReactionOperator.jacobian in H. fold g in H.
  destruct (quadrature (reference_element g) 2%nat) as [q w].
  destruct (as_scalars _) as [C|]; cbn [bind] in H; [|discriminate H].
  destruct (element_loop _ _ _ _ _ _ _) as [c_nl|] eqn:Hloop; cbn [bind] in H;
    [|discriminate H].
  rewrite Hbi in H. cbn [bind] in H. rewrite Hd in H. cbn [bind] in H.
  destruct (coo_matrix _ _ _ _) as [A0|] eqn:HA0; cbn [bind] in H; [|discriminate H].
  apply coo_matrix_Some in HA0. destruct HA0 as (-> & _).
  assert (Hr : result_global r
               = eliminate_zeros
                   {| shape := (size g (dim g), size g (dim g));
                      entries := zip3 (ravel (np_repeat_axis1 (subentities g 0 (dim g))
                                                (dim g + 1)))
                                   (ravel (np_tile_axis1 (subentities g 0 (dim g)) (dim g + 1)))
                                   (ravel3 (einsum_pi_qi_ei_e_e_i
                                      (shape_values (reference_element g) q)
                                      (shape_values (reference_element g) q)
                                      c_nl C (volumes g 0) w)) |}).
  { destruct ec.
    - inv_bind H. inv_some. reflexivity.
    - cbn [bind] in H. inv_some. reflexivity. }
  rewrite Hr, !entry_eliminate_zeros. clear H Hr.
  destruct (grid_ok_spec g Hok) as (Hdim & Hn & _ & _ & _ & _ & Hrows & _).
  pose proof (element_loop_length _ _ _ _ _ _ _ _ Hloop) as Hcl.
  unfold zeros_like2 in Hcl. rewrite length_map in Hcl.
  destruct (Nat.eq_dec (size g 0) 0) as [E0 | E0].
  - assert (HS : subentities g 0 (dim g) = []) by (apply length_zero_iff_nil; lia).
    rewrite HS. reflexivity.
  - assert (Hre : reference_element g = triangle)
      by (eapply full_loop_triangle; [exact Hok | lia | exact Hloop]).
    assert (Hd2 : (dim g + 1)%nat = n_local (reference_element g))
      by (rewrite Hdim, Hre; reflexivity).
    rewrite Hd2. unfold einsum_pi_qi_ei_e_e_i.
    rewrite shape_values_length, Hcl.
    rewrite zip3_scatter.
    + apply entry_scatter_symmetric; [exact Hrows|].
      intros e p q'. apply sum_n_ext. intros k _. ring.
    + rewrite tabulate_length. reflexivity.
    + exact Hrows.
    + apply local_blocks_shape.
Qed.

Lemma jacobian_symmetric_witness :
  exists r,
    NonlinearReactionOperator.jacobian reference_quadrature
      (reaction_on one_triangle (no_boundary 3)) [1; 2; 3] [] false = Some r
    /\ entry (result_global r) 0 1 = entry (result_global r) 1 0.
Proof.
  eexists. split; [reflexivity|].
  apply (jacobian_symmetric reference_quadrature (reaction_on one_triangle (no_boundary 3))
           [1; 2; 3] [] false _ (no_boundary 3) 0%nat 1%nat); reflexivity.
Defined.

(* ------------------------------------------------------------------ *)
(** ** Dirichlet rows without the unit diagonal, and the boundary part *)

Lemma treated_cleared_diag (g : Grid) (bi : BoundaryInfo) (rows cols : bool)
    (a : list R) (I0 I1 : list nat) (SF : list R * list nat * list nat) (A : sparse) (d : nat) :
  has_dirichlet bi = true ->
  boundary_treatment g bi rows cols true a I0 I1 = Some SF ->
  assemble_system g SF = Some A ->
  In d (dirichlet_boundaries bi (dim g)) ->
  (rows = true -> forall j, entry A d j = 0)
  /\ (cols = true -> forall i, entry A i d = 0).
Proof.
  intros Hd Hbt Hasm Hin.
  destruct (boundary_treatment_cleared _ _ _ _ _ _ _ _ _ Hd Hbt) as (a2 & -> & Hcl).
  cbn [negb andb] in Hasm. unfold assemble_system in Hasm. inv_bind Hasm. inv_some.
  apply coo_matrix_Some in E. destruct E as (-> & _).
  apply dirichlet_boundaries_In in Hin.
  split.
  - intros -> j. rewrite entry_eliminate_zeros. unfold entry. cbn [entries].
    apply entry_sum_zero. intros v Hv. destruct (Hcl _ _ _ Hv) as (Hr & _ & _). apply Hr; auto.
  - intros -> i. rewrite entry_eliminate_zeros. unfold entry. cbn [entries].
    apply entry_sum_zero. intros v Hv. destruct (Hcl _ _ _ Hv) as (_ & Hc & _). apply Hc; auto.
Qed.

(** X22: for each of the six bilinear forms, when the boundary info has
    Dirichlet DOFs and [dirichlet_clear_diag] is true, every entry of a
    cleared Dirichlet row is zero, the diagonal entry included, and so is
    every entry of a cleared Dirichlet column. *)
Theorem dirichlet_rows_without_diagonal (quadrature : Quadrature) (op : BilinearOperator)
    (mu : Params) (A : sparse) (bi : BoundaryInfo) (d : nat) :
  assemble quadrature op mu = Some A ->
  op_boundary_info op = Some bi ->
  has_dirichlet bi = true ->
  op_clear_diag op = true ->
  In d (dirichlet_boundaries bi (dim (op_grid op))) ->
  (op_clear_rows op = true -> forall j, entry A d j = 0)
  /\ (op_clear_columns op = true -> forall i, entry A i d = 0).
Proof.
  intros Hasm Hbi Hd Hdiag Hin.
  destruct (assemble_factors _ _ _ _ Hasm) as (bi' & a & I0 & I1 & SF & Hbi' & Hbt & Hsys).
  rewrite Hbi in Hbi'. inversion Hbi'; subst bi'. rewrite Hdiag in Hbt.
  eapply treated_cleared_diag; eassumption.
Qed.

Lemma dirichlet_rows_without_diagonal_witness :
  exists A, assemble reference_quadrature (OpDiffusionP1 laplace_diag_cleared) [] = Some A
            /\ (true = true -> forall j, entry A 0 j = 0)
            /\ (false = true -> forall i, entry A i 0 = 0).
Proof.
  eexists. split; [reflexivity|].
  apply (dirichlet_rows_without_diagonal reference_quadrature
           (OpDiffusionP1 laplace_diag_cleared) [] _ dirichlet_at_0 0%nat); try reflexivity.
  left. reflexivity.
Defined.

Lemma diffusion_factors (quadrature : Quadrature) (op : BilinearOperator) (mu : Params)
    (A : sparse) :
  boundary_part op ->
  assemble quadrature op mu = Some A ->
  exists bi a0 I0 I1 SF,
    op_boundary_info op = Some bi
    /\ boundary_treatment (op_grid op) bi true (op_clear_columns op) false
         (map (fun x => x * 0) a0) I0 I1 = Some SF
    /\ assemble_system (op_grid op) SF = Some A.
Proof.
  destruct op as [op|op|op|op|op|op]; cbn [boundary_part]; try contradiction;
    intros [Hc Hdiag];
    cbn [assemble op_boundary_info op_grid op_clear_columns]; intros H.
  - unfold DiffusionOperatorP1._assemble in H. rewrite Hc, Hdiag in H. cbn [scale_by] in H.
    inv_bind H. inv_bind H. inv_bind H. inv_bind H. eauto 10.
  - unfold DiffusionOperatorQ1._assemble in H. rewrite Hc, Hdiag in H. cbn [scale_by] in H.
    destruct (quadrature _ _) as [q w]. inv_bind H. inv_bind H. inv_bind H. inv_bind H. eauto 10.
Qed.

Lemma zip3_zero_data (I0 I1 : list nat) (a : list R) (r c : nat) (v : R) :
  In (r, c, v) (zip3 I0 I1 (map (fun x => x * 0) a)) -> v = 0.
Proof.
  intros H. apply zip3_In_data in H. cbn [snd] in H. apply in_map_iff in H.
  destruct H as (x & <- & _). ring.
Qed.

(** X23: the matrix of the 'boundary_part' operator (a diffusion operator
    with [diffusion_constant=0] and the unit diagonal kept) has the entry
    1 at [(d, d)] for every Dirichlet DOF [d] and the entry 0 everywhere
    else; without Dirichlet boundaries it is the zero matrix. *)
Theorem boundary_part_matrix (quadrature : Quadrature) (op : BilinearOperator)
    (mu : Params) (A : sparse) (bi : BoundaryInfo) (i j : nat) :
  boundary_part op ->
  assemble quadrature op mu = Some A ->
  op_boundary_info op = Some bi ->
  entry A i j
  = if has_dirichlet bi && (i =? j)%nat
       && nth i (dirichlet_mask bi (dim (op_grid op))) false
    then 1 else 0.
Proof.
  intros Hbp Hasm Hbi.
  destruct (diffusion_factors _ _ _ _ Hbp Hasm) as (bi' & a0 & I0 & I1 & SF & Hbi' & Hbt & Hsys).
  rewrite Hbi in Hbi'. inversion Hbi'; subst bi'. clear Hbi'.
  set (g := op_grid op) in *.
  destruct (has_dirichlet bi) eqn:Hd; cbn [andb].
  - destruct (boundary_treatment_cleared _ _ _ _ _ _ _ _ _ Hd Hbt) as (a2 & -> & Hcl).
    cbn [negb andb orb] in Hsys. unfold assemble_system in Hsys. inv_bind Hsys. inv_some.
    apply coo_matrix_Some in E. destruct E as (-> & Hl0 & Hl1 & _ & _).
    rewrite !length_app, repeat_length in Hl0, Hl1.
    rewrite entry_eliminate_zeros. unfold entry. cbn [entries].
    rewrite zip3_app by lia. rewrite map_app, Rsum_app.
    rewrite entry_sum_zero.
    2:{ intros v Hv. destruct (Hcl _ _ _ Hv) as (_ & _ & [H0 | Hin]); [exact H0|].
        eapply zip3_zero_data. exact Hin. }
    rewrite Rplus_0_l.
    destruct (Nat.eqb_spec i j) as [<- | Hij]; cbn [andb].
    + destruct (nth_error (dirichlet_mask bi (dim g)) i) as [b|] eqn:Hm.
      * rewrite (nth_error_nth _ _ false Hm). destruct b.
        -- apply entry_diag_on; [apply where_from_NoDup|].
           apply dirichlet_boundaries_In. exact Hm.
        -- apply entry_diag_absent. intros Hc. apply dirichlet_boundaries_In in Hc.
           congruence.
      * rewrite nth_overflow by (apply nth_error_None; exact Hm).
        apply entry_diag_absent. intros Hc. apply dirichlet_boundaries_In in Hc. congruence.
    + apply entry_diag_off. exact Hij.
  - unfold boundary_treatment in Hbt. rewrite Hd in Hbt. inv_some.
    unfold assemble_system in Hsys. inv_bind Hsys. inv_some.
    apply coo_matrix_Some in E. destruct E as (-> & _).
    rewrite entry_eliminate_zeros. unfold entry. cbn [entries].
    apply entry_sum_zero. intros v Hv. eapply zip3_zero_data. exact Hv.
Qed.

Lemma boundary_part_matrix_witness :
  exists A, assemble reference_quadrature (OpDiffusionP1 boundary_part_example) [] = Some A
            /\ entry A 0 0
               = if has_dirichlet dirichlet_at_0 && (0 =? 0)%nat
                    && nth 0 (dirichlet_mask dirichlet_at_0 2) false
                 then 1 else 0.
Proof.
  eexists. split; [reflexivity|].
  apply (boundary_part_matrix reference_quadrature (OpDiffusionP1 boundary_part_example) []
           _ dirichlet_at_0 0%nat 0%nat); [split; reflexivity | reflexivity | reflexivity].
Defined.

(* ------------------------------------------------------------------ *)
(** ** The stiffness matrix: symmetric and positive semi-definite *)

Lemma map_ravel3_tabulate (f : R -> R) (a b c : nat) (m : nat -> nat -> nat -> R) :
  map f (ravel3 (tabulate a (fun e => tabulate b (fun p => tabulate c (fun q => m e p q)))))
  = ravel3 (tabulate a (fun e => tabulate b (fun p => tabulate c (fun q => f (m e p q))))).
Proof.
  unfold ravel3, tabulate. rewrite concat_map, !map_map. f_equal.
  apply map_ext. intros e. rewrite concat_map, !map_map. f_equal.
  apply map_ext. intros p. rewrite map_map. reflexivity.
Qed.

(** [SF_INTS *= c] on the local blocks: every block entry is multiplied
    by the constant (by 1 when there is none). *)
Lemma scale_by_blocks (dc : option R) (a b : nat) (m : nat -> nat -> nat -> R) :
  exists c, (constant_nonnegative dc -> 0 <= c)
    /\ scale_by dc (ravel3 (tabulate a (fun e => tabulate b (fun p =>
                              tabulate b (fun q => m e p q)))))
       = ravel3 (tabulate a (fun e => tabulate b (fun p => tabulate b (fun q => m e p q * c)))).
Proof.
  destruct dc as [c|]; cbn [scale_by constant_nonnegative].
  - exists c. split; [auto|]. apply (map_ravel3_tabulate (fun x => x * c)).
  - exists 1. split; [intros; lra|]. f_equal. apply tabulate_ext. intros e _.
    apply tabulate_ext. intros p _. apply tabulate_ext. intros q _. ring.
Qed.

Lemma quadratic_sum_exchange (n nk : nat) (y : nat -> R) (F : nat -> nat -> nat -> R) :
  sum_n n (fun p => sum_n n (fun q => y p * y q * sum_n nk (fun k => F k p q)))
  = sum_n nk (fun k => sum_n n (fun p => sum_n n (fun q => y p * y q * F k p q))).
Proof.
  rewrite (sum_n_ext _ _ (fun p => sum_n nk (fun k => sum_n n (fun q => y p * y q * F k p q)))).
  - apply sum_n_exchange.
  - intros p _.
    rewrite (sum_n_ext _ _ (fun q => sum_n nk (fun k => y p * y q * F k p q)))
      by (intros q _; symmetry; apply sum_n_scal).
    apply sum_n_exchange.
Qed.

(** A Gram block with non-negative weights has a non-negative quadratic
    form. *)
Lemma gram_sum_nonneg (n nk : nat) (y : nat -> R) (B : nat -> nat -> R) (kappa : nat -> R) :
  (forall k, (k < nk)%nat -> 0 <= kappa k) ->
  0 <= sum_n n (fun p => sum_n n (fun q =>
         y p * y q * sum_n nk (fun k => B p k * B q k * kappa k))).
Proof.
  intros Hk. rewrite (quadratic_sum_exchange n nk y (fun k p q => B p k * B q k * kappa k)).
  apply sum_n_nonneg. intros k Hk'.
  rewrite (sum_n_ext _ _ (fun p => sum_n n (fun q => kappa k * ((y p * B p k) * (y q * B q k))))).
  2:{ intros p _. apply sum_n_ext. intros q _. ring. }
  rewrite (sum_n_ext _ _ (fun p => kappa k * sum_n n (fun q => (y p * B p k) * (y q * B q k))))
    by (intros; apply sum_n_scal).
  rewrite sum_n_scal, (sum_n_square n (fun p => y p * B p k)).
  apply Rmult_le_pos; [apply Hk; exact Hk' | apply Rle_0_sqr].
Qed.

(** Symmetric, positive semi-definite local blocks, scattered through
    [S] and treated symmetrically on the Dirichlet boundary, give a
    symmetric, positive semi-definite matrix. *)
Lemma local_psd_core (g : Grid) (bi : BoundaryInfo) (b diag : bool)
    (S : list (list nat)) (n : nat) (m : nat -> nat -> nat -> R)
    (SF : list R * list nat * list nat) (A : sparse) :
  Forall (fun s => length s = n) S ->
  (forall e p q, m e p q = m e q p) ->
  (forall e y, (e < length S)%nat ->
     0 <= sum_n n (fun p => sum_n n (fun q => y p * y q * m e p q))) ->
  boundary_treatment g bi b b diag
    (ravel3 (tabulate (length S) (fun e => tabulate n (fun p => tabulate n (fun q => m e p q)))))
    (ravel (np_repeat_axis1 S n)) (ravel (np_tile_axis1 S n)) = Some SF ->
  assemble_system g SF = Some A ->
  (forall i j, entry A i j = entry A j i) /\ (forall x, 0 <= quad_form A x).
Proof.
  intros HS Hsym Hpsd Hbt Hasm.
  set (K := keep (has_dirichlet bi && b) (dirichlet_mask bi (dim g))).
  assert (Hsum : forall phi,
            Rsum (map (fun t => phi (fst (fst t)) (snd (fst t)) * snd t) (entries A))
            = sum_n (length S) (fun e => sum_n n (fun p => sum_n n (fun q =>
                (phi (dof S e p) (dof S e q) * (K (dof S e p) * K (dof S e q))) * m e p q)))
              + Rsum (map (fun d => phi d d) (unit_dofs g bi b diag))).
  { intros phi.
    destruct (symmetric_treatment_sum _ _ _ _ _ _ _ _ _ phi Hbt Hasm) as (-> & _ & _).
    f_equal. rewrite zip3_scatter.
    - apply (Rsum_scatter_tabulate (fun r c => phi r c * (K r * K c)) S n m HS).
    - rewrite tabulate_length. reflexivity.
    - exact HS.
    - apply local_blocks_shape. }
  destruct (symmetric_treatment_sum _ _ _ _ _ _ _ _ _ (fun _ _ => 0) Hbt Hasm)
    as (_ & Hshape & Hbounds).
  split.
  - intros i j. rewrite (entry_as_bilinear A i j), (entry_as_bilinear A j i).
    change (Rsum (map (fun t => ind i j (fst (fst t)) (snd (fst t)) * snd t) (entries A))
            = Rsum (map (fun t => ind j i (fst (fst t)) (snd (fst t)) * snd t) (entries A))).
    rewrite !Hsum. f_equal.
    + apply sum_n_ext. intros e _. rewrite sum_n_exchange.
      apply sum_n_ext. intros p _. apply sum_n_ext. intros q _.
      rewrite (Hsym e q p). unfold ind.
      rewrite (andb_comm (dof S e q =? i)%nat). ring.
    + apply Rsum_map_ext. intros d _. unfold ind. rewrite andb_comm. reflexivity.
  - intros x. rewrite quad_form_entries by (rewrite Hshape; exact Hbounds).
    rewrite (Hsum (fun r c => get1 x r * get1 x c)).
    apply Rplus_le_le_0_compat.
    + apply sum_n_nonneg. intros e He.
      rewrite (sum_n_ext _ _ (fun p => sum_n n (fun q =>
                 (get1 x (dof S e p) * K (dof S e p))
                 * (get1 x (dof S e q) * K (dof S e q)) * m e p q))).
      * apply (Hpsd e (fun p => get1 x (dof S e p) * K (dof S e p)) He).
      * intros p _. apply sum_n_ext. intros q _. ring.
    + apply Rsum_map_nonneg. intros d _. apply Rle_0_sqr.
Qed.

Lemma get1_nonneg (v : list R) (k : nat) : Forall (fun x => 0 <= x) v -> 0 <= get1 v k.
Proof.
  intros H. unfold get1. destruct (nth_in_or_default k v 0) as [Hin | ->]; [|lra].
  rewrite Forall_forall in H. apply H. exact Hin.
Qed.

Lemma as_scalars_nonneg (f : Function) (pts : list point) (mu : Params) (C : list R) :
  (forall x, In x pts -> exists v, evaluate f x mu = Scalar v /\ 0 <= v) ->
  as_scalars (call f pts mu) = Some C ->
  forall e, 0 <= get1 C e.
Proof.
  intros Hpos HC e. apply get1_nonneg. apply Forall_forall. intros y Hy.
  apply as_scalars_call in HC. destruct HC as [_ HC].
  destruct (mapM_In _ _ _ _ HC Hy) as (a & Ha & Hy').
  apply in_map_iff in Ha. destruct Ha as (X & <- & HX).
  destruct (Hpos X HX) as (v & Hv & Hv0). rewrite Hv in Hy'. inversion Hy'; subst. exact Hv0.
Qed.

Lemma DiffusionOperatorP1_psd (op : DiffusionOperatorP1.t) (mu : Params) (A : sparse)
    (bi : BoundaryInfo) :
  grid_ok (DiffusionOperatorP1.grid op) = true ->
  Forall (fun v => 0 <= v) (volumes (DiffusionOperatorP1.grid op) 0) ->
  diffusion_nonnegative (DiffusionOperatorP1.grid op)
    (DiffusionOperatorP1.diffusion_function op) mu ->
  constant_nonnegative (DiffusionOperatorP1.diffusion_constant op) ->
  DiffusionOperatorP1._assemble op mu = Some A ->
  DiffusionOperatorP1.boundary_info op = Some bi ->
  has_dirichlet bi = false \/ DiffusionOperatorP1.dirichlet_clear_columns op = true ->
  (forall i j, entry A i j = entry A j i) /\ (forall x, 0 <= quad_form A x).
Proof.
  intros Hok Hvol Hdf Hdc H Hbi Hcase.
  unfold DiffusionOperatorP1._assemble in H.
  inv_bind H. rename x into G. inv_bind H. rename x into SF_INTS.
  inv_bind H. rewrite Hbi in E1. inv_some. inv_bind H. rename x into bi, x0 into SFr.
  set (g := DiffusionOperatorP1.grid op) in *.
  destruct (grid_ok_spec g Hok) as (Hdim & HS & _ & _ & HJ & _ & Hrows & _).
  destruct (grad_array_sum_zero _ _ E) as (_ & HGl & HGpos).
  assert (Hn : (dim g + 1)%nat = length G).
  { rewrite HGl, Hdim. destruct (reference_element g); try reflexivity; discriminate E. }
  rewrite Hn in E1. rewrite <- HGl in Hrows.
  assert (Hb : boundary_treatment g bi true true (DiffusionOperatorP1.dirichlet_clear_diag op)
                 (scale_by (DiffusionOperatorP1.diffusion_constant op) SF_INTS)
                 (ravel (np_repeat_axis1 (subentities g 0 (dim g)) (length G)))
                 (ravel (np_tile_axis1 (subentities g 0 (dim g)) (length G))) = Some SFr).
  { destruct Hcase as [Hd | Hc].
    - unfold boundary_treatment in *. rewrite Hd in *. exact E1.
    - rewrite Hc in E1. exact E1. }
  clear E1.
  set (GR := einsum_eij_pj (jacobian_inverse_transposed g 0) G) in *.
  destruct (einsum_eij_pj_shape (jacobian_inverse_transposed g 0) G) as (H1 & H2 & _).
  fold GR in H1, H2.
  assert (Hgen : forall kappa h,
            (forall e, 0 <= kappa e) ->
            (forall e p q i, h e p q i = get3 GR e p i * get3 GR e q i * kappa e) ->
            SF_INTS = ravel3 (tabulate (length GR) (fun e => tabulate (dim2 GR) (fun p =>
                        tabulate (dim2 GR) (fun q => sum_n (dim3 GR) (fun i => h e p q i))))) ->
            (forall i j, entry A i j = entry A j i) /\ (forall x, 0 <= quad_form A x)).
  { intros kappa h Hk Hh HSF. rewrite HSF in Hb.
    destruct (scale_by_blocks (DiffusionOperatorP1.diffusion_constant op) (length GR) (dim2 GR)
                (fun e p q => sum_n (dim3 GR) (fun i => h e p q i))) as (c & Hc & Hscale).
    rewrite Hscale in Hb. specialize (Hc Hdc).
    assert (Hblocks :
              tabulate (length GR) (fun e => tabulate (dim2 GR) (fun p =>
                tabulate (dim2 GR) (fun q => sum_n (dim3 GR) (fun i => h e p q i) * c)))
              = tabulate (length (subentities g 0 (dim g))) (fun e => tabulate (length G) (fun p =>
                  tabulate (length G) (fun q => sum_n (dim3 GR) (fun i => h e p q i) * c)))).
    { rewrite H1, HJ, <- HS.
      destruct (Nat.eq_dec (length (subentities g 0 (dim g))) 0) as [H0 | Hne].
      - rewrite H0. reflexivity.
      - rewrite H2 by lia. reflexivity. }
    rewrite Hblocks in Hb.
    apply (local_psd_core g bi true (DiffusionOperatorP1.dirichlet_clear_diag op)
             (subentities g 0 (dim g)) (length G)
             (fun e p q => sum_n (dim3 GR) (fun i => h e p q i) * c) SFr A Hrows);
      [ | | exact Hb | exact H].
    - intros e p q. f_equal. apply sum_n_ext. intros i _. rewrite !Hh. ring.
    - intros e y He.
      rewrite (sum_n_ext _ _ (fun p => sum_n (length G) (fun q =>
                 y p * y q * sum_n (dim3 GR) (fun i =>
                   get3 GR e p i * get3 GR e q i * (kappa e * c))))).
      + apply gram_sum_nonneg. intros k _. apply Rmult_le_pos; [apply Hk | exact Hc].
      + intros p _. apply sum_n_ext. intros q _. f_equal.
        rewrite <- sum_n_scal_r. apply sum_n_ext. intros i _. rewrite Hh. ring. }
  destruct (DiffusionOperatorP1.diffusion_function op) as [d|];
    cbn [diffusion_nonnegative] in Hdf.
  - destruct Hdf as [Hsc Hpos]. rewrite Hsc in E0. inv_bind E0. inv_some.
    match goal with
    | HD : as_scalars _ = Some ?D |- _ =>
        apply (Hgen (fun e => get1 (volumes g 0) e * get1 D e)
                    (fun e p q i => get3 GR e p i * get3 GR e q i
                                    * get1 (volumes g 0) e * get1 D e));
          [ intros e; apply Rmult_le_pos;
              [apply get1_nonneg; exact Hvol | apply (as_scalars_nonneg d _ mu D Hpos HD)]
          | intros; ring
          | reflexivity ]
    end.
  - inv_some.
    apply (Hgen (fun e => get1 (volumes g 0) e)
                (fun e p q i => get3 GR e p i * get3 GR e q i * get1 (volumes g 0) e));
      [ intros e; apply get1_nonneg; exact Hvol | intros; ring | reflexivity ].
Qed.

Lemma DiffusionOperatorQ1_psd (quadrature : Quadrature) (op : DiffusionOperatorQ1.t)
    (mu : Params) (A : sparse) (bi : BoundaryInfo) :
  grid_ok (DiffusionOperatorQ1.grid op) = true ->
  Forall (fun v => 0 <= v) (integration_elements (DiffusionOperatorQ1.grid op) 0) ->
  Forall (fun x => 0 <= x)
         (snd (quadrature (reference_element (DiffusionOperatorQ1.grid op)) 2%nat)) ->
  diffusion_nonnegative (DiffusionOperatorQ1.grid op)
    (DiffusionOperatorQ1.diffusion_function op) mu ->
  constant_nonnegative (DiffusionOperatorQ1.diffusion_constant op) ->
  DiffusionOperatorQ1._assemble quadrature op mu = Some A ->
  DiffusionOperatorQ1.boundary_info op = Some bi ->
  has_dirichlet bi = false \/ DiffusionOperatorQ1.dirichlet_clear_columns op = true ->
  (forall i j, entry A i j = entry A j i) /\ (forall x, 0 <= quad_form A x).
Proof.
  intros Hok Hie Hw Hdf Hdc H Hbi Hcase.
  unfold DiffusionOperatorQ1._assemble in H. revert Hw H.
  destruct (quadrature _ _) as [qp w]. cbn [snd]. intros Hw H.
  inv_bind H. rename x into G. inv_bind H. rename x into SF_INTS.
  inv_bind H. rewrite Hbi in E1. inv_some. inv_bind H. rename x into bi, x0 into SFr.
  set (g := DiffusionOperatorQ1.grid op) in *.
  destruct (grid_ok_spec g Hok) as (Hdim & HS & _ & _ & HJ & _ & Hrows & _).
  destruct (grad_call_sum_zero _ _ _ E) as (Hre & HGl & _ & _).
  rewrite Hre in Hrows. change (n_local square) with 4%nat in Hrows.
  assert (Hb : boundary_treatment g bi true true (DiffusionOperatorQ1.dirichlet_clear_diag op)
                 (scale_by (DiffusionOperatorQ1.diffusion_constant op) SF_INTS)
                 (ravel (np_repeat_axis1 (subentities g 0 (dim g)) 4))
                 (ravel (np_tile_axis1 (subentities g 0 (dim g)) 4)) = Some SFr).
  { destruct Hcase as [Hd | Hc].
    - unfold boundary_treatment in *. rewrite Hd in *. exact E1.
    - rewrite Hc in E1. exact E1. }
  clear E1.
  set (GR := einsum_eij_pjc (jacobian_inverse_transposed g 0) G) in *.
  destruct (einsum_eij_pjc_shape (jacobian_inverse_transposed g 0) G) as (H1 & H2 & _).
  fold GR in H1, H2.
  assert (Hgen : forall kappa h,
            (forall e c, 0 <= kappa e c) ->
            (forall e p q i c, h e p q i c = get4 GR e p i c * get4 GR e q i c * kappa e c) ->
            SF_INTS = ravel3 (tabulate (length GR) (fun e => tabulate (dim2 GR) (fun p =>
                        tabulate (dim2 GR) (fun q => sum_n (dim3 GR) (fun i =>
                          sum_n (length w) (fun c => h e p q i c)))))) ->
            (forall i j, entry A i j = entry A j i) /\ (forall x, 0 <= quad_form A x)).
  { intros kappa h Hk Hh HSF. rewrite HSF in Hb.
    destruct (scale_by_blocks (DiffusionOperatorQ1.diffusion_constant op) (length GR) (dim2 GR)
                (fun e p q => sum_n (dim3 GR) (fun i => sum_n (length w) (fun c => h e p q i c))))
      as (c0 & Hc & Hscale).
    rewrite Hscale in Hb. specialize (Hc Hdc).
    assert (Hblocks :
              tabulate (length GR) (fun e => tabulate (dim2 GR) (fun p =>
                tabulate (dim2 GR) (fun q =>
                  sum_n (dim3 GR) (fun i => sum_n (length w) (fun c => h e p q i c)) * c0)))
              = tabulate (length (subentities g 0 (dim g))) (fun e => tabulate 4 (fun p =>
                  tabulate 4 (fun q =>
                    sum_n (dim3 GR) (fun i => sum_n (length w) (fun c => h e p q i c)) * c0)))).
    { rewrite H1, HJ, <- HS.
      destruct (Nat.eq_dec (length (subentities g 0 (dim g))) 0) as [H0 | Hne].
      - rewrite H0. reflexivity.
      - rewrite H2, HGl by lia. reflexivity. }
    rewrite Hblocks in Hb.
    apply (local_psd_core g bi true (DiffusionOperatorQ1.dirichlet_clear_diag op)
             (subentities g 0 (dim g)) 4
             (fun e p q =>
                sum_n (dim3 GR) (fun i => sum_n (length w) (fun c => h e p q i c)) * c0)
             SFr A Hrows);
      [ | | exact Hb | exact H].
    - intros e p q. f_equal. apply sum_n_ext. intros i _. apply sum_n_ext. intros c _.
      rewrite !Hh. ring.
    - intros e y He.
      rewrite (sum_n_ext _ _ (fun p => sum_n 4 (fun q =>
                 y p * y q * sum_n (dim3 GR) (fun i => sum_n (length w) (fun c =>
                   get4 GR e p i c * get4 GR e q i c * (kappa e c * c0)))))).
      + rewrite (quadratic_sum_exchange 4 (dim3 GR) y
                   (fun i p q => sum_n (length w) (fun c =>
                      get4 GR e p i c * get4 GR e q i c * (kappa e c * c0)))).
        apply sum_n_nonneg. intros i _.
        apply (gram_sum_nonneg 4 (length w) y (fun p c => get4 GR e p i c)
                 (fun c => kappa e c * c0)).
        intros k _. apply Rmult_le_pos; [apply Hk | exact Hc].
      + intros p _. apply sum_n_ext. intros q _. f_equal.
        rewrite <- sum_n_scal_r. apply sum_n_ext. intros i _.
        rewrite <- sum_n_scal_r. apply sum_n_ext. intros c _. rewrite Hh. ring. }
  destruct (DiffusionOperatorQ1.diffusion_function op) as [d|];
    cbn [diffusion_nonnegative] in Hdf.
  - destruct Hdf as [Hsc Hpos]. rewrite Hsc in E0. inv_bind E0. inv_some.
    match goal with
    | HD : as_scalars _ = Some ?D |- _ =>
        apply (Hgen (fun e c => get1 w c * get1 (integration_elements g 0) e * get1 D e)
                    (fun e p q i c => get4 GR e p i c * get4 GR e q i c * get1 w c
                                      * get1 (integration_elements g 0) e * get1 D e));
          [ intros e c; apply Rmult_le_pos;
              [ apply Rmult_le_pos; apply get1_nonneg; assumption
              | apply (as_scalars_nonneg d _ mu D Hpos HD)]
          | intros; ring
          | reflexivity ]
    end.
  - inv_some.
    apply (Hgen (fun e c => get1 w c * get1 (integration_elements g 0) e)
                (fun e p q i c => get4 GR e p i c * get4 GR e q i c * get1 w c
                                  * get1 (integration_elements g 0) e));
      [ intros e c; apply Rmult_le_pos; apply get1_nonneg; assumption
      | intros; ring | reflexivity ].
Qed.

(** X24: on a well-formed grid, a diffusion operator with non-negative
    data (volumes or integration elements, quadrature weights, scalar
    diffusion function, diffusion constant) assembles a symmetric,
    positive semi-definite matrix when the boundary info has no Dirichlet
    DOFs or the Dirichlet columns are cleared with the rows. *)
Theorem stiffness_matrix_symmetric_psd (quadrature : Quadrature) (op : BilinearOperator)
    (mu : Params) (A : sparse) (bi : BoundaryInfo) :
  grid_ok (op_grid op) = true ->
  nonnegative_diffusion_operator quadrature op mu ->
  assemble quadrature op mu = Some A ->
  op_boundary_info op = Some bi ->
  has_dirichlet bi = false \/ op_clear_columns op = true ->
  (forall i j, entry A i j = entry A j i) /\ (forall x, 0 <= quad_form A x).
Proof.
  destruct op as [o|o|o|o|o|o]; cbn [nonnegative_diffusion_operator]; try (intros; contradiction);
    cbn [op_grid op_boundary_info op_clear_columns assemble].
  - intros Hok (Hvol & Hdf & Hdc) H Hbi Hcase.
    eapply DiffusionOperatorP1_psd; eassumption.
  - intros Hok (Hie & Hw & Hdf & Hdc) H Hbi Hcase.
    eapply DiffusionOperatorQ1_psd; eassumption.
Qed.

Lemma stiffness_matrix_symmetric_psd_witness :
  exists A, assemble reference_quadrature (OpDiffusionP1 laplace_energy) [] = Some A
            /\ (forall i j, entry A i j = entry A j i)
            /\ (forall x, 0 <= quad_form A x).
Proof.
  eexists. split; [reflexivity|].
  apply (stiffness_matrix_symmetric_psd reference_quadrature (OpDiffusionP1 laplace_energy) []
           _ dirichlet_at_0); try reflexivity.
  - split; [|split; exact I]. repeat constructor. simpl. lra.
  - right. reflexivity.
Defined.

(* ------------------------------------------------------------------ *)
(** ** The quadratic functional is non-negative *)

Lemma element_loop_values (P : R -> Prop) (f : Function) (mu : Params) (dofs : list R)
    (sub : list (list nat)) (SF : list (list R)) (elements : list nat)
    (table r : list (list R)) :
  (forall X v, evaluate f X mu = Scalar v -> P v) ->
  Forall (Forall P) table ->
  element_loop f mu dofs sub SF elements table = Some r ->
  Forall (Forall P) r.
Proof.
  intros Hf. unfold element_loop.
  revert table. induction elements as [|e l IH]; intros table Ht H; cbn [for_each] in H.
  - inv_some. exact Ht.
  - inv_bind H. apply (IH x); [|exact H]. clear H IH.
    inv_bind E. inv_bind E. inv_bind E.
    assert (Hvals : Forall P x2).
    { apply Forall_forall. intros y Hy. apply as_scalars_call in E2. destruct E2 as [_ E2].
      destruct (mapM_In _ _ _ _ E2 Hy) as (a & Ha & Hy').
      apply in_map_iff in Ha. destruct Ha as (X & <- & HX).
      destruct (evaluate f X mu) as [v| |] eqn:Hev; try discriminate Hy'.
      inversion Hy'; subst. eapply Hf. exact Hev. }
    unfold assign_row in E. inv_bind E. inv_bind E.
    match goal with
    | Ha : assert ((length x2 =? dim2 table)%nat || _) = Some _ |- _ =>
        apply assert_Some in Ha; rename Ha into Hlen
    end.
    inv_some. apply Forall_set_nth; [exact Ht|].
    destruct (length x2 =? dim2 table)%nat; [exact Hvals|].
    cbn [orb] in Hlen. apply Nat.eqb_eq in Hlen.
    apply Forall_forall. intros y Hy. apply repeat_spec in Hy. subst y.
    destruct x2 as [|y x2]; [discriminate Hlen|]. inversion Hvals; subst. assumption.
Qed.

Lemma get2_nonneg (M : list (list R)) (e k : nat) :
  Forall (Forall (fun x => 0 <= x)) M -> 0 <= get2 M e k.
Proof.
  intros H. unfold get2. apply get1_nonneg.
  destruct (nth_in_or_default e M []) as [Hin | ->]; [|constructor].
  rewrite Forall_forall in H. apply H. exact Hin.
Qed.

Lemma norm_squared_nonneg (v : list R) : 0 <= norm_squared v.
Proof. unfold norm_squared. apply pow2_ge_0. Qed.

(** X25: with non-negative element volumes and quadrature weights,
    [quadratic_functional.apply] returns a non-negative value for every
    state and parameter, and, when the grid has positive total volume,
    non-negative element contributions. *)
Theorem functional_nonnegative (quadrature : Quadrature) (op : quadratic_functional.t)
    (U : list R) (mu : Params) (ec : bool) (r : result R) :
  let g := quadratic_functional.grid op in
  Forall (fun v => 0 <= v) (volumes g 0) ->
  Forall (fun x => 0 <= x) (snd (quadrature (reference_element g) 2%nat)) ->
  quadratic_functional.apply quadrature op U mu ec = Some r ->
  0 <= result_global r
  /\ (0 < Rsum (volumes g 0) -> Forall (fun A_e => 0 <= A_e) (result_contributions r)).
Proof.
  intros g Hvol Hw H. unfold quadratic_functional.apply in H. fold g in H.
  revert Hw H. destruct (quadrature _ _) as [q w]. cbn [snd]. intros Hw H.
  inv_bind H. rename x into dofs.
  inv_bind H. rename x into F.
  inv_bind H. rename x into diff.
  match goal with
  | Hl : element_loop _ _ _ _ _ _ _ = Some F |- _ =>
      apply (element_loop_values (fun x => 0 <= x)) in Hl;
        [ rename Hl into HF
        | intros X v Hv; cbn [evaluate quadatric_function] in Hv; inversion Hv; subst;
          apply Rle_0_sqr
        | apply Forall_forall; intros row Hrow; apply Forall_forall; intros y Hy;
          pose proof (zeros_like2_zero (subentities g 0 (dim g))) as Hz;
          rewrite Forall_forall in Hz; specialize (Hz row Hrow);
          rewrite Forall_forall in Hz; rewrite (Hz y Hy); lra ]
  end.
  assert (HS : Forall (fun s => 0 <= s) (einsum_ei_e_i F (volumes g 0) w)).
  { unfold einsum_ei_e_i. apply Forall_forall. intros s Hs. apply tabulate_In in Hs.
    destruct Hs as (e & _ & ->). apply sum_n_nonneg. intros i _.
    apply Rmult_le_pos; [apply Rmult_le_pos|];
      [apply get2_nonneg; exact HF | apply get1_nonneg; exact Hvol
      | apply get1_nonneg; exact Hw]. }
  assert (Hsum : 0 <= Rsum (einsum_ei_e_i F (volumes g 0) w)).
  { apply Rsum_nonneg. intros s Hs. rewrite Forall_forall in HS. apply HS. exact Hs. }
  pose proof (norm_squared_nonneg diff) as Hnorm.
  destruct ec.
  - inv_bind H. inv_some. cbn [result_global result_contributions].
    split; [lra|]. intros Hpos.
    apply Forall_forall. intros A_e HA.
    match goal with
    | Hm : mapM _ _ = Some ?l, Hi : In A_e ?l |- _ =>
        destruct (mapM_In _ _ _ _ Hm Hi) as (e & _ & He)
    end.
    inv_bind He. inv_bind He. inv_some.
    match goal with
    | Hs : nth_error (einsum_ei_e_i _ _ _) e = Some ?s,
      Hv : nth_error (volumes g 0) e = Some ?v |- _ =>
        apply nth_error_In in Hs, Hv;
        rewrite Forall_forall in HS, Hvol;
        pose proof (HS _ Hs); pose proof (Hvol _ Hv)
    end.
    assert (0 < / Rsum (volumes g 0)) by (apply Rinv_0_lt_compat; exact Hpos).
    match goal with
    | |- 0 <= 0.5 * ?s + 0.5 * ?v / ?V * ?N =>
        assert (0 <= v * / V * N)
          by (apply Rmult_le_pos; [apply Rmult_le_pos; lra | exact Hnorm]);
        unfold Rdiv; lra
    end.
  - inv_some. cbn [result_global result_contributions]. split; [lra | constructor].
Qed.

Lemma functional_nonnegative_witness :
  exists r, quadratic_functional.apply reference_quadrature
              (quadratic_functional.Build_t one_triangle [0; 0; 0] [0]) [1; 2; 3] [1] true
            = Some r
            /\ 0 <= result_global r
            /\ (0 < Rsum (volumes one_triangle 0) ->
                Forall (fun A_e => 0 <= A_e) (result_contributions r)).
Proof.
  eexists. split; [reflexivity|].
  apply (functional_nonnegative reference_quadrature
           (quadratic_functional.Build_t one_triangle [0; 0; 0] [0]) [1; 2; 3] [1] true).
  - repeat constructor. simpl. lra.
  - repeat constructor; simpl; lra.
  - reflexivity.
Defined.

(* ------------------------------------------------------------------ *)
(** ** The Robin boundary operator with Robin data *)

Lemma zip3_same_In (RI : list nat) (vals : list R) (r c : nat) (v : R) :
  In (r, c, v) (zip3 RI RI vals) -> r = c /\ In (r, v) (combine RI vals).
Proof.
  revert vals. induction RI as [|d RI IH]; intros [|x vals] H; simpl in H; try contradiction.
  destruct H as [Heq | H].
  - inversion Heq; subst. split; [reflexivity | left; reflexivity].
  - destruct (IH _ H) as [-> Hin]. split; [reflexivity | right; exact Hin].
Qed.

Lemma entry_diag_data_on (RI : list nat) (vals : list R) (d : nat) (v : R) :
  NoDup RI -> In (d, v) (combine RI vals) ->
  Rsum (map (pick d d) (zip3 RI RI vals)) = v.
Proof.
  revert vals. induction RI as [|a RI IH]; intros [|x vals] Hnd Hin; simpl in Hin;
    try contradiction.
  inversion Hnd as [|? ? Ha Hnd']; subst. cbn [zip3 map]. rewrite Rsum_cons.
  destruct Hin as [Heq | Hin].
  - inversion Heq; subst. unfold pick at 1. rewrite Nat.eqb_refl. cbn [andb].
    rewrite entry_sum_zero; [ring|].
    intros w Hw. apply zip3_same_In in Hw. destruct Hw as [_ Hw].
    apply in_combine_l in Hw. contradiction.
  - assert (Hne : a <> d).
    { intros ->. apply Ha. eapply in_combine_l. exact Hin. }
    unfold pick at 1. destruct (Nat.eqb_spec a d) as [E|_]; [contradiction|]. cbn [andb].
    rewrite (IH vals Hnd' Hin). ring.
Qed.

Lemma robin_values_In (f : Function) (mu : Params) (cs : list point) (RI : list nat)
    (xs : list point) (vals : list R) (d : nat) (x : point) (v : R) :
  fancy cs RI = Some xs -> as_scalars (call f xs mu) = Some vals ->
  In d RI -> nth_error cs d = Some x -> evaluate f x mu = Scalar v ->
  In (d, v) (combine RI vals).
Proof.
  revert xs vals. induction RI as [|a RI IH]; intros xs vals Hx Hv Hin Hd Hev;
    [destruct Hin|].
  apply fancy_cons in Hx. destruct Hx as (b & xs' & Hb & Hxs & ->).
  apply as_scalars_call in Hv. destruct Hv as [Hdom Hv].
  inversion Hdom as [|? ? _ Hdom']; subst.
  cbn [map mapM] in Hv. inv_bind Hv. inv_bind Hv. inv_some.
  cbn [combine]. destruct Hin as [-> | Hin].
  - left. rewrite Hd in Hb. inversion Hb; subst b. rewrite Hev in E. inversion E. reflexivity.
  - right. eapply IH; eauto. apply as_scalars_call. split; assumption.
Qed.

(** X26: on a grid of dimension 1 with a Robin boundary, the assembled
    Robin matrix is diagonal: every off-diagonal entry and the diagonal
    entry of every vertex that is no Robin boundary are zero, and, when
    the Robin boundaries are listed without repetition, the diagonal
    entry of a Robin vertex is the Robin parameter function at the
    vertex. *)
Theorem robin_1d_diagonal (quadrature : Quadrature) (op : RobinBoundaryOperator.t)
    (mu : Params) (A : sparse) (bi : BoundaryInfo) (c c2 : Function) :
  let g := RobinBoundaryOperator.grid op in
  dim g = 1%nat ->
  RobinBoundaryOperator.boundary_info op = Some bi ->
  has_robin bi = true ->
  RobinBoundaryOperator.robin_data op = Some (c, c2) ->
  RobinBoundaryOperator._assemble quadrature op mu = Some A ->
  (forall i j, i <> j -> entry A i j = 0)
  /\ (forall d, ~ In d (robin_boundaries bi 1) -> entry A d d = 0)
  /\ (NoDup (robin_boundaries bi 1) ->
      forall d x v, In d (robin_boundaries bi 1) ->
        nth_error (centers g 1) d = Some x -> evaluate c x mu = Scalar v ->
        entry A d d = v).
Proof.
  intros g Hdim Hbi Hrobin Hrd H.
  unfold RobinBoundaryOperator._assemble in H. fold g in H.
  rewrite Hbi, Hrd, Hrobin in H.
  destruct (Nat.ltb_spec 2 (dim g)) as [Hgt | _]; [lia|].
  unfold RobinBoundaryOperator.assemble_robin in H.
  destruct (Nat.eqb_spec (dim g) 1) as [_ | Hne]; [|contradiction].
  inv_bind H. rename x into xs. inv_bind H. rename x into robin_c.
  inv_bind H. inv_some.
  match goal with
  | Hc : coo_matrix _ _ _ _ = Some _ |- _ => apply coo_matrix_Some in Hc; destruct Hc as (-> & _)
  end.
  split; [|split].
  - intros i j Hij. rewrite entry_eliminate_zeros. unfold entry. cbn [entries].
    apply entry_sum_zero. intros v Hv. apply zip3_same_In in Hv. destruct Hv as [-> _].
    contradiction.
  - intros d Hd. rewrite entry_eliminate_zeros. unfold entry. cbn [entries].
    apply entry_sum_zero. intros v Hv. apply zip3_same_In in Hv. destruct Hv as [_ Hv].
    apply in_combine_l in Hv. contradiction.
  - intros Hnd d x v Hd Hx Hev. rewrite entry_eliminate_zeros. unfold entry. cbn [entries].
    apply entry_diag_data_on; [exact Hnd|].
    eapply robin_values_In; eassumption.
Qed.

Lemma robin_1d_diagonal_witness :
  exists A, RobinBoundaryOperator._assemble reference_quadrature robin_interval [] = Some A
            /\ (forall i j, i <> j -> entry A i j = 0)
            /\ (forall d, ~ In d [1%nat] -> entry A d d = 0)
            /\ (NoDup [1%nat] ->
                forall d x v, In d [1%nat] ->
                  nth_error (centers one_interval 1) d = Some x ->
                  evaluate (constant_one 1) x [] = Scalar v ->
                  entry A d d = v).
Proof.
  eexists. split; [reflexivity|].
  apply (robin_1d_diagonal reference_quadrature robin_interval [] _ (robin_at 2 [1%nat])
           (constant_one 1) (constant_one 1)); reflexivity.
Defined.

Lemma flat_map_repeat_ravel {A} (M : list (list A)) (k : nat) :
  flat_map (fun x => repeat x k) (ravel M) = ravel (np_repeat_axis1 M k).
Proof.
  unfold ravel, np_repeat_axis1. induction M as [|row M IH]; [reflexivity|].
  cbn [concat map]. rewrite flat_map_app, IH. reflexivity.
Qed.

Lemma as_scalars_values_nonneg (f : Function) (pts : list point) (mu : Params) (C : list R) :
  (forall x, In x pts -> forall v, evaluate f x mu = Scalar v -> 0 <= v) ->
  as_scalars (call f pts mu) = Some C ->
  Forall (fun v => 0 <= v) C.
Proof.
  intros Hpos HC. apply Forall_forall. intros y Hy.
  apply as_scalars_call in HC. destruct HC as [_ HC].
  destruct (mapM_In _ _ _ _ HC Hy) as (a & Ha & Hy').
  apply in_map_iff in Ha. destruct Ha as (X & <- & HX).
  destruct (evaluate f X mu) as [v| |] eqn:Hev; try discriminate Hy'.
  inversion Hy'; subst. eapply Hpos; eassumption.
Qed.

(** X27: on a grid of dimension 2 whose edges have two vertices each,
    with an order-2 line rule of two points and two weights, the Robin
    matrix that the assembly returns is symmetric; it is positive
    semi-definite when the values of the Robin parameter
    function, the integration elements of the edges and the quadrature
    weights are non-negative. *)
Theorem robin_2d_symmetric_psd (quadrature : Quadrature) (op : RobinBoundaryOperator.t)
    (mu : Params) (A : sparse) (bi : BoundaryInfo) (c c2 : Function) :
  let g := RobinBoundaryOperator.grid op in
  dim g = 2%nat ->
  RobinBoundaryOperator.boundary_info op = Some bi ->
  has_robin bi = true ->
  RobinBoundaryOperator.robin_data op = Some (c, c2) ->
  Forall (fun s => length s = 2%nat) (subentities g 1 2) ->
  length (fst (quadrature line 2%nat)) = 2%nat ->
  length (snd (quadrature line 2%nat)) = 2%nat ->
  RobinBoundaryOperator._assemble quadrature op mu = Some A ->
  (forall i j, entry A i j = entry A j i)
  /\ ((forall x, In x (centers g 1) -> forall v, evaluate c x mu = Scalar v -> 0 <= v) ->
      Forall (fun v => 0 <= v) (integration_elements g 1) ->
      Forall (fun x => 0 <= x) (snd (quadrature line 2%nat)) ->
      forall x, 0 <= quad_form A x).
Proof.
  intros g Hdim Hbi Hrobin Hrd Hedges Hq _ H.
  unfold RobinBoundaryOperator._assemble in H. fold g in H.
  rewrite Hbi, Hrd, Hrobin in H.
  destruct (Nat.ltb_spec 2 (dim g)) as [Hgt | _]; [lia|].
  unfold RobinBoundaryOperator.assemble_robin in H.
  destruct (Nat.eqb_spec (dim g) 1) as [E1 | _]; [lia|].
  inv_bind H. rename x into xref.
  inv_bind H. rename x into robin_c.
  assert (Hc : as_scalars (call c xref mu) = Some robin_c).
  { destruct (shape_range c); [assumption|]. exfalso.
    repeat match goal with
           | Hx : bind _ _ = Some _ |- _ => inv_bind Hx
           end; discriminate. }
  revert Hq H. destruct (quadrature line 2%nat) as [q w]. cbn [fst snd]. intros Hq H.
  inv_bind H. rename x into ie. inv_bind H. rename x into sub. inv_bind H.
  injection H as HA.
  rewrite Hdim in *.
  rewrite flat_map_repeat_ravel in *.
  set (SF := [map (fun x => 1 - x) (map (fun X => X@0) q); map (fun X => X@0) q]) in *.
  assert (Hd2 : dim2 SF = 2%nat).
  { unfold dim2, SF. cbn [hd]. rewrite !length_map. exact Hq. }
  assert (Hsub : Forall (fun s => length s = 2%nat) sub).
  { apply Forall_forall. intros s Hs. rewrite Forall_forall in Hedges. apply Hedges.
    eapply fancy_In; eassumption. }
  assert (Hlen : length robin_c = length sub).
  { apply as_scalars_call in Hc. destruct Hc as [_ Hc]. apply mapM_length in Hc.
    rewrite length_map in Hc.
    repeat match goal with
           | Hf : fancy _ _ = Some _ |- _ => apply fancy_length in Hf
           end. congruence. }
  set (m := fun e i j => sum_n (length w) (fun p =>
              get1 robin_c e * get2 SF p i * get2 SF p j * get1 ie e * get1 w p)).
  assert (Hsys : assemble_system g
                   (ravel3 (tabulate (length sub) (fun e => tabulate 2 (fun i =>
                      tabulate 2 (fun j => m e i j)))),
                    ravel (np_repeat_axis1 sub 2), ravel (np_tile_axis1 sub 2)) = Some A).
  { unfold assemble_system. rewrite Hdim.
    match goal with
    | Hcoo : coo_matrix _ _ _ _ = Some ?I |- _ =>
        unfold einsum_e_pi_pj_e_p in Hcoo; rewrite Hd2, Hlen in Hcoo;
        unfold m; rewrite Hcoo
    end. cbn [bind]. rewrite HA. reflexivity. }
  assert (Hsym : forall e i j, m e i j = m e j i).
  { intros e i j. unfold m. apply sum_n_ext. intros p _. ring. }
  split.
  - intros i j. unfold assemble_system in Hsys. inv_bind Hsys. inv_some.
    match goal with
    | Hcoo : coo_matrix _ _ _ _ = Some _ |- _ =>
        apply coo_matrix_Some in Hcoo; destruct Hcoo as (-> & _)
    end.
    rewrite !entry_eliminate_zeros.
    rewrite zip3_scatter;
      [ | rewrite tabulate_length; reflexivity | exact Hsub | apply local_blocks_shape ].
    apply (entry_scatter_symmetric sub 2 m _ i j Hsub Hsym).
  - intros Hcpos Hiepos Hwpos.
    apply (local_psd_core g (no_boundary 0) false false sub 2 m
             (ravel3 (tabulate (length sub) (fun e => tabulate 2 (fun i =>
                tabulate 2 (fun j => m e i j)))),
              ravel (np_repeat_axis1 sub 2), ravel (np_tile_axis1 sub 2))
             A Hsub Hsym);
      [ | reflexivity | exact Hsys ].
    intros e y He.
    rewrite (sum_n_ext _ _ (fun i => sum_n 2 (fun j =>
               y i * y j * sum_n (length w) (fun p =>
                 get2 SF p i * get2 SF p j * (get1 robin_c e * get1 ie e * get1 w p))))).
    + apply (gram_sum_nonneg 2 (length w) y (fun i p => get2 SF p i)
               (fun p => get1 robin_c e * get1 ie e * get1 w p)).
      intros k _. apply Rmult_le_pos; [apply Rmult_le_pos|]; apply get1_nonneg.
      * apply (as_scalars_values_nonneg c xref mu robin_c); [|exact Hc].
        intros X HX. apply Hcpos. eapply fancy_In; eassumption.
      * apply Forall_forall. intros v Hv. rewrite Forall_forall in Hiepos. apply Hiepos.
        eapply fancy_In; eassumption.
      * exact Hwpos.
    + intros i _. apply sum_n_ext. intros j _. f_equal. unfold m.
      apply sum_n_ext. intros p _. ring.
Qed.

Lemma robin_2d_symmetric_psd_witness :
  exists A, RobinBoundaryOperator._assemble reference_quadrature robin_triangle [] = Some A
            /\ (forall i j, entry A i j = entry A j i)
            /\ (forall x, 0 <= quad_form A x).
Proof.
  eexists. split; [reflexivity|].
  destruct (robin_2d_symmetric_psd reference_quadrature robin_triangle [] _
              (robin_at 3 [0%nat; 2%nat]) (constant_one 2) (constant_one 2)
              eq_refl eq_refl eq_refl eq_refl
              ltac:(repeat constructor) eq_refl eq_refl eq_refl) as [Hs Hp].
  split; [exact Hs|]. apply Hp.
  - intros x _ v Hv. inversion Hv. lra.
  - repeat apply Forall_cons; try apply Forall_nil; try lra. apply sqrt_pos.
  - repeat constructor; simpl; lra.
Defined.

(** X28: on a grid of dimension 2 with a Robin boundary, the assembly
    fails for every Robin parameter function that is not scalar-valued:
    the contraction of the normals with its values never yields the
    per-edge coefficients that the integration expects. *)
Theorem robin_vector_data_fails (quadrature : Quadrature) (op : RobinBoundaryOperator.t)
    (mu : Params) (bi : BoundaryInfo) (c c2 : Function) :
  let g := RobinBoundaryOperator.grid op in
  dim g = 2%nat ->
  RobinBoundaryOperator.boundary_info op = Some bi ->
  has_robin bi = true ->
  RobinBoundaryOperator.robin_data op = Some (c, c2) ->
  shape_range c <> [] ->
  RobinBoundaryOperator._assemble quadrature op mu = None.
Proof.
  intros g Hdim Hbi Hrobin Hrd Hs.
  unfold RobinBoundaryOperator._assemble. fold g.
  rewrite Hbi, Hrd, Hrobin.
  destruct (Nat.ltb_spec 2 (dim g)) as [Hgt | _]; [lia|].
  unfold RobinBoundaryOperator.assemble_robin.
  destruct (Nat.eqb_spec (dim g) 1) as [E1 | _]; [lia|].
  destruct (shape_range c) as [|n l]; [contradiction|].
  destruct (fancy (centers g 1) (robin_boundaries bi 1)) as [xref|]; cbn [bind];
    [|reflexivity].
  match goal with
  | |- bind ?m _ = None => assert (Hm : m = None); [|rewrite Hm; reflexivity]
  end.
  repeat match goal with
         | |- bind ?m _ = None => destruct m; cbn [bind]; try reflexivity
         end.
Qed.

Lemma robin_vector_data_fails_witness :
  RobinBoundaryOperator.__init__ one_triangle (Some (robin_at 3 [0%nat; 2%nat]))
    (Some (ConstantFunction_ones 2, constant_one 2)) = Some robin_triangle_vector
  /\ RobinBoundaryOperator._assemble reference_quadrature robin_triangle_vector [] = None.
Proof.
  split; [reflexivity|].
  apply (robin_vector_data_fails reference_quadrature robin_triangle_vector []
           (robin_at 3 [0%nat; 2%nat]) (ConstantFunction_ones 2) (constant_one 2));
    try reflexivity.
  discriminate.
Defined.

(* ------------------------------------------------------------------ *)
(** ** Column sums of the advection matrix *)

Lemma col_sum_entries (A : sparse) (c : nat) :
  Forall (fun t => (fst (fst t) < fst (shape A))%nat) (entries A) ->
  col_sum A c
  = Rsum (map (fun t => (if (snd (fst t) =? c)%nat then 1 else 0) * snd t) (entries A)).
Proof.
  intros Hr. unfold col_sum, entry, sum_n, tabulate.
  rewrite Rsum_exchange. apply Rsum_map_ext. intros [[i j] v] Hin.
  rewrite Forall_forall in Hr. specialize (Hr _ Hin). cbn [fst snd] in *.
  unfold pick. destruct (Nat.eqb_spec j c) as [->|Hne].
  - rewrite (Rsum_map_ext _ (fun k => if (k =? i)%nat then v else 0)).
    + transitivity v; [|ring].
      apply (sum_n_single (fst (shape A)) i (fun _ => v)). exact Hr.
    + intros k _. rewrite andb_true_r, Nat.eqb_sym. reflexivity.
  - rewrite Rsum_map_zero; [ring|].
    intros k _. rewrite andb_false_r. reflexivity.
Qed.

(** Local blocks whose columns sum to zero, scattered through [S]
    without Dirichlet treatment, give a matrix whose columns sum to
    zero. *)
Lemma column_sums_core (g : Grid) (bi : BoundaryInfo) (rows cols diag : bool)
    (S : list (list nat)) (n : nat) (m : nat -> nat -> nat -> R)
    (SF : list R * list nat * list nat) (A : sparse) (j : nat) :
  Forall (fun s => length s = n) S ->
  has_dirichlet bi = false ->
  (forall e q, (e < length S)%nat -> (q < n)%nat -> sum_n n (fun p => m e p q) = 0) ->
  boundary_treatment g bi rows cols diag
    (ravel3 (tabulate (length S) (fun e => tabulate n (fun p => tabulate n (fun q => m e p q)))))
    (ravel (np_repeat_axis1 S n)) (ravel (np_tile_axis1 S n)) = Some SF ->
  assemble_system g SF = Some A ->
  col_sum A j = 0.
Proof.
  intros HS Hd Hcol Hbt Hasm.
  unfold boundary_treatment in Hbt. rewrite Hd in Hbt. inversion Hbt; subst SF; clear Hbt.
  unfold assemble_system in Hasm. inv_bind Hasm. injection Hasm as <-.
  apply coo_matrix_Some in E. destruct E as (-> & _ & _ & Hb0 & Hb1).
  assert (Hes : col_sum (eliminate_zeros
                  {| shape := (size g (dim g), size g (dim g));
                     entries := zip3 (ravel (np_repeat_axis1 S n)) (ravel (np_tile_axis1 S n))
                                  (ravel3 (tabulate (length S) (fun e => tabulate n (fun p =>
                                             tabulate n (fun q => m e p q))))) |}) j
                = col_sum {| shape := (size g (dim g), size g (dim g));
                     entries := zip3 (ravel (np_repeat_axis1 S n)) (ravel (np_tile_axis1 S n))
                                  (ravel3 (tabulate (length S) (fun e => tabulate n (fun p =>
                                             tabulate n (fun q => m e p q))))) |} j).
  { unfold col_sum. cbn [eliminate_zeros shape]. apply sum_n_ext. intros i _.
    apply entry_eliminate_zeros. }
  rewrite Hes. rewrite col_sum_entries.
  2:{ cbn [shape entries fst snd] in *.
      eapply Forall_impl; [|exact (zip3_bounds _ _ _ _ _ Hb0 Hb1)].
      intros t [Ht _]. exact Ht. }
  cbn [entries].
  rewrite zip3_scatter;
    [ | rewrite tabulate_length; reflexivity | exact HS | apply local_blocks_shape ].
  etransitivity;
    [apply (Rsum_scatter_tabulate (fun _ c => if (c =? j)%nat then 1 else 0) S n m HS)|].
  apply sum_n_zero. intros e He. rewrite sum_n_exchange. apply sum_n_zero. intros q Hq.
  rewrite sum_n_scal. rewrite (Hcol e q He Hq). ring.
Qed.

(** [SF_INTS = - einsum(...)] followed by [SF_INTS *= c], on local
    blocks of the shape the grid prescribes. *)
Lemma negated_scaled_blocks (dc : option R) (ne d2 d3 nS n : nat)
    (body : nat -> nat -> nat -> R) :
  ne = nS -> ((0 < nS)%nat -> d2 = n) -> d3 = n ->
  exists c0,
    scale_by dc (map Ropp (ravel3 (tabulate ne (fun e => tabulate d2 (fun a =>
                             tabulate d3 (fun b => body e a b))))))
    = ravel3 (tabulate nS (fun e => tabulate n (fun a =>
                tabulate n (fun b => - body e a b * c0)))).
Proof.
  intros -> H2 ->. rewrite map_ravel3_tabulate.
  destruct (Nat.eq_dec nS 0) as [-> | Hne].
  - exists 1. destruct dc; reflexivity.
  - rewrite H2 by lia.
    destruct (scale_by_blocks dc nS n (fun e a b => - body e a b)) as (c0 & _ & Hsc).
    exists c0. exact Hsc.
Qed.

Lemma AdvectionOperatorP1_col_sum (quadrature : Quadrature) (op : AdvectionOperatorP1.t)
    (mu : Params) (A : sparse) (bi : BoundaryInfo) (j : nat) :
  grid_ok (AdvectionOperatorP1.grid op) = true ->
  AdvectionOperatorP1._assemble quadrature op mu = Some A ->
  AdvectionOperatorP1.boundary_info op = Some bi ->
  has_dirichlet bi = false ->
  col_sum A j = 0.
Proof.
  intros Hok H Hbi Hd. unfold AdvectionOperatorP1._assemble in H.
  destruct (quadrature _ _) as [qp w].
  inv_bind H. rename x into G. inv_bind H. rename x into D.
  inv_bind H. rewrite Hbi in E1. inv_some. inv_bind H. rename x into bi, x0 into SFr.
  set (g := AdvectionOperatorP1.grid op) in *.
  destruct (grid_ok_spec g Hok) as (Hdim & HS & _ & _ & HJ & _ & Hrows & _).
  destruct (grad_array_sum_zero _ _ E) as (HG & HGl & HGpos).
  assert (Hn : (dim g + 1)%nat = length G).
  { rewrite HGl, Hdim. destruct (reference_element g); try reflexivity; discriminate E. }
  rewrite Hn in E1. rewrite <- HGl in Hrows.
  set (GR := einsum_eij_pj (jacobian_inverse_transposed g 0) G) in *.
  set (SFQ := shape_values (reference_element g) qp) in *.
  destruct (einsum_eij_pj_shape (jacobian_inverse_transposed g 0) G) as (H1 & H2 & H3).
  fold GR in H1, H2, H3.
  destruct (negated_scaled_blocks (AdvectionOperatorP1.advection_constant op)
              (length GR) (dim2 GR) (length SFQ) (length (subentities g 0 (dim g))) (length G)
              (fun e a b => sum_n (length w) (fun c => sum_n (dim3 GR) (fun i =>
                 get2 SFQ b c * get3 GR e a i * get1 w c
                 * get1 (integration_elements g 0) e * get2 D e i))))
    as (c0 & Hsc).
  { rewrite H1. lia. }
  { intros Hpos. apply H2. lia. }
  { unfold SFQ. rewrite shape_values_length. symmetry. exact HGl. }
  cbv beta in Hsc. unfold einsum_pc_eqi_c_e_ei in E1. rewrite Hsc in E1.
  apply (column_sums_core g bi true (AdvectionOperatorP1.dirichlet_clear_columns op)
           (AdvectionOperatorP1.dirichlet_clear_diag op) (subentities g 0 (dim g)) (length G)
           (fun e a b => - sum_n (length w) (fun c => sum_n (dim3 GR) (fun i =>
              get2 SFQ b c * get3 GR e a i * get1 w c
              * get1 (integration_elements g 0) e * get2 D e i)) * c0)
           SFr A j Hrows Hd); [ | exact E1 | exact H].
  intros e b He Hb. rewrite sum_n_scal_r.
  rewrite (sum_n_ext _ _ (fun a => (-1) * sum_n (length w) (fun c => sum_n (dim3 GR) (fun i =>
             get2 SFQ b c * get3 GR e a i * get1 w c
             * get1 (integration_elements g 0) e * get2 D e i))))
    by (intros; ring).
  rewrite sum_n_scal, sum_n_exchange.
  rewrite (sum_n_zero (length w)); [ring|]. intros c _.
  rewrite sum_n_exchange. apply sum_n_zero. intros i Hi.
  rewrite (sum_n_ext _ _ (fun a => (get2 SFQ b c * get1 w c
                                    * get1 (integration_elements g 0) e * get2 D e i)
                                   * get3 GR e a i))
    by (intros; ring).
  rewrite sum_n_scal. unfold GR. rewrite transformed_grads_P1; [ring | exact HG | lia | ].
  fold GR. rewrite H3 in Hi by lia. exact Hi.
Qed.

Lemma AdvectionOperatorQ1_col_sum (quadrature : Quadrature) (op : AdvectionOperatorQ1.t)
    (mu : Params) (A : sparse) (bi : BoundaryInfo) (j : nat) :
  grid_ok (AdvectionOperatorQ1.grid op) = true ->
  AdvectionOperatorQ1._assemble quadrature op mu = Some A ->
  AdvectionOperatorQ1.boundary_info op = Some bi ->
  has_dirichlet bi = false ->
  col_sum A j = 0.
Proof.
  intros Hok H Hbi Hd. unfold AdvectionOperatorQ1._assemble in H.
  destruct (quadrature _ _) as [qp w].
  inv_bind H. rename x into G. inv_bind H. rename x into f. inv_bind H. rename x into D.
  inv_bind H. rewrite Hbi in E2. inv_some. inv_bind H. rename x into bi, x0 into SFr.
  set (g := AdvectionOperatorQ1.grid op) in *.
  destruct (grid_ok_spec g Hok) as (Hdim & HS & _ & _ & HJ & _ & Hrows & _).
  destruct (grad_call_sum_zero _ _ _ E) as (Hre & HGl & _ & HG).
  rewrite Hre in Hrows. change (n_local square) with 4%nat in Hrows.
  set (GR := einsum_eij_pjc (jacobian_inverse_transposed g 0) G) in *.
  set (SFQ := shape_values (reference_element g) qp) in *.
  destruct (einsum_eij_pjc_shape (jacobian_inverse_transposed g 0) G) as (H1 & H2 & H3).
  fold GR in H1, H2, H3.
  destruct (negated_scaled_blocks (AdvectionOperatorQ1.advection_constant op)
              (length GR) (dim2 GR) (length SFQ) (length (subentities g 0 (dim g))) 4
              (fun e a b => sum_n (length w) (fun c => sum_n (dim3 GR) (fun i =>
                 get2 SFQ b c * get4 GR e a i c * get1 w c
                 * get1 (integration_elements g 0) e * get2 D e i))))
    as (c0 & Hsc).
  { rewrite H1. lia. }
  { intros Hpos. rewrite H2 by lia. exact HGl. }
  { unfold SFQ. rewrite shape_values_length, Hre. reflexivity. }
  cbv beta in Hsc. unfold einsum_pc_eqic_c_e_ei in E2. rewrite Hsc in E2.
  apply (column_sums_core g bi true (AdvectionOperatorQ1.dirichlet_clear_columns op)
           (AdvectionOperatorQ1.dirichlet_clear_diag op) (subentities g 0 (dim g)) 4
           (fun e a b => - sum_n (length w) (fun c => sum_n (dim3 GR) (fun i =>
              get2 SFQ b c * get4 GR e a i c * get1 w c
              * get1 (integration_elements g 0) e * get2 D e i)) * c0)
           SFr A j Hrows Hd); [ | exact E2 | exact H].
  intros e b He Hb. rewrite sum_n_scal_r.
  rewrite (sum_n_ext _ _ (fun a => (-1) * sum_n (length w) (fun c => sum_n (dim3 GR) (fun i =>
             get2 SFQ b c * get4 GR e a i c * get1 w c
             * get1 (integration_elements g 0) e * get2 D e i))))
    by (intros; ring).
  rewrite sum_n_scal, sum_n_exchange.
  rewrite (sum_n_zero (length w)); [ring|]. intros c _.
  rewrite sum_n_exchange. apply sum_n_zero. intros i Hi.
  rewrite (sum_n_ext _ _ (fun a => (get2 SFQ b c * get1 w c
                                    * get1 (integration_elements g 0) e * get2 D e i)
                                   * get4 GR e a i c))
    by (intros; ring).
  rewrite sum_n_scal. unfold GR. rewrite <- HGl.
  rewrite transformed_grads_Q1; [ring | exact HG | lia | ].
  fold GR. rewrite H3 in Hi by lia. exact Hi.
Qed.

(** X29: on a well-formed grid, for a boundary info without Dirichlet
    DOFs, every column of the matrix of the advection operators sums to
    zero: tested with the constant function, the advection form
    vanishes. *)
Theorem advection_column_sums_zero (quadrature : Quadrature) (op : BilinearOperator)
    (mu : Params) (A : sparse) (bi : BoundaryInfo) (j : nat) :
  grid_ok (op_grid op) = true ->
  advection_operator op ->
  assemble quadrature op mu = Some A ->
  op_boundary_info op = Some bi ->
  has_dirichlet bi = false ->
  col_sum A j = 0.
Proof.
  destruct op as [o|o|o|o|o|o]; cbn [advection_operator]; try (intros; contradiction);
    cbn [op_grid op_boundary_info assemble]; intros Hok _ H Hbi Hd.
  - eapply AdvectionOperatorP1_col_sum; eassumption.
  - eapply AdvectionOperatorQ1_col_sum; eassumption.
Qed.

Lemma advection_column_sums_zero_witness :
  exists A, assemble reference_quadrature (OpAdvectionP1 advection_example) [] = Some A
            /\ col_sum A 1 = 0.
Proof.
  eexists. split; [reflexivity|].
  apply (advection_column_sums_zero reference_quadrature (OpAdvectionP1 advection_example) []
           _ (no_boundary 3) 1%nat);
    [reflexivity | exact I | reflexivity | reflexivity | reflexivity].
Defined.

(* ------------------------------------------------------------------ *)
(** ** The entries of the mass matrix add up to the volume *)

Lemma mass_total_core (g : Grid) (bi : BoundaryInfo) (diag : bool)
    (S : list (list nat)) (n nw : nat) (BF : nat -> nat -> R) (w kappa : nat -> R)
    (h : nat -> nat -> nat -> nat -> R)
    (SF : list R * list nat * list nat) (A : sparse) :
  Forall (fun s => length s = n) S ->
  has_dirichlet bi = false ->
  (forall k, (k < nw)%nat -> sum_n n (fun p => BF p k) = 1) ->
  (forall e p q k, h e p q k = BF p k * BF q k * w k * kappa e) ->
  boundary_treatment g bi false false diag
    (ravel3 (tabulate (length S) (fun e => tabulate n (fun p => tabulate n (fun q =>
               sum_n nw (fun k => h e p q k))))))
    (ravel (np_repeat_axis1 S n)) (ravel (np_tile_axis1 S n)) = Some SF ->
  assemble_system g SF = Some A ->
  matrix_total A = sum_n (length S) kappa * sum_n nw w.
Proof.
  intros HS Hd Hone Hh Hbt Hasm.
  destruct (symmetric_treatment_sum _ _ _ _ _ _ _ _ _ (fun _ _ => 1) Hbt Hasm)
    as (Hsum & Hshape & Hbounds).
  unfold matrix_total.
  rewrite (sum_n_ext _ _ (fun i => sum_n (snd (shape A)) (fun j => 1 * entry A i j)))
    by (intros i _; apply sum_n_ext; intros j _; ring).
  rewrite (bilinear_sum_entries A (fun _ _ => 1)) by (rewrite Hshape; exact Hbounds).
  rewrite Hsum. unfold unit_dofs. rewrite Hd. cbn [andb map Rsum fold_right].
  rewrite Rplus_0_r. rewrite zip3_scatter;
    [ | rewrite tabulate_length; reflexivity | exact HS | apply local_blocks_shape ].
  etransitivity;
    [apply (Rsum_scatter_tabulate
              (fun r c => 1 * (keep false (dirichlet_mask bi (dim g)) r
                               * keep false (dirichlet_mask bi (dim g)) c)) S n
              (fun e p q => sum_n nw (fun k => h e p q k)) HS)|].
  rewrite <- sum_n_scal_r. apply sum_n_ext. intros e _.
  rewrite (sum_n_ext _ _ (fun p => sum_n nw (fun k => sum_n n (fun q =>
             (BF p k * w k * kappa e) * BF q k)))).
  2:{ intros p _.
      rewrite (sum_n_ext _ _ (fun q => sum_n nw (fun k => (BF p k * w k * kappa e) * BF q k))).
      - apply sum_n_exchange.
      - intros q _. unfold keep. cbn [andb]. rewrite !Rmult_1_l.
        apply sum_n_ext. intros k _. rewrite Hh. ring. }
  rewrite sum_n_exchange.
  rewrite (sum_n_ext _ _ (fun k => kappa e * w k)).
  - apply sum_n_scal.
  - intros k Hk.
    rewrite (sum_n_ext _ _ (fun p => BF p k * (w k * kappa e)))
      by (intros p _; rewrite sum_n_scal, (Hone k Hk); ring).
    rewrite sum_n_scal_r, (Hone k Hk). ring.
Qed.

Lemma get1_repeat_1 (n e : nat) : (e < n)%nat -> get1 (repeat 1 n) e = 1.
Proof. intros He. unfold get1. apply nth_repeat_lt. exact He. Qed.

(** The common body of [L2ProductP1._assemble] and [L2ProductQ1._assemble]. *)
Lemma mass_body_total (g : Grid) (obi : option BoundaryInfo) (rows cols diag : bool)
    (cf : option Function) (mu : Params) (qw : list point * list R)
    (A : sparse) (bi : BoundaryInfo) :
  grid_ok g = true ->
  length (fst qw) = length (snd qw) ->
  obi = Some bi ->
  has_dirichlet bi = false ->
  (let '(q, w) := qw in
   let SF := shape_values (reference_element g) q in
   SF_INTS <- match cf with
              | Some c =>
                  C <- as_scalars (call c (centers g 0) mu) ;;
                  Some (ravel3 (einsum_iq_jq_q_e_e SF SF w (integration_elements g 0) C))
              | None =>
                  Some (ravel3 (einsum_iq_jq_q_e SF SF w (integration_elements g 0)))
              end ;;
   let SF_I0 := ravel (np_repeat_axis1 (subentities g 0 (dim g))
                         (n_local (reference_element g))) in
   let SF_I1 := ravel (np_tile_axis1 (subentities g 0 (dim g))
                         (n_local (reference_element g))) in
   bi <- obi ;;
   SF <- boundary_treatment g bi rows cols diag SF_INTS SF_I0 SF_I1 ;;
   assemble_system g SF) = Some A ->
  exists C,
    element_coefficients g cf mu = Some C
    /\ matrix_total A
       = sum_n (size g 0) (fun e => get1 (integration_elements g 0) e * get1 C e)
         * Rsum (snd qw).
Proof.
  intros Hok Hqw Hbi Hd H.
  destruct qw as [q w]. cbn [fst snd] in *.
  set (n := n_local (reference_element g)) in *.
  inv_bind H. rename x into SF_INTS, E into ESF.
  inv_bind H. rewrite Hbi in E. inversion E; subst x; clear E.
  inv_bind H. rename x into SFr, E into Hbt0.
  destruct (grid_ok_spec g Hok) as (Hdim & HS & _ & Hiel & _ & Hcl & Hrows & _).
  set (S := subentities g 0 (dim g)) in *.
  set (SF := shape_values (reference_element g) q) in *.
  assert (HSFl : length SF = n).
  { unfold SF, shape_values. rewrite length_map. reflexivity. }
  assert (Hiel' : length (integration_elements g 0) = length S) by lia.
  assert (Hbt : boundary_treatment g bi false false diag SF_INTS
                  (ravel (np_repeat_axis1 S n)) (ravel (np_tile_axis1 S n)) = Some SFr).
  { unfold boundary_treatment in *. rewrite Hd in *. exact Hbt0. }
  assert (Hone : forall k, (k < length w)%nat -> sum_n n (fun p => get2 SF p k) = 1).
  { intros k Hk. rewrite <- HSFl. unfold SF. apply shape_values_column_sum. lia. }
  assert (Hgen : forall kappa h,
            (forall e p q0 k, h e p q0 k
               = get2 SF p k * get2 SF q0 k * get1 w k * kappa e) ->
            SF_INTS = ravel3 (tabulate (length S) (fun e => tabulate n (fun p =>
                        tabulate n (fun q0 => sum_n (length w) (fun k => h e p q0 k))))) ->
            matrix_total A = sum_n (size g 0) kappa * Rsum w).
  { intros kappa h Hh HSF. rewrite HSF in Hbt.
    rewrite (mass_total_core g bi diag S n (length w) (get2 SF) (get1 w) kappa h SFr A
               Hrows Hd Hone Hh Hbt H).
    rewrite sum_n_get1, HS. reflexivity. }
  destruct cf as [c|]; cbn [element_coefficients].
  - inv_bind ESF. inv_some. rename x into C, E into EC.
    exists C. split; [exact EC|].
    apply (Hgen (fun e => get1 (integration_elements g 0) e * get1 C e)
                (fun e p q0 k => get2 SF p k * get2 SF q0 k * get1 w k
                                 * get1 (integration_elements g 0) e * get1 C e)).
    + intros; ring.
    + unfold einsum_iq_jq_q_e_e. rewrite Hiel', HSFl. reflexivity.
  - inv_some. exists (repeat 1 (size g 0)). split; [reflexivity|].
    rewrite (sum_n_ext _ _ (fun e => get1 (integration_elements g 0) e))
      by (intros e He; rewrite get1_repeat_1 by exact He; ring).
    apply (Hgen (fun e => get1 (integration_elements g 0) e)
                (fun e p q0 k => get2 SF p k * get2 SF q0 k * get1 w k
                                 * get1 (integration_elements g 0) e)).
    + intros; ring.
    + unfold einsum_iq_jq_q_e. rewrite Hiel', HSFl. reflexivity.
Qed.

(** X30: on a well-formed grid, for a boundary info without Dirichlet
    DOFs and a quadrature rule with one weight per point, the entries of
    the mass matrix add up to the sum over the elements of the
    integration element times the coefficient at the center, times the
    sum of the weights: the shape functions sum to 1 at every quadrature
    point. *)
Theorem mass_matrix_total (quadrature : Quadrature) (op : BilinearOperator) (mu : Params)
    (A : sparse) (bi : BoundaryInfo) :
  let g := op_grid op in
  grid_ok g = true ->
  l2_product_operator op ->
  length (fst (quadrature (reference_element g) 2%nat))
  = length (snd (quadrature (reference_element g) 2%nat)) ->
  assemble quadrature op mu = Some A ->
  op_boundary_info op = Some bi ->
  has_dirichlet bi = false ->
  exists C,
    element_coefficients g (op_coefficient_function op) mu = Some C
    /\ matrix_total A
       = sum_n (size g 0) (fun e => get1 (integration_elements g 0) e * get1 C e)
         * Rsum (snd (quadrature (reference_element g) 2%nat)).
Proof.
  destruct op as [o|o|o|o|o|o]; cbn [l2_product_operator]; try (intros; contradiction);
    cbn [op_grid op_boundary_info assemble op_coefficient_function];
    intros Hok Hre Hqw H Hbi Hd.
  - set (g := L2ProductP1.grid o) in *.
    assert (Hn : (dim g + 1)%nat = n_local (reference_element g)).
    { destruct (grid_ok_spec g Hok) as (-> & _).
      destruct (reference_element g); try reflexivity; discriminate Hre. }
    unfold L2ProductP1._assemble in H. fold g in H. rewrite Hn in H.
    apply (mass_body_total g (L2ProductP1.boundary_info o) (L2ProductP1.dirichlet_clear_rows o)
             (L2ProductP1.dirichlet_clear_columns o) (L2ProductP1.dirichlet_clear_diag o)
             (L2ProductP1.coefficient_function o) mu
             (quadrature (reference_element g) 2%nat) A bi); assumption.
  - set (g := L2ProductQ1.grid o) in *.
    assert (Hsq : reference_element g = square).
    { destruct (reference_element g); try reflexivity; discriminate Hre. }
    unfold L2ProductQ1._assemble in H. fold g in H.
    change 4%nat with (n_local square) in H. rewrite <- Hsq in H.
    apply (mass_body_total g (L2ProductQ1.boundary_info o) (L2ProductQ1.dirichlet_clear_rows o)
             (L2ProductQ1.dirichlet_clear_columns o) (L2ProductQ1.dirichlet_clear_diag o)
             (L2ProductQ1.coefficient_function o) mu
             (quadrature (reference_element g) 2%nat) A bi); assumption.
Qed.

Lemma mass_matrix_total_witness :
  exists A C, assemble reference_quadrature (OpL2ProductP1 mass_plain) [] = Some A
    /\ element_coefficients one_triangle None [] = Some C
    /\ matrix_total A
       = sum_n 1 (fun e => get1 (integration_elements one_triangle 0) e * get1 C e)
         * Rsum (snd (reference_quadrature triangle 2%nat)).
Proof.
  eexists.
  destruct (mass_matrix_total reference_quadrature (OpL2ProductP1 mass_plain) []
              _ (no_boundary 3) eq_refl eq_refl eq_refl eq_refl eq_refl eq_refl)
    as (C & HC & Htot).
  exists C. split; [reflexivity|]. split; [exact HC | exact Htot].
Defined.

(* ------------------------------------------------------------------ *)
(** ** The element operator when every weight is zero *)

(** C1 (the code departs from it): for weights that are zero on every
    element the claim promises zero contributions.  On the one-triangle
    grid with the Dirichlet vertex 0 and [rho = [0]] the operator is
    constructed and the full operator returns its vector and its element
    contribution, but [element_NonlinearReactionOperator.apply] raises:
    its loops are not entered, the accumulator is still the empty
    [coo_matrix], and [A_e[DI] = 0] is no operation of a sparse matrix.
    The [jacobian] of the same class does return the zero matrix. *)
Theorem element_operator_zero_rho_divergence :
  element_NonlinearReactionOperator.__init__ one_triangle (Some dirichlet_at_0)
    (constant_one 2) identity_reaction (constant_one 1) [0]
  = Some (element_NonlinearReactionOperator.Build_t one_triangle (Some dirichlet_at_0)
            (constant_one 2) identity_reaction (constant_one 1) [0])
  /\ (exists A A_e_list,
        NonlinearReactionOperator.apply reference_quadrature
          (reaction_on one_triangle dirichlet_at_0) [1; 2; 3] [] true
        = Some (WithContributions A A_e_list))
  /\ element_NonlinearReactionOperator.apply reference_quadrature
       (element_NonlinearReactionOperator.Build_t one_triangle (Some dirichlet_at_0)
          (constant_one 2) identity_reaction (constant_one 1) [0]) [1; 2; 3] []
     = None
  /\ (exists J,
        element_NonlinearReactionOperator.jacobian reference_quadrature
          (element_NonlinearReactionOperator.Build_t one_triangle (Some dirichlet_at_0)
             (constant_one 2) identity_reaction (constant_one 1) [0]) [1; 2; 3] []
        = Some J
        /\ shape J = (3%nat, 3%nat)
        /\ forall i j, entry J i j = 0).
Proof.
  split; [reflexivity|]. split; [do 2 eexists; reflexivity|]. split.
  - unfold element_NonlinearReactionOperator.apply.
    cbn [element_NonlinearReactionOperator.rho].
    change (NonZeroIndices [0]) with (NonZeroIndices (repeat 0 1)).
    rewrite NonZeroIndices_zeros. reflexivity.
  - unfold element_NonlinearReactionOperator.jacobian.
    cbn [element_NonlinearReactionOperator.rho].
    change (NonZeroIndices [0]) with (NonZeroIndices (repeat 0 1)).
    rewrite NonZeroIndices_zeros.
    eexists. split; [reflexivity|]. split; [reflexivity|]. intros i j. reflexivity.
Qed.
